(** * TSTL associative containers: hash buckets, search trees and their façades

    A shallow embedding of the container engine: the hash bucket table
    ([HashBuckets]), the search-tree index ([XTree], [MultiMapTree]) and the
    set façades ([HashSet], [TreeSet], [TreeMultiSet]) that keep an index and
    a linked element store consistent.

    Conventions.
    - JavaScript numbers that hold integers are modelled as [Z]; the load
      factor, the only fractional quantity, is an exact rational [Q], and
      the product and the quotient taken with it are exact, where the
      code rounds them to binary64 before [Math.floor].
    - [Math.log2] is exact on the integers it is applied to.
    - A thrown [TypeError] (member access on [undefined]) is an explicit
      outcome; the object keeps the state it had when the error was thrown. *)

From Stdlib Require Import ZArith QArith Qround Lia Lqa Bool Sorted.
From stdpp Require Import base option list gmap.

Open Scope Z_scope.

(** ** JavaScript integer operators *)

Module JS.

(** [ToInt32]: reduction modulo 2^32 into the signed 32-bit range. *)
Definition ToInt32 (x : Z) : Z :=
  let m := x mod 2 ^ 32 in
  if m <? 2 ^ 31 then m else m - 2 ^ 32.

(** [a & b]: both operands go through [ToInt32]. *)
Definition bitand (a b : Z) : Z := Z.land (ToInt32 a) (ToInt32 b).

(** [a % b] on integers: the remainder takes the sign of the dividend. *)
Definition rem (a b : Z) : Z := Z.rem a b.

End JS.

(** ** Outcomes of a call: normal return or thrown [TypeError] *)

Inductive outcome (A : Type) : Type :=
| Ok (a : A)
| TypeError.
Arguments Ok {A} a.
Arguments TypeError {A}.


(** ** HashBuckets (hash bucket index) *)

Module HashBuckets.

Definition MIN_BUCKET_COUNT : Z := 8.
Definition DEFAULT_MAX_FACTOR : Q := 1%Q.

Section Buckets.

Context {Key Elem : Type} `{EqDecision Elem}.

(** The three read-only collaborators fixed at construction. Reference
    identity [===] on elements is the decidable equality of [Elem]. *)
Variable fetcher_ : Elem -> Key.
Variable hasher_ : Key -> Z.
Variable predicator_ : Key -> Key -> bool.

Record t : Type := mk {
  max_load_factor_ : Q;
  data_ : list (list Elem);
  size_ : Z
}.

Definition set_data (b : t) (d : list (list Elem)) : t :=
  mk (max_load_factor_ b) d (size_ b).
Definition set_size (b : t) (n : Z) : t :=
  mk (max_load_factor_ b) (data_ b) n.
Definition set_max_load_factor (b : t) (z : Q) : t :=
  mk z (data_ b) (size_ b).

(** A method is a state transformer that may throw. *)
Definition M (A : Type) : Type := t -> outcome A * t.

Definition ret {A} (a : A) : M A := fun b => (Ok a, b).
Definition throw {A} : M A := fun b => (TypeError, b).
Definition bind {A B} (m : M A) (k : A -> M B) : M B :=
  fun b => match m b with
           | (Ok a, b') => k a b'
           | (TypeError, b') => (TypeError, b')
           end.
Definition get : M t := fun b => (Ok b, b).
Definition put (b' : t) : M unit := fun _ => (Ok tt, b').
Definition lift {A} (o : outcome A) : M A := fun b => (o, b).

Notation "x <- c ;; k" := (bind c (fun x => k))
  (at level 90, c at level 89, right associativity).
Notation "c ;;; k" := (bind c (fun _ => k))
  (at level 90, right associativity).

(** *** Constructors *)

(** [initialize]: push [MIN_BUCKET_COUNT] empty rows. *)
Definition initialize (d : list (list Elem)) : list (list Elem) :=
  d ++ replicate (Z.to_nat MIN_BUCKET_COUNT) [].

Definition constructor : t :=
  mk DEFAULT_MAX_FACTOR (initialize []) 0.

Definition clear : M unit :=
  b <- get ;;
  put (mk (max_load_factor_ b) (initialize []) 0).

(** *** Accessors *)

Definition size (b : t) : Z := size_ b.
Definition row_size (b : t) : Z := Z.of_nat (length (data_ b)).
Definition capacity (b : t) : Z :=
  Qfloor (inject_Z (row_size b) * max_load_factor_ b).

(** [data_[index]]: [undefined] outside the array. *)
Definition at_ (b : t) (index : Z) : option (list Elem) :=
  if 0 <=? index then data_ b !! Z.to_nat index else None.

Definition max_load_factor (z : Q) : M unit :=
  b <- get ;; put (set_max_load_factor b z).

(** *** Rehash *)

(** The bucket count chosen by [rehash]: at least [MIN_BUCKET_COUNT], and
    replaced by [2 ^ ceil(log2 length)] when [log2 length] is not integral. *)
Definition rehash_length (len : Z) : Z :=
  let len := Z.max len MIN_BUCKET_COUNT in
  if 2 ^ Z.log2 len =? len then len else 2 ^ Z.log2_up len.

(** [data[index].push(element)]; [data[index]] is [undefined] when [index]
    is negative or past the end, and the member access throws. *)
Definition push_at (d : list (list Elem)) (index : Z) (e : Elem)
  : outcome (list (list Elem)) :=
  if (0 <=? index) && (index <? Z.of_nat (length d))
  then Ok (alter (fun row => row ++ [e]) (Z.to_nat index) d)
  else TypeError.

Fixpoint migrate_row (len : Z) (row : list Elem) (d : list (list Elem))
  : outcome (list (list Elem)) :=
  match row with
  | [] => Ok d
  | element :: row' =>
      let index := JS.rem (hasher_ (fetcher_ element)) len in
      match push_at d index element with
      | Ok d' => migrate_row len row' d'
      | TypeError => TypeError
      end
  end.

Fixpoint migrate (len : Z) (rows : list (list Elem)) (d : list (list Elem))
  : outcome (list (list Elem)) :=
  match rows with
  | [] => Ok d
  | row :: rows' =>
      match migrate_row len row d with
      | Ok d' => migrate len rows' d'
      | TypeError => TypeError
      end
  end.

Definition rehash (len : Z) : M unit :=
  b <- get ;;
  let len := rehash_length len in
  let d := replicate (Z.to_nat len) [] in
  d' <- lift (migrate len (data_ b) d) ;;
  put (set_data b d').

(** [reserve]. The quotient [length / max_load_factor] is exact. The
    binary64 quotient of the code can reach an integer that the exact
    one stays just below, and [Math.floor] is then one more than here.
    Rounding is monotone and keeps the integers, so the bounds of the
    exact quotient by integers hold of the rounded one: a bucket count
    that a statement below gives as a function of the former count is
    the one of the code. *)
Definition reserve (len : Z) : M unit :=
  b <- get ;;
  if len >? capacity b
  then rehash (Qfloor (inject_Z len / max_load_factor_ b))
  else ret tt.

(** *** Elements I/O *)

Definition index_by_key (b : t) (key : Key) : Z :=
  JS.bitand (hasher_ key) (row_size b - 1).

Definition index_by_value (b : t) (elem : Elem) : Z :=
  index_by_key b (fetcher_ elem).

(** [find]: the first element of the bucket accepted by the predicate, or
    [null]; iterating an [undefined] bucket throws. *)
Definition find (key : Key) : M (option Elem) :=
  b <- get ;;
  match at_ b (index_by_key b key) with
  | None => throw
  | Some bucket =>
      ret (List.find (fun it => predicator_ key (fetcher_ it)) bucket)
  end.

(** [this.data_[index].push(val)] with [index = index_by_value(val)]. *)
Definition place (val : Elem) : M unit :=
  b <- get ;;
  let index := index_by_value b val in
  match at_ b index with
  | None => throw
  | Some _ =>
      put (set_data b (alter (fun row => row ++ [val])
                             (Z.to_nat index) (data_ b)))
  end.

Definition insert (val : Elem) : M unit :=
  b <- get ;;
  let capacity := capacity b in
  put (set_size b (size_ b + 1)) ;;;
  (if size_ b + 1 >? capacity then reserve (capacity * 2) else ret tt) ;;;
  place val.

(** [bucket.splice(i, 1)] at the first [i] with [bucket[i] === val]. *)
Fixpoint splice_first (val : Elem) (bucket : list Elem)
  : option (list Elem) :=
  match bucket with
  | [] => None
  | x :: bucket' =>
      if decide (x = val) then Some bucket'
      else match splice_first val bucket' with
           | Some r => Some (x :: r)
           | None => None
           end
  end.

Definition erase (val : Elem) : M unit :=
  b <- get ;;
  let index := index_by_value b val in
  match at_ b index with
  | None => throw
  | Some bucket =>
      match splice_first val bucket with
      | Some bucket' =>
          put (mk (max_load_factor_ b)
                  (<[Z.to_nat index := bucket']> (data_ b))
                  (size_ b - 1))
      | None => ret tt
      end
  end.

(** All stored elements, in bucket order. *)
Definition elements (b : t) : list Elem := concat (data_ b).

(** *** Sequences of calls

    A client drives a table by a sequence of calls, starting from
    [constructor]. A call that throws leaves the state reached at the
    throw; the client may catch the error and go on. *)

Inductive op : Type :=
| Clear
| Rehash (n : Z)
| Reserve (n : Z)
| Insert (val : Elem)
| Erase (val : Elem).

Definition exec (o : op) : M unit :=
  match o with
  | Clear => clear
  | Rehash n => rehash n
  | Reserve n => reserve n
  | Insert val => insert val
  | Erase val => erase val
  end.

Definition run (ops : list op) (b : t) : t :=
  fold_left (fun b o => snd (exec o b)) ops b.

End Buckets.

Arguments t : clear implicits.
Arguments M : clear implicits.
Arguments op : clear implicits.

End HashBuckets.

(** ** Properties of the hash bucket index *)

Module HashBucketsFacts.
Import HashBuckets.

(** *** The bucket count chosen by [rehash] *)

Definition power_of_two (n : Z) : Prop := exists k, 0 <= k /\ n = 2 ^ k.

Definition bucket_count_ok (n : Z) : Prop :=
  power_of_two n /\ MIN_BUCKET_COUNT <= n.

Lemma rehash_length_pow2 (n : Z) :
  exists k, 3 <= k /\ rehash_length n = 2 ^ k.
Proof.
  unfold rehash_length, MIN_BUCKET_COUNT.
  set (m := Z.max n 8).
  assert (Hm : 8 <= m) by (unfold m; lia).
  assert (H3 : 3 <= Z.log2 m).
  { change 3 with (Z.log2 8). apply Z.log2_le_mono. exact Hm. }
  destruct (Z.eqb_spec (2 ^ Z.log2 m) m) as [He | Hne].
  - exists (Z.log2 m). split; [exact H3 | now symmetry].
  - exists (Z.log2_up m). split; [| reflexivity].
    pose proof (Z.le_log2_log2_up m). lia.
Qed.

Lemma rehash_length_ge (n : Z) : Z.max n MIN_BUCKET_COUNT <= rehash_length n.
Proof.
  unfold rehash_length, MIN_BUCKET_COUNT.
  set (m := Z.max n 8).
  assert (Hm : 8 <= m) by (unfold m; lia).
  destruct (Z.eqb_spec (2 ^ Z.log2 m) m) as [He | Hne]; [lia |].
  apply (Z.log2_log2_up_spec m). lia.
Qed.

Lemma rehash_length_least (n j : Z) :
  0 <= j -> Z.max n MIN_BUCKET_COUNT <= 2 ^ j -> rehash_length n <= 2 ^ j.
Proof.
  unfold rehash_length, MIN_BUCKET_COUNT.
  set (m := Z.max n 8).
  intros Hj Hle.
  assert (Hm : 8 <= m) by (unfold m; lia).
  destruct (Z.eqb_spec (2 ^ Z.log2 m) m) as [He | Hne]; [exact Hle |].
  apply Z.pow_le_mono_r; [lia |].
  apply Z.log2_up_le_pow2; [lia | exact Hle].
Qed.

Lemma rehash_length_ok (n : Z) : bucket_count_ok (rehash_length n).
Proof.
  split.
  - destruct (rehash_length_pow2 n) as (k & Hk & ->).
    exists k. split; [lia | reflexivity].
  - pose proof (rehash_length_ge n). lia.
Qed.

Lemma rehash_length_fixed (n : Z) :
  bucket_count_ok n -> rehash_length n = n.
Proof.
  intros [(k & Hk & ->) Hmin]. unfold rehash_length.
  rewrite Z.max_l by exact Hmin.
  rewrite Z.log2_pow2 by exact Hk. now rewrite Z.eqb_refl.
Qed.

(** *** The two index formulas: [%] in [rehash], [&] in [index_by_key] *)

Lemma ToInt32_mod_pow2 (h k : Z) :
  0 <= k <= 32 -> JS.ToInt32 h mod 2 ^ k = h mod 2 ^ k.
Proof.
  intros Hk. unfold JS.ToInt32.
  assert (Hdiv : (2 ^ k | 2 ^ 32)).
  { exists (2 ^ (32 - k)). rewrite <- Z.pow_add_r by lia. f_equal. lia. }
  assert (Hpos : 0 < 2 ^ k) by (apply Z.pow_pos_nonneg; lia).
  assert (Hmm : (h mod 2 ^ 32) mod 2 ^ k = h mod 2 ^ k).
  { apply Z.mod_mod_divide. exact Hdiv. }
  destruct (h mod 2 ^ 32 <? 2 ^ 31); [exact Hmm |].
  destruct Hdiv as [q Hq]. rewrite Hq.
  replace (h mod (q * 2 ^ k) - q * 2 ^ k)
    with (h mod (q * 2 ^ k) + (- q) * 2 ^ k) by ring.
  rewrite Z.mod_add by lia. rewrite <- Hq. exact Hmm.
Qed.

Lemma ToInt32_small (x : Z) : 0 <= x < 2 ^ 31 -> JS.ToInt32 x = x.
Proof.
  intros Hx. unfold JS.ToInt32.
  rewrite Z.mod_small by lia.
  destruct (Z.ltb_spec x (2 ^ 31)); lia.
Qed.

(** The mask always yields the mathematical residue... *)
Lemma bitand_mask (h k : Z) :
  0 <= k <= 31 -> JS.bitand h (2 ^ k - 1) = h mod 2 ^ k.
Proof.
  intros Hk. unfold JS.bitand.
  assert (0 < 2 ^ k) by (apply Z.pow_pos_nonneg; lia).
  assert (2 ^ k <= 2 ^ 31) by (apply Z.pow_le_mono_r; lia).
  rewrite (ToInt32_small (2 ^ k - 1)) by lia.
  replace (2 ^ k - 1) with (Z.ones k) by (rewrite Z.ones_equiv; lia).
  rewrite Z.land_ones by lia.
  apply ToInt32_mod_pow2. lia.
Qed.

(** ... and the remainder agrees with it on non-negative hashes only. *)
Lemma rem_mask (h k : Z) :
  0 <= h -> 0 <= k <= 31 -> JS.rem h (2 ^ k) = JS.bitand h (2 ^ k - 1).
Proof.
  intros Hh Hk. rewrite bitand_mask by exact Hk. unfold JS.rem.
  apply Z.rem_mod_nonneg; [exact Hh | apply Z.pow_pos_nonneg; lia].
Qed.

Lemma rem_negative (h n : Z) :
  h < 0 -> 0 < n -> h mod n <> 0 -> JS.rem h n < 0.
Proof.
  intros Hh Hn Hm. unfold JS.rem.
  pose proof (Z.rem_bound_pos_neg h n Hn ltac:(lia)) as Hb.
  assert (Z.rem h n <> 0); [| lia].
  intros H0. apply Hm. apply Z.rem_mod_eq_0; [lia | exact H0].
Qed.

(** *** Arithmetic of the load factor *)

Lemma Qfloor_ge (x : Q) (z : Z) : (inject_Z z <= x)%Q -> z <= Qfloor x.
Proof. intros H. rewrite <- (Qfloor_Z z). now apply Qfloor_resp_le. Qed.

Lemma inject_Z_le (a b : Z) : a <= b -> (inject_Z a <= inject_Z b)%Q.
Proof. intros H. now rewrite <- Zle_Qle. Qed.

(** Doubling the capacity of a table of [R >= 8] rows under a load factor
    [m >= 1]: any row count [R'] of at least [floor (2c / m)] rows has room
    for [c + 1] elements. *)
Lemma doubled_capacity (R c L R' : Z) (m : Q) :
  (1 <= m)%Q -> 8 <= R ->
  c = Qfloor (inject_Z R * m) ->
  L = Qfloor (inject_Z (c * 2) / m) ->
  L <= R' ->
  (inject_Z (c + 1) <= inject_Z R' * m)%Q /\ L <= 2 * R /\ 8 <= c.
Proof.
  intros Hm HR Hc HL HR'.
  pose proof (Qfloor_le (inject_Z R * m)) as H1.
  pose proof (Qlt_floor (inject_Z R * m)) as H2.
  pose proof (Qfloor_le (inject_Z (c * 2) / m)) as H3.
  pose proof (Qlt_floor (inject_Z (c * 2) / m)) as H4.
  rewrite <- Hc in H1, H2. rewrite <- HL in H3, H4.
  assert (Hm0 : (0 < m)%Q) by lra.
  assert (HRq : (8 <= inject_Z R)%Q) by (apply (inject_Z_le 8 R HR)).
  assert (HR'q : (inject_Z L <= inject_Z R')%Q) by (now apply inject_Z_le).
  rewrite !inject_Z_plus in *. rewrite !inject_Z_mult in *.
  change (inject_Z 1) with 1%Q in *. change (inject_Z 2) with 2%Q in *.
  assert (Hcancel : (inject_Z c * 2 / m * m == inject_Z c * 2)%Q).
  { field. lra. }
  assert (H5 : (inject_Z c * 2 < (inject_Z L + 1) * m)%Q).
  { rewrite <- Hcancel. apply Qmult_lt_compat_r; assumption. }
  assert (H6 : (inject_Z L * m <= inject_Z c * 2)%Q).
  { rewrite <- Hcancel. apply Qmult_le_compat_r; lra. }
  assert (H7 : (8 * m <= inject_Z R * m)%Q)
    by (apply Qmult_le_compat_r; lra).
  assert (H8 : (inject_Z L * m <= inject_Z R' * m)%Q)
    by (apply Qmult_le_compat_r; lra).
  split; [lra |]. split.
  - assert (H9 : (inject_Z L * m <= (2 * inject_Z R) * m)%Q) by lra.
    apply Qmult_lt_0_le_reg_r in H9; [| assumption].
    rewrite Zle_Qle, inject_Z_mult. exact H9.
  - subst c. apply Qfloor_ge. change (inject_Z 8) with 8%Q. lra.
Qed.

Lemma rows_grow (R R' c : Z) (m : Q) :
  (0 < m)%Q ->
  c = Qfloor (inject_Z R * m) ->
  (inject_Z (c + 1) <= inject_Z R' * m)%Q ->
  R < R'.
Proof.
  intros Hm Hc Hle.
  pose proof (Qlt_floor (inject_Z R * m)) as H2. rewrite <- Hc in H2.
  assert (H : (inject_Z R * m < inject_Z R' * m)%Q) by lra.
  destruct (Z.lt_ge_cases R R') as [Hlt | Hge]; [exact Hlt |].
  apply inject_Z_le in Hge.
  assert ((inject_Z R' * m <= inject_Z R * m)%Q)
    by (apply Qmult_le_compat_r; lra).
  lra.
Qed.

(** The length that [insert] hands to [rehash] through
    [reserve (capacity * 2)]: with a positive load factor and a capacity
    of at least one, it lies between the bucket count and its double. *)
Lemma reserve_length_bounds (R c L : Z) (m : Q) :
  (0 < m)%Q ->
  c = Qfloor (inject_Z R * m) -> 1 <= c ->
  L = Qfloor (inject_Z (c * 2) / m) ->
  R <= L <= 2 * R.
Proof.
  intros Hm Hc Hc1 HL.
  pose proof (Qfloor_le (inject_Z R * m)) as H1.
  pose proof (Qlt_floor (inject_Z R * m)) as H2.
  pose proof (Qfloor_le (inject_Z (c * 2) / m)) as H3.
  pose proof (Qlt_floor (inject_Z (c * 2) / m)) as H4.
  rewrite <- Hc in H1, H2. rewrite <- HL in H3, H4.
  rewrite !inject_Z_plus in *. rewrite !inject_Z_mult in *.
  change (inject_Z 1) with 1%Q in *. change (inject_Z 2) with 2%Q in *.
  assert (Hcancel : (inject_Z c * 2 / m * m == inject_Z c * 2)%Q).
  { field. lra. }
  assert (H5 : (inject_Z c * 2 < (inject_Z L + 1) * m)%Q).
  { rewrite <- Hcancel. apply Qmult_lt_compat_r; assumption. }
  assert (H6 : (inject_Z L * m <= inject_Z c * 2)%Q).
  { rewrite <- Hcancel. apply Qmult_le_compat_r; lra. }
  assert (Hc1q : (1 <= inject_Z c)%Q) by (apply (inject_Z_le 1 c Hc1)).
  split.
  - destruct (Z.le_gt_cases R L) as [Hle | Hgt]; [exact Hle | exfalso].
    assert (HLR : (inject_Z L + 1 <= inject_Z R)%Q).
    { change 1%Q with (inject_Z 1). rewrite <- inject_Z_plus.
      apply inject_Z_le. lia. }
    assert (H7 : ((inject_Z L + 1) * m <= inject_Z R * m)%Q)
      by (apply Qmult_le_compat_r; lra).
    lra.
  - destruct (Z.le_gt_cases L (2 * R)) as [Hle | Hgt]; [exact Hle | exfalso].
    assert (HLR : (2 * inject_Z R + 1 <= inject_Z L)%Q).
    { change 2%Q with (inject_Z 2). change 1%Q with (inject_Z 1).
      rewrite <- inject_Z_mult, <- inject_Z_plus.
      apply inject_Z_le. lia. }
    assert (H7 : ((2 * inject_Z R + 1) * m <= inject_Z L * m)%Q)
      by (apply Qmult_le_compat_r; lra).
    lra.
Qed.

(** From a load factor of one quarter on, the capacity of a table of
    [R >= 8] rows is at least two and the length handed to [rehash]
    exceeds the bucket count. *)
Lemma reserve_length_grows (R c L : Z) (m : Q) :
  (1 # 4 <= m)%Q -> 8 <= R ->
  c = Qfloor (inject_Z R * m) ->
  L = Qfloor (inject_Z (c * 2) / m) ->
  2 <= c /\ R < L.
Proof.
  intros Hm HR Hc HL.
  pose proof (Qfloor_le (inject_Z R * m)) as H1.
  pose proof (Qlt_floor (inject_Z R * m)) as H2.
  pose proof (Qfloor_le (inject_Z (c * 2) / m)) as H3.
  pose proof (Qlt_floor (inject_Z (c * 2) / m)) as H4.
  rewrite <- Hc in H1, H2. rewrite <- HL in H3, H4.
  assert (Hm0 : (0 < m)%Q) by lra.
  assert (HRq : (8 <= inject_Z R)%Q) by (apply (inject_Z_le 8 R HR)).
  assert (H7 : (8 * m <= inject_Z R * m)%Q)
    by (apply Qmult_le_compat_r; lra).
  assert (Hc2 : 2 <= c).
  { subst c. apply Qfloor_ge. change (inject_Z 2) with 2%Q. lra. }
  split; [exact Hc2 |].
  rewrite !inject_Z_plus in *. rewrite !inject_Z_mult in *.
  change (inject_Z 1) with 1%Q in *. change (inject_Z 2) with 2%Q in *.
  assert (Hcancel : (inject_Z c * 2 / m * m == inject_Z c * 2)%Q).
  { field. lra. }
  assert (H5 : (inject_Z c * 2 < (inject_Z L + 1) * m)%Q).
  { rewrite <- Hcancel. apply Qmult_lt_compat_r; assumption. }
  assert (Hc2q : (2 <= inject_Z c)%Q) by (apply (inject_Z_le 2 c Hc2)).
  (* twice the capacity is at least (R + 1) * m *)
  assert (H8 : (inject_Z R * m + m <= inject_Z c * 2)%Q).
  { destruct (Qlt_le_dec 1 m) as [Hbig | Hsmall]; lra. }
  destruct (Z.lt_ge_cases R L) as [Hlt | Hge]; [exact Hlt | exfalso].
  assert (HLR : (inject_Z L + 1 <= inject_Z R + 1)%Q).
  { apply inject_Z_le in Hge. lra. }
  assert (H9 : ((inject_Z L + 1) * m <= (inject_Z R + 1) * m)%Q)
    by (apply Qmult_le_compat_r; lra).
  lra.
Qed.

(** A power of two is the bucket count chosen for itself, and its double
    the one chosen for any length above it up to that double. *)
Lemma rehash_length_double (R L : Z) :
  bucket_count_ok R -> R < L <= 2 * R -> rehash_length L = 2 * R.
Proof.
  intros [(k & Hk & ->) Hmin] [Hlo Hhi]. unfold MIN_BUCKET_COUNT in Hmin.
  assert (Hpos : 0 < 2 ^ k) by (apply Z.pow_pos_nonneg; lia).
  apply Z.le_antisymm.
  - replace (2 * 2 ^ k) with (2 ^ (k + 1)) by (rewrite Z.pow_add_r; lia).
    apply rehash_length_least; [lia |].
    rewrite Z.pow_add_r by lia. unfold MIN_BUCKET_COUNT. lia.
  - destruct (rehash_length_pow2 L) as (j & Hj & Hlen).
    pose proof (rehash_length_ge L) as Hge. rewrite Hlen in *.
    assert (Hkj : k < j).
    { apply (Z.pow_lt_mono_r_iff 2); lia. }
    replace (2 * 2 ^ k) with (2 ^ (k + 1)) by (rewrite Z.pow_add_r; lia).
    apply Z.pow_le_mono_r; lia.
Qed.

Section Facts.

Context {Key Elem : Type} `{EqDecision Elem}.
Variable fetcher_ : Elem -> Key.
Variable hasher_ : Key -> Z.
Variable predicator_ : Key -> Key -> bool.

Abbreviation table := (HashBuckets.t Elem).
Abbreviation rehash := (HashBuckets.rehash fetcher_ hasher_).
Abbreviation reserve := (HashBuckets.reserve fetcher_ hasher_).
Abbreviation insert := (HashBuckets.insert fetcher_ hasher_).
Abbreviation erase := (HashBuckets.erase fetcher_ hasher_).
Abbreviation find := (HashBuckets.find fetcher_ hasher_ predicator_).
Abbreviation migrate := (HashBuckets.migrate fetcher_ hasher_).
Abbreviation migrate_row := (HashBuckets.migrate_row fetcher_ hasher_).
Abbreviation index_by_key := (HashBuckets.index_by_key hasher_).
Abbreviation index_by_value := (HashBuckets.index_by_value fetcher_ hasher_).

(** *** Length of the bucket array *)

Lemma push_at_length (d d' : list (list Elem)) i e :
  push_at d i e = Ok d' -> length d' = length d.
Proof.
  unfold push_at. destruct (_ && _); [| discriminate].
  intros [= <-]. apply length_alter.
Qed.

Lemma migrate_row_length len row : forall d d',
  migrate_row len row d = Ok d' -> length d' = length d.
Proof.
  induction row as [| e row IH]; simpl; intros d d' H.
  - now inversion H.
  - destruct (push_at d _ e) as [d1 |] eqn:Hp; [| discriminate].
    rewrite (IH _ _ H). eapply push_at_length; eauto.
Qed.

Lemma migrate_length len rows : forall d d',
  migrate len rows d = Ok d' -> length d' = length d.
Proof.
  induction rows as [| row rows IH]; simpl; intros d d' H.
  - now inversion H.
  - destruct (migrate_row len row d) as [d1 |] eqn:Hr; [| discriminate].
    rewrite (IH _ _ H). eapply migrate_row_length; eauto.
Qed.

Lemma row_size_initialize :
  Z.of_nat (length (initialize (@nil (list Elem)))) = MIN_BUCKET_COUNT.
Proof. reflexivity. Qed.

(** [rehash] either installs a table of [rehash_length] rows or throws
    and leaves the object as it was. *)
Lemma rehash_cases (n : Z) (b : table) :
  (fst (rehash n b) = Ok tt /\
   row_size (snd (rehash n b)) = rehash_length n /\
   size_ (snd (rehash n b)) = size_ b /\
   max_load_factor_ (snd (rehash n b)) = max_load_factor_ b) \/
  (fst (rehash n b) = TypeError /\ snd (rehash n b) = b).
Proof.
  unfold HashBuckets.rehash, bind, get, lift, put. simpl.
  destruct (migrate _ (data_ b) _) as [d' |] eqn:Hm; simpl.
  - left. repeat split. unfold row_size. simpl.
    rewrite (migrate_length _ _ _ _ Hm), length_replicate.
    pose proof (rehash_length_ge n). unfold MIN_BUCKET_COUNT in *. lia.
  - right. split; reflexivity.
Qed.

Lemma rehash_row_size_ok (n : Z) (b : table) :
  bucket_count_ok (row_size b) ->
  bucket_count_ok (row_size (snd (rehash n b))).
Proof.
  intros Hb. destruct (rehash_cases n b) as [(_ & -> & _) | (_ & ->)].
  - apply rehash_length_ok.
  - exact Hb.
Qed.


(** *** A small program logic for methods

    [triple P m Q E]: from a state satisfying [P], the method [m] either
    returns [a] in a state satisfying [Q a] or throws in a state
    satisfying [E]. *)

Definition triple {A} (P : table -> Prop) (m : M Elem A)
    (Q : A -> table -> Prop) (E : table -> Prop) : Prop :=
  forall b, P b ->
    match m b with
    | (Ok a, b') => Q a b'
    | (TypeError, b') => E b'
    end.


Lemma triple_ret {A} (a : A) (Q : A -> table -> Prop) E :
  triple (Q a) (ret a) Q E.
Proof. intros b Hb. exact Hb. Qed.


Lemma triple_put (b' : table) (Q : unit -> table -> Prop) E :
  triple (fun _ => Q tt b') (put b') Q E.
Proof. intros b Hb. exact Hb. Qed.

Lemma triple_throw {A} (Q : A -> table -> Prop) (E : table -> Prop) :
  triple E (@throw Elem A) Q E.
Proof. intros b Hb. exact Hb. Qed.

Lemma triple_weaken {A} (P P' : table -> Prop) (m : M Elem A)
    (Q Q' : A -> table -> Prop) (E E' : table -> Prop) :
  triple P' m Q' E' ->
  (forall b, P b -> P' b) -> (forall a b, Q' a b -> Q a b) ->
  (forall b, E' b -> E b) ->
  triple P m Q E.
Proof.
  intros Hm HP HQ HE b Hb. specialize (Hm b (HP b Hb)).
  destruct (m b) as [[a |] b']; auto.
Qed.

(** A method keeps an invariant, whether it returns or throws. *)
Definition keeps {A} (I : table -> Prop) (m : M Elem A) : Prop :=
  triple I m (fun _ => I) I.


Definition count_ok (b : table) : Prop := bucket_count_ok (row_size b).

Lemma rehash_keeps_count (n : Z) : keeps count_ok (rehash n).
Proof.
  intros b Hb. pose proof (rehash_row_size_ok n b Hb) as H.
  now destruct (rehash n b) as [[[] |] b'].
Qed.







Lemma constructor_row_size_ok :
  bucket_count_ok (row_size (constructor (Elem := Elem))).
Proof. split; [exists 3; split; [lia | reflexivity] | reflexivity]. Qed.

(** *** Where [rehash] puts the elements *)

Definition lands (len : Z) (j : nat) (e : Elem) : bool :=
  JS.rem (hasher_ (fetcher_ e)) len =? Z.of_nat j.

Lemma push_at_lookup (d d' : list (list Elem)) i e j :
  push_at d i e = Ok d' ->
  d' !! j = (fun row => if Z.of_nat j =? i then row ++ [e] else row) <$> d !! j.
Proof.
  unfold push_at.
  destruct (Z.leb_spec 0 i); simpl; [| discriminate].
  destruct (Z.ltb_spec i (Z.of_nat (length d))); [| discriminate].
  intros [= <-].
  destruct (Z.eqb_spec (Z.of_nat j) i) as [<- | Hne].
  - rewrite Nat2Z.id, list_lookup_alter, decide_True by reflexivity.
    reflexivity.
  - rewrite list_lookup_alter_ne by lia. now destruct (d !! j).
Qed.

Lemma migrate_row_lookup len row : forall d d' j,
  migrate_row len row d = Ok d' ->
  d' !! j = (fun bucket => bucket ++ filter (fun e => lands len j e) row)
              <$> d !! j.
Proof.
  induction row as [| e row IH]; simpl; intros d d' j H.
  - inversion H; subst. destruct (d' !! j); simpl; [| reflexivity].
    now rewrite app_nil_r.
  - destruct (push_at d _ e) as [d1 |] eqn:Hp; [| discriminate].
    rewrite (IH _ _ j H), (push_at_lookup _ _ _ _ j Hp).
    destruct (d !! j) as [bucket |]; simpl; [| reflexivity].
    rewrite filter_cons.
    destruct (Z.eqb_spec (Z.of_nat j) (JS.rem (hasher_ (fetcher_ e)) len)).
    + rewrite decide_True by (unfold lands; apply Is_true_true, Z.eqb_eq; lia).
      now rewrite <- app_assoc.
    + rewrite decide_False; [reflexivity |].
      unfold lands. intros Ht. apply Is_true_true, Z.eqb_eq in Ht. lia.
Qed.

Lemma migrate_lookup len rows : forall d d' j,
  migrate len rows d = Ok d' ->
  d' !! j = (fun bucket =>
               bucket ++ filter (fun e => lands len j e) (concat rows))
              <$> d !! j.
Proof.
  induction rows as [| row rows IH]; simpl; intros d d' j H.
  - inversion H; subst. destruct (d' !! j); simpl; [| reflexivity].
    now rewrite app_nil_r.
  - destruct (migrate_row len row d) as [d1 |] eqn:Hr; [| discriminate].
    rewrite (IH _ _ j H), (migrate_row_lookup _ _ _ _ j Hr).
    destruct (d !! j) as [bucket |]; simpl; [| reflexivity].
    now rewrite filter_app, app_assoc.
Qed.

(** Migration succeeds exactly on remainders inside the new array. *)
Lemma migrate_row_ok len row : forall d,
  Forall (fun e => 0 <= JS.rem (hasher_ (fetcher_ e)) len
                   < Z.of_nat (length d)) row ->
  exists d', migrate_row len row d = Ok d'.
Proof.
  induction row as [| e row IH]; simpl; intros d Hall; [eauto |].
  inversion Hall as [| ? ? He Hrow]; subst.
  unfold push_at at 1.
  destruct (Z.leb_spec 0 (JS.rem (hasher_ (fetcher_ e)) len)); [| lia].
  destruct (Z.ltb_spec (JS.rem (hasher_ (fetcher_ e)) len)
                       (Z.of_nat (length d))); [| lia].
  simpl. apply IH. now rewrite length_alter.
Qed.

Lemma migrate_ok len rows : forall d,
  Forall (fun e => 0 <= JS.rem (hasher_ (fetcher_ e)) len
                   < Z.of_nat (length d)) (concat rows) ->
  exists d', migrate len rows d = Ok d'.
Proof.
  induction rows as [| row rows IH]; simpl; intros d Hall; [eauto |].
  apply Forall_app in Hall as [Hrow Hrows].
  destruct (migrate_row_ok len row d Hrow) as [d1 Hd1]. rewrite Hd1.
  apply IH. now rewrite (migrate_row_length _ _ _ _ Hd1).
Qed.

Lemma migrate_row_throws len row : forall d,
  Exists (fun e => JS.rem (hasher_ (fetcher_ e)) len < 0) row ->
  migrate_row len row d = TypeError.
Proof.
  induction row as [| e row IH]; simpl; intros d Hex.
  - inversion Hex.
  - unfold push_at at 1.
    destruct (Z.leb_spec 0 (JS.rem (hasher_ (fetcher_ e)) len)); simpl;
      [| reflexivity].
    destruct (_ <? _); [| reflexivity].
    apply IH. inversion Hex; subst; [lia | assumption].
Qed.

Lemma migrate_throws len rows : forall d,
  Exists (fun e => JS.rem (hasher_ (fetcher_ e)) len < 0) (concat rows) ->
  migrate len rows d = TypeError.
Proof.
  induction rows as [| row rows IH]; simpl; intros d Hex.
  - inversion Hex.
  - apply Exists_app in Hex as [Hrow | Hrows].
    + now rewrite migrate_row_throws.
    + destruct (migrate_row len row d); [now apply IH | reflexivity].
Qed.

Definition nonneg_hashes (b : table) : Prop :=
  Forall (fun e => 0 <= hasher_ (fetcher_ e)) (elements b).

Lemma rehash_ok (n : Z) (b : table) :
  nonneg_hashes b -> fst (rehash n b) = Ok tt.
Proof.
  intros Hnn. unfold HashBuckets.rehash, bind, get, lift, put. simpl.
  destruct (rehash_length_pow2 n) as (k & Hk & Hlen).
  assert (Hpos : 0 < rehash_length n).
  { rewrite Hlen. apply Z.pow_pos_nonneg; lia. }
  destruct (migrate_ok (rehash_length n) (data_ b)
              (replicate (Z.to_nat (rehash_length n)) [])) as [d' ->];
    [| reflexivity].
  rewrite length_replicate, Z2Nat.id by lia.
  eapply Forall_impl; [exact Hnn |]. simpl. intros e He.
  unfold JS.rem. apply Z.rem_bound_pos; lia.
Qed.

(** *** Lookup after a successful rehash *)

Lemma rehash_length_exponent (n : Z) :
  n <= 2 ^ 31 -> exists k, 3 <= k <= 31 /\ rehash_length n = 2 ^ k.
Proof.
  intros Hn. destruct (rehash_length_pow2 n) as (k & Hk & Hlen).
  exists k. split; [| exact Hlen]. split; [exact Hk |].
  pose proof (rehash_length_least n 31 ltac:(lia)) as Hle.
  rewrite Hlen in Hle. unfold MIN_BUCKET_COUNT in Hle.
  apply (Z.pow_le_mono_r_iff 2); [lia | lia | apply Hle; lia].
Qed.

Lemma rehash_data (n : Z) (b b' : table) :
  rehash n b = (Ok tt, b') ->
  forall j, (j < Z.to_nat (rehash_length n))%nat ->
    data_ b' !! j
    = Some (filter (fun e => lands (rehash_length n) j e) (elements b)).
Proof.
  unfold HashBuckets.rehash, bind, get, lift, put. simpl.
  destruct (migrate _ (data_ b) _) as [d' |] eqn:Hm; [| discriminate].
  intros [= <-] j Hj. simpl.
  rewrite (migrate_lookup _ _ _ _ j Hm).
  rewrite lookup_replicate_2 by exact Hj. reflexivity.
Qed.

Lemma find_in_bucket (key : Key) (bucket : list Elem) (e : Elem) :
  e ∈ bucket -> predicator_ key (fetcher_ e) = true ->
  exists it, List.find (fun it => predicator_ key (fetcher_ it)) bucket
             = Some it /\
             it ∈ bucket /\ predicator_ key (fetcher_ it) = true.
Proof.
  intros Hin Hp.
  destruct (List.find _ bucket) as [it |] eqn:Hf.
  - apply List.find_some in Hf as [Hi Ht].
    exists it. repeat split; [| exact Ht]. now apply list_elem_of_In.
  - apply list_elem_of_In in Hin.
    pose proof (List.find_none _ _ Hf e Hin) as Hc. simpl in Hc. congruence.
Qed.

Lemma find_after_rehash (n : Z) (b : table) (key : Key) (e : Elem) :
  (forall x y, predicator_ x y = true -> hasher_ x = hasher_ y) ->
  nonneg_hashes b -> n <= 2 ^ 31 ->
  e ∈ elements b -> predicator_ key (fetcher_ e) = true ->
  exists b' it,
    rehash n b = (Ok tt, b') /\
    find key b' = (Ok (Some it), b') /\
    it ∈ elements b /\
    predicator_ key (fetcher_ it) = true.
Proof.
  intros Hcons Hnn Hn Hin Hp.
  pose proof (rehash_ok n b Hnn) as Hok.
  destruct (rehash n b) as [r b'] eqn:Hr. simpl in Hok. subst r.
  destruct (rehash_length_exponent n Hn) as (k & Hk & Hlen).
  assert (Hrows : row_size b' = 2 ^ k).
  { destruct (rehash_cases n b) as [(_ & H1 & _) | (H1 & _)];
      rewrite Hr in H1; simpl in H1; [congruence | discriminate]. }
  assert (Hpos : 0 < 2 ^ k) by (apply Z.pow_pos_nonneg; lia).
  assert (Hhe : 0 <= hasher_ (fetcher_ e)).
  { unfold nonneg_hashes in Hnn. rewrite Forall_forall in Hnn. now apply Hnn. }
  pose proof (Hcons _ _ Hp) as Hh.
  set (i := hasher_ key mod 2 ^ k).
  assert (Hi : 0 <= i < 2 ^ k) by (apply Z.mod_pos_bound; lia).
  assert (Hidx : index_by_key b' key = i).
  { unfold HashBuckets.index_by_key. rewrite Hrows. apply bitand_mask. lia. }
  pose proof (rehash_data n b b' Hr (Z.to_nat i)) as Hd.
  rewrite Hlen in Hd. specialize (Hd ltac:(lia)).
  destruct (find_in_bucket key
              (filter (fun e => lands (2 ^ k) (Z.to_nat i) e) (elements b)) e)
    as (it & Hf & Hit & Hpt).
  { apply list_elem_of_filter. split; [| exact Hin].
    unfold lands. apply Is_true_true, Z.eqb_eq.
    rewrite Z2Nat.id by lia. unfold JS.rem.
    rewrite Z.rem_mod_nonneg by lia. unfold i. now rewrite Hh. }
  { exact Hp. }
  exists b', it. split; [reflexivity |].
  unfold HashBuckets.find, bind, get, throw, ret. simpl.
  unfold at_. rewrite Hidx.
  destruct (Z.leb_spec 0 i); [| lia].
  rewrite Hd, Hf. repeat split; [| exact Hpt].
  apply list_elem_of_filter in Hit. tauto.
Qed.

(** *** The bucket count is a power of two, at least eight *)


(** *** Insertion and the load bound *)

Lemma reserve_eq (n : Z) (b : table) :
  reserve n b
  = if n >? capacity b
    then rehash (Qfloor (inject_Z n / max_load_factor_ b)) b
    else (Ok tt, b).
Proof.
  unfold HashBuckets.reserve, bind at 1, get.
  now destruct (n >? capacity b).
Qed.

Lemma insert_eq (val : Elem) (b : table) :
  insert val b
  = bind (if size_ b + 1 >? capacity b
          then reserve (capacity b * 2) else ret tt)
         (fun _ => place fetcher_ hasher_ val)
         (set_size b (size_ b + 1)).
Proof. reflexivity. Qed.

Lemma index_by_key_range (b : table) (key : Key) k :
  0 <= k <= 31 -> row_size b = 2 ^ k ->
  index_by_key b key = hasher_ key mod 2 ^ k /\
  0 <= index_by_key b key < row_size b.
Proof.
  intros Hk HR. unfold HashBuckets.index_by_key. rewrite HR.
  rewrite bitand_mask by exact Hk.
  split; [reflexivity |]. apply Z.mod_pos_bound, Z.pow_pos_nonneg; lia.
Qed.

Lemma at_in_range (b : table) (i : Z) :
  0 <= i < row_size b -> exists bucket, at_ b i = Some bucket.
Proof.
  intros Hi. unfold at_. destruct (Z.leb_spec 0 i); [| lia].
  apply lookup_lt_is_Some_2. unfold row_size in Hi. lia.
Qed.

Lemma place_ok (val : Elem) (b : table) k :
  0 <= k <= 31 -> row_size b = 2 ^ k ->
  place fetcher_ hasher_ val b
  = (Ok tt, set_data b (alter (fun row => row ++ [val])
                          (Z.to_nat (index_by_value b val)) (data_ b))).
Proof.
  intros Hk HR. unfold place, bind, get, throw, put. simpl.
  destruct (index_by_key_range b (fetcher_ val) k Hk HR) as [_ Hi].
  destruct (at_in_range b _ Hi) as [bucket Hb].
  unfold HashBuckets.index_by_value. now rewrite Hb.
Qed.

Lemma count_exponent (n : Z) :
  bucket_count_ok n -> n <= 2 ^ 31 -> exists k, 3 <= k <= 31 /\ n = 2 ^ k.
Proof.
  intros Hn Hle. pose proof (rehash_length_fixed n Hn) as Hfix.
  destruct (rehash_length_exponent n Hle) as (k & Hk & Hlen).
  exists k. split; [exact Hk | congruence].
Qed.

(** C2 (amended). On a table whose bucket count is a power of two between
    8 and 2^30, whose max load factor is positive, whose size does not
    exceed its capacity and whose stored keys have non-negative hashes,
    [insert] returns normally and increments the size; it calls
    [reserve (capacity * 2)] exactly when the new size exceeds
    [capacity = floor (bucket_count * max_load_factor)]; the bucket count
    stays or doubles, and it changes only in that case. Afterwards
    [size <= bucket_count * max_load_factor] holds exactly when the new
    size did not exceed the capacity or the bucket count has doubled.
    From a max load factor of 1/4 on, the bucket count doubles whenever
    the new size exceeds the capacity, so the bound always holds. *)
Theorem insert_load_bound (val : Elem) (b : table) :
  bucket_count_ok (row_size b) -> row_size b <= 2 ^ 30 ->
  (0 < max_load_factor_ b)%Q ->
  size_ b <= capacity b ->
  nonneg_hashes b ->
  exists b',
    insert val b = (Ok tt, b') /\
    size_ b' = size_ b + 1 /\
    max_load_factor_ b' = max_load_factor_ b /\
    insert val b
    = (if size_ b + 1 >? capacity b
       then bind (reserve (capacity b * 2))
                 (fun _ => place fetcher_ hasher_ val)
                 (set_size b (size_ b + 1))
       else place fetcher_ hasher_ val (set_size b (size_ b + 1))) /\
    (row_size b' = row_size b \/ row_size b' = 2 * row_size b) /\
    (row_size b' <> row_size b -> size_ b + 1 > capacity b) /\
    ((inject_Z (size_ b') <= inject_Z (row_size b') * max_load_factor_ b')%Q
     <-> size_ b + 1 <= capacity b \/ row_size b' = 2 * row_size b) /\
    ((1 # 4 <= max_load_factor_ b)%Q ->
     (row_size b' <> row_size b <-> size_ b + 1 > capacity b) /\
     (inject_Z (size_ b') <= inject_Z (row_size b') * max_load_factor_ b')%Q).
Proof.
  intros Hcnt Hsmall Hm Hsz Hnn.
  set (b1 := set_size b (size_ b + 1)).
  assert (Hins : insert val b
                 = (if size_ b + 1 >? capacity b
                    then bind (reserve (capacity b * 2))
                              (fun _ => place fetcher_ hasher_ val) b1
                    else place fetcher_ hasher_ val b1)).
  { unfold HashBuckets.insert, bind at 1 2 3, get, put. simpl. fold b1.
    destruct (_ >? _); reflexivity. }
  destruct (count_exponent _ Hcnt ltac:(lia)) as (k & Hk & HR).
  pose proof (proj2 Hcnt) as Hmin. unfold MIN_BUCKET_COUNT in Hmin.
  pose proof (Qfloor_le (inject_Z (row_size b) * max_load_factor_ b)) as Hfl.
  pose proof (Qlt_floor (inject_Z (row_size b) * max_load_factor_ b)) as Hfu.
  fold (capacity b) in Hfl, Hfu.
  set (m := max_load_factor_ b) in *.
  assert (HRq : (8 <= inject_Z (row_size b))%Q)
    by (apply (inject_Z_le 8 _ Hmin)).
  assert (Hc0 : 0 <= capacity b).
  { apply Qfloor_ge. change (inject_Z 0) with 0%Q. fold m.
    apply Qmult_le_0_compat; lra. }
  (* what the bound says of a result of [R'] rows *)
  assert (Hbound : forall b2 : table,
            size_ b2 = size_ b + 1 -> max_load_factor_ b2 = m ->
            size_ b + 1 > capacity b -> 1 <= capacity b ->
            ((inject_Z (size_ b2) <= inject_Z (row_size b2) * max_load_factor_ b2)%Q
             <-> row_size b2 = 2 * row_size b) \/
            (row_size b2 <> row_size b /\ row_size b2 <> 2 * row_size b)).
  { intros b2 Hs2 Hm2 Hgt Hc1.
    destruct (Z.eq_dec (row_size b2) (row_size b)) as [Hsame | Hdiff].
    - left. rewrite Hs2, Hm2, Hsame. split; [| lia].
      intros Hle. exfalso.
      rewrite inject_Z_plus in *. change (inject_Z 1) with 1%Q in *.
      assert (Hq : (inject_Z (capacity b) <= inject_Z (size_ b))%Q)
        by (apply inject_Z_le; lia).
      lra.
    - destruct (Z.eq_dec (row_size b2) (2 * row_size b)) as [Hdbl | Hnd];
        [| now right].
      left. rewrite Hs2, Hm2, Hdbl. split; [reflexivity |]. intros _.
      rewrite inject_Z_plus, inject_Z_mult in *.
      change (inject_Z 1) with 1%Q in *. change (inject_Z 2) with 2%Q in *.
      assert (Hq : (inject_Z (size_ b) <= inject_Z (capacity b))%Q)
        by (apply inject_Z_le; lia).
      assert (Hone : (1 <= inject_Z (capacity b))%Q)
        by (apply (inject_Z_le 1 (capacity b) Hc1)).
      lra. }
  (* the table that [place] leaves *)
  assert (Hplaced : forall (t : table) j, 0 <= j <= 31 -> row_size t = 2 ^ j ->
            exists b', place fetcher_ hasher_ val t = (Ok tt, b') /\
                       row_size b' = row_size t /\ size_ b' = size_ t /\
                       max_load_factor_ b' = max_load_factor_ t).
  { intros t j Hj Ht. eexists. split; [exact (place_ok val t j Hj Ht) |].
    split; [| split; reflexivity].
    unfold row_size. simpl. now rewrite length_alter. }
  assert (Hb1 : row_size b1 = row_size b /\ size_ b1 = size_ b + 1 /\
                max_load_factor_ b1 = m) by (repeat split).
  destruct Hb1 as (Hr1 & Hs1 & Hm1).
  destruct (Z.gtb_spec (size_ b + 1) (capacity b)) as [Hgt' | Hle];
    [assert (Hgt : size_ b + 1 > capacity b) by lia |].
  - (* the new size exceeds the capacity: [reserve (capacity * 2)] *)
    assert (Hcap1 : capacity b1 = capacity b) by reflexivity.
    set (L := Qfloor (inject_Z (capacity b * 2) / m)).
    destruct (Z.eq_dec (capacity b) 0) as [Hz | Hnz].
    + (* capacity 0: [reserve] asks for nothing *)
      assert (Hres : reserve (capacity b * 2) b1 = (Ok tt, b1)).
      { unfold HashBuckets.reserve, bind at 1, get, ret. simpl.
        rewrite Hcap1, Hz. reflexivity. }
      destruct (Hplaced b1 k ltac:(lia) HR) as (b' & Hpl & Hr' & Hs' & Hm').
      assert (Hsmall1 : (inject_Z (row_size b) * m < 1)%Q).
      { rewrite Hz in Hfu. exact Hfu. }
      assert (Hs0 : size_ b = 0) by lia.
      exists b'. rewrite Hr', Hs', Hm', Hr1, Hs1, Hm1.
      split; [rewrite Hins; unfold bind; rewrite Hres; exact Hpl |].
      split; [reflexivity |]. split; [reflexivity |].
      split; [exact Hins |]. split; [now left |].
      split; [intros _; exact Hgt |]. split.
      * split.
        -- intros Hb. exfalso. rewrite Hs0 in Hb.
           change (inject_Z (0 + 1)) with 1%Q in Hb. lra.
        -- intros [Hc | Hc]; lia.
      * intros Hq. exfalso.
        assert (H2m : (8 * m <= inject_Z (row_size b) * m)%Q)
          by (apply Qmult_le_compat_r; lra).
        lra.
    + assert (Hc1 : 1 <= capacity b) by lia.
      destruct (reserve_length_bounds (row_size b) (capacity b) L m
                  Hm eq_refl Hc1 eq_refl) as [HLlo HLhi].
      assert (Hres : reserve (capacity b * 2) b1 = rehash L b1).
      { unfold HashBuckets.reserve, bind at 1, get. simpl. rewrite Hcap1.
        destruct (Z.gtb_spec (capacity b * 2) (capacity b));
          [reflexivity | lia]. }
      pose proof (rehash_ok L b1 Hnn) as Hok.
      destruct (rehash L b1) as [r b2] eqn:Hr. simpl in Hok. subst r.
      destruct (rehash_cases L b1)
        as [(_ & H1 & H2 & H3) | (H1 & _)];
        rewrite Hr in *; simpl fst in *; simpl snd in *; [| discriminate].
      rewrite Hs1 in H2. rewrite Hm1 in H3.
      destruct (rehash_length_exponent L ltac:(lia)) as (k' & Hk' & HL').
      destruct (Hplaced b2 k' ltac:(lia) ltac:(congruence))
        as (b' & Hpl & Hr' & Hs' & Hm').
      assert (Hrows : row_size b2
                      = if decide (L = row_size b) then row_size b
                        else 2 * row_size b).
      { rewrite H1. destruct (decide (L = row_size b)) as [-> | Hne].
        - now apply rehash_length_fixed.
        - apply rehash_length_double; [exact Hcnt | lia]. }
      exists b'. rewrite Hr', Hs', Hm', H2, H3.
      split; [rewrite Hins; unfold bind; rewrite Hres; exact Hpl |].
      split; [reflexivity |]. split; [reflexivity |].
      split; [exact Hins |]. split.
      { rewrite Hrows. destruct (decide (L = row_size b)); [now left | now right]. }
      split; [intros _; exact Hgt |].
      assert (Hiff : (inject_Z (size_ b + 1) <= inject_Z (row_size b2) * m)%Q
                     <-> row_size b2 = 2 * row_size b).
      { destruct (Hbound b2 H2 H3 Hgt Hc1) as [Hiff | [Hn1 Hn2]].
        - now rewrite H2, H3 in Hiff.
        - exfalso. rewrite Hrows in Hn1, Hn2.
          destruct (decide (L = row_size b)); congruence. }
      split.
      * rewrite Hiff. split; [now right | intros [Hc | Hc]; [lia | exact Hc]].
      * intros Hq.
        destruct (reserve_length_grows (row_size b) (capacity b) L m
                    Hq Hmin eq_refl eq_refl) as [_ Hgrow].
        assert (Hdbl : row_size b2 = 2 * row_size b).
        { rewrite Hrows. destruct (decide (L = row_size b)); lia. }
        split; [| now apply Hiff].
        split; [intros _; exact Hgt | intros _; lia].
  - (* no rehash *)
    destruct (Hplaced b1 k ltac:(lia) HR) as (b' & Hpl & Hr' & Hs' & Hm').
    assert (Hpost : (inject_Z (size_ b + 1)
                     <= inject_Z (row_size b) * m)%Q).
    { apply inject_Z_le in Hle. lra. }
    exists b'. rewrite Hr', Hs', Hm', Hr1, Hs1, Hm1.
    split; [rewrite Hins; exact Hpl |].
    split; [reflexivity |]. split; [reflexivity |].
    split; [exact Hins |]. split; [now left |].
    split; [congruence |].
    split; [split; [now left | intros _; exact Hpost] |].
    intros _. split; [| exact Hpost]. split; [congruence | lia].
Qed.

(** *** Well-placed tables: every element sits in the bucket of its key *)

Definition placed (b : table) : Prop :=
  forall (j : nat) bucket e,
    data_ b !! j = Some bucket -> e ∈ bucket ->
    index_by_value b e = Z.of_nat j.

Lemma elem_of_elements (b : table) (e : Elem) :
  e ∈ elements b <->
  exists (j : nat) bucket, data_ b !! j = Some bucket /\ e ∈ bucket.
Proof.
  unfold elements. rewrite list_elem_of_In, in_concat. split.
  - intros (bucket & Hb & He). apply list_elem_of_In in Hb, He.
    apply list_elem_of_lookup in Hb as [j Hj]. eauto.
  - intros (j & bucket & Hj & He). exists bucket.
    rewrite <- !list_elem_of_In. split; [| exact He].
    apply list_elem_of_lookup. eauto.
Qed.

Lemma concat_alter_push (d : list (list Elem)) (i : nat) (e : Elem) :
  (i < length d)%nat ->
  concat (alter (fun row => row ++ [e]) i d) ≡ₚ e :: concat d.
Proof.
  revert i. induction d as [| row d IH]; simpl; intros i Hi; [lia |].
  destruct i as [| i]; simpl.
  - rewrite <- app_assoc. simpl.
    now rewrite <- Permutation_middle.
  - rewrite (IH i) by lia. now rewrite <- Permutation_middle.
Qed.

Lemma push_at_perm (d d' : list (list Elem)) i e :
  push_at d i e = Ok d' -> concat d' ≡ₚ e :: concat d.
Proof.
  unfold push_at.
  destruct (Z.leb_spec 0 i); simpl; [| discriminate].
  destruct (Z.ltb_spec i (Z.of_nat (length d))); [| discriminate].
  intros [= <-]. apply concat_alter_push. lia.
Qed.

Lemma migrate_row_perm len row : forall d d',
  migrate_row len row d = Ok d' -> concat d' ≡ₚ row ++ concat d.
Proof.
  induction row as [| e row IH]; simpl; intros d d' H.
  - now inversion H.
  - destruct (push_at d _ e) as [d1 |] eqn:Hp; [| discriminate].
    rewrite (IH _ _ H), (push_at_perm _ _ _ _ Hp).
    now rewrite <- Permutation_middle.
Qed.

Lemma migrate_perm len rows : forall d d',
  migrate len rows d = Ok d' -> concat d' ≡ₚ concat rows ++ concat d.
Proof.
  induction rows as [| row rows IH]; simpl; intros d d' H.
  - now inversion H.
  - destruct (migrate_row len row d) as [d1 |] eqn:Hr; [| discriminate].
    rewrite (IH _ _ H), (migrate_row_perm _ _ _ _ Hr).
    rewrite <- app_assoc. apply Permutation_app_swap_app.
Qed.

Lemma concat_replicate_nil (n : nat) :
  concat (replicate n (@nil Elem)) = [].
Proof. induction n; simpl; auto. Qed.

Lemma rehash_elements (n : Z) (b b' : table) :
  rehash n b = (Ok tt, b') -> elements b' ≡ₚ elements b.
Proof.
  unfold HashBuckets.rehash, bind, get, lift, put. simpl.
  destruct (migrate _ (data_ b) _) as [d' |] eqn:Hm; [| discriminate].
  intros [= <-]. unfold elements. simpl.
  rewrite (migrate_perm _ _ _ _ Hm), concat_replicate_nil.
  now rewrite app_nil_r.
Qed.

Lemma rehash_placed (n : Z) (b b' : table) :
  n <= 2 ^ 31 -> nonneg_hashes b ->
  rehash n b = (Ok tt, b') -> placed b'.
Proof.
  intros Hn Hnn Hr j bucket e Hj He.
  destruct (rehash_length_exponent n Hn) as (k & Hk & Hlen).
  assert (Hrows : row_size b' = 2 ^ k).
  { destruct (rehash_cases n b) as [(_ & H1 & _) | (H1 & _)];
      rewrite Hr in H1; simpl in H1; [congruence | discriminate]. }
  assert (Hjlt : (j < Z.to_nat (rehash_length n))%nat).
  { apply lookup_lt_Some in Hj. unfold row_size in Hrows. lia. }
  rewrite (rehash_data n b b' Hr j Hjlt) in Hj. injection Hj as <-.
  apply list_elem_of_filter in He as [Hl He].
  unfold lands in Hl. apply Is_true_true, Z.eqb_eq in Hl.
  unfold HashBuckets.index_by_value.
  destruct (index_by_key_range b' (fetcher_ e) k ltac:(lia) Hrows) as [-> _].
  rewrite <- Hl, Hlen. unfold JS.rem. symmetry.
  apply Z.rem_mod_nonneg; [| apply Z.pow_pos_nonneg; lia].
  unfold nonneg_hashes in Hnn. rewrite Forall_forall in Hnn. now apply Hnn.
Qed.

Lemma placed_push (val : Elem) (b : table) :
  0 <= index_by_value b val < row_size b ->
  placed b ->
  placed (set_data b (alter (fun row => row ++ [val])
                        (Z.to_nat (index_by_value b val)) (data_ b))).
Proof.
  intros Hi Hpl j bucket e Hj He.
  assert (Hidx : forall x,
            index_by_value (set_data b (alter (fun row => row ++ [val])
              (Z.to_nat (index_by_value b val)) (data_ b))) x
            = index_by_value b x).
  { intros x. unfold HashBuckets.index_by_value, HashBuckets.index_by_key,
      row_size. simpl. now rewrite length_alter. }
  rewrite Hidx. simpl in Hj.
  destruct (decide (j = Z.to_nat (index_by_value b val))) as [-> | Hne].
  - rewrite list_lookup_alter, decide_True in Hj by reflexivity.
    destruct (data_ b !! Z.to_nat (index_by_value b val)) as [old |] eqn:Ho;
      [| discriminate].
    injection Hj as <-. apply elem_of_app in He as [He | He].
    + eapply Hpl; eauto.
    + apply list_elem_of_singleton in He. subst e. lia.
  - rewrite list_lookup_alter_ne in Hj by congruence. eapply Hpl; eauto.
Qed.

(** [insert] on a well-placed table of at most 2^30 rows whose stored
    hashes are non-negative: it returns, and the new table holds the old
    elements and [val], each in the bucket of its key. *)
Lemma insert_ok (val : Elem) (b : table) :
  bucket_count_ok (row_size b) -> row_size b <= 2 ^ 30 ->
  nonneg_hashes b -> placed b ->
  exists b',
    insert val b = (Ok tt, b') /\
    size_ b' = size_ b + 1 /\
    max_load_factor_ b' = max_load_factor_ b /\
    elements b' ≡ₚ val :: elements b /\
    placed b' /\
    bucket_count_ok (row_size b') /\ row_size b' <= 2 ^ 31.
Proof.
  intros Hcnt Hsmall Hnn Hpl.
  set (b1 := set_size b (size_ b + 1)).
  assert (Hmid : exists b2,
            (if size_ b + 1 >? capacity b
             then reserve (capacity b * 2) else ret tt) b1 = (Ok tt, b2) /\
            size_ b2 = size_ b + 1 /\
            max_load_factor_ b2 = max_load_factor_ b /\
            elements b2 ≡ₚ elements b /\ placed b2 /\
            bucket_count_ok (row_size b2) /\ row_size b2 <= 2 ^ 31).
  { assert (Hstay : exists b2,
              ret tt b1 = (Ok tt, b2) /\
              size_ b2 = size_ b + 1 /\
              max_load_factor_ b2 = max_load_factor_ b /\
              elements b2 ≡ₚ elements b /\ placed b2 /\
              bucket_count_ok (row_size b2) /\ row_size b2 <= 2 ^ 31).
    { exists b1. change (row_size b1) with (row_size b).
      repeat split; auto; try apply Hcnt. lia. }
    destruct (_ >? _); [| exact Hstay].
    rewrite reserve_eq.
    change (capacity b1) with (capacity b).
    change (max_load_factor_ b1) with (max_load_factor_ b).
    destruct (Z.gtb_spec (capacity b * 2) (capacity b)) as [Hgt | Hle];
      [| exact Hstay].
    set (L := Qfloor (inject_Z (capacity b * 2) / max_load_factor_ b)).
    assert (HL : L <= 2 ^ 31).
    { assert (Hm0 : (0 < max_load_factor_ b)%Q).
      { destruct (Qlt_le_dec 0 (max_load_factor_ b)) as [Hp | Hn];
          [exact Hp | exfalso].
        assert (Hc : capacity b <= 0); [| lia].
        unfold capacity. rewrite <- (Qfloor_Z 0). apply Qfloor_resp_le.
        assert (Hr : (0 <= inject_Z (row_size b))%Q).
        { change 0%Q with (inject_Z 0). apply inject_Z_le.
          unfold row_size. lia. }
        change (inject_Z 0) with 0%Q. nra. }
      pose proof (Qfloor_le (inject_Z (row_size b) * max_load_factor_ b))
        as Hfl. fold (capacity b) in Hfl.
      assert (HLq : L <= 2 * row_size b); [| lia].
      unfold L. rewrite <- (Qfloor_Z (2 * row_size b)).
      apply Qfloor_resp_le. apply Qle_shift_div_r; [exact Hm0 |].
      rewrite !inject_Z_mult. change (inject_Z 2) with 2%Q. lra. }
    pose proof (rehash_ok L b1 Hnn) as Hok.
    destruct (rehash L b1) as [r b2] eqn:Hr. simpl in Hok. subst r.
    exists b2.
    destruct (rehash_cases L b1) as [(_ & H1 & H2 & H3) | (H1 & _)];
      rewrite Hr in *; simpl in *; [| discriminate].
    split; [reflexivity |]. split; [exact H2 |]. split; [exact H3 |].
    split; [exact (rehash_elements L b1 b2 Hr) |].
    split; [exact (rehash_placed L b1 b2 HL Hnn Hr) |].
    rewrite H1. split; [apply rehash_length_ok |].
    destruct (rehash_length_exponent L HL) as (k & Hk & ->).
    apply Z.pow_le_mono_r; lia. }
  destruct Hmid as (b2 & Hmid & Hs2 & Hm2 & He2 & Hp2 & Hc2 & Hr2).
  destruct (count_exponent _ Hc2 Hr2) as (k & Hk & HR).
  pose proof (place_ok val b2 k ltac:(lia) HR) as Hplace.
  destruct (index_by_key_range b2 (fetcher_ val) k ltac:(lia) HR) as [_ Hi].
  eexists. split; [| split; [| split; [| split; [| split; [| split]]]]].
  - rewrite insert_eq. fold b1. unfold bind. rewrite Hmid. exact Hplace.
  - exact Hs2.
  - exact Hm2.
  - unfold elements. simpl.
    rewrite concat_alter_push; [now rewrite <- He2 |].
    unfold row_size in Hi. unfold HashBuckets.index_by_value. lia.
  - now apply placed_push.
  - unfold row_size. simpl. now rewrite length_alter.
  - unfold row_size. simpl. now rewrite length_alter.
Qed.

(** [find] on a well-placed table. *)
Lemma find_sound (key : Key) (b b' : table) (it : Elem) :
  find key b = (Ok (Some it), b') ->
  b' = b /\ it ∈ elements b /\ predicator_ key (fetcher_ it) = true.
Proof.
  unfold HashBuckets.find, bind, get, throw, ret. simpl.
  destruct (at_ b _) as [bucket |] eqn:Hat; [| discriminate].
  intros [= Hf <-]. split; [reflexivity |].
  apply List.find_some in Hf as [Hin Hp]. split; [| exact Hp].
  unfold at_ in Hat. destruct (0 <=? _); [| discriminate].
  apply elem_of_elements. eexists _, bucket. split; [exact Hat |].
  now apply list_elem_of_In.
Qed.

Lemma find_complete (key : Key) (b : table) (e : Elem) :
  (forall x y, predicator_ x y = true -> hasher_ x = hasher_ y) ->
  bucket_count_ok (row_size b) -> row_size b <= 2 ^ 31 -> placed b ->
  e ∈ elements b -> predicator_ key (fetcher_ e) = true ->
  exists it,
    find key b = (Ok (Some it), b) /\
    it ∈ elements b /\ predicator_ key (fetcher_ it) = true.
Proof.
  intros Hcons Hcnt Hsmall Hpl Hin Hp.
  destruct (count_exponent _ Hcnt Hsmall) as (k & Hk & HR).
  apply elem_of_elements in Hin as (j & bucket & Hj & He).
  pose proof (Hpl j bucket e Hj He) as Hidx.
  assert (Hkey : index_by_key b key = Z.of_nat j).
  { rewrite <- Hidx. unfold HashBuckets.index_by_value,
      HashBuckets.index_by_key. now rewrite (Hcons _ _ Hp). }
  destruct (find_in_bucket key bucket e He Hp) as (it & Hf & Hit & Hpt).
  exists it. split; [| split; [| exact Hpt]].
  - unfold HashBuckets.find, bind, get, throw, ret. simpl.
    unfold at_. rewrite Hkey.
    destruct (Z.leb_spec 0 (Z.of_nat j)); [| lia].
    now rewrite Nat2Z.id, Hj, Hf.
  - apply elem_of_elements. eauto.
Qed.

Lemma find_total (key : Key) (b : table) :
  bucket_count_ok (row_size b) -> row_size b <= 2 ^ 31 ->
  exists r, find key b = (Ok r, b).
Proof.
  intros Hcnt Hsmall.
  destruct (count_exponent _ Hcnt Hsmall) as (k & Hk & HR).
  destruct (index_by_key_range b key k ltac:(lia) HR) as [_ Hi].
  destruct (at_in_range b _ Hi) as [bucket Hb].
  unfold HashBuckets.find, bind, get, throw, ret. simpl. rewrite Hb. eauto.
Qed.

(** *** Erasure by identity *)

Lemma splice_first_spec (val : Elem) (bucket : list Elem) :
  match splice_first val bucket with
  | Some r => exists l1 l2,
      bucket = l1 ++ val :: l2 /\ (val ∉ l1) /\ r = l1 ++ l2
  | None => val ∉ bucket
  end.
Proof.
  induction bucket as [| x bucket IH]; simpl.
  - apply not_elem_of_nil.
  - destruct (decide (x = val)) as [-> | Hne].
    + exists [], bucket. repeat split. apply not_elem_of_nil.
    + destruct (splice_first val bucket) as [r |].
      * destruct IH as (l1 & l2 & -> & Hl1 & ->).
        exists (x :: l1), l2. repeat split.
        apply not_elem_of_cons. split; [congruence | exact Hl1].
      * apply not_elem_of_cons. split; [congruence | exact IH].
Qed.

Lemma concat_insert_remove (d : list (list Elem)) (i : nat) l1 l2 val :
  d !! i = Some (l1 ++ val :: l2) ->
  concat d ≡ₚ val :: concat (<[i := (l1 ++ l2)]> d).
Proof.
  revert i. induction d as [| row d IH]; intros i Hi; [discriminate |].
  destruct i as [| i]; simpl in *.
  - injection Hi as ->. rewrite <- !app_assoc. simpl.
    now rewrite <- Permutation_middle.
  - rewrite (IH i Hi). now rewrite <- Permutation_middle.
Qed.

(** [erase val] on a table that stores the handle [val] in the bucket of
    its key: the first occurrence of that very handle is spliced out of
    its bucket, and nothing else changes. *)
Lemma erase_stored (val : Elem) (b : table) :
  bucket_count_ok (row_size b) -> row_size b <= 2 ^ 31 -> placed b ->
  val ∈ elements b ->
  exists (i : nat) l1 l2,
    Z.of_nat i = index_by_value b val /\
    data_ b !! i = Some (l1 ++ val :: l2) /\ (val ∉ l1) /\
    erase val b
    = (Ok tt, mk (max_load_factor_ b) (<[i := (l1 ++ l2)]> (data_ b))
                 (size_ b - 1)).
Proof.
  intros Hcnt Hsmall Hpl Hin.
  apply elem_of_elements in Hin as (j & bucket & Hj & He).
  pose proof (Hpl j bucket val Hj He) as Hidx.
  pose proof (splice_first_spec val bucket) as Hsp.
  destruct (splice_first val bucket) as [r |] eqn:Hs; [| contradiction].
  destruct Hsp as (l1 & l2 & -> & Hl1 & ->).
  exists j, l1, l2. split; [now symmetry |]. split; [exact Hj |].
  split; [exact Hl1 |].
  unfold HashBuckets.erase, bind, get, throw, put, ret. simpl.
  unfold at_. rewrite Hidx.
  destruct (Z.leb_spec 0 (Z.of_nat j)); [| lia].
  now rewrite Nat2Z.id, Hj, Hs.
Qed.

(** [erase] of a handle that is not in the bucket of its key changes
    nothing, whatever equal payloads the bucket holds. *)
Lemma erase_absent (val : Elem) (b : table) bucket :
  at_ b (index_by_value b val) = Some bucket -> val ∉ bucket ->
  erase val b = (Ok tt, b).
Proof.
  intros Hat Hnot.
  unfold HashBuckets.erase, bind, get, throw, put, ret. simpl.
  rewrite Hat. pose proof (splice_first_spec val bucket) as Hsp.
  destruct (splice_first val bucket) as [r |]; [| reflexivity].
  destruct Hsp as (l1 & l2 & -> & _ & _). exfalso. apply Hnot.
  apply elem_of_app. right. apply list_elem_of_here.
Qed.

Lemma erase_elements (val : Elem) (b : table) :
  bucket_count_ok (row_size b) -> row_size b <= 2 ^ 31 -> placed b ->
  val ∈ elements b ->
  exists b',
    erase val b = (Ok tt, b') /\
    size_ b' = size_ b - 1 /\
    row_size b' = row_size b /\
    max_load_factor_ b' = max_load_factor_ b /\
    elements b ≡ₚ val :: elements b' /\
    (forall j : nat,
       filter (fun h => h <> val) <$> data_ b' !! j
       = filter (fun h => h <> val) <$> data_ b !! j) /\
    placed b'.
Proof.
  intros Hcnt Hsmall Hpl Hin.
  destruct (erase_stored val b Hcnt Hsmall Hpl Hin)
    as (i & l1 & l2 & Hi & Hd & Hl1 & He).
  eexists. split; [exact He |]. simpl.
  split; [reflexivity |].
  split; [unfold row_size; simpl; now rewrite length_insert |].
  split; [reflexivity |].
  split; [unfold elements; simpl; now apply concat_insert_remove |].
  split.
  - intros j. destruct (decide (j = i)) as [-> | Hne].
    + rewrite list_lookup_insert_eq by (now apply lookup_lt_Some in Hd).
      rewrite Hd. simpl. f_equal.
      rewrite !filter_app, filter_cons, decide_False by tauto.
      reflexivity.
    + now rewrite list_lookup_insert_ne by congruence.
  - intros j bucket e Hj Hin'. simpl in Hj.
    assert (Hsame : index_by_value
              (mk (max_load_factor_ b) (<[i := (l1 ++ l2)]> (data_ b))
                  (size_ b - 1)) e = index_by_value b e).
    { unfold HashBuckets.index_by_value, HashBuckets.index_by_key, row_size.
      simpl. now rewrite length_insert. }
    rewrite Hsame.
    destruct (decide (j = i)) as [-> | Hne].
    + rewrite list_lookup_insert_eq in Hj by (now apply lookup_lt_Some in Hd).
      injection Hj as <-. apply (Hpl i _ e Hd).
      apply elem_of_app in Hin' as [H1 | H2]; apply elem_of_app;
        [now left | right; now apply list_elem_of_further].
    + rewrite list_lookup_insert_ne in Hj by congruence.
      eapply Hpl; eauto.
Qed.

End Facts.


(** *** A table of integers hashed by themselves *)

Module IntTable.

Definition fetcher (e : Z) : Z := e.
Definition hasher (k : Z) : Z := k.
Definition predicator (x y : Z) : bool := x =? y.

Definition inserts (vals : list Z) : list (op Z) := map Insert vals.

Definition after (ops : list (op Z)) : HashBuckets.t Z :=
  run fetcher hasher ops constructor.

Definition insert : Z -> M Z unit := HashBuckets.insert fetcher hasher.
Definition rehash : Z -> M Z unit := HashBuckets.rehash fetcher hasher.
Definition find : Z -> M Z (option Z) :=
  HashBuckets.find fetcher hasher predicator.

End IntTable.



(** C1 (failing input). A table that holds the key [-1], hashed by
    itself: [insert] and [find] address bucket [-1 & 7 = 7], but
    [rehash 16] computes [-1 % 16 = -1], reads [data[-1]], which is
    [undefined], and throws; the handle is not moved to bucket
    [-1 & 15 = 15] and the table keeps its 8 rows. The ninth insertion into
    such a set throws for the same reason, after the size was incremented,
    and the inserted element is not stored. *)
Theorem rehash_negative_hash_throws :
  let b := IntTable.after [Insert (-1)] in
  IntTable.find (-1) b = (Ok (Some (-1)), b) /\
  JS.bitand (IntTable.hasher (-1)) (16 - 1) = 15 /\
  JS.rem (IntTable.hasher (-1)) 16 = -1 /\
  IntTable.rehash 16 b = (TypeError, b) /\
  row_size (snd (IntTable.rehash 16 b)) = 8 /\
  (let b8 := IntTable.after (IntTable.inserts [-1; 1; 2; 3; 4; 5; 6; 7]) in
   fst (IntTable.insert 8 b8) = TypeError /\
   size_ (snd (IntTable.insert 8 b8)) = 9 /\
   elements (snd (IntTable.insert 8 b8)) = [1; 2; 3; 4; 5; 6; -1; 7]).
Proof. vm_compute. repeat split; reflexivity. Qed.

(** A new table of integers with a given max load factor, filled by
    insertions. *)
Definition loaded (z : Q) (vals : list Z) : HashBuckets.t Z :=
  run IntTable.fetcher IntTable.hasher (IntTable.inserts vals)
      (snd (max_load_factor z constructor)).

(** C2 (counterexample). First table, load factor 1: sixteen insertions
    fill 16 rows, [rehash 8] rebuilds the table with 8 rows, and the next
    insertion doubles the capacity 8 to 16 rows only, for 17 elements.
    Second table, load factor 15/64: the capacity of its 8 rows is 1; the
    second insertion exceeds it and asks [reserve] for
    [floor (2 / (15/64)) = 8] rows, so the table keeps 8 rows, with 2
    elements for a bound of [8 * 15/64 < 2]. *)
Lemma insert_load_bound_counterexample :
  (let b := IntTable.after
              (IntTable.inserts [0; 1; 2; 3; 4; 5; 6; 7;
                                 8; 9; 10; 11; 12; 13; 14; 15]
               ++ [Rehash 8]) in
   let r := IntTable.insert 16 b in
   row_size b = 8 /\ size_ b = 16 /\ max_load_factor_ b = 1%Q /\
   fst r = Ok tt /\ size_ (snd r) = 17 /\ row_size (snd r) = 16 /\
   ~ (inject_Z (size_ (snd r))
      <= inject_Z (row_size (snd r)) * max_load_factor_ (snd r))%Q) /\
  (let b := loaded (15 # 64) [1] in
   let r := IntTable.insert 2 b in
   row_size b = 8 /\ capacity b = 1 /\ size_ b = 1 /\
   max_load_factor_ b = 15 # 64 /\
   fst r = Ok tt /\ size_ (snd r) = 2 /\ row_size (snd r) = 8 /\
   ~ (inject_Z (size_ (snd r))
      <= inject_Z (row_size (snd r)) * max_load_factor_ (snd r))%Q).
Proof.
  split; vm_compute; repeat split; try reflexivity;
    intros H; apply H; reflexivity.
Qed.

Lemma insert_load_bound_witness :
  let b := loaded (3 # 4) [0; 1; 2; 3; 4; 5] in
  capacity b = 6 /\
  exists b',
    IntTable.insert 6 b = (Ok tt, b') /\
    size_ b' = 7 /\ row_size b' = 16 /\
    (inject_Z (size_ b') <= inject_Z (row_size b') * max_load_factor_ b')%Q.
Proof.
  intros b. split; [vm_compute; reflexivity |].
  assert (Hcnt : bucket_count_ok (row_size b)).
  { split; [exists 3; split; [lia | reflexivity] | vm_compute; discriminate]. }
  assert (Hsmall : row_size b <= 2 ^ 30) by (vm_compute; discriminate).
  assert (Hm : (0 < max_load_factor_ b)%Q) by (vm_compute; reflexivity).
  assert (Hsz : size_ b <= capacity b) by (vm_compute; discriminate).
  assert (Hnn : nonneg_hashes IntTable.fetcher IntTable.hasher b).
  { unfold nonneg_hashes. vm_compute. repeat constructor; discriminate. }
  destruct (insert_load_bound IntTable.fetcher IntTable.hasher 6 b
              Hcnt Hsmall Hm Hsz Hnn)
    as (b' & Hi & Hs & _ & _ & _ & _ & _ & Hq).
  exists b'. split; [exact Hi |]. split; [exact Hs |].
  split; [| apply Hq; vm_compute; discriminate].
  unfold IntTable.insert in *.
  assert (He : snd (HashBuckets.insert IntTable.fetcher IntTable.hasher 6 b)
               = b') by now rewrite Hi.
  rewrite <- He. vm_compute. reflexivity.
Defined.

End HashBucketsFacts.

(** ** Iterator handles and the ordered store *)

(** An iterator handle: the identity of a store node (its creation-order
    id) and the payload held by the node. Two handles are the same handle
    when they have the same [uid]. The third component of a handle, the
    container that owns it (the [source] field that
    [new SetIterator(this, ...)] sets), is a field of the handle object:
    it is kept in the heap of [Objects] ([sources]), where containers
    have an identity; within one container it is that container. *)
Record Iterator (T : Type) : Type := mkIterator { uid : nat; value : T }.
Arguments mkIterator {T} uid value.
Arguments uid {T} i.
Arguments value {T} i.

#[global] Instance Iterator_eq_dec {T} `{EqDecision T} :
  EqDecision (Iterator T).
Proof. solve_decision. Defined.

(** Modelled from the spec: the Ordered Store (the [List] behind [data_],
    of which only the declaration is in [std.d.ts]): a sequence of nodes in
    traversal order with [insert_before], [append], [unlink], [begin],
    [end]; [end()] is the position [None]. *)
Module Store.

Section Store.

Context {T : Type}.

Record t : Type := mk {
  nodes : list (Iterator T);
  sequence : nat
}.

Definition empty : t := mk [] 0.

Definition position : Type := option (Iterator T).

Definition end_ : position := None.
Definition begin (s : t) : position := head (nodes s).

(** [it.next()]: the node linked after [it], or [end()]. *)
Fixpoint next_in (l : list (Iterator T)) (it : Iterator T) : position :=
  match l with
  | [] => None
  | x :: l' => if uid x =? uid it then head l' else next_in l' it
  end%nat.

Definition next (s : t) (it : Iterator T) : position := next_in (nodes s) it.

(** Link a node before the node [it]. *)
Fixpoint link_before (l : list (Iterator T)) (it new : Iterator T)
  : list (Iterator T) :=
  match l with
  | [] => [new]
  | x :: l' =>
      if (uid x =? uid it)%nat then new :: x :: l'
      else x :: link_before l' it new
  end.

(** [insert_before(pos, value)]: a fresh node, linked before [pos]
    (appended when [pos] is [end()]). *)
Definition insert_before (pos : position) (v : T) (s : t)
  : Iterator T * t :=
  let new := mkIterator (sequence s) v in
  match pos with
  | None => (new, mk (nodes s ++ [new]) (S (sequence s)))
  | Some it => (new, mk (link_before (nodes s) it new) (S (sequence s)))
  end.

Definition push_back (v : T) (s : t) : Iterator T * t :=
  insert_before end_ v s.

(** [unlink(handle)]: only the node of that handle leaves the sequence. *)
Definition unlink (it : Iterator T) (s : t) : t :=
  mk (filter (fun x => uid x <> uid it) (nodes s)) (sequence s).

(** Dereferencing a handle: its payload while its node is linked. *)
Definition deref (s : t) (it : Iterator T) : option T :=
  value <$> List.find (fun x => uid x =? uid it)%nat (nodes s).

(** Node identities are unique and older than the allocation counter. *)
Definition wf (s : t) : Prop :=
  NoDup (uid <$> nodes s) /\ Forall (fun x => uid x < sequence s)%nat (nodes s).

End Store.

Arguments t : clear implicits.

End Store.

(** ** HashSet and HashMultiSet *)

Module HashSet.

Section HashSet.

Context {T : Type} `{EqDecision T}.

(** [std.hash] and [std.equal_to], the collaborators of the buckets. *)
Variable hash : T -> Z.
Variable equal_to : T -> T -> bool.

Record t : Type := mk {
  data_ : Store.t T;
  hash_buckets_ : HashBuckets.t (Iterator T)
}.

Definition fetcher (it : Iterator T) : T := value it.

Definition constructor : t := mk Store.empty HashBuckets.constructor.

Definition end_ : Store.position (T := T) := Store.end_.

(** [find]: the stored handle, or [end()]. *)
Definition find (val : T) (s : t) : outcome (Store.position (T := T)) :=
  fst (HashBuckets.find fetcher hash equal_to val (hash_buckets_ s)).

Definition handle_insert (item : Iterator T) (s : t) : outcome unit * t :=
  let r := HashBuckets.insert fetcher hash item (hash_buckets_ s) in
  (fst r, mk (data_ s) (snd r)).

Definition handle_erase (item : Iterator T) (s : t) : outcome unit * t :=
  let r := HashBuckets.erase fetcher hash item (hash_buckets_ s) in
  (fst r, mk (data_ s) (snd r)).

(** [HashSet.insert_by_val]. *)
Definition insert_by_val (val : T) (s : t)
  : outcome (Iterator T * bool) * t :=
  match find val s with
  | TypeError => (TypeError, s)
  | Ok (Some it) => (Ok (it, false), s)
  | Ok None =>
      let '(it, d) := Store.push_back val (data_ s) in
      match handle_insert it (mk d (hash_buckets_ s)) with
      | (Ok _, s') => (Ok (it, true), s')
      | (TypeError, s') => (TypeError, s')
      end
  end.

(** [HashMultiSet.insert_by_val]. *)
Definition multi_insert_by_val (val : T) (s : t)
  : outcome (Iterator T) * t :=
  let '(it, d) := Store.insert_before Store.end_ val (data_ s) in
  match handle_insert it (mk d (hash_buckets_ s)) with
  | (Ok _, s') => (Ok it, s')
  | (TypeError, s') => (TypeError, s')
  end.

(** Modelled from the spec: [erase(handle)] of the container base class
    (declared in [std.d.ts]): the index entry is removed through
    [handle_erase], then the store node is unlinked. *)
Definition erase (it : Iterator T) (s : t) : outcome unit * t :=
  match handle_erase it s with
  | (Ok _, s') => (Ok tt, mk (Store.unlink it (data_ s')) (hash_buckets_ s'))
  | (TypeError, s') => (TypeError, s')
  end.

Definition clear (s : t) : t :=
  mk (Store.mk [] (Store.sequence (data_ s)))
     (snd (HashBuckets.clear (hash_buckets_ s))).

(** The index holds exactly the handles of the store, each in the bucket
    of its key. *)
Record wf (s : t) : Prop := {
  wf_store : Store.wf (data_ s);
  wf_index : HashBuckets.elements (hash_buckets_ s)
             ≡ₚ Store.nodes (data_ s);
  wf_count : HashBucketsFacts.bucket_count_ok
               (HashBuckets.row_size (hash_buckets_ s));
  wf_rows : HashBuckets.row_size (hash_buckets_ s) <= 2 ^ 30;
  wf_placed : HashBucketsFacts.placed fetcher hash (hash_buckets_ s)
}.

End HashSet.

Arguments t : clear implicits.

End HashSet.

(** ** Properties of the ordered store *)

Module StoreFacts.

Section Facts.

Context {T : Type} `{EqDecision T}.

Implicit Types (s : Store.t T) (it h : Iterator T).

Lemma uid_inj_in (l : list (Iterator T)) h it :
  NoDup (uid <$> l) -> h ∈ l -> it ∈ l -> uid h = uid it -> h = it.
Proof.
  induction l as [| x l IH]; simpl; intros Hnd Hh Hit Hu.
  - now apply elem_of_nil in Hh.
  - apply NoDup_cons in Hnd as [Hx Hnd].
    apply elem_of_cons in Hh as [-> | Hh], Hit as [-> | Hit].
    + reflexivity.
    + exfalso. apply Hx. rewrite Hu. now apply list_elem_of_fmap_2.
    + exfalso. apply Hx. rewrite <- Hu. now apply list_elem_of_fmap_2.
    + now apply IH.
Qed.

Lemma filter_ext_elem {A} (P Q : A -> Prop)
    `{forall x, Decision (P x)} `{forall x, Decision (Q x)} (l : list A) :
  (forall x, x ∈ l -> P x <-> Q x) -> filter P l = filter Q l.
Proof.
  induction l as [| x l IH]; intros Hpq; [reflexivity |].
  rewrite !filter_cons.
  assert (Hx : P x <-> Q x) by (apply Hpq, list_elem_of_here).
  rewrite IH by (intros y Hy; apply Hpq; now apply list_elem_of_further).
  destruct (decide (P x)), (decide (Q x)); tauto.
Qed.

Lemma unlink_nodes s it :
  NoDup (uid <$> Store.nodes s) -> it ∈ Store.nodes s ->
  Store.nodes (Store.unlink it s)
  = filter (fun h => h <> it) (Store.nodes s).
Proof.
  intros Hnd Hit. unfold Store.unlink. simpl.
  apply filter_ext_elem. intros h Hh. split.
  - intros Hu ->. now apply Hu.
  - intros Hne Hu. apply Hne. eapply uid_inj_in; eauto.
Qed.

Lemma unlink_wf s it : Store.wf s -> Store.wf (Store.unlink it s).
Proof.
  intros [Hnd Hlt]. split; simpl.
  - eapply sublist_NoDup; [exact Hnd |].
    apply fmap_sublist, sublist_filter.
  - apply Forall_forall. intros x Hx.
    apply list_elem_of_filter in Hx as [_ Hx].
    rewrite Forall_forall in Hlt. now apply Hlt.
Qed.

Lemma deref_linked s h :
  NoDup (uid <$> Store.nodes s) -> h ∈ Store.nodes s ->
  Store.deref s h = Some (value h).
Proof.
  intros Hnd Hh. unfold Store.deref.
  destruct (List.find _ (Store.nodes s)) as [x |] eqn:Hf; simpl.
  - apply List.find_some in Hf as [Hx Hu].
    apply Nat.eqb_eq in Hu. apply list_elem_of_In in Hx.
    now rewrite (uid_inj_in _ x h Hnd Hx Hh Hu).
  - apply list_elem_of_In in Hh.
    pose proof (List.find_none _ _ Hf h Hh) as Hc. simpl in Hc.
    now rewrite Nat.eqb_refl in Hc.
Qed.

Lemma deref_unlinked s it : Store.deref (Store.unlink it s) it = None.
Proof.
  unfold Store.deref.
  destruct (List.find _ _) as [x |] eqn:Hf; [| reflexivity].
  apply List.find_some in Hf as [Hx Hu]. apply Nat.eqb_eq in Hu.
  apply list_elem_of_In in Hx. simpl in Hx.
  apply list_elem_of_filter in Hx as [Hne _]. contradiction.
Qed.

Lemma push_back_wf (v : T) s :
  Store.wf s ->
  Store.wf (snd (Store.push_back v s)) /\
  fst (Store.push_back v s) = mkIterator (Store.sequence s) v /\
  Store.nodes (snd (Store.push_back v s))
  = Store.nodes s ++ [fst (Store.push_back v s)] /\
  fst (Store.push_back v s) ∉ Store.nodes s.
Proof.
  intros [Hnd Hlt]. simpl. split; [split |]; simpl.
  - rewrite fmap_app. simpl. apply NoDup_app. split; [exact Hnd |].
    split; [| apply NoDup_singleton].
    intros u Hu Hs. apply list_elem_of_singleton in Hs. subst u.
    apply list_elem_of_fmap in Hu as (x & Hx & Hin).
    rewrite Forall_forall in Hlt. specialize (Hlt x Hin). lia.
  - apply Forall_app. split.
    + eapply Forall_impl; [exact Hlt |]. simpl. lia.
    + constructor; [simpl; lia | constructor].
  - split; [reflexivity |]. split; [reflexivity |].
    intros Hin. rewrite Forall_forall in Hlt.
    specialize (Hlt _ Hin). simpl in Hlt. lia.
Qed.

End Facts.

End StoreFacts.

(** ** Properties of HashSet and HashMultiSet *)

Module HashSetFacts.
Import HashBucketsFacts.

Section Facts.

Context {T : Type} `{EqDecision T}.
Variable hash : T -> Z.
Variable equal_to : T -> T -> bool.

Abbreviation set := (HashSet.t T).
Abbreviation nodes := (fun s : HashSet.t T => Store.nodes (HashSet.data_ s)).
Abbreviation indexed :=
  (fun s : HashSet.t T => HashBuckets.elements (HashSet.hash_buckets_ s)).

Lemma wf_rows_31 (s : set) :
  HashSet.wf hash s ->
  HashBuckets.row_size (HashSet.hash_buckets_ s) <= 2 ^ 31.
Proof. intros Hwf. pose proof (HashSet.wf_rows hash s Hwf). lia. Qed.

(** *** Erasure through a handle *)

Lemma handle_erase_stored (s : set) (it : Iterator T) :
  HashSet.wf hash s -> it ∈ nodes s ->
  exists hb',
    HashSet.handle_erase hash it s = (Ok tt, HashSet.mk (HashSet.data_ s) hb') /\
    HashBuckets.size_ hb' = HashBuckets.size_ (HashSet.hash_buckets_ s) - 1 /\
    HashBuckets.row_size hb' = HashBuckets.row_size (HashSet.hash_buckets_ s) /\
    indexed s ≡ₚ it :: HashBuckets.elements hb' /\
    (forall j : nat,
       filter (fun h => h <> it) <$> HashBuckets.data_ hb' !! j
       = filter (fun h => h <> it)
           <$> HashBuckets.data_ (HashSet.hash_buckets_ s) !! j) /\
    placed HashSet.fetcher hash hb'.
Proof.
  intros Hwf Hit.
  destruct (erase_elements HashSet.fetcher hash it (HashSet.hash_buckets_ s))
    as (hb' & He & Hs & Hr & _ & Hp & Hf & Hpl).
  - exact (HashSet.wf_count hash s Hwf).
  - now apply wf_rows_31.
  - exact (HashSet.wf_placed hash s Hwf).
  - rewrite (HashSet.wf_index hash s Hwf). exact Hit.
  - exists hb'. unfold HashSet.handle_erase. rewrite He. simpl. auto 10.
Qed.

Lemma perm_cons_nodup_notin (l l' : list (Iterator T)) it :
  NoDup l -> l ≡ₚ it :: l' ->
  (it ∉ l') /\ l' ≡ₚ filter (fun h => h <> it) l.
Proof.
  intros Hnd Hp. rewrite Hp in Hnd. apply NoDup_cons in Hnd as [Hni Hnd'].
  split; [exact Hni |].
  rewrite Hp, filter_cons, decide_False by tauto.
  clear Hp Hnd'. induction l' as [| x l' IH]; [reflexivity |].
  apply not_elem_of_cons in Hni as [Hne Hni].
  rewrite filter_cons, decide_True by congruence.
  now rewrite <- IH.
Qed.

Lemma nodup_nodes (s : set) : HashSet.wf hash s -> NoDup (nodes s).
Proof.
  intros Hwf. destruct (HashSet.wf_store hash s Hwf) as [Hnd _].
  eapply NoDup_fmap_1. exact Hnd.
Qed.

(** Erasing through a handle in a hash container: [handle_erase] splices
    that very handle out of its bucket and leaves every other handle in
    its bucket, at its relative position, even one whose payload equals
    the erased one; [erase] then unlinks that node only. Every other
    handle of the container stays linked, stays indexed and dereferences
    to the payload it had; the erased handle no longer dereferences. *)
Lemma hash_erase_by_handle (s : set) (it : Iterator T) :
  HashSet.wf hash s -> it ∈ nodes s ->
  exists s',
    HashSet.erase hash it s = (Ok tt, s') /\
    fst (HashSet.handle_erase hash it s) = Ok tt /\
    HashSet.hash_buckets_ s'
    = HashSet.hash_buckets_ (snd (HashSet.handle_erase hash it s)) /\
    nodes s' = filter (fun h => h <> it) (nodes s) /\
    indexed s' ≡ₚ filter (fun h => h <> it) (indexed s) /\
    (forall j : nat,
       filter (fun h => h <> it)
         <$> HashBuckets.data_ (HashSet.hash_buckets_ s') !! j
       = filter (fun h => h <> it)
           <$> HashBuckets.data_ (HashSet.hash_buckets_ s) !! j) /\
    HashBuckets.size_ (HashSet.hash_buckets_ s')
    = HashBuckets.size_ (HashSet.hash_buckets_ s) - 1 /\
    (it ∉ nodes s') /\ (it ∉ indexed s') /\
    Store.deref (HashSet.data_ s') it = None /\
    (forall h, h ∈ nodes s -> h <> it ->
       h ∈ nodes s' /\ h ∈ indexed s' /\
       Store.deref (HashSet.data_ s') h = Some (value h) /\
       Store.deref (HashSet.data_ s) h = Some (value h)) /\
    HashSet.wf hash s'.
Proof.
  intros Hwf Hit.
  destruct (handle_erase_stored s it Hwf Hit)
    as (hb' & He & Hsz & Hrow & Hperm & Hfil & Hpl).
  destruct (HashSet.wf_store hash s Hwf) as [Hnd Hlt].
  pose proof (nodup_nodes s Hwf) as Hndn.
  assert (Hndi : NoDup (indexed s))
    by now rewrite (HashSet.wf_index hash s Hwf).
  destruct (perm_cons_nodup_notin _ _ it Hndi Hperm) as [Hni Hpf].
  pose proof (StoreFacts.unlink_nodes (HashSet.data_ s) it Hnd Hit) as Hun.
  exists (HashSet.mk (Store.unlink it (HashSet.data_ s)) hb').
  split; [unfold HashSet.erase; rewrite He; reflexivity |].
  rewrite He. cbn [fst snd HashSet.data_ HashSet.hash_buckets_].
  split; [reflexivity |]. split; [reflexivity |].
  split; [exact Hun |]. split; [exact Hpf |]. split; [exact Hfil |].
  split; [exact Hsz |].
  split; [rewrite Hun; intros Hc; apply list_elem_of_filter in Hc; tauto |].
  split; [exact Hni |].
  split; [apply StoreFacts.deref_unlinked |].
  assert (Hwf' : HashSet.wf hash
            (HashSet.mk (Store.unlink it (HashSet.data_ s)) hb')).
  { constructor; cbn [HashSet.data_ HashSet.hash_buckets_].
    - apply StoreFacts.unlink_wf. now split.
    - rewrite Hun, Hpf. now rewrite (HashSet.wf_index hash s Hwf).
    - rewrite Hrow. exact (HashSet.wf_count hash s Hwf).
    - rewrite Hrow. exact (HashSet.wf_rows hash s Hwf).
    - exact Hpl. }
  split; [| exact Hwf'].
  intros h Hh Hne.
  assert (Hh' : h ∈ Store.nodes (Store.unlink it (HashSet.data_ s))).
  { rewrite Hun. apply list_elem_of_filter. now split. }
  split; [exact Hh' |].
  split.
  { rewrite Hpf. apply list_elem_of_filter. split; [exact Hne |].
    now rewrite (HashSet.wf_index hash s Hwf). }
  split.
  - apply StoreFacts.deref_linked; [| exact Hh'].
    destruct (HashSet.wf_store hash _ Hwf') as [Hnd' _]. exact Hnd'.
  - now apply StoreFacts.deref_linked.
Qed.

(** *** Insertion *)

Hypothesis hash_nonneg : forall x, 0 <= hash x.
Hypothesis equal_hash : forall x y, equal_to x y = true -> hash x = hash y.

Lemma nonneg_all (hb : HashBuckets.t (Iterator T)) :
  nonneg_hashes HashSet.fetcher hash hb.
Proof. apply Forall_forall. intros e _. apply hash_nonneg. Qed.

Lemma constructor_wf : HashSet.wf hash HashSet.constructor.
Proof.
  constructor; simpl.
  - split; simpl; constructor.
  - reflexivity.
  - apply constructor_row_size_ok.
  - vm_compute. discriminate.
  - intros j bucket e Hj He. exfalso.
    change (HashBuckets.data_ HashBuckets.constructor)
      with (replicate 8 (@nil (Iterator T))) in Hj.
    apply lookup_replicate in Hj as [-> _]. now apply elem_of_nil in He.
Qed.

(** Registering a fresh store node in the index. *)
Lemma handle_insert_fresh (s : set) (val : T) :
  HashSet.wf hash s ->
  let it := fst (Store.push_back val (HashSet.data_ s)) in
  let d := snd (Store.push_back val (HashSet.data_ s)) in
  exists hb',
    HashSet.handle_insert hash it (HashSet.mk d (HashSet.hash_buckets_ s))
    = (Ok tt, HashSet.mk d hb') /\
    it = mkIterator (Store.sequence (HashSet.data_ s)) val /\
    Store.nodes d = nodes s ++ [it] /\ (it ∉ nodes s) /\
    Store.wf d /\
    HashBuckets.elements hb' ≡ₚ Store.nodes d /\
    bucket_count_ok (HashBuckets.row_size hb') /\
    HashBuckets.row_size hb' <= 2 ^ 31 /\
    placed HashSet.fetcher hash hb' /\
    HashBuckets.size_ hb' = HashBuckets.size_ (HashSet.hash_buckets_ s) + 1.
Proof.
  intros Hwf it d.
  destruct (StoreFacts.push_back_wf val (HashSet.data_ s)
              (HashSet.wf_store hash s Hwf)) as (Hwd & Hit & Hnodes & Hfresh).
  destruct (insert_ok HashSet.fetcher hash it (HashSet.hash_buckets_ s)
              (HashSet.wf_count hash s Hwf) (HashSet.wf_rows hash s Hwf)
              (nonneg_all _) (HashSet.wf_placed hash s Hwf))
    as (hb' & Hi & Hsz & _ & Hel & Hpl & Hcnt & Hrows).
  exists hb'. unfold HashSet.handle_insert.
  cbn [HashSet.data_ HashSet.hash_buckets_]. rewrite Hi.
  split; [reflexivity |]. split; [exact Hit |].
  split; [exact Hnodes |]. split; [exact Hfresh |]. split; [exact Hwd |].
  split.
  { rewrite Hel, (HashSet.wf_index hash s Hwf). unfold d. rewrite Hnodes.
    apply Permutation_cons_append. }
  auto.
Qed.

(** [insert_by_val] when an equal element is present: the handle found
    in the index comes back with [false] and the container is the same. *)
Lemma insert_by_val_present (s : set) (val : T) (e : Iterator T) :
  HashSet.wf hash s -> e ∈ nodes s -> equal_to val (value e) = true ->
  exists it,
    HashSet.insert_by_val hash equal_to val s = (Ok (it, false), s) /\
    it ∈ nodes s /\ equal_to val (value it) = true.
Proof.
  intros Hwf He Heq.
  destruct (find_complete HashSet.fetcher hash equal_to val
              (HashSet.hash_buckets_ s) e equal_hash
              (HashSet.wf_count hash s Hwf) (wf_rows_31 s Hwf)
              (HashSet.wf_placed hash s Hwf))
    as (it & Hf & Hin & Hp).
  - now rewrite (HashSet.wf_index hash s Hwf).
  - exact Heq.
  - exists it. unfold HashSet.insert_by_val, HashSet.find. rewrite Hf. simpl.
    split; [reflexivity |]. split; [| exact Hp].
    now rewrite <- (HashSet.wf_index hash s Hwf).
Qed.

(** [insert_by_val] when no equal element is present: a new node is
    appended to the store and registered in the index. *)
Lemma insert_by_val_absent (s : set) (val : T) :
  HashSet.wf hash s ->
  (forall e, e ∈ nodes s -> equal_to val (value e) = false) ->
  exists it s',
    HashSet.insert_by_val hash equal_to val s = (Ok (it, true), s') /\
    it = mkIterator (Store.sequence (HashSet.data_ s)) val /\
    nodes s' = nodes s ++ [it] /\ (it ∉ nodes s) /\
    indexed s' ≡ₚ nodes s' /\
    Store.wf (HashSet.data_ s') /\
    placed HashSet.fetcher hash (HashSet.hash_buckets_ s') /\
    bucket_count_ok (HashBuckets.row_size (HashSet.hash_buckets_ s')).
Proof.
  intros Hwf Hnone.
  destruct (find_total HashSet.fetcher hash equal_to val
              (HashSet.hash_buckets_ s) (HashSet.wf_count hash s Hwf)
              (wf_rows_31 s Hwf)) as [r Hf].
  assert (r = None) as ->.
  { destruct r as [it |]; [| reflexivity].
    apply find_sound in Hf as (_ & Hin & Hp).
    rewrite (HashSet.wf_index hash s Hwf) in Hin.
    unfold HashSet.fetcher in Hp. rewrite (Hnone it Hin) in Hp.
    discriminate. }
  destruct (handle_insert_fresh s val Hwf)
    as (hb' & Hi & Hit & Hnodes & Hfresh & Hwd & Hel & Hcnt & _ & Hpl & _).
  unfold HashSet.insert_by_val, HashSet.find. rewrite Hf. cbn [fst].
  destruct (Store.push_back val (HashSet.data_ s)) as [it d] eqn:Hpb.
  cbn [fst snd] in *. rewrite Hi.
  exists it, (HashSet.mk d hb').
  split; [reflexivity |]. split; [exact Hit |].
  cbn [HashSet.data_ HashSet.hash_buckets_]. auto 10.
Qed.

(** [HashMultiSet.insert_by_val] always appends and registers. *)
Lemma multi_insert_by_val_ok (s : set) (val : T) :
  HashSet.wf hash s ->
  exists it s',
    HashSet.multi_insert_by_val hash val s = (Ok it, s') /\
    it = mkIterator (Store.sequence (HashSet.data_ s)) val /\
    nodes s' = nodes s ++ [it] /\
    (HashBuckets.row_size (HashSet.hash_buckets_ s') <= 2 ^ 30 ->
     HashSet.wf hash s').
Proof.
  intros Hwf.
  destruct (handle_insert_fresh s val Hwf)
    as (hb' & Hi & Hit & Hnodes & Hfresh & Hwd & Hel & Hcnt & _ & Hpl & _).
  unfold HashSet.multi_insert_by_val.
  change (Store.insert_before Store.end_ val (HashSet.data_ s))
    with (Store.push_back val (HashSet.data_ s)).
  destruct (Store.push_back val (HashSet.data_ s)) as [it d] eqn:Hpb.
  cbn [fst snd] in *. rewrite Hi.
  exists it, (HashSet.mk d hb').
  split; [reflexivity |]. split; [exact Hit |].
  cbn [HashSet.data_ HashSet.hash_buckets_].
  split; [exact Hnodes |]. intros Hrows. now constructor.
Qed.

End Facts.


(** *** A multiset of integers hashed by absolute value *)

Module IntMultiSet.

Definition hash (x : Z) : Z := Z.abs x.

Definition insert (val : Z) (s : HashSet.t Z) : HashSet.t Z :=
  snd (HashSet.multi_insert_by_val hash val s).

(** Two distinct handles holding the same payload [5], then a [7]. *)
Definition two_fives : HashSet.t Z :=
  insert 7 (insert 5 (insert 5 HashSet.constructor)).

Definition first_five : Iterator Z := mkIterator 0 5.
Definition second_five : Iterator Z := mkIterator 1 5.

Lemma hash_nonneg (x : Z) : 0 <= hash x.
Proof. apply Z.abs_nonneg. Qed.

Lemma insert_wf (val : Z) (s : HashSet.t Z) :
  HashSet.wf hash s ->
  HashBuckets.row_size (HashSet.hash_buckets_ (insert val s)) <= 2 ^ 30 ->
  HashSet.wf hash (insert val s).
Proof.
  intros Hwf Hrows. unfold insert in *.
  destruct (multi_insert_by_val_ok hash hash_nonneg s val Hwf)
    as (it & s' & Hi & _ & _ & Hwf').
  rewrite Hi in *. now apply Hwf'.
Qed.

Lemma two_fives_wf : HashSet.wf hash two_fives.
Proof.
  unfold two_fives.
  repeat (apply insert_wf; [| vm_compute; discriminate]).
  apply constructor_wf.
Qed.

End IntMultiSet.

End HashSetFacts.

(** ** XTree (red-black search tree index)

    The tree classes are declared in [std.d.ts] ([XTree], [XTreeNode],
    [Color]); their bodies are not part of the sources at hand. The tree
    below follows the specification: nodes are red or black, own their two
    children, and reach their parent, grandparent, sibling and uncle
    through the chain of ancestors, which is kept as a path from the node
    up to the root. *)

Module XTree.

Inductive Color : Type := BLACK | RED.

Inductive XTreeNode (T : Type) : Type :=
| null
| node (color : Color) (left : XTreeNode T) (value : T) (right : XTreeNode T).
Arguments null {T}.
Arguments node {T} color left value right.

(** Which child of its parent a node is. *)
Inductive side : Type := Left | Right.

(** One ancestor seen from a child: the side the child hangs on, the
    ancestor's colour and payload, and the child's sibling. *)
Inductive ancestor (T : Type) : Type :=
| Anc (s : side) (color : Color) (value : T) (sibling : XTreeNode T).
Arguments Anc {T} s color value sibling.

Section Tree.

Context {T : Type}.

Abbreviation tree := (XTreeNode T).
(** Ancestors from the parent up to the root. *)
Abbreviation path := (list (ancestor T)).

(** [fetch_color]: a missing node counts as black. *)
Definition fetch_color (n : tree) : Color :=
  match n with
  | null => BLACK
  | node c _ _ _ => c
  end.

Definition set_color (c : Color) (n : tree) : tree :=
  match n with
  | null => null
  | node _ l v r => node c l v r
  end.

Definition rotate_left (n : tree) : tree :=
  match n with
  | node c a x (node c' b y d) => node c' (node c a x b) y d
  | _ => n
  end.

Definition rotate_right (n : tree) : tree :=
  match n with
  | node c (node c' a x b) y d => node c' a x (node c b y d)
  | _ => n
  end.

(** Hang [n] under one ancestor, and under a whole path. *)
Definition attach (a : ancestor T) (n : tree) : tree :=
  match a with
  | Anc Left c v s => node c n v s
  | Anc Right c v s => node c s v n
  end.

Fixpoint plug (p : path) (n : tree) : tree :=
  match p with
  | [] => n
  | a :: p' => plug p' (attach a n)
  end.

Fixpoint inorder (n : tree) : list T :=
  match n with
  | null => []
  | node _ l v r => inorder l ++ v :: inorder r
  end.

(** The tree's ordering of payloads. *)
Variable is_less : T -> T -> bool.

(** *** Insertion *)

(** Modelled from the spec: descent by the comparator to the empty
    position where a new payload belongs. *)
Fixpoint descend (val : T) (n : tree) (p : path) : path :=
  match n with
  | null => p
  | node c l v r =>
      if is_less val v then descend val l (Anc Left c v r :: p)
      else descend val r (Anc Right c v l :: p)
  end.

(** Modelled from the spec: insert cases 4 and 5, parent red and uncle
    black or absent. [n] hangs on side [s] of its red parent, the parent
    on side [s'] of the grandparent. Case 4 rotates the parent when the
    two sides differ; case 5 colours the parent black, the grandparent
    red, and rotates the grandparent. *)
Definition insert_case45 (s s' : side) (n : tree) (pv : T) (ps : tree)
    (gv : T) (u : tree) : tree :=
  let parent := attach (Anc s RED pv ps) n in
  let parent :=
    match s', s with
    | Left, Right => rotate_left parent
    | Right, Left => rotate_right parent
    | _, _ => parent
    end in
  let grand := attach (Anc s' RED gv u) (set_color BLACK parent) in
  match s' with
  | Left => rotate_right grand
  | Right => rotate_left grand
  end.

(** Modelled from the spec: the insert fix-up for a red node [n] under
    the ancestors [p]. Case 1: [n] is the root and becomes black. Case 2:
    the parent is black, done. Case 3: parent and uncle red; both become
    black, the grandparent red, and the walk goes on from the
    grandparent. Cases 4 and 5 end the walk with rotations. *)
Fixpoint insert_case1 (n : tree) (p : path) : tree :=
  match p with
  | [] => set_color BLACK n
  | Anc s BLACK pv ps :: p' => plug p' (attach (Anc s BLACK pv ps) n)
  | Anc s RED pv ps :: p' =>
      match p' with
      | [] => set_color BLACK (attach (Anc s RED pv ps) n)
      | Anc s' gc gv u :: p'' =>
          match fetch_color u with
          | RED =>
              insert_case1
                (attach (Anc s' RED gv (set_color BLACK u))
                        (attach (Anc s BLACK pv ps) n))
                p''
          | BLACK => plug p'' (insert_case45 s s' n pv ps gv u)
          end
      end
  end.

(** Modelled from the spec: [insert]: the new node is red. *)
Definition insert (val : T) (root : tree) : tree :=
  insert_case1 (node RED null val null) (descend val root []).

(** *** Erasure *)

(** Modelled from the spec: erase cases 3 to 6 for a node [n] one black
    short, hanging on side [s] of a parent coloured [pc], with a black
    sibling. The result is the repaired subtree that replaces the parent,
    and whether that subtree is still one black short (case 3). *)
Definition erase_black_sibling (s : side) (n : tree) (pc : Color) (pv : T)
    (sibling : tree) : tree * bool :=
  match sibling with
  | null => (attach (Anc s pc pv null) n, false)
  | node _ sl sv sr =>
      let near := match s with Left => sl | Right => sr end in
      let far := match s with Left => sr | Right => sl end in
      match fetch_color far, fetch_color near with
      | BLACK, BLACK =>
          (* cases 3 and 4: the sibling becomes red *)
          (attach (Anc s BLACK pv (node RED sl sv sr)) n,
           match pc with BLACK => true | RED => false end)
      | RED, _ =>
          (* case 6: rotate the parent towards [n] *)
          (match s with
           | Left => node pc (node BLACK n pv sl) sv (set_color BLACK sr)
           | Right => node pc (set_color BLACK sl) sv (node BLACK sr pv n)
           end, false)
      | BLACK, RED =>
          (* case 5, rotate the sibling away from [n]; then case 6 *)
          (match s, near with
           | Left, node _ a x b =>
               node pc (node BLACK n pv a) x (node BLACK b sv sr)
           | Right, node _ a x b =>
               node pc (node BLACK sl sv a) x (node BLACK b pv n)
           | _, null => attach (Anc s pc pv sibling) n
           end, false)
      end
  end.

(** Modelled from the spec: the erase fix-up for a node [n] one black
    short. Case 1: [n] is the root. Case 2: a red sibling is rotated
    above the parent, which becomes red; the new sibling is black. *)
Fixpoint erase_case1 (n : tree) (p : path) : tree :=
  match p with
  | [] => n
  | Anc s pc pv sibling :: p' =>
      match sibling with
      | node RED sl sv sr =>
          let near := match s with Left => sl | Right => sr end in
          let far := match s with Left => sr | Right => sl end in
          plug p' (attach (Anc s BLACK sv far)
                          (fst (erase_black_sibling s n RED pv near)))
      | _ =>
          let '(t, short) := erase_black_sibling s n pc pv sibling in
          if short then erase_case1 t p' else plug p' t
      end
  end.

(** Modelled from the spec: unlink a node of colour [c] that has at most
    one child [child]. A red node leaves without repair; a black node
    with a red child hands its colour to the child; otherwise the
    position is one black short. *)
Definition replace_node (c : Color) (child : tree) (p : path) : tree :=
  match c, child with
  | RED, _ => plug p child
  | BLACK, node RED l v r => plug p (node BLACK l v r)
  | BLACK, _ => erase_case1 child p
  end.

Fixpoint fetch_minimum (n : tree) : option T :=
  match n with
  | null => None
  | node _ null v _ => Some v
  | node _ l _ _ => fetch_minimum l
  end.

(** Unlink the leftmost node of [n]. *)
Fixpoint erase_minimum (n : tree) (p : path) : tree :=
  match n with
  | null => plug p null
  | node c null _ r => replace_node c r p
  | node c l v r => erase_minimum l (Anc Left c v r :: p)
  end.

(** Modelled from the spec: [erase]: find the payload; a node with two
    children takes the payload of its in-order successor, which is
    unlinked in its place. *)
Fixpoint erase_from (val : T) (n : tree) (p : path) : option tree :=
  match n with
  | null => None
  | node c l v r =>
      if is_less val v then erase_from val l (Anc Left c v r :: p)
      else if is_less v val then erase_from val r (Anc Right c v l :: p)
      else
        match l, r with
        | node _ _ _ _, node _ _ _ _ =>
            match fetch_minimum r with
            | Some m => Some (erase_minimum r (Anc Right c m l :: p))
            | None => None
            end
        | null, _ => Some (replace_node c r p)
        | _, null => Some (replace_node c l p)
        end
  end.

Definition erase (val : T) (root : tree) : tree :=
  match erase_from val root [] with
  | Some root' => root'
  | None => root
  end.

(** *** The red-black invariants, as checks on a tree *)

(** No red node has a red child. *)
Fixpoint no_red_red (n : tree) : bool :=
  match n with
  | null => true
  | node c l _ r =>
      match c with
      | RED =>
          match fetch_color l, fetch_color r with
          | BLACK, BLACK => true
          | _, _ => false
          end
      | BLACK => true
      end && no_red_red l && no_red_red r
  end.

(** The number of black nodes on each path from [n] down to a missing
    child, one entry per path. *)
Fixpoint path_blacks (n : tree) : list nat :=
  match n with
  | null => [O]
  | node c l _ r =>
      (fun k => match c with BLACK => S k | RED => k end)
        <$> (path_blacks l ++ path_blacks r)
  end.

Definition equal_black_height (n : tree) : Prop :=
  exists h, Forall (fun k => k = h) (path_blacks n).

Definition in_order (n : tree) : Prop :=
  StronglySorted (fun a b => is_less b a = false) (inorder n).

Record red_black (n : tree) : Prop := {
  root_black : fetch_color n = BLACK;
  red_has_black_children : no_red_red n = true;
  black_height : equal_black_height n;
  search_order : in_order n
}.

Inductive op : Type :=
| Insert (val : T)
| Erase (val : T).

Definition exec (o : op) (root : tree) : tree :=
  match o with
  | Insert val => insert val root
  | Erase val => erase val root
  end.

Definition run (ops : list op) : tree :=
  fold_left (fun root o => exec o root) ops null.

End Tree.

Arguments op : clear implicits.

End XTree.

(** ** Properties of the red-black tree *)

Module XTreeFacts.
Import XTree.

Section Shape.

Context {T : Type}.

Abbreviation tree := (XTreeNode T).
Abbreviation path := (list (ancestor T)).

(** [rb n h]: no red node of [n] has a red child and every path from [n]
    to a missing child crosses [h] black nodes. *)
Inductive rb : tree -> nat -> Prop :=
| rb_null : rb null 0
| rb_red l v r h :
    rb l h -> rb r h -> fetch_color l = BLACK -> fetch_color r = BLACK ->
    rb (node RED l v r) h
| rb_black l v r h :
    rb l h -> rb r h -> rb (node BLACK l v r) (S h).

Lemma rb_no_red_red (n : tree) h : rb n h -> no_red_red n = true.
Proof.
  induction 1 as [| l v r h _ IHl _ IHr Hl Hr | l v r h _ IHl _ IHr]; simpl.
  - reflexivity.
  - now rewrite Hl, Hr, IHl, IHr.
  - now rewrite IHl, IHr.
Qed.

Lemma rb_path_blacks (n : tree) h :
  rb n h -> Forall (fun k => k = h) (path_blacks n).
Proof.
  induction 1 as [| l v r h _ IHl _ IHr Hl Hr | l v r h _ IHl _ IHr]; simpl.
  - repeat constructor.
  - apply Forall_fmap, Forall_app. split; assumption.
  - apply Forall_fmap, Forall_app.
    split; (eapply Forall_impl; [eassumption |]); simpl; congruence.
Qed.

Lemma rb_height_unique (n : tree) h h' : rb n h -> rb n h' -> h = h'.
Proof.
  intros H. revert h'.
  induction H as [| l v r h _ IHl _ _ _ _ | l v r h _ IHl _ _];
    intros h' H'; inversion H'; subst; auto.
Qed.

Lemma rb_zero_black (n : tree) :
  rb n 0 -> fetch_color n = BLACK -> n = null.
Proof. intros H Hc. inversion H; subst; [reflexivity | discriminate]. Qed.

Lemma rb_set_black (n : tree) h :
  rb n h -> fetch_color n = RED -> rb (set_color BLACK n) (S h).
Proof.
  intros H Hc. inversion H; subst; try discriminate. now constructor.
Qed.

(** *** Paths that accept a subtree of a given black height

    [rb_path p h H]: hanging under [p] any subtree of black height [h]
    whose root colour suits its parent yields a tree of black height [H]
    with a black root. *)

Definition top_black (p : path) : Prop :=
  match p with
  | Anc _ BLACK _ _ :: _ => True
  | _ => False
  end.

Inductive rb_path : path -> nat -> nat -> Prop :=
| rb_path_root h : rb_path [] h h
| rb_path_black s v sib p h H :
    rb sib h -> rb_path p (S h) H ->
    rb_path (Anc s BLACK v sib :: p) h H
| rb_path_red s v sib p h H :
    rb sib h -> fetch_color sib = BLACK -> rb_path p h H -> top_black p ->
    rb_path (Anc s RED v sib :: p) h H.

(** A subtree fits under [p] when it is black or [p] starts with a black
    ancestor. *)
Definition fits (n : tree) (p : path) : Prop :=
  fetch_color n = RED -> top_black p.

Lemma attach_rb_black s v sib (n : tree) h :
  rb n h -> rb sib h -> rb (attach (Anc s BLACK v sib) n) (S h).
Proof. intros Hn Hs. destruct s; simpl; now constructor. Qed.

Lemma attach_rb_red s v sib (n : tree) h :
  rb n h -> rb sib h -> fetch_color n = BLACK -> fetch_color sib = BLACK ->
  rb (attach (Anc s RED v sib) n) h.
Proof. intros Hn Hs Hcn Hcs. destruct s; simpl; now constructor. Qed.

Lemma attach_color s c v sib (n : tree) :
  fetch_color (attach (Anc s c v sib) n) = c.
Proof. now destruct s. Qed.

Lemma plug_rb (p : path) : forall (n : tree) h H,
  rb_path p h H -> rb n h ->
  (fetch_color n = RED -> p <> [] -> top_black p) ->
  rb (plug p n) H.
Proof.
  induction p as [| a p IH]; intros n h H Hp Hn Hfit; simpl.
  - inversion Hp; subst. exact Hn.
  - inversion Hp as [| s v sib p0 h0 H0 Hs Hp' | s v sib p0 h0 H0 Hs Hc Hp' Htop];
      subst.
    + eapply IH; [exact Hp' | now apply attach_rb_black |].
      rewrite attach_color. discriminate.
    + eapply IH; [exact Hp' | | intros _ _; exact Htop].
      apply attach_rb_red; auto.
      destruct (fetch_color n) eqn:Hcn; [reflexivity |].
      now specialize (Hfit eq_refl ltac:(discriminate)).
Qed.

Lemma plug_color (p : path) : forall (n : tree) h H,
  rb_path p h H -> (p = [] -> fetch_color n = BLACK) ->
  fetch_color (plug p n) = BLACK.
Proof.
  induction p as [| a p IH]; intros n h H Hp Hn; simpl.
  - now apply Hn.
  - inversion Hp as [| s v sib p0 h0 H0 Hs Hp' | s v sib p0 h0 H0 Hs Hc Hp' Htop];
      subst.
    + eapply IH; [exact Hp' |]. intros _. apply attach_color.
    + eapply IH; [exact Hp' |]. intros ->. contradiction.
Qed.

(** Descending from a well-formed position keeps the path well formed. *)
Lemma descend_path (is_less : T -> T -> bool) (val : T) (n : tree) :
  forall p h H,
    rb_path p h H -> rb n h -> fits n p ->
    rb_path (descend is_less val n p) 0 H.
Proof.
  induction n as [| c l IHl v r IHr]; intros p h H Hp Hn Hfit; simpl.
  - inversion Hn; subst. exact Hp.
  - inversion Hn as [| l0 v0 r0 h0 Hl Hr Hcl Hcr | l0 v0 r0 h0 Hl Hr]; subst.
    + specialize (Hfit eq_refl).
      destruct (is_less val v).
      * eapply IHl; [| exact Hl | intros Hc; congruence].
        now constructor.
      * eapply IHr; [| exact Hr | intros Hc; congruence].
        now constructor.
    + destruct (is_less val v).
      * eapply IHl; [| exact Hl | intros _; exact I].
        now constructor.
      * eapply IHr; [| exact Hr | intros _; exact I].
        now constructor.
Qed.

(** *** Insertion keeps the shape *)

Lemma red_node (n : tree) h :
  rb n h -> fetch_color n = RED ->
  exists l v r, n = node RED l v r /\ rb l h /\ rb r h /\
                fetch_color l = BLACK /\ fetch_color r = BLACK.
Proof.
  intros H Hc. inversion H; subst; try discriminate. eauto 10.
Qed.

Lemma insert_case45_rb s s' (n : tree) pv ps gv u h :
  rb n h -> fetch_color n = RED ->
  rb ps h -> fetch_color ps = BLACK ->
  rb u h -> fetch_color u = BLACK ->
  rb (insert_case45 s s' n pv ps gv u) (S h) /\
  fetch_color (insert_case45 s s' n pv ps gv u) = BLACK.
Proof.
  intros Hn Hcn Hps Hcps Hu Hcu.
  destruct (red_node n h Hn Hcn) as (l & v & r & -> & Hl & Hr & Hcl & Hcr).
  destruct s, s'; simpl; split; try reflexivity;
    repeat (constructor; auto).
Qed.

Lemma path_ind2 (P : path -> Prop) :
  P [] -> (forall a, P [a]) -> (forall a b p, P p -> P (a :: b :: p)) ->
  forall p, P p.
Proof.
  intros H0 H1 H2.
  fix IH 1. intros [| a [| b p]]; [exact H0 | apply H1 | apply H2, IH].
Qed.

Lemma insert_case1_rb (p : path) : forall (n : tree) h H,
  rb_path p h H -> rb n h -> fetch_color n = RED ->
  exists H', rb (insert_case1 n p) H' /\
             fetch_color (insert_case1 n p) = BLACK.
Proof.
  induction p as [| a | a b p IH] using path_ind2; intros n h H Hp Hn Hcn.
  - simpl. exists (S h). split; [now apply rb_set_black |].
    destruct (red_node n h Hn Hcn) as (l & v & r & -> & _). reflexivity.
  - inversion Hp as [| s v sib p0 h0 H0 Hs Hp' | s v sib p0 h0 H0 Hs Hc Hp' Htop];
      subst; [| contradiction].
    inversion Hp'; subst. cbn [insert_case1 plug]. exists (S h).
    split; [now apply attach_rb_black | apply attach_color].
  - inversion Hp as [| s v sib p0 h0 H0 Hs Hp' | s v sib p0 h0 H0 Hs Hc Hp' Htop];
      subst.
    + (* case 2 *)
      exists H. cbn [insert_case1]. split.
      * eapply (plug_rb (b :: p)); [exact Hp' | now apply attach_rb_black |].
        rewrite attach_color. discriminate.
      * eapply (plug_color (b :: p)); [exact Hp' | discriminate].
    + destruct b as [s' gc gv u]. simpl in Htop.
      destruct gc; [| contradiction].
      inversion Hp' as [| ? ? ? ? ? ? Hu Hp'' |]; subst.
      cbn [insert_case1].
      destruct (fetch_color u) eqn:Hcu.
      * (* cases 4 and 5 *)
        destruct (insert_case45_rb s s' n v sib gv u h Hn Hcn Hs Hc Hu Hcu)
          as [Hrb Hcol].
        exists H. split.
        -- eapply plug_rb; [exact Hp'' | exact Hrb |]. congruence.
        -- eapply plug_color; [exact Hp'' | intros _; exact Hcol].
      * (* case 3 *)
        eapply IH; [exact Hp'' | | apply attach_color].
        apply attach_rb_red.
        -- now apply attach_rb_black.
        -- now apply rb_set_black.
        -- apply attach_color.
        -- destruct (red_node u h Hu Hcu) as (? & ? & ? & -> & _).
           reflexivity.
Qed.

(** [insert] on a red-black tree gives a red-black tree. *)
Lemma insert_rb (is_less : T -> T -> bool) (val : T) (root : tree) h :
  rb root h -> fetch_color root = BLACK ->
  exists h', rb (insert is_less val root) h' /\
             fetch_color (insert is_less val root) = BLACK.
Proof.
  intros Hroot Hc. unfold insert.
  eapply insert_case1_rb.
  - eapply (descend_path is_less val root [] h h);
      [constructor | exact Hroot | intros Hr; congruence].
  - repeat constructor.
  - reflexivity.
Qed.

(** *** Erasure keeps the shape *)

Lemma black_node (n : tree) h :
  rb n (S h) -> fetch_color n = BLACK ->
  exists l v r, n = node BLACK l v r /\ rb l h /\ rb r h.
Proof.
  intros H Hc. inversion H; subst; try discriminate. eauto 10.
Qed.

Lemma erase_black_sibling_rb s (n : tree) pc pv sib h :
  rb n h -> fetch_color n = BLACK ->
  rb sib (S h) -> fetch_color sib = BLACK ->
  let t := fst (erase_black_sibling s n pc pv sib) in
  let short := snd (erase_black_sibling s n pc pv sib) in
  (short = true ->
   pc = BLACK /\ rb t (S h) /\ fetch_color t = BLACK) /\
  (short = false ->
   rb t (match pc with BLACK => S (S h) | RED => S h end) /\
   (fetch_color t = RED -> pc = RED)).
Proof.
  intros Hn Hcn Hs Hcs.
  destruct (black_node sib h Hs Hcs) as (sl & sv & sr & -> & Hsl & Hsr).
  destruct s; simpl;
    [destruct (fetch_color sr) eqn:Hfar, (fetch_color sl) eqn:Hnear
    |destruct (fetch_color sl) eqn:Hfar, (fetch_color sr) eqn:Hnear];
    repeat match goal with
    | Hc : fetch_color ?x = RED, Hx : rb ?x _ |- _ =>
        destruct (red_node x _ Hx Hc) as (? & ? & ? & -> & ? & ? & ? & ?);
        clear Hc
    end;
    destruct pc; simpl; (split; intros Hshort; try discriminate);
    repeat split; try congruence; repeat (constructor; auto).
Qed.

Lemma erase_case1_rb (p : path) : forall (n : tree) h H,
  rb_path p (S h) H -> rb n h -> fetch_color n = BLACK ->
  exists H', rb (erase_case1 n p) H' /\
             fetch_color (erase_case1 n p) = BLACK.
Proof.
  induction p as [| [s pc pv sib] p IH]; intros n h H Hp Hn Hcn.
  - simpl. eauto.
  - cbn [erase_case1].
    inversion Hp as [| ? ? ? ? ? ? Hs Hp' | ? ? ? ? ? ? Hs Hc Hp' Htop]; subst.
    + (* black parent *)
      destruct (fetch_color sib) eqn:Hcs.
      * pose proof (erase_black_sibling_rb s n BLACK pv sib h Hn Hcn Hs Hcs)
          as [Hshort Hdone].
        destruct (black_node sib h Hs Hcs) as (sl & sv & sr & -> & _).
        destruct (erase_black_sibling s n BLACK pv (node BLACK sl sv sr))
          as [t short]. simpl in Hshort, Hdone.
        destruct short.
        -- destruct (Hshort eq_refl) as (_ & Ht & Hct).
           eapply IH; eauto.
        -- destruct (Hdone eq_refl) as (Ht & Hct).
           exists H. split.
           ++ eapply plug_rb; [exact Hp' | exact Ht |].
              intros Hc. specialize (Hct Hc). discriminate.
           ++ eapply plug_color; [exact Hp' |]. intros _.
              destruct (fetch_color t); [reflexivity |].
              specialize (Hct eq_refl). discriminate.
      * (* case 2 *)
        destruct (red_node sib (S h) Hs Hcs)
          as (sl & sv & sr & -> & Hsl & Hsr & Hcl & Hcr).
        set (near := match s with Left => sl | Right => sr end).
        set (far := match s with Left => sr | Right => sl end).
        assert (Hnear : rb near (S h) /\ fetch_color near = BLACK)
          by (destruct s; auto).
        assert (Hfar : rb far (S h)) by (destruct s; auto).
        destruct Hnear as [Hnear Hcnear].
        pose proof (erase_black_sibling_rb s n RED pv near h Hn Hcn
                      Hnear Hcnear) as [Hshort Hdone].
        destruct (erase_black_sibling s n RED pv near) as [t short].
        simpl in Hshort, Hdone. simpl fst.
        destruct short; [destruct (Hshort eq_refl); discriminate |].
        destruct (Hdone eq_refl) as (Ht & _).
        exists H. split.
        -- eapply plug_rb; [exact Hp' | now apply attach_rb_black |].
           rewrite attach_color. discriminate.
        -- eapply plug_color; [exact Hp' |]. intros _. apply attach_color.
    + (* red parent, black sibling *)
      pose proof (erase_black_sibling_rb s n RED pv sib h Hn Hcn Hs Hc)
        as [Hshort Hdone].
      destruct (black_node sib h Hs Hc) as (sl & sv & sr & -> & _).
      destruct (erase_black_sibling s n RED pv (node BLACK sl sv sr))
        as [t short]. simpl in Hshort, Hdone.
      destruct short; [destruct (Hshort eq_refl); discriminate |].
      destruct (Hdone eq_refl) as (Ht & _).
      exists H. split.
      * eapply plug_rb; [exact Hp' | exact Ht | intros _ _; exact Htop].
      * eapply plug_color; [exact Hp' |]. intros ->. contradiction.
Qed.

Lemma replace_node_rb c (l r child : tree) v (p : path) h H :
  rb_path p h H -> rb (node c l v r) h ->
  (l = null /\ child = r) \/ (r = null /\ child = l) ->
  (c = RED -> top_black p) ->
  exists H', rb (replace_node c child p) H' /\
             fetch_color (replace_node c child p) = BLACK.
Proof.
  intros Hp Hn Hone Hfit.
  assert (Hch : match c with
                | RED => h = O /\ child = null
                | BLACK => h = 1%nat /\ rb child 0
                end).
  { inversion Hn as [| ? ? ? ? Hl Hr Hcl Hcr | ? ? ? ? Hl Hr]; subst;
      destruct Hone as [[-> ->] | [-> ->]].
    - inversion Hl; subst. split; [reflexivity |]. now apply rb_zero_black.
    - inversion Hr; subst. split; [reflexivity |]. now apply rb_zero_black.
    - inversion Hl; subst. auto.
    - inversion Hr; subst. auto. }
  destruct c.
  - destruct Hch as [-> Hch]. unfold replace_node.
    inversion Hch as [| cl cv cr ? Hcl' Hcr' Hccl Hccr |]; subst.
    + eapply erase_case1_rb; [exact Hp | constructor | reflexivity].
    + exists H. split.
      * eapply plug_rb; [exact Hp | now constructor | discriminate].
      * eapply plug_color; [exact Hp | reflexivity].
  - destruct Hch as [-> ->]. unfold replace_node. exists H. split.
    + eapply plug_rb; [exact Hp | constructor | discriminate].
    + eapply plug_color; [exact Hp | reflexivity].
Qed.

Lemma child_path s c (l r : tree) v (p : path) h H :
  rb_path p h H -> rb (node c l v r) h -> (c = RED -> top_black p) ->
  let child := match s with Left => l | Right => r end in
  let sib := match s with Left => r | Right => l end in
  exists h', rb_path (Anc s c v sib :: p) h' H /\ rb child h' /\
             fits child (Anc s c v sib :: p).
Proof.
  intros Hp Hn Hfit child sib.
  inversion Hn as [| ? ? ? ? Hl Hr Hcl Hcr | ? ? ? ? Hl Hr]; subst.
  - exists h. specialize (Hfit eq_refl).
    split; [| split].
    + destruct s; now constructor.
    + now destruct s.
    + intros Hc. destruct s; subst child; congruence.
  - eexists. split; [| split].
    + destruct s; constructor; eauto.
    + now destruct s.
    + intros _. exact I.
Qed.

Lemma erase_minimum_rb (n : tree) : forall (p : path) h H,
  rb_path p h H -> rb n h -> n <> null -> fits n p ->
  exists H', rb (erase_minimum n p) H' /\
             fetch_color (erase_minimum n p) = BLACK.
Proof.
  induction n as [| c l IHl v r _]; intros p h H Hp Hn Hne Hfit;
    [contradiction |].
  destruct l as [| lc ll lv lr].
  - cbn [erase_minimum].
    eapply (replace_node_rb c null r r v); eauto.
  - change (erase_minimum (node c (node lc ll lv lr) v r) p)
      with (erase_minimum (node lc ll lv lr) (Anc Left c v r :: p)).
    destruct (child_path Left c (node lc ll lv lr) r v p h H Hp Hn Hfit)
      as (h' & Hp' & Hl & Hfl).
    eapply IHl; eauto; discriminate.
Qed.

Lemma erase_from_rb (is_less : T -> T -> bool) (val : T) (n : tree) :
  forall (p : path) h H t,
    rb_path p h H -> rb n h -> fits n p ->
    erase_from is_less val n p = Some t ->
    exists H', rb t H' /\ fetch_color t = BLACK.
Proof.
  induction n as [| c l IHl v r IHr]; intros p h H t Hp Hn Hfit He;
    [discriminate |].
  cbn [erase_from] in He.
  destruct (is_less val v).
  { destruct (child_path Left c l r v p h H Hp Hn Hfit)
      as (h' & Hp' & Hl & Hfl). eapply IHl; eauto. }
  destruct (is_less v val).
  { destruct (child_path Right c l r v p h H Hp Hn Hfit)
      as (h' & Hp' & Hr & Hfr). eapply IHr; eauto. }
  destruct l as [| lc ll lv lr].
  - injection He as <-. eapply (replace_node_rb c null r r v); eauto.
  - destruct r as [| rc rl rv rr].
    + injection He as <-.
      eapply (replace_node_rb c (node lc ll lv lr) null _ v); eauto.
    + destruct (fetch_minimum (node rc rl rv rr)) as [m |]; [| discriminate].
      injection He as <-.
      destruct (child_path Right c (node lc ll lv lr) (node rc rl rv rr)
                  v p h H Hp Hn Hfit) as (h' & Hp' & Hr & Hfr).
      change (exists H',
                rb (erase_minimum (node rc rl rv rr)
                      (Anc Right c m (node lc ll lv lr) :: p)) H' /\
                fetch_color (erase_minimum (node rc rl rv rr)
                      (Anc Right c m (node lc ll lv lr) :: p)) = BLACK).
      eapply erase_minimum_rb; [| exact Hr | discriminate | exact Hfr].
      inversion Hp'; subst; econstructor; eassumption.
Qed.

Lemma erase_rb (is_less : T -> T -> bool) (val : T) (root : tree) h :
  rb root h -> fetch_color root = BLACK ->
  exists h', rb (erase is_less val root) h' /\
             fetch_color (erase is_less val root) = BLACK.
Proof.
  intros Hroot Hc. unfold erase.
  destruct (erase_from is_less val root []) as [t |] eqn:He; [| eauto].
  eapply erase_from_rb; [constructor | exact Hroot | | exact He].
  intros Hr. congruence.
Qed.

End Shape.


(** *** In-order sequence *)

(** Equations between concatenations, up to bracketing. *)
Ltac flatten :=
  repeat first [rewrite <- app_assoc | rewrite <- app_comm_cons];
  reflexivity.

Section Order.

Context {T : Type}.

Abbreviation tree := (XTreeNode T).
Abbreviation path := (list (ancestor T)).

(** The payloads before and after the position a path leads to. *)
Fixpoint before (p : path) : list T :=
  match p with
  | [] => []
  | Anc Left _ _ _ :: p' => before p'
  | Anc Right _ v sib :: p' => before p' ++ inorder sib ++ [v]
  end.

Fixpoint after (p : path) : list T :=
  match p with
  | [] => []
  | Anc Left _ v sib :: p' => v :: inorder sib ++ after p'
  | Anc Right _ _ _ :: p' => after p'
  end.

Lemma inorder_attach s c v sib (n : tree) :
  inorder (attach (Anc s c v sib) n)
  = match s with
    | Left => inorder n ++ v :: inorder sib
    | Right => inorder sib ++ v :: inorder n
    end.
Proof. now destruct s. Qed.

Lemma inorder_plug (p : path) : forall n : tree,
  inorder (plug p n) = before p ++ inorder n ++ after p.
Proof.
  induction p as [| [s c v sib] p IH]; intros n; cbn [plug before after].
  - now rewrite app_nil_r.
  - rewrite IH, inorder_attach. destruct s; simpl.
    + now rewrite <- !app_assoc.
    + now rewrite <- !app_assoc.
Qed.

Lemma inorder_set_color c (n : tree) : inorder (set_color c n) = inorder n.
Proof. now destruct n. Qed.

Lemma inorder_rotate_left (n : tree) : inorder (rotate_left n) = inorder n.
Proof.
  destruct n as [| c a x [| c' b y d]]; simpl; try reflexivity.
  now rewrite <- !app_assoc.
Qed.

Lemma inorder_rotate_right (n : tree) : inorder (rotate_right n) = inorder n.
Proof.
  destruct n as [| c [| c' a x b] y d]; simpl; try reflexivity.
  now rewrite <- !app_assoc.
Qed.

Lemma insert_case45_inorder s s' (n : tree) pv ps gv u c c' :
  inorder (insert_case45 s s' n pv ps gv u)
  = inorder (attach (Anc s' c' gv u) (attach (Anc s c pv ps) n)).
Proof.
  unfold insert_case45.
  destruct s, s';
    rewrite ?inorder_rotate_right, ?inorder_rotate_left, !inorder_attach,
      ?inorder_set_color, ?inorder_rotate_right, ?inorder_rotate_left,
      ?inorder_attach; reflexivity.
Qed.

Lemma insert_case1_inorder (p : path) : forall n : tree,
  inorder (insert_case1 n p) = inorder (plug p n).
Proof.
  induction p as [| a | a b p IH] using path_ind2; intros n.
  - simpl. apply inorder_set_color.
  - destruct a as [s [|] pv ps]; cbn [insert_case1 plug];
      [reflexivity | apply inorder_set_color].
  - destruct a as [s [|] pv ps]; [reflexivity |].
    destruct b as [s' gc gv u]. cbn [insert_case1].
    destruct (fetch_color u).
    + cbn [plug]. rewrite !inorder_plug.
      now rewrite (insert_case45_inorder s s' n pv ps gv u RED gc).
    + rewrite IH. cbn [plug]. rewrite !inorder_plug. do 2 f_equal.
      rewrite !inorder_attach, inorder_set_color. reflexivity.
Qed.

Lemma erase_black_sibling_inorder s (n : tree) pc pv sib :
  inorder (fst (erase_black_sibling s n pc pv sib))
  = inorder (attach (Anc s pc pv sib) n).
Proof.
  unfold erase_black_sibling.
  destruct sib as [| sc sl sv sr]; [reflexivity |].
  destruct s; simpl.
  - destruct (fetch_color sr), (fetch_color sl); simpl;
      rewrite ?inorder_set_color; try reflexivity; try flatten.
    destruct sl as [| ? a x b]; simpl; [reflexivity | flatten].
  - destruct (fetch_color sl), (fetch_color sr); simpl;
      rewrite ?inorder_set_color; try reflexivity; try flatten.
    destruct sr as [| ? a x b]; simpl; [reflexivity | flatten].
Qed.

Lemma erase_case1_inorder (p : path) : forall n : tree,
  inorder (erase_case1 n p) = inorder (plug p n).
Proof.
  induction p as [| [s pc pv sib] p IH]; intros n; [reflexivity |].
  cbn [erase_case1 plug].
  assert (Hblack : forall sib',
            inorder (let '(t, short) := erase_black_sibling s n pc pv sib' in
                     if short then erase_case1 t p else plug p t)
            = inorder (plug p (attach (Anc s pc pv sib') n))).
  { intros sib'.
    pose proof (erase_black_sibling_inorder s n pc pv sib') as Hi.
    destruct (erase_black_sibling s n pc pv sib') as [t short].
    simpl in Hi. destruct short; rewrite ?IH, !inorder_plug, Hi; reflexivity. }
  destruct sib as [| [|] sl sv sr]; try apply Hblack.
  rewrite !inorder_plug, inorder_attach, erase_black_sibling_inorder,
    !inorder_attach.
  do 2 f_equal. destruct s; simpl; flatten.
Qed.

Lemma replace_node_inorder c (child : tree) (p : path) :
  inorder (replace_node c child p) = inorder (plug p child).
Proof.
  unfold replace_node. destruct c; [| reflexivity].
  destruct child as [| [|] l v r]; rewrite ?erase_case1_inorder;
    try reflexivity.
  now rewrite !inorder_plug.
Qed.

Lemma erase_minimum_inorder (n : tree) : forall p : path,
  n <> null ->
  exists m rest,
    fetch_minimum n = Some m /\ inorder n = m :: rest /\
    inorder (erase_minimum n p) = before p ++ rest ++ after p.
Proof.
  induction n as [| c l IHl v r _]; intros p Hne; [contradiction |].
  destruct l as [| lc ll lv lr].
  - exists v, (inorder r). cbn [erase_minimum fetch_minimum].
    rewrite replace_node_inorder, inorder_plug. auto.
  - destruct (IHl (Anc Left c v r :: p) ltac:(discriminate))
      as (m & rest & Hm & Hin & He).
    exists m, (rest ++ v :: inorder r).
    change (fetch_minimum (node c (node lc ll lv lr) v r))
      with (fetch_minimum (node lc ll lv lr)).
    change (erase_minimum (node c (node lc ll lv lr) v r) p)
      with (erase_minimum (node lc ll lv lr) (Anc Left c v r :: p)).
    split; [exact Hm |]. split.
    + change (inorder (node c (node lc ll lv lr) v r))
        with (inorder (node lc ll lv lr) ++ v :: inorder r).
      now rewrite Hin.
    + rewrite He. simpl. now rewrite <- !app_assoc.
Qed.

(** The tree's ordering of payloads. *)
Variable is_less : T -> T -> bool.

(** [erase] takes one payload out of the in-order sequence, one that the
    comparator does not separate from [val]. *)
Lemma erase_from_inorder (val : T) (n : tree) : forall (p : path) t,
  erase_from is_less val n p = Some t ->
  exists l1 x l2,
    inorder n = l1 ++ x :: l2 /\
    is_less val x = false /\ is_less x val = false /\
    inorder t = before p ++ (l1 ++ l2) ++ after p.
Proof.
  induction n as [| c l IHl v r IHr]; intros p t He; [discriminate |].
  cbn [erase_from] in He.
  destruct (is_less val v) eqn:Hlt.
  { destruct (IHl _ _ He) as (l1 & x & l2 & Hin & Hx1 & Hx2 & Ht).
    exists l1, x, (l2 ++ v :: inorder r). simpl. rewrite Hin, Ht. simpl.
    repeat split; auto; now rewrite <- !app_assoc. }
  destruct (is_less v val) eqn:Hgt.
  { destruct (IHr _ _ He) as (l1 & x & l2 & Hin & Hx1 & Hx2 & Ht).
    exists (inorder l ++ v :: l1), x, l2. simpl. rewrite Hin, Ht. simpl.
    repeat split; auto; rewrite <- !app_assoc; simpl;
      now rewrite <- ?app_assoc. }
  exists (inorder l), v, (inorder r).
  split; [reflexivity |]. split; [exact Hlt |]. split; [exact Hgt |].
  destruct l as [| lc ll lv lr].
  - injection He as <-. now rewrite replace_node_inorder, inorder_plug.
  - destruct r as [| rc rl rv rr].
    + injection He as <-. rewrite replace_node_inorder, inorder_plug.
      simpl. now rewrite !app_nil_r.
    + destruct (erase_minimum_inorder (node rc rl rv rr)
                  (Anc Right c v (node lc ll lv lr) :: p)
                  ltac:(discriminate)) as (m & rest & Hm & Hin & Hem).
      rewrite Hm in He.
      assert (t = erase_minimum (node rc rl rv rr)
                    (Anc Right c m (node lc ll lv lr) :: p)) as ->
        by congruence.
      assert (Hem' : inorder (erase_minimum (node rc rl rv rr)
                                (Anc Right c m (node lc ll lv lr) :: p))
                     = before p ++ inorder (node lc ll lv lr) ++ [m]
                       ++ rest ++ after p).
      { destruct (erase_minimum_inorder (node rc rl rv rr)
                    (Anc Right c m (node lc ll lv lr) :: p)
                    ltac:(discriminate)) as (m' & rest' & Hm' & Hin' & ->).
        rewrite Hin in Hin'. injection Hin' as _ <-.
        simpl. now rewrite <- !app_assoc. }
      rewrite Hem', Hin. simpl. now rewrite <- !app_assoc.
Qed.

End Order.


(** *** Comparator order *)

(** A strict weak ordering: irreflexive, transitive, and with a
    transitive equivalence [!a<b && !b<a]. *)
Record strict_weak_order {T : Type} (less : T -> T -> bool) : Prop := {
  swo_irrefl : forall x, less x x = false;
  swo_trans : forall x y z,
    less x y = true -> less y z = true -> less x z = true;
  swo_equiv : forall x y z,
    less x y = false -> less y x = false ->
    less y z = false -> less z y = false ->
    less x z = false /\ less z x = false
}.

Section Sorted.

Context {T : Type}.
Variable is_less : T -> T -> bool.
Hypothesis order : strict_weak_order is_less.

Abbreviation tree := (XTreeNode T).
Abbreviation path := (list (ancestor T)).

(** [a] does not come after [b]. *)
Definition not_after (a b : T) : Prop := is_less b a = false.

Abbreviation sorted := (StronglySorted not_after).

Lemma less_cases (x y z : T) :
  is_less x y = true -> is_less x z = true \/ is_less z y = true.
Proof.
  intros Hxy.
  destruct (is_less x z) eqn:Hxz; [now left |].
  destruct (is_less z y) eqn:Hzy; [now right |]. exfalso.
  destruct (is_less z x) eqn:Hzx.
  { rewrite (swo_trans _ order z x y Hzx Hxy) in Hzy. discriminate. }
  destruct (is_less y z) eqn:Hyz.
  { rewrite (swo_trans _ order x y z Hxy Hyz) in Hxz. discriminate. }
  destruct (swo_equiv _ order x z y Hxz Hzx Hzy Hyz) as [Hc _]. congruence.
Qed.

Lemma not_after_trans (a b c : T) :
  not_after a b -> not_after b c -> not_after a c.
Proof.
  unfold not_after. intros Hab Hbc.
  destruct (is_less c a) eqn:Hca; [| reflexivity].
  destruct (less_cases c a b Hca); congruence.
Qed.

Lemma sorted_app (l1 l2 : list T) :
  sorted (l1 ++ l2) <->
  sorted l1 /\ sorted l2 /\
  Forall (fun a => Forall (not_after a) l2) l1.
Proof.
  induction l1 as [| a l1 IH]; simpl.
  - split; [intros H; repeat split; auto; constructor | tauto].
  - split.
    + intros H. apply StronglySorted_inv in H as [Hs Hf].
      apply IH in Hs as (H1 & H2 & H3). apply Forall_app in Hf as [Hf1 Hf2].
      repeat split; auto; now constructor.
    + intros (H1 & H2 & H3). apply StronglySorted_inv in H1 as [H1 Hf1].
      apply Forall_cons in H3 as [Hf2 H3].
      constructor; [apply IH; auto | apply Forall_app; auto].
Qed.

Lemma sorted_remove (l1 l2 : list T) (x : T) :
  sorted (l1 ++ x :: l2) -> sorted (l1 ++ l2).
Proof.
  rewrite !sorted_app. intros (H1 & H2 & H3).
  apply StronglySorted_inv in H2 as [H2 _].
  repeat split; auto.
  eapply Forall_impl; [exact H3 |]. simpl. intros a Ha.
  now apply Forall_cons in Ha as [_ Ha].
Qed.

(** The place of a new payload in a sequence: before the first payload
    it precedes. *)
Fixpoint place_in (val : T) (l : list T) : list T :=
  match l with
  | [] => [val]
  | y :: l' => if is_less val y then val :: l else y :: place_in val l'
  end.

Lemma place_in_split (val : T) (l : list T) :
  exists l1 l2,
    l = l1 ++ l2 /\ place_in val l = l1 ++ val :: l2 /\
    Forall (fun y => is_less val y = false) l1 /\
    match l2 with [] => True | y :: _ => is_less val y = true end.
Proof.
  induction l as [| y l IH]; simpl.
  - exists [], []. repeat split; constructor.
  - destruct (is_less val y) eqn:Hy.
    + exists [], (y :: l). repeat split; auto.
    + destruct IH as (l1 & l2 & -> & -> & Hl1 & Hl2).
      exists (y :: l1), l2. repeat split; auto.
Qed.

Lemma place_in_sorted (val : T) (l : list T) :
  sorted l -> sorted (place_in val l).
Proof.
  intros Hs. destruct (place_in_split val l) as (l1 & l2 & -> & -> & Hl1 & Hl2).
  apply sorted_app in Hs as (H1 & H2 & H3).
  apply sorted_app. split; [exact H1 |]. split.
  - constructor; [exact H2 |].
    destruct l2 as [| y l2]; [constructor |].
    apply StronglySorted_inv in H2 as [_ Hy].
    assert (Hvy : not_after val y).
    { unfold not_after. destruct (is_less y val) eqn:Hc; [| reflexivity].
      pose proof (swo_trans _ order y val y Hc Hl2) as Hyy.
      now rewrite (swo_irrefl _ order) in Hyy. }
    constructor; [exact Hvy |].
    eapply Forall_impl; [exact Hy |]. simpl. intros z Hz.
    now apply (not_after_trans val y z).
  - apply Forall_forall. intros a Ha. constructor.
    + rewrite Forall_forall in Hl1. exact (Hl1 a Ha).
    + rewrite Forall_forall in H3. exact (H3 a Ha).
Qed.

Lemma place_in_app_left (val v : T) (l1 l2 : list T) :
  is_less val v = true ->
  place_in val (l1 ++ v :: l2) = place_in val l1 ++ v :: l2.
Proof.
  intros Hv. induction l1 as [| y l1 IH]; simpl.
  - now rewrite Hv.
  - destruct (is_less val y); [reflexivity | now rewrite IH].
Qed.

Lemma place_in_app_right (val v : T) (l1 l2 : list T) :
  is_less val v = false ->
  Forall (fun y => not_after y v) l1 ->
  place_in val (l1 ++ v :: l2) = l1 ++ v :: place_in val l2.
Proof.
  intros Hv Hl1. induction l1 as [| y l1 IH]; simpl.
  - now rewrite Hv.
  - apply Forall_cons in Hl1 as [Hy Hl1].
    destruct (is_less val y) eqn:Hvy.
    + exfalso. unfold not_after in Hy.
      destruct (less_cases val y v Hvy); congruence.
    + now rewrite IH.
Qed.

(** The empty position reached by [descend] is the place of [val]. *)
Lemma descend_inorder (val : T) (n : tree) : forall (p : path) (m : tree),
  sorted (inorder n) ->
  inorder m = [val] ->
  inorder (plug (descend is_less val n p) m)
  = before p ++ place_in val (inorder n) ++ after p.
Proof.
  induction n as [| c l IHl v r IHr]; intros p m Hs Hm; simpl.
  - now rewrite inorder_plug, Hm.
  - apply sorted_app in Hs as (Hl & Hr & Hlr).
    apply StronglySorted_inv in Hr as [Hr Hvr].
    destruct (is_less val v) eqn:Hv.
    + rewrite (IHl _ _ Hl Hm), place_in_app_left by exact Hv.
      simpl. flatten.
    + rewrite (IHr _ _ Hr Hm), place_in_app_right; [simpl; flatten | exact Hv |].
      eapply Forall_impl; [exact Hlr |]. simpl. intros a Ha.
      now apply Forall_cons in Ha as [Ha _].
Qed.

Lemma insert_inorder (val : T) (root : tree) :
  sorted (inorder root) ->
  inorder (insert is_less val root) = place_in val (inorder root).
Proof.
  intros Hs. unfold insert.
  rewrite insert_case1_inorder.
  rewrite (descend_inorder val root [] (node RED null val null) Hs eq_refl).
  simpl. now rewrite app_nil_r.
Qed.

Lemma erase_inorder (val : T) (root : tree) :
  erase is_less val root = root \/
  exists l1 x l2,
    inorder root = l1 ++ x :: l2 /\
    is_less val x = false /\ is_less x val = false /\
    inorder (erase is_less val root) = l1 ++ l2.
Proof.
  unfold erase. destruct (erase_from is_less val root []) as [t |] eqn:He;
    [right | now left].
  destruct (erase_from_inorder is_less val root [] t He)
    as (l1 & x & l2 & Hin & Hx1 & Hx2 & Ht).
  exists l1, x, l2. simpl in Ht. rewrite app_nil_r in Ht. auto.
Qed.

(** *** The invariants along every sequence of insertions and erasures *)

Lemma rb_red_black (n : tree) h :
  rb n h -> fetch_color n = BLACK -> sorted (inorder n) ->
  red_black is_less n.
Proof.
  intros Hrb Hc Hs. constructor.
  - exact Hc.
  - eapply rb_no_red_red; eauto.
  - exists h. now apply rb_path_blacks.
  - exact Hs.
Qed.

Lemma exec_invariant (o : op T) (root : tree) h :
  rb root h -> fetch_color root = BLACK -> sorted (inorder root) ->
  exists h', rb (exec is_less o root) h' /\
             fetch_color (exec is_less o root) = BLACK /\
             sorted (inorder (exec is_less o root)).
Proof.
  intros Hrb Hc Hs. destruct o as [val | val]; simpl.
  - destruct (insert_rb is_less val root h Hrb Hc) as (h' & Hrb' & Hc').
    exists h'. split; [exact Hrb' |]. split; [exact Hc' |].
    rewrite insert_inorder by exact Hs. now apply place_in_sorted.
  - destruct (erase_rb is_less val root h Hrb Hc) as (h' & Hrb' & Hc').
    exists h'. split; [exact Hrb' |]. split; [exact Hc' |].
    destruct (erase_inorder val root) as [-> | (l1 & x & l2 & Hin & _ & _ & ->)];
      [exact Hs |].
    rewrite Hin in Hs. now apply sorted_remove in Hs.
Qed.

Lemma run_invariant (ops : list (op T)) : forall (root : tree) h,
  rb root h -> fetch_color root = BLACK -> sorted (inorder root) ->
  exists h', rb (fold_left (fun root o => exec is_less o root) ops root) h' /\
    fetch_color (fold_left (fun root o => exec is_less o root) ops root)
    = BLACK /\
    sorted (inorder (fold_left (fun root o => exec is_less o root) ops root)).
Proof.
  induction ops as [| o ops IH]; intros root h Hrb Hc Hs; simpl.
  - eauto.
  - destruct (exec_invariant o root h Hrb Hc Hs) as (h' & Hrb' & Hc' & Hs').
    eapply IH; eauto.
Qed.

(** C8. Modelled from the spec (the tree's code is not in the sources).
    Under a strict weak ordering, after every insertion and every erasure
    of every sequence of operations on a tree that starts empty: the root
    is black, no red node has a red child, every path from the root to a
    missing child crosses the same number of black nodes, and the in-order
    traversal is in comparator order (no payload precedes an earlier
    one). *)
Theorem red_black_invariants (ops : list (op T)) :
  red_black is_less (run is_less ops).
Proof.
  destruct (run_invariant ops null 0 rb_null eq_refl
              (SSorted_nil not_after)) as (h & Hrb & Hc & Hs).
  now apply (rb_red_black _ h).
Qed.

End Sorted.


(** *** Integers under [<] *)

Lemma Z_ltb_order : strict_weak_order Z.ltb.
Proof.
  constructor.
  - intros x. apply Z.ltb_irrefl.
  - intros x y z Hxy Hyz. apply Z.ltb_lt in Hxy, Hyz. apply Z.ltb_lt. lia.
  - intros x y z H1 H2 H3 H4.
    apply Z.ltb_ge in H1, H2, H3, H4. split; apply Z.ltb_ge; lia.
Qed.

Lemma red_black_invariants_witness :
  red_black Z.ltb
    (run Z.ltb [Insert 5; Insert 3; Insert 8; Insert 1; Insert 4;
                Insert 7; Insert 9; Insert 2; Insert 6; Insert 0;
                Erase 3; Erase 8]) /\
  inorder (run Z.ltb [Insert 5; Insert 3; Insert 8; Insert 1; Insert 4;
                      Insert 7; Insert 9; Insert 2; Insert 6; Insert 0;
                      Erase 3; Erase 8])
  = [0; 1; 2; 4; 5; 6; 7; 9].
Proof.
  split; [| vm_compute; reflexivity].
  apply (red_black_invariants Z.ltb Z_ltb_order).
Defined.

End XTreeFacts.

(** ** MultiMapTree (multi-key tree index) *)

Module MultiMapTree.
Import XTree.

Section MultiMapTree.

(** Handles carry an element [E]; [key_of] reads its key (the [first] of a
    map entry, the value itself in a set). *)
Context {Key E : Type}.
Variable key_of : E -> Key.

(** [key_comp()], the caller's ordering of keys. *)
Variable comp : Key -> Key -> bool.

Abbreviation It := (Iterator E).
Abbreviation tree := (XTreeNode (Iterator E)).

Definition first (it : It) : Key := key_of (value it).

(** Modelled from the spec: [get_uid], the creation-order id of a handle
    (the [uid] module is not in the sources). *)
Definition get_uid (it : It) : nat := uid it.

(** The ordering of handles handed to the base tree by the constructor:
    the key order, and the creation id between equivalent keys. *)
Definition handle_comp (x y : It) : bool :=
  let ret := comp (first x) (first y) in
  if negb ret && negb (comp (first y) (first x))
  then (get_uid x <? get_uid y)%nat
  else ret.

(** [insert]: the id is issued, then the base tree inserts. *)
Definition insert (val : It) (root : tree) : tree :=
  XTree.insert handle_comp val root.

(** The tree node reached through [equal_mover]; the two closures passed
    to [_Nearest_by_key] return [node.left] and [node.right]. *)
Definition move (equal_mover : side) (l r : tree) : tree :=
  match equal_mover with Left => l | Right => r end.

(** The [while (true)] loop of [_Nearest_by_key], entered at the node
    [ret] with the candidate [matched] ([null] when none is recorded). *)
Fixpoint nearest_loop (key : Key) (equal_mover : side)
    (ret matched : tree) : tree :=
  match ret with
  | null => matched
  | node _ l it r =>
      if comp key (first it) then
        match l with
        | null => match matched with null => ret | _ => matched end
        | _ => nearest_loop key equal_mover l matched
        end
      else if comp (first it) key then
        match r with
        | null => match matched with null => ret | _ => matched end
        | _ => nearest_loop key equal_mover r matched
        end
      else
        match equal_mover with
        | Left =>
            match l with
            | null => ret
            | _ => nearest_loop key equal_mover l ret
            end
        | Right =>
            match r with
            | null => ret
            | _ => nearest_loop key equal_mover r ret
            end
        end
  end.

Definition _Nearest_by_key (key : Key) (equal_mover : side) (root : tree)
  : tree :=
  match root with
  | null => null
  | _ => nearest_loop key equal_mover root null
  end.

Definition nearest_by_key (key : Key) (root : tree) : tree :=
  _Nearest_by_key key Left root.

(** [upper_bound]; [source] is the store of the owning container. *)
Definition upper_bound (key : Key) (root : tree) (source : Store.t E)
  : Store.position (T := E) :=
  match _Nearest_by_key key Right root with
  | null => Store.end_
  | node _ _ it _ =>
      if comp key (first it) then Some it else Store.next source it
  end.

(** Modelled from the spec: [lower_bound] of the base map tree, one step
    forward from the nearest node when its key precedes the query. *)
Definition lower_bound (key : Key) (root : tree) (source : Store.t E)
  : Store.position (T := E) :=
  match nearest_by_key key root with
  | null => Store.end_
  | node _ _ it _ =>
      if comp (first it) key then Store.next source it else Some it
  end.

(** Two keys that the comparator does not separate. *)
Definition equivalent (k : Key) (it : It) : bool :=
  negb (comp k (first it)) && negb (comp (first it) k).

End MultiMapTree.

End MultiMapTree.

(** ** Properties of the multi-key tree index *)

Module MultiMapTreeFacts.
Import XTree XTreeFacts MultiMapTree.

Section Facts.

Context {Key E : Type}.
Variable key_of : E -> Key.
Variable comp : Key -> Key -> bool.
Hypothesis order : strict_weak_order comp.

Abbreviation It := (Iterator E).
Abbreviation tree := (XTreeNode (Iterator E)).
Abbreviation first := (MultiMapTree.first key_of).
Abbreviation equivalent := (MultiMapTree.equivalent key_of comp).

(** The store order by keys: no handle's key precedes an earlier one. *)
Definition key_sorted (l : list It) : Prop :=
  StronglySorted (fun a b => comp (first b) (first a) = false) l.

Definition precedes (k : Key) (it : It) : bool := comp (first it) k.
Definition follows (k : Key) (it : It) : bool := comp k (first it).

(** The comparator falls back to the creation id exactly between
    equivalent keys. *)
Lemma handle_comp_spec (x y : It) :
  handle_comp key_of comp x y
  = if equivalent (first x) y then (uid x <? uid y)%nat
    else comp (first x) (first y).
Proof.
  unfold handle_comp, MultiMapTree.equivalent, get_uid.
  destruct (comp (first x) (first y)) eqn:Hxy; simpl; [| reflexivity].
  destruct (comp (first y) (first x)) eqn:Hyx; simpl; [reflexivity |].
  reflexivity.
Qed.

Lemma comp_asym (a b : Key) : comp a b = true -> comp b a = false.
Proof.
  intros Hab. destruct (comp b a) eqn:Hba; [| reflexivity].
  pose proof (swo_trans _ order a b a Hab Hba) as Haa.
  now rewrite (swo_irrefl _ order) in Haa.
Qed.

Lemma follows_after (k : Key) (it y : It) :
  comp k (first it) = true -> comp (first y) (first it) = false ->
  comp k (first y) = true.
Proof.
  intros Hk Hy. destruct (less_cases comp order k (first it) (first y) Hk);
    congruence.
Qed.

Lemma precedes_before (k : Key) (it y : It) :
  comp (first it) k = true -> comp (first it) (first y) = false ->
  comp (first y) k = true.
Proof.
  intros Hk Hy. destruct (less_cases comp order (first it) k (first y) Hk);
    congruence.
Qed.

Lemma filter_none {A} (P : A -> Prop) `{forall x, Decision (P x)}
    (l : list A) :
  Forall (fun x => ~ P x) l -> filter P l = [].
Proof.
  induction 1 as [| x l Hx _ IH]; [reflexivity |].
  now rewrite filter_cons, decide_False, IH.
Qed.

Lemma no_equivalent_after (k : Key) (it : It) (l : list It) :
  comp k (first it) = true ->
  Forall (fun y => comp (first y) (first it) = false) l ->
  filter (fun y => equivalent k y) (it :: l) = [].
Proof.
  intros Hk Hl. apply filter_none. constructor.
  - unfold MultiMapTree.equivalent. rewrite Hk. simpl. tauto.
  - eapply Forall_impl; [exact Hl |]. simpl. intros y Hy.
    unfold MultiMapTree.equivalent.
    rewrite (follows_after k it y Hk Hy). simpl. tauto.
Qed.

Lemma no_equivalent_before (k : Key) (it : It) (l : list It) :
  comp (first it) k = true ->
  Forall (fun y => comp (first it) (first y) = false) l ->
  filter (fun y => equivalent k y) (l ++ [it]) = [].
Proof.
  intros Hk Hl. apply filter_none, Forall_app. split.
  - eapply Forall_impl; [exact Hl |]. simpl. intros y Hy.
    unfold MultiMapTree.equivalent.
    rewrite (precedes_before k it y Hk Hy), andb_false_r. tauto.
  - constructor; [| constructor].
    unfold MultiMapTree.equivalent. rewrite Hk, andb_false_r. tauto.
Qed.

Lemma key_sorted_node (l r : list It) (it : It) :
  key_sorted (l ++ it :: r) ->
  key_sorted l /\ key_sorted r /\
  Forall (fun y => comp (first it) (first y) = false) l /\
  Forall (fun y => comp (first y) (first it) = false) r.
Proof.
  intros Hs. unfold key_sorted in *.
  induction l as [| a l IH]; simpl in *.
  - apply StronglySorted_inv in Hs as [Hs Hf].
    repeat split; auto; constructor.
  - apply StronglySorted_inv in Hs as [Hs Hf].
    destruct (IH Hs) as (H1 & H2 & H3 & H4).
    apply Forall_app in Hf as [Hf1 Hf2].
    apply Forall_cons in Hf2 as [Hf2 _].
    repeat split; auto; constructor; auto.
Qed.

Lemma last_app_cons {A} (l1 l2 : list A) (x : A) :
  last (l1 ++ x :: l2) = Some (default x (last l2)).
Proof.
  revert x l1. induction l2 as [| y l2 IH]; intros x l1.
  - apply last_snoc.
  - change (l1 ++ x :: y :: l2) with (l1 ++ [x] ++ y :: l2).
    rewrite app_assoc, IH. f_equal.
    change (y :: l2) with ([] ++ y :: l2). now rewrite IH.
Qed.

Definition node_value (n : tree) : option It :=
  match n with
  | null => None
  | node _ _ it _ => Some it
  end.

(** The loop with [equal_mover = node.right] ends on the last handle of
    the equal-key run; without a run it keeps the recorded candidate. *)
Lemma nearest_loop_right (k : Key) (n : tree) : forall matched : tree,
  n <> null -> key_sorted (inorder n) ->
  match last (filter (fun y => equivalent k y) (inorder n)) with
  | Some x => node_value (nearest_loop key_of comp k Right n matched) = Some x
  | None =>
      matched <> null -> nearest_loop key_of comp k Right n matched = matched
  end.
Proof.
  induction n as [| c l IHl it r IHr]; intros matched Hne Hs;
    [contradiction |].
  cbn [inorder] in *.
  destruct (key_sorted_node _ _ _ Hs) as (Hsl & Hsr & Hl & Hr).
  cbn [nearest_loop]. fold first.
  destruct (comp k (first it)) eqn:Hlt.
  { (* the key precedes this node *)
    rewrite filter_app, (no_equivalent_after k it _ Hlt Hr), app_nil_r.
    destruct l as [| lc ll lv lr].
    - simpl. intros Hm. now destruct matched.
    - apply IHl; [discriminate | exact Hsl]. }
  destruct (comp (first it) k) eqn:Hgt.
  { (* this node precedes the key *)
    change (inorder l ++ it :: inorder r)
      with (inorder l ++ [it] ++ inorder r).
    rewrite app_assoc, filter_app, (no_equivalent_before k it _ Hgt Hl).
    simpl. destruct r as [| rc rl rv rr].
    - simpl. intros Hm. now destruct matched.
    - apply IHr; [discriminate | exact Hsr]. }
  (* equivalent keys: record the node and go right *)
  assert (Heq : equivalent k it).
  { unfold MultiMapTree.equivalent. fold first. now rewrite Hlt, Hgt. }
  rewrite filter_app, filter_cons, decide_True by exact Heq.
  rewrite last_app_cons.
  destruct r as [| rc rl rv rr].
  - reflexivity.
  - specialize (IHr (node c l it (node rc rl rv rr)) ltac:(discriminate) Hsr).
    destruct (last (filter (fun y => equivalent k y)
                      (inorder (node rc rl rv rr)))) as [y |].
    + exact IHr.
    + rewrite IHr by discriminate. reflexivity.
Qed.

(** With [equal_mover = node.left] it ends on the first handle of the
    run. *)
Lemma nearest_loop_left (k : Key) (n : tree) : forall matched : tree,
  n <> null -> key_sorted (inorder n) ->
  match head (filter (fun y => equivalent k y) (inorder n)) with
  | Some x => node_value (nearest_loop key_of comp k Left n matched) = Some x
  | None =>
      matched <> null -> nearest_loop key_of comp k Left n matched = matched
  end.
Proof.
  induction n as [| c l IHl it r IHr]; intros matched Hne Hs;
    [contradiction |].
  cbn [inorder] in *.
  destruct (key_sorted_node _ _ _ Hs) as (Hsl & Hsr & Hl & Hr).
  cbn [nearest_loop]. fold first.
  destruct (comp k (first it)) eqn:Hlt.
  { rewrite filter_app, (no_equivalent_after k it _ Hlt Hr), app_nil_r.
    destruct l as [| lc ll lv lr].
    - simpl. intros Hm. now destruct matched.
    - apply IHl; [discriminate | exact Hsl]. }
  destruct (comp (first it) k) eqn:Hgt.
  { change (inorder l ++ it :: inorder r)
      with (inorder l ++ [it] ++ inorder r).
    rewrite app_assoc, filter_app, (no_equivalent_before k it _ Hgt Hl).
    simpl. destruct r as [| rc rl rv rr].
    - simpl. intros Hm. now destruct matched.
    - apply IHr; [discriminate | exact Hsr]. }
  assert (Heq : equivalent k it).
  { unfold MultiMapTree.equivalent. fold first. now rewrite Hlt, Hgt. }
  rewrite filter_app, filter_cons, decide_True by exact Heq.
  destruct l as [| lc ll lv lr].
  - reflexivity.
  - specialize (IHl (node c (node lc ll lv lr) it r) ltac:(discriminate) Hsl).
    destruct (filter (fun y => equivalent k y) (inorder (node lc ll lv lr)))
      as [| y ys] eqn:Hf.
    + simpl in *. rewrite IHl by discriminate. reflexivity.
    + exact IHl.
Qed.

(** *** The equal-key run of a sorted store *)

Lemma trichotomy (k : Key) (y : It) :
  (precedes k y = true /\ equivalent k y = false /\ follows k y = false) \/
  (precedes k y = false /\ equivalent k y = true /\ follows k y = false) \/
  (precedes k y = false /\ equivalent k y = false /\ follows k y = true).
Proof.
  unfold precedes, follows, MultiMapTree.equivalent. fold first.
  destruct (comp (first y) k) eqn:H1, (comp k (first y)) eqn:H2; simpl; auto.
  rewrite (comp_asym _ _ H1) in H2. discriminate.
Qed.

Lemma sorted_decompose (k : Key) (l : list It) :
  key_sorted l ->
  l = filter (fun y => precedes k y) l
      ++ filter (fun y => equivalent k y) l
      ++ filter (fun y => follows k y) l.
Proof.
  induction 1 as [| x l Hs IH Hx]; [reflexivity |].
  rewrite !filter_cons.
  destruct (trichotomy k x) as [(H1 & H2 & H3) | [(H1 & H2 & H3) | (H1 & H2 & H3)]];
    rewrite H1, H2, H3; simpl.
  - now rewrite <- IH.
  - (* nothing after [x] precedes the key *)
    assert (Hnone : filter (fun y => precedes k y) l = []).
    { apply filter_none. eapply Forall_impl; [exact Hx |]. simpl.
      intros y Hy Hp. unfold precedes in Hp, H1. apply Is_true_true in Hp.
      destruct (less_cases comp order (first y) k (first x) Hp); [congruence |].
      unfold MultiMapTree.equivalent in H2. fold first in H2.
      apply andb_true_iff in H2 as [H2 _]. apply negb_true_iff in H2.
      congruence. }
    rewrite Hnone in *. simpl in *. now rewrite <- IH.
  - assert (Hall : Forall (fun y => follows k y = true) l).
    { eapply Forall_impl; [exact Hx |]. simpl. intros y Hy.
      unfold follows in *. eapply follows_after; eauto. }
    assert (Hn1 : filter (fun y => precedes k y) l = []).
    { apply filter_none. eapply Forall_impl; [exact Hall |]. simpl.
      intros y Hy Hp. apply Is_true_true in Hp.
      destruct (trichotomy k y) as [(? & ? & ?) | [(? & ? & ?) | (? & ? & ?)]];
        congruence. }
    assert (Hn2 : filter (fun y => equivalent k y) l = []).
    { apply filter_none. eapply Forall_impl; [exact Hall |]. simpl.
      intros y Hy Hp. apply Is_true_true in Hp.
      destruct (trichotomy k y) as [(? & ? & ?) | [(? & ? & ?) | (? & ? & ?)]];
        congruence. }
    rewrite Hn1, Hn2 in *. simpl in *. now rewrite <- IH.
Qed.

Lemma next_in_middle (l1 l2 : list It) (x : It) :
  NoDup (uid <$> (l1 ++ x :: l2)) ->
  Store.next_in (l1 ++ x :: l2) x = head l2.
Proof.
  induction l1 as [| a l1 IH]; simpl; intros Hnd.
  - now rewrite Nat.eqb_refl.
  - apply NoDup_cons in Hnd as [Ha Hnd].
    destruct (Nat.eqb_spec (uid a) (uid x)) as [He | _]; [| now apply IH].
    exfalso. apply Ha. rewrite He, fmap_app. apply elem_of_app. right.
    simpl. apply list_elem_of_here.
Qed.

(** On a container whose store is the in-order sequence of its tree,
    sorted by key: the bounds of the run of keys equivalent to [k]. *)
Lemma bounds_of_run (k : Key) (root : tree) (source : Store.t E) (e : It) :
  Store.wf source ->
  inorder root = Store.nodes source ->
  key_sorted (Store.nodes source) ->
  e ∈ Store.nodes source -> equivalent k e = true ->
  exists l1 run l2,
    Store.nodes source = l1 ++ run ++ l2 /\
    l1 = filter (fun y => precedes k y) (Store.nodes source) /\
    run = filter (fun y => equivalent k y) (Store.nodes source) /\
    l2 = filter (fun y => follows k y) (Store.nodes source) /\
    run <> [] /\
    node_value (nearest_by_key key_of comp k root) = head run /\
    node_value (_Nearest_by_key key_of comp k Right root) = last run /\
    lower_bound key_of comp k root source = head run /\
    upper_bound key_of comp k root source = head l2.
Proof.
  intros [Hnd _] Hin Hs He Heq.
  set (nodes := Store.nodes source) in *.
  set (run := filter (fun y => equivalent k y) nodes).
  exists (filter (fun y => precedes k y) nodes), run,
         (filter (fun y => follows k y) nodes).
  pose proof (sorted_decompose k nodes Hs) as Hdec. fold run in Hdec.
  assert (Hrun : e ∈ run).
  { apply list_elem_of_filter. split; [now apply Is_true_true | exact He]. }
  assert (Hne : run <> []).
  { intros Hn. rewrite Hn in Hrun. now apply elem_of_nil in Hrun. }
  assert (Hroot : root <> null).
  { intros ->. simpl in Hin. rewrite <- Hin in He.
    now apply elem_of_nil in He. }
  split; [exact Hdec |]. do 3 (split; [reflexivity |]).
  split; [exact Hne |].
  pose proof (nearest_loop_left k root null Hroot) as Hleft.
  pose proof (nearest_loop_right k root null Hroot) as Hright.
  rewrite Hin in Hleft, Hright. fold run in Hleft, Hright.
  specialize (Hleft Hs). specialize (Hright Hs).
  assert (Hnl : node_value (nearest_by_key key_of comp k root) = head run).
  { unfold nearest_by_key, _Nearest_by_key.
    destruct root; [contradiction |].
    destruct run as [| x0 run']; [contradiction | exact Hleft]. }
  assert (Hnr : node_value (_Nearest_by_key key_of comp k Right root)
                = last run).
  { unfold _Nearest_by_key. destruct root; [contradiction |].
    destruct (last run) as [x |] eqn:Hl; [exact Hright |].
    apply last_None in Hl. contradiction. }
  split; [exact Hnl |]. split; [exact Hnr |]. split.
  - (* lower bound: the first of the run, whose key does not precede k *)
    unfold lower_bound.
    destruct (nearest_by_key key_of comp k root) as [| c l it r];
      simpl in Hnl; [now destruct run |].
    assert (Hit : it ∈ run).
    { destruct run as [| x0 run']; [contradiction |].
      injection Hnl as ->. apply list_elem_of_here. }
    apply list_elem_of_filter in Hit as [Hit _].
    apply Is_true_true in Hit.
    unfold MultiMapTree.equivalent in Hit.
    apply andb_true_iff in Hit as [_ Hit]. apply negb_true_iff in Hit.
    fold first. now rewrite Hit.
  - (* upper bound: one step past the last of the run *)
    unfold upper_bound.
    destruct (_Nearest_by_key key_of comp k Right root) as [| c l it r];
      simpl in Hnr; [symmetry in Hnr; apply last_None in Hnr; contradiction |].
    symmetry in Hnr. apply last_Some in Hnr as [run' Hrun'].
    assert (Hit : it ∈ run).
    { rewrite Hrun'. apply elem_of_app. right. apply list_elem_of_here. }
    apply list_elem_of_filter in Hit as [Hit _].
    apply Is_true_true in Hit.
    unfold MultiMapTree.equivalent in Hit.
    apply andb_true_iff in Hit as [Hit _]. apply negb_true_iff in Hit.
    fold first. rewrite Hit. unfold Store.next. fold nodes.
    rewrite Hdec at 1. rewrite Hrun'. rewrite <- app_assoc. simpl.
    rewrite app_assoc. apply next_in_middle.
    rewrite <- app_assoc. simpl.
    replace (filter (fun y => precedes k y) nodes ++
             run' ++ it :: filter (fun y => follows k y) nodes)
      with nodes; [exact Hnd |].
    rewrite Hdec at 1. rewrite Hrun'. now rewrite <- app_assoc.
Qed.

End Facts.

End MultiMapTreeFacts.

(** ** TreeSet and TreeMultiSet *)

Module TreeSet.
Import XTree.

Section TreeSet.

Context {T : Type}.

(** [std.less] and [std.equal_to]. *)
Variable std_less : T -> T -> bool.
Variable std_equal_to : T -> T -> bool.

Abbreviation It := (Iterator T).
Abbreviation position := (Store.position (T := T)).

(** *** AtomicTree

    Modelled from the spec ([AtomicTree] is only declared in
    [std.d.ts]): a base tree of set handles ordered by a comparator on
    their values, [std.less] when the constructor gets no argument. *)
Record AtomicTree : Type := mkAtomicTree {
  compare_ : T -> T -> bool;
  root_ : XTreeNode (Iterator T)
}.

Definition new_AtomicTree (compare : option (T -> T -> bool)) : AtomicTree :=
  mkAtomicTree (default std_less compare) null.

(** The ordering of handles in the tree. *)
Definition is_less (tr : AtomicTree) (x y : It) : bool :=
  compare_ tr (value x) (value y).

(** Modelled from the spec: [find] by value is the nearest-by-key
    descent, which records a match and keeps descending to the left. *)
Definition tree_find (val : T) (tr : AtomicTree) : XTreeNode (Iterator T) :=
  MultiMapTree.nearest_by_key (fun v : T => v) (compare_ tr) val (root_ tr).

Definition tree_insert (it : It) (tr : AtomicTree) : AtomicTree :=
  mkAtomicTree (compare_ tr) (XTree.insert (is_less tr) it (root_ tr)).

(** The ordering of handles that tells two handles of equivalent values
    apart: the comparator, and the creation id between equivalent
    values. *)
Definition handle_less (tr : AtomicTree) (x y : It) : bool :=
  MultiMapTree.handle_comp (fun v : T => v) (compare_ tr) x y.

(** Modelled from the spec ([AtomicTree.erase] is only declared in
    [std.d.ts]): the index entry of a handle is removed by handle
    identity, not by value: the entry is located by the comparator and,
    between equivalent values, by the creation id of the handle; a handle
    without an entry removes nothing. *)
Definition tree_erase (it : It) (tr : AtomicTree) : AtomicTree :=
  mkAtomicTree (compare_ tr) (XTree.erase (handle_less tr) it (root_ tr)).

(** *** The containers *)

Record t : Type := mk {
  data_ : Store.t T;
  tree_ : AtomicTree
}.

(** The constructor: the last argument when it is a function, [std.less]
    otherwise; the tree is built with that comparator. *)
Definition constructor (compare : option (T -> T -> bool)) : t :=
  let compare := default std_less compare in
  mk Store.empty (new_AtomicTree (Some compare)).

(** [clear]: the store is emptied and the tree is replaced by
    [new AtomicTree()], built without an argument. *)
Definition clear (s : t) : t :=
  mk (Store.mk [] (Store.sequence (data_ s))) (new_AtomicTree None).

Definition end_ : position := Store.end_.

Definition handle_insert (item : It) (s : t) : t :=
  mk (data_ s) (tree_insert item (tree_ s)).

Definition handle_erase (item : It) (s : t) : t :=
  mk (data_ s) (tree_erase item (tree_ s)).

(** Modelled from the spec: [erase(handle)] of the container base class
    (declared in [std.d.ts]): the index entry is removed through
    [handle_erase], then the store node is unlinked. *)
Definition erase (it : It) (s : t) : t :=
  let s' := handle_erase it s in
  mk (Store.unlink it (data_ s')) (tree_ s').

(** Modelled from the spec: [insert(hint, val)] of the container base
    class: a node is linked before the hint, and registered in the index
    through [handle_insert]. *)
Definition insert_hint (hint : position) (val : T) (s : t) : It * t :=
  let '(it, d) := Store.insert_before hint val (data_ s) in
  (it, handle_insert it (mk d (tree_ s))).

(** [while (!it.equal_to(end()) && cond(it.value)) it = it.next()],
    walking the nodes from a position on. *)
Fixpoint skip_while (cond : T -> bool) (l : list It) : position :=
  match l with
  | [] => None
  | x :: l' => if cond (value x) then skip_while cond l' else Some x
  end.

(** The nodes from [pos] to the end of the store. *)
Fixpoint from_uid (l : list It) (u : nat) : list It :=
  match l with
  | [] => []
  | x :: l' => if (uid x =? u)%nat then l else from_uid l' u
  end.

Definition from (s : t) (pos : position) : list It :=
  match pos with
  | None => []
  | Some it => from_uid (Store.nodes (data_ s)) (uid it)
  end.

(** *** TreeSet *)

Definition find (val : T) (s : t) : position :=
  match tree_find val (tree_ s) with
  | null => end_
  | node _ _ it _ =>
      if std_equal_to (value it) val then Some it else end_
  end.

Definition lower_bound (val : T) (s : t) : position :=
  match tree_find val (tree_ s) with
  | null => end_
  | node _ _ it _ =>
      if std_less (value it) val then Store.next (data_ s) it else Some it
  end.

Definition upper_bound (val : T) (s : t) : position :=
  match tree_find val (tree_ s) with
  | null => end_
  | node _ _ it _ =>
      if negb (std_equal_to (value it) val) && negb (std_less (value it) val)
      then Some it
      else Store.next (data_ s) it
  end.

Definition insert_by_val (val : T) (s : t) : (It * bool) * t :=
  match tree_find val (tree_ s) with
  | node _ _ it _ =>
      if std_equal_to (value it) val then ((it, false), s)
      else
        let hint :=
          if std_less (value it) val then Store.next (data_ s) it
          else Some it in
        let '(new, s') := insert_hint hint val s in ((new, true), s')
  | null =>
      let '(new, s') := insert_hint end_ val s in ((new, true), s')
  end.

(** [swap] and [swap_tree_set] exchange the references that two
    containers hold; they are modelled on objects, in [Objects]. *)

(** *** TreeMultiSet *)

Definition multi_find (val : T) (s : t) : position :=
  match tree_find val (tree_ s) with
  | null => end_
  | node _ _ it _ =>
      if std_equal_to val (value it) then Some it else end_
  end.

Definition multi_lower_bound (val : T) (s : t) : position :=
  match tree_find val (tree_ s) with
  | null => end_
  | node _ _ it _ =>
      if std_equal_to (value it) val then Some it
      else skip_while (fun v => std_less v val) (from s (Some it))
  end.

Definition multi_upper_bound (val : T) (s : t) : position :=
  match tree_find val (tree_ s) with
  | null => end_
  | node _ _ it _ =>
      skip_while (fun v => std_equal_to v val || std_less v val)
                 (from s (Some it))
  end.

Definition multi_insert_by_val (val : T) (s : t) : It * t :=
  let hint :=
    match tree_find val (tree_ s) with
    | null => end_
    | node _ _ it _ =>
        if std_equal_to (value it) val then Store.next (data_ s) it
        else if std_less (value it) val then
          skip_while (fun v => std_less v val)
                     (from s (Store.next (data_ s) it))
        else Some it
    end in
  insert_hint hint val s.

End TreeSet.

Arguments t : clear implicits.
Arguments AtomicTree : clear implicits.

End TreeSet.

(** ** Properties of the tree sets *)

Module TreeSetFacts.
Import XTree XTreeFacts MultiMapTree MultiMapTreeFacts.

Section Facts.

Context {T : Type}.
Variable std_less : T -> T -> bool.
Variable std_equal_to : T -> T -> bool.

Abbreviation It := (Iterator T).
Abbreviation set := (TreeSet.t T).
Abbreviation nodes s := (Store.nodes (TreeSet.data_ s)).
Abbreviation root s := (TreeSet.root_ (TreeSet.tree_ s)).
Abbreviation comparator s := (TreeSet.compare_ (TreeSet.tree_ s)).
Abbreviation key := (fun v : T => v).

(** *** The store *)

Lemma from_uid_middle (l1 l2 : list It) (x : It) :
  NoDup (uid <$> (l1 ++ x :: l2)) ->
  TreeSet.from_uid (l1 ++ x :: l2) (uid x) = x :: l2.
Proof.
  induction l1 as [| a l1 IH]; simpl; intros Hnd.
  - now rewrite Nat.eqb_refl.
  - apply NoDup_cons in Hnd as [Ha Hnd].
    destruct (Nat.eqb_spec (uid a) (uid x)) as [He | _]; [| now apply IH].
    exfalso. apply Ha. rewrite He, fmap_app. apply elem_of_app. right.
    simpl. apply list_elem_of_here.
Qed.

Lemma link_before_middle (l1 l2 : list It) (x new : It) :
  NoDup (uid <$> (l1 ++ x :: l2)) ->
  Store.link_before (l1 ++ x :: l2) x new = l1 ++ new :: x :: l2.
Proof.
  induction l1 as [| a l1 IH]; simpl; intros Hnd.
  - now rewrite Nat.eqb_refl.
  - apply NoDup_cons in Hnd as [Ha Hnd].
    destruct (Nat.eqb_spec (uid a) (uid x)) as [He | _];
      [| now rewrite IH].
    exfalso. apply Ha. rewrite He, fmap_app. apply elem_of_app. right.
    simpl. apply list_elem_of_here.
Qed.

Lemma link_before_perm (l : list It) (x new : It) :
  Store.link_before l x new ≡ₚ new :: l.
Proof.
  induction l as [| a l IH]; simpl; [reflexivity |].
  destruct (uid a =? uid x)%nat; [reflexivity |].
  rewrite IH. apply perm_swap.
Qed.

(** Linking a node at a position splits the store around the new node. *)
Lemma insert_before_at (d : Store.t T) (l1 l2 : list It) (val : T) :
  Store.wf d -> Store.nodes d = l1 ++ l2 ->
  let new := mkIterator (Store.sequence d) val in
  Store.insert_before (head l2) val d
  = (new, Store.mk (l1 ++ new :: l2) (S (Store.sequence d))) /\
  Store.wf (Store.mk (l1 ++ new :: l2) (S (Store.sequence d))).
Proof.
  intros [Hnd Hlt] Hn new. split.
  - unfold Store.insert_before. destruct l2 as [| y l2]; simpl.
    + rewrite Hn, app_nil_r. reflexivity.
    + rewrite Hn, link_before_middle by (now rewrite <- Hn). reflexivity.
  - rewrite Hn in Hnd, Hlt. split; simpl.
    + rewrite fmap_app in *. simpl.
      apply NoDup_app in Hnd as (H1 & H2 & H3).
      apply NoDup_app. split; [exact H1 |]. split.
      * intros u Hu Hc. apply elem_of_cons in Hc as [-> | Hc];
          [| now apply (H2 u)].
        apply list_elem_of_fmap in Hu as (y & Hy & Hin).
        apply Forall_app in Hlt as [Hlt _].
        rewrite Forall_forall in Hlt. specialize (Hlt y Hin). simpl in Hy. lia.
      * apply NoDup_cons. split; [| exact H3].
        intros Hu. apply list_elem_of_fmap in Hu as (y & Hy & Hin).
        apply Forall_app in Hlt as [_ Hlt].
        rewrite Forall_forall in Hlt. specialize (Hlt y Hin). simpl in Hy. lia.
    + apply Forall_app in Hlt as [H1 H2]. apply Forall_app. split.
      * eapply Forall_impl; [exact H1 |]. simpl. lia.
      * constructor; [simpl; lia |].
        eapply Forall_impl; [exact H2 |]. simpl. lia.
Qed.

(** *** The containers and their invariants *)

(** The comparator is a strict weak ordering whose equivalence is
    [std.equal_to]. *)
Record agrees (comp : T -> T -> bool) : Prop := {
  agrees_order : strict_weak_order comp;
  agrees_equal : forall x y,
    std_equal_to x y = true <-> comp x y = false /\ comp y x = false
}.

(** A handle strictly before another one. *)
Definition strictly (comp : T -> T -> bool) (a b : It) : Prop :=
  comp (value a) (value b) = true.

(** A unique set: the tree holds the handles of the store, in strictly
    increasing order of the comparator. *)
Record wf (s : set) : Prop := {
  wf_store : Store.wf (TreeSet.data_ s);
  wf_comparator : agrees (comparator s);
  wf_index : inorder (root s) ≡ₚ nodes s;
  wf_unique : StronglySorted (strictly (comparator s)) (inorder (root s))
}.

(** The store is the in-order sequence of the tree. *)
Definition ordered (s : set) : Prop := inorder (root s) = nodes s.

(** Insertion of a sequence of values, one call of [insert] each. *)
Definition insert_all (vals : list T) (s : set) : set :=
  fold_left (fun s v => snd (TreeSet.insert_by_val std_less std_equal_to v s))
            vals s.

Definition multi_insert_all (vals : list T) (s : set) : set :=
  fold_left
    (fun s v => snd (TreeSet.multi_insert_by_val std_less std_equal_to v s))
    vals s.

Lemma ssorted_app {A} (R : A -> A -> Prop) (l1 l2 : list A) :
  StronglySorted R (l1 ++ l2) <->
  StronglySorted R l1 /\ StronglySorted R l2 /\
  Forall (fun a => Forall (R a) l2) l1.
Proof.
  induction l1 as [| a l1 IH]; simpl.
  - split; [intros H; repeat split; auto; constructor | tauto].
  - split.
    + intros H. apply StronglySorted_inv in H as [Hs Hf].
      apply IH in Hs as (H1 & H2 & H3). apply Forall_app in Hf as [Hf1 Hf2].
      repeat split; auto; now constructor.
    + intros (H1 & H2 & H3). apply StronglySorted_inv in H1 as [H1 Hf1].
      apply Forall_cons in H3 as [Hf2 H3].
      constructor; [apply IH; auto | apply Forall_app; auto].
Qed.

Lemma ssorted_impl {A} (R R' : A -> A -> Prop) (l : list A) :
  (forall a b, R a b -> R' a b) -> StronglySorted R l -> StronglySorted R' l.
Proof.
  intros Himp. induction 1 as [| a l Hs IH Ha]; constructor; auto.
  eapply Forall_impl; [exact Ha | auto].
Qed.

Lemma is_less_order (tr : TreeSet.AtomicTree T) :
  strict_weak_order (TreeSet.compare_ tr) ->
  strict_weak_order (TreeSet.is_less tr).
Proof.
  intros [H1 H2 H3]. unfold TreeSet.is_less. split; intros.
  - apply H1.
  - eapply H2; eauto.
  - eapply H3; eauto.
Qed.

Section Comparator.

Variable comp : T -> T -> bool.
Hypothesis Hagrees : agrees comp.

Abbreviation order := (agrees_order comp Hagrees).

Lemma equal_equivalent (val : T) (x : It) :
  std_equal_to (value x) val = true <->
  MultiMapTree.equivalent key comp val x = true.
Proof.
  rewrite (agrees_equal comp Hagrees). unfold MultiMapTree.equivalent.
  change (MultiMapTree.first key x) with (value x).
  rewrite andb_true_iff, !negb_true_iff. tauto.
Qed.

Lemma strictly_key_sorted (l : list It) :
  StronglySorted (strictly comp) l -> MultiMapTreeFacts.key_sorted key comp l.
Proof.
  apply ssorted_impl. intros a b Hab.
  change (comp (value b) (value a) = false).
  now apply (comp_asym comp order).
Qed.

(** Between strictly increasing handles, equivalent ones are the same. *)
Lemma strictly_unique (l : list It) (val : T) (x y : It) :
  StronglySorted (strictly comp) l -> x ∈ l -> y ∈ l ->
  MultiMapTree.equivalent key comp val x = true ->
  MultiMapTree.equivalent key comp val y = true -> x = y.
Proof.
  intros Hs Hx Hy Ex Ey.
  unfold MultiMapTree.equivalent in Ex, Ey.
  change (MultiMapTree.first key x) with (value x) in Ex.
  change (MultiMapTree.first key y) with (value y) in Ey.
  apply andb_true_iff in Ex as [Ex1 Ex2], Ey as [Ey1 Ey2].
  apply negb_true_iff in Ex1, Ex2, Ey1, Ey2.
  destruct (swo_equiv _ order (value x) val (value y) Ex2 Ex1 Ey1 Ey2)
    as [Hxy Hyx].
  induction Hs as [| a l Hs IH Ha]; [now apply elem_of_nil in Hx |].
  rewrite Forall_forall in Ha.
  apply elem_of_cons in Hx as [-> | Hx], Hy as [-> | Hy]; auto.
  - specialize (Ha y Hy). unfold strictly in Ha. congruence.
  - specialize (Ha x Hx). unfold strictly in Ha. congruence.
Qed.

End Comparator.


(** *** Search in the tree *)

Section Search.

Variable comp : T -> T -> bool.
Hypothesis order : strict_weak_order comp.

Abbreviation equivalent := (MultiMapTree.equivalent key comp).
Abbreviation precedes := (MultiMapTreeFacts.precedes key comp).
Abbreviation follows := (MultiMapTreeFacts.follows key comp).
Abbreviation key_sorted := (MultiMapTreeFacts.key_sorted key comp).

(** Without a handle of equivalent key, the search ends on a handle next
    to the place of the key. *)
Lemma nearest_loop_adjacent (k : T) (n : XTreeNode It) :
  n <> null -> key_sorted (inorder n) ->
  filter (fun y => equivalent k y) (inorder n) = [] ->
  exists c l x r l1 l2,
    nearest_loop key comp k Left n null = node c l x r /\
    inorder n = l1 ++ x :: l2 /\
    Forall (fun y => precedes k y = true) l1 /\
    Forall (fun y => follows k y = true) l2 /\
    (precedes k x = true \/ follows k x = true).
Proof.
  induction n as [| c l IHl it r IHr]; intros Hne Hs Hnone; [contradiction |].
  cbn [inorder] in *.
  destruct (key_sorted_node key comp _ _ _ Hs) as (Hsl & Hsr & Hl & Hr).
  cbn [nearest_loop].
  change (MultiMapTree.first key it) with (value it).
  rewrite filter_app, filter_cons in Hnone.
  apply app_eq_nil in Hnone as [Hnl Hnr].
  destruct (comp k (value it)) eqn:Hlt.
  { assert (Hfr : Forall (fun y => follows k y = true) (inorder r)).
    { eapply Forall_impl; [exact Hr |]. simpl. intros y Hy.
      eapply (follows_after key comp order); eauto. }
    destruct l as [| lc ll lv lr].
    - exists c, null, it, r, [], (inorder r). repeat split; auto.
    - destruct (IHl ltac:(discriminate) Hsl Hnl)
        as (c' & l' & x & r' & l1 & l2 & Hres & Hin & H1 & H2 & Hx).
      exists c', l', x, r', l1, (l2 ++ it :: inorder r).
      split; [exact Hres |]. split; [rewrite Hin; flatten |].
      split; [exact H1 |]. split; [| exact Hx].
      apply Forall_app. split; [exact H2 |]. constructor; [exact Hlt | exact Hfr]. }
  destruct (comp (value it) k) eqn:Hgt.
  { assert (Hfl : Forall (fun y => precedes k y = true) (inorder l)).
    { eapply Forall_impl; [exact Hl |]. simpl. intros y Hy.
      eapply (precedes_before key comp order); eauto. }
    destruct r as [| rc rl rv rr].
    - exists c, l, it, null, (inorder l), []. repeat split; auto.
    - destruct (IHr ltac:(discriminate) Hsr)
        as (c' & l' & x & r' & l1 & l2 & Hres & Hin & H1 & H2 & Hx).
      { destruct (decide (equivalent k it)); [discriminate | exact Hnr]. }
      exists c', l', x, r', (inorder l ++ it :: l1), l2.
      split; [exact Hres |]. split; [rewrite Hin; flatten |].
      split; [| split; [exact H2 | exact Hx]].
      apply Forall_app. split; [exact Hfl |]. constructor; [exact Hgt | exact H1]. }
  exfalso. rewrite decide_True in Hnr; [discriminate |].
  unfold MultiMapTree.equivalent.
  change (MultiMapTree.first key it) with (value it).
  now rewrite Hlt, Hgt.
Qed.

(** The search returns a node of the tree. *)
Lemma nearest_loop_in (k : T) (s : side) (n : XTreeNode It) :
  forall matched c l x r,
    nearest_loop key comp k s n matched = node c l x r ->
    x ∈ inorder n \/ matched = node c l x r.
Proof.
  induction n as [| c0 l0 IHl it r0 IHr]; intros matched c l x r Hres;
    [now right |].
  cbn [nearest_loop inorder] in *.
  assert (Hhere : it ∈ inorder l0 ++ it :: inorder r0)
    by (apply elem_of_app; right; apply list_elem_of_here).
  assert (Hleft : forall m,
            nearest_loop key comp k s l0 m = node c l x r ->
            x ∈ inorder l0 ++ it :: inorder r0 \/ m = node c l x r).
  { intros m Hm. destruct (IHl _ _ _ _ _ Hm) as [Hin | Hm'];
      [left; apply elem_of_app; now left | now right]. }
  assert (Hright : forall m,
            nearest_loop key comp k s r0 m = node c l x r ->
            x ∈ inorder l0 ++ it :: inorder r0 \/ m = node c l x r).
  { intros m Hm. destruct (IHr _ _ _ _ _ Hm) as [Hin | Hm'];
      [left; apply elem_of_app; right; now apply list_elem_of_further
      | now right]. }
  assert (Hself : forall m,
            m = node c l x r ->
            m = node c0 l0 it r0 -> x ∈ inorder l0 ++ it :: inorder r0).
  { intros m -> [= _ _ -> _]. exact Hhere. }
  destruct (comp k (MultiMapTree.first key it)).
  { destruct l0; [| now apply Hleft].
    destruct matched; [left; injection Hres as _ _ <- _; exact Hhere
                      | now right]. }
  destruct (comp (MultiMapTree.first key it) k).
  { destruct r0; [| now apply Hright].
    destruct matched; [left; injection Hres as _ _ <- _; exact Hhere
                      | now right]. }
  destruct s.
  - destruct l0; [left; injection Hres as _ _ <- _; exact Hhere |].
    destruct (Hleft _ Hres) as [Hin | Hm]; [now left |].
    left. injection Hm as _ _ <- _. exact Hhere.
  - destruct r0; [left; injection Hres as _ _ <- _; exact Hhere |].
    destruct (Hright _ Hres) as [Hin | Hm]; [now left |].
    left. injection Hm as _ _ <- _. exact Hhere.
Qed.

End Search.

(** *** Insertion into a unique set *)

Lemma insert_before_perm (d : Store.t T) (pos : Store.position) (val : T) :
  Store.wf d ->
  exists d',
    Store.insert_before pos val d = (mkIterator (Store.sequence d) val, d') /\
    Store.nodes d' ≡ₚ mkIterator (Store.sequence d) val :: Store.nodes d /\
    (mkIterator (Store.sequence d) val ∉ Store.nodes d) /\
    Store.wf d'.
Proof.
  intros [Hnd Hlt]. set (new := mkIterator (Store.sequence d) val).
  assert (Hfresh : uid new ∉ uid <$> Store.nodes d).
  { intros Hin. apply list_elem_of_fmap in Hin as (y & Hy & Hin).
    rewrite Forall_forall in Hlt. specialize (Hlt y Hin).
    simpl in Hy. lia. }
  assert (Hnew : new ∉ Store.nodes d).
  { intros Hin. apply Hfresh. apply list_elem_of_fmap. eauto. }
  assert (Hwf : forall l, l ≡ₚ new :: Store.nodes d ->
                          Store.wf (Store.mk l (S (Store.sequence d)))).
  { intros l Hl. split; simpl.
    - rewrite Hl. simpl. apply NoDup_cons. split; assumption.
    - rewrite Hl. constructor; [simpl; lia |].
      eapply Forall_impl; [exact Hlt |]. simpl. lia. }
  unfold Store.insert_before. fold new. destruct pos as [it |].
  - eexists. split; [reflexivity |]. simpl.
    pose proof (link_before_perm (Store.nodes d) it new) as Hp.
    split; [exact Hp |]. split; [exact Hnew |]. now apply Hwf.
  - eexists. split; [reflexivity |]. simpl.
    assert (Hp : Store.nodes d ++ [new] ≡ₚ new :: Store.nodes d).
    { symmetry. apply Permutation_cons_append. }
    split; [exact Hp |]. split; [exact Hnew |]. now apply Hwf.
Qed.

Section Unique.

Variable s : set.
Variable val : T.
Hypothesis Hwf : wf s.

Abbreviation comp := (comparator s).
Abbreviation Hcomp := (wf_comparator s Hwf).
Abbreviation Horder := (agrees_order comp Hcomp).
Abbreviation less := (TreeSet.is_less (TreeSet.tree_ s)).
Abbreviation new := (mkIterator (Store.sequence (TreeSet.data_ s)) val).

Lemma tree_key_sorted :
  MultiMapTreeFacts.key_sorted key comp (inorder (root s)).
Proof. apply (strictly_key_sorted comp Hcomp), (wf_unique s Hwf). Qed.

(** The search finds the handle of the equal element. *)
Lemma find_present (e : It) :
  e ∈ nodes s -> std_equal_to (value e) val = true ->
  exists c l r, TreeSet.tree_find val (TreeSet.tree_ s) = node c l e r.
Proof.
  intros He Heq. rewrite <- (wf_index s Hwf) in He.
  apply (equal_equivalent comp Hcomp) in Heq.
  assert (Hroot : root s <> null).
  { intros Hn. rewrite Hn in He. now apply elem_of_nil in He. }
  pose proof (nearest_loop_left key comp Horder val (root s) null Hroot
                tree_key_sorted) as Hleft.
  assert (Hrun : e ∈ filter (fun y => MultiMapTree.equivalent key comp val y)
                            (inorder (root s))).
  { apply list_elem_of_filter. split; [now apply Is_true_true | exact He]. }
  destruct (filter _ (inorder (root s))) as [| x run] eqn:Hf;
    [now apply elem_of_nil in Hrun |].
  simpl in Hleft.
  assert (Hx : x ∈ filter (fun y => MultiMapTree.equivalent key comp val y)
                          (inorder (root s))).
  { rewrite Hf. apply list_elem_of_here. }
  apply list_elem_of_filter in Hx as [Hxe Hx]. apply Is_true_true in Hxe.
  assert (x = e) as ->.
  { apply (strictly_unique comp Hcomp (inorder (root s)) val); auto.
    apply (wf_unique s Hwf). }
  unfold TreeSet.tree_find, nearest_by_key, _Nearest_by_key.
  destruct (root s) as [| c0 l0 v0 r0] eqn:Hr; [contradiction |].
  destruct (nearest_loop key comp val Left (node c0 l0 v0 r0) null)
    as [| c l y r]; [discriminate |].
  simpl in Hleft. injection Hleft as ->. eauto.
Qed.

(** Without an equal element, the search ends on a handle that is not
    equal to the value. *)
Lemma find_absent :
  (forall e, e ∈ nodes s -> std_equal_to (value e) val = false) ->
  match TreeSet.tree_find val (TreeSet.tree_ s) with
  | null => root s = null
  | node _ _ x _ => x ∈ nodes s /\ std_equal_to (value x) val = false
  end.
Proof.
  intros Habs. unfold TreeSet.tree_find, nearest_by_key, _Nearest_by_key.
  destruct (root s) as [| c0 l0 v0 r0] eqn:Hr; [reflexivity |].
  destruct (nearest_loop key comp val Left (node c0 l0 v0 r0) null)
    as [| c l x r] eqn:Hres.
  - destruct (nearest_loop_adjacent comp Horder val (node c0 l0 v0 r0))
      as (c & l & x & r & l1 & l2 & Hn & _); [discriminate | | | congruence].
    + rewrite <- Hr. exact tree_key_sorted.
    + apply filter_none. apply Forall_forall. intros y Hy Hc.
      apply Is_true_true in Hc. apply (equal_equivalent comp Hcomp) in Hc.
      rewrite <- Hr, (wf_index s Hwf) in Hy. rewrite (Habs y Hy) in Hc.
      discriminate.
  - destruct (nearest_loop_in comp val Left _ _ _ _ _ _ Hres) as [Hin | Hm];
      [| discriminate].
    rewrite <- Hr, (wf_index s Hwf) in Hin. split; [exact Hin | now apply Habs].
Qed.

Lemma place_in_perm (l : list It) :
  place_in less new l ≡ₚ new :: l.
Proof.
  destruct (place_in_split less new l) as (l1 & l2 & -> & -> & _).
  symmetry. apply Permutation_middle.
Qed.

(** The new handle takes its place in the strict order of the tree. *)
Lemma place_in_strict (l : list It) :
  StronglySorted (strictly comp) l ->
  (forall e, e ∈ l -> std_equal_to (value e) val = false) ->
  StronglySorted (strictly comp) (place_in less new l).
Proof.
  intros Hs Habs.
  destruct (place_in_split less new l) as (l1 & l2 & -> & -> & Hl1 & Hl2).
  apply ssorted_app in Hs as (H1 & H2 & H3).
  assert (Hbefore : Forall (fun y => strictly comp y new) l1).
  { apply Forall_forall. intros y Hy. unfold strictly. simpl.
    rewrite Forall_forall in Hl1. specialize (Hl1 y Hy).
    unfold TreeSet.is_less in Hl1. simpl in Hl1.
    destruct (comp (value y) val) eqn:Hc; [reflexivity |].
    assert (std_equal_to (value y) val = true)
      by (apply (agrees_equal comp Hcomp); auto).
    rewrite Habs in H; [discriminate |]. apply elem_of_app. now left. }
  assert (Hafter : Forall (strictly comp new) l2).
  { destruct l2 as [| y l2]; [constructor |].
    unfold TreeSet.is_less in Hl2. simpl in Hl2.
    apply StronglySorted_inv in H2 as [_ Hy].
    constructor; [exact Hl2 |].
    eapply Forall_impl; [exact Hy |]. simpl. unfold strictly. simpl.
    intros z Hz. exact (swo_trans _ Horder _ _ _ Hl2 Hz). }
  apply ssorted_app. split; [exact H1 |]. split.
  - constructor; assumption.
  - rewrite Forall_forall in *. intros a Ha. constructor; auto.
Qed.

(** A new element is linked (wherever the hint points) and registered. *)
Lemma insert_hint_new (hint : Store.position) :
  (forall e, e ∈ nodes s -> std_equal_to (value e) val = false) ->
  exists s',
    TreeSet.insert_hint hint val s = (new, s') /\
    nodes s' ≡ₚ new :: nodes s /\ (new ∉ nodes s) /\ wf s' /\
    comparator s' = comparator s /\
    inorder (root s') = place_in less new (inorder (root s)).
Proof.
  intros Habs. unfold TreeSet.insert_hint.
  destruct (insert_before_perm (TreeSet.data_ s) hint val (wf_store s Hwf))
    as (d' & -> & Hp & Hnew & Hd').
  eexists. split; [reflexivity |]. cbn.
  assert (Hin : inorder (XTree.insert less new (root s))
                = place_in less new (inorder (root s))).
  { apply insert_inorder; [apply is_less_order, Horder |].
    exact tree_key_sorted. }
  split; [exact Hp |]. split; [exact Hnew |]. split; [| split; [reflexivity | exact Hin]].
  split; cbn.
  - exact Hd'.
  - exact Hcomp.
  - rewrite Hin, place_in_perm, Hp. now rewrite (wf_index s Hwf).
  - rewrite Hin. apply place_in_strict; [apply (wf_unique s Hwf) |].
    intros e He. apply Habs. now rewrite <- (wf_index s Hwf).
Qed.

End Unique.


Lemma place_in_exact {A} (is_less : A -> A -> bool) (v : A) (l1 l2 : list A) :
  Forall (fun y => is_less v y = false) l1 ->
  match l2 with [] => True | y :: _ => is_less v y = true end ->
  place_in is_less v (l1 ++ l2) = l1 ++ v :: l2.
Proof.
  intros H1 H2. induction H1 as [| y l1 Hy _ IH]; simpl.
  - destruct l2 as [| y l2]; [reflexivity |]. simpl. now rewrite H2.
  - now rewrite Hy, IH.
Qed.

Lemma present_or_absent (l : list It) (val : T) :
  (exists e, e ∈ l /\ std_equal_to (value e) val = true) \/
  (forall e, e ∈ l -> std_equal_to (value e) val = false).
Proof.
  induction l as [| a l [(e & He & Heq) | IH]].
  - right. intros e He. now apply elem_of_nil in He.
  - left. exists e. split; [now apply list_elem_of_further | exact Heq].
  - destruct (std_equal_to (value a) val) eqn:Ha.
    + left. exists a. split; [apply list_elem_of_here | exact Ha].
    + right. intros e He. apply elem_of_cons in He as [-> | He]; auto.
Qed.

(** [insert] of a value that the set holds: the handle of the element,
    [false], and the same container. *)
Lemma tree_insert_by_val_present (s : set) (val : T) (e : It) :
  wf s -> e ∈ nodes s -> std_equal_to (value e) val = true ->
  TreeSet.insert_by_val std_less std_equal_to val s = ((e, false), s).
Proof.
  intros Hwf He Heq.
  destruct (find_present s val Hwf e He Heq) as (c & l & r & Hfind).
  unfold TreeSet.insert_by_val. now rewrite Hfind, Heq.
Qed.

(** [insert] of a value that the set does not hold: a new handle, [true],
    and the container with one more element. *)
Lemma tree_insert_by_val_absent (s : set) (val : T) :
  wf s -> (forall e, e ∈ nodes s -> std_equal_to (value e) val = false) ->
  exists s',
    TreeSet.insert_by_val std_less std_equal_to val s
    = ((mkIterator (Store.sequence (TreeSet.data_ s)) val, true), s') /\
    nodes s' ≡ₚ mkIterator (Store.sequence (TreeSet.data_ s)) val :: nodes s /\
    (mkIterator (Store.sequence (TreeSet.data_ s)) val ∉ nodes s) /\
    wf s' /\ comparator s' = comparator s.
Proof.
  intros Hwf Habs. pose proof (find_absent s val Hwf Habs) as Hfind.
  unfold TreeSet.insert_by_val.
  destruct (TreeSet.tree_find val (TreeSet.tree_ s)) as [| c l x r].
  - destruct (insert_hint_new s val Hwf TreeSet.end_ Habs)
      as (s' & -> & H1 & H2 & H3 & H4 & _). eauto 6.
  - destruct Hfind as [_ ->].
    match goal with
    | |- context [TreeSet.insert_hint ?h val s] =>
        destruct (insert_hint_new s val Hwf h Habs)
          as (s' & -> & H1 & H2 & H3 & H4 & _)
    end. eauto 6.
Qed.

(** With the tree ordered by [std.less], the hint is the place of the new
    element: the store stays the in-order sequence of the tree. *)
Lemma insert_by_val_ordered (s : set) (val : T) :
  wf s -> ordered s -> (forall x y, comparator s x y = std_less x y) ->
  ordered (snd (TreeSet.insert_by_val std_less std_equal_to val s)).
Proof.
  intros Hwf Hord Hless.
  pose proof (wf_comparator s Hwf) as Hcomp.
  pose proof (agrees_order _ Hcomp) as Horder.
  destruct (present_or_absent (nodes s) val) as [(e & He & Heq) | Habs].
  { now rewrite (tree_insert_by_val_present s val e Hwf He Heq). }
  pose proof (find_absent s val Hwf Habs) as Hfind.
  destruct (wf_store s Hwf) as [Hnd Hlt].
  set (new := mkIterator (Store.sequence (TreeSet.data_ s)) val).
  assert (Hgoal : forall l1 l2,
    nodes s = l1 ++ l2 ->
    Forall (fun y => TreeSet.is_less (TreeSet.tree_ s) new y = false) l1 ->
    match l2 with
    | [] => True
    | y :: _ => TreeSet.is_less (TreeSet.tree_ s) new y = true
    end ->
    ordered (snd (let '(it, s') := TreeSet.insert_hint (head l2) val s in
                  ((it, true), s')))).
  { intros l1 l2 Hn H1 H2. unfold TreeSet.insert_hint.
    destruct (insert_before_at (TreeSet.data_ s) l1 l2 val (wf_store s Hwf) Hn)
      as [-> _].
    unfold ordered. cbn. fold new.
    rewrite insert_inorder;
      [| apply is_less_order, Horder | apply (tree_key_sorted s Hwf)].
    rewrite Hord, Hn. now apply place_in_exact. }
  unfold TreeSet.insert_by_val.
  unfold TreeSet.tree_find, nearest_by_key, _Nearest_by_key in *.
  destruct (root s) as [| c0 l0 v0 r0] eqn:Hr.
  - (* the empty set *)
    apply (Hgoal [] []); [| constructor | exact I].
    unfold ordered in Hord. rewrite Hr in Hord. now rewrite <- Hord.
  - destruct (nearest_loop_adjacent (comparator s) Horder val
                (node c0 l0 v0 r0))
      as (c & l & x & r & l1 & l2 & Hres & Hin & H1 & H2 & Hx);
      [discriminate | | |].
    { rewrite <- Hr. apply (tree_key_sorted s Hwf). }
    { apply filter_none. apply Forall_forall. intros y Hy Hc.
      apply Is_true_true in Hc. apply (equal_equivalent _ Hcomp) in Hc.
      rewrite <- Hr, (wf_index s Hwf) in Hy. rewrite (Habs y Hy) in Hc.
      discriminate. }
    rewrite Hres in *. destruct Hfind as [_ ->].
    rewrite <- Hr, Hord in Hin.
    assert (Hl1 : Forall (fun y => TreeSet.is_less (TreeSet.tree_ s) new y
                                   = false) l1).
    { eapply Forall_impl; [exact H1 |]. simpl. intros y Hy.
      now apply (comp_asym _ Horder). }
    assert (Hl2 : match l2 with
                  | [] => True
                  | y :: _ => TreeSet.is_less (TreeSet.tree_ s) new y = true
                  end).
    { destruct l2 as [| y l2]; [exact I |].
      now apply Forall_cons in H2 as [H2 _]. }
    destruct (std_less (value x) val) eqn:Hlt'.
    + (* the nearest handle precedes the value: linked after it *)
      assert (Hnext : Store.next (TreeSet.data_ s) x = head l2).
      { unfold Store.next. rewrite Hin. apply next_in_middle.
        now rewrite <- Hin. }
      rewrite Hnext. apply (Hgoal (l1 ++ [x]) l2).
      * rewrite Hin. flatten.
      * apply Forall_app. split; [exact Hl1 |]. constructor; [| constructor].
        apply (comp_asym _ Horder). unfold TreeSet.is_less. simpl.
        now rewrite Hless.
      * exact Hl2.
    + (* the nearest handle follows the value: linked before it *)
      apply (Hgoal l1 (x :: l2) Hin Hl1).
      destruct Hx as [Hx | Hx]; [| exact Hx].
      unfold MultiMapTreeFacts.precedes in Hx.
      change (MultiMapTree.first key x) with (value x) in Hx.
      rewrite Hless in Hx. congruence.
Qed.


(** *** The multiset *)

(** A multiset: the store and the tree hold the same handles, both in
    comparator order, and the run of every key starts with the same handle
    in the two; the tree is ordered by [std.less]. *)
Record multi_wf (s : set) : Prop := {
  mwf_store : Store.wf (TreeSet.data_ s);
  mwf_comparator : agrees (comparator s);
  mwf_less : forall x y, comparator s x y = std_less x y;
  mwf_index : inorder (root s) ≡ₚ nodes s;
  mwf_tree : MultiMapTreeFacts.key_sorted key (comparator s) (inorder (root s));
  mwf_nodes : MultiMapTreeFacts.key_sorted key (comparator s) (nodes s);
  mwf_first : forall k,
    head (filter (fun y => MultiMapTree.equivalent key (comparator s) k y)
                 (inorder (root s)))
    = head (filter (fun y => MultiMapTree.equivalent key (comparator s) k y)
                   (nodes s))
}.

Lemma filter_insert_drop {A} (P : A -> Prop) `{forall x, Decision (P x)}
    (a b : list A) (new : A) :
  ~ P new -> filter P (a ++ new :: b) = filter P (a ++ b).
Proof.
  intros Hn. now rewrite !filter_app, filter_cons, decide_False.
Qed.

Lemma head_filter_later {A} (P : A -> Prop) `{forall x, Decision (P x)}
    (a b : list A) (x new : A) :
  x ∈ a -> (P new -> P x) ->
  head (filter P (a ++ new :: b)) = head (filter P (a ++ b)).
Proof.
  intros Hx Himp. destruct (decide (P new)) as [Hp | Hp].
  - assert (Hin : x ∈ filter P a) by (apply list_elem_of_filter; auto).
    rewrite !filter_app. destruct (filter P a); [| reflexivity].
    now apply elem_of_nil in Hin.
  - now rewrite filter_insert_drop.
Qed.

Lemma filter_insert_single {A} (P : A -> Prop) `{forall x, Decision (P x)}
    (a b : list A) (new : A) :
  Forall (fun y => ~ P y) (a ++ b) -> P new ->
  filter P (a ++ new :: b) = [new].
Proof.
  intros Hall Hp. apply Forall_app in Hall as [Ha Hb].
  rewrite filter_app, filter_cons, decide_True by assumption.
  now rewrite (filter_none P a Ha), (filter_none P b Hb).
Qed.

Lemma skip_while_app (cond : T -> bool) (l1 l2 : list It) :
  Forall (fun y => cond (value y) = true) l1 ->
  TreeSet.skip_while cond (l1 ++ l2) = TreeSet.skip_while cond l2.
Proof.
  induction 1 as [| y l1 Hy _ IH]; [reflexivity |]. simpl. now rewrite Hy.
Qed.

Lemma skip_while_stop (cond : T -> bool) (l : list It) :
  match l with [] => True | y :: _ => cond (value y) = false end ->
  TreeSet.skip_while cond l = head l.
Proof.
  destruct l as [| y l]; [reflexivity |]. simpl. now intros ->.
Qed.

(** The nodes from the successor of [x] on. *)
Lemma from_next (s : set) (l1 l2 : list It) (x : It) :
  Store.wf (TreeSet.data_ s) -> nodes s = l1 ++ x :: l2 ->
  TreeSet.from s (Store.next (TreeSet.data_ s) x) = l2.
Proof.
  intros [Hnd _] Hn. unfold Store.next. rewrite Hn in Hnd |- *.
  rewrite (next_in_middle l1 l2 x Hnd).
  destruct l2 as [| z l2]; [reflexivity |]. simpl. rewrite Hn.
  replace (l1 ++ x :: z :: l2) with ((l1 ++ [x]) ++ z :: l2) by flatten.
  apply from_uid_middle.
  replace ((l1 ++ [x]) ++ z :: l2) with (l1 ++ x :: z :: l2) by flatten.
  exact Hnd.
Qed.

Section Equivalence.

Variable comp : T -> T -> bool.
Hypothesis order : strict_weak_order comp.

Abbreviation equivalent := (MultiMapTree.equivalent key comp).

Lemma equivalent_same (k : T) (x y : It) :
  equivalent (value x) y = true -> equivalent k x = equivalent k y.
Proof.
  unfold MultiMapTree.equivalent.
  change (MultiMapTree.first key x) with (value x).
  change (MultiMapTree.first key y) with (value y).
  intros Hxy. apply andb_true_iff in Hxy as [H1 H2].
  apply negb_true_iff in H1, H2.
  destruct (comp k (value x)) eqn:Hkx, (comp (value x) k) eqn:Hxk,
           (comp k (value y)) eqn:Hky, (comp (value y) k) eqn:Hyk;
    simpl; try reflexivity; exfalso.
  all: try (destruct (less_cases comp order _ _ (value y) Hkx); congruence).
  all: try (destruct (less_cases comp order _ _ (value y) Hxk); congruence).
  all: try (destruct (less_cases comp order _ _ (value x) Hky); congruence).
  all: try (destruct (less_cases comp order _ _ (value x) Hyk); congruence).
Qed.

Lemma equivalent_sym (x y : It) :
  equivalent (value x) y = equivalent (value y) x.
Proof.
  unfold MultiMapTree.equivalent.
  change (MultiMapTree.first key x) with (value x).
  change (MultiMapTree.first key y) with (value y).
  apply andb_comm.
Qed.

Lemma equivalent_refl (x : It) : equivalent (value x) x = true.
Proof.
  unfold MultiMapTree.equivalent.
  change (MultiMapTree.first key x) with (value x).
  now rewrite (swo_irrefl _ order).
Qed.

(** Linking a handle between the handles that are not after it and those
    that are not before it keeps the order. *)
Lemma key_sorted_insert (l1 l2 : list It) (new : It) :
  MultiMapTreeFacts.key_sorted key comp (l1 ++ l2) ->
  Forall (fun y => comp (value new) (value y) = false) l1 ->
  Forall (fun z => comp (value z) (value new) = false) l2 ->
  MultiMapTreeFacts.key_sorted key comp (l1 ++ new :: l2).
Proof.
  unfold MultiMapTreeFacts.key_sorted. rewrite !ssorted_app.
  intros (H1 & H2 & H3) Hb Ha. split; [exact H1 |]. split.
  - constructor; [exact H2 | exact Ha].
  - rewrite Forall_forall in *. intros a Hin. constructor; auto.
    exact (Hb a Hin).
Qed.

End Equivalence.


(** The search ends on the first handle of the run of the value. *)
Lemma multi_find_first (s : set) (val : T) (e : It) :
  multi_wf s -> e ∈ nodes s -> std_equal_to (value e) val = true ->
  exists x run' c l r,
    filter (fun y => MultiMapTree.equivalent key (comparator s) val y)
           (nodes s) = x :: run' /\
    TreeSet.tree_find val (TreeSet.tree_ s) = node c l x r.
Proof.
  intros Hwf He Heq.
  pose proof (mwf_comparator s Hwf) as Hcomp.
  pose proof (agrees_order _ Hcomp) as Horder.
  assert (Hrun : e ∈ filter (fun y => MultiMapTree.equivalent key
                                        (comparator s) val y) (nodes s)).
  { apply list_elem_of_filter. split; [| exact He].
    apply Is_true_true. now apply (equal_equivalent _ Hcomp). }
  destruct (filter _ (nodes s)) as [| x0 run'] eqn:Hr;
    [now apply elem_of_nil in Hrun |].
  assert (Hroot : root s <> null).
  { intros Hn. rewrite <- (mwf_index s Hwf), Hn in He.
    now apply elem_of_nil in He. }
  pose proof (nearest_loop_left key _ Horder val (root s) null Hroot
                (mwf_tree s Hwf)) as Hleft.
  rewrite (mwf_first s Hwf val), Hr in Hleft. simpl in Hleft.
  exists x0, run'.
  unfold TreeSet.tree_find, nearest_by_key, _Nearest_by_key.
  destruct (root s) as [| c0 t0 v0 r0]; [contradiction |].
  destruct (nearest_loop key _ val Left (node c0 t0 v0 r0) null)
    as [| c l y r]; [discriminate |].
  simpl in Hleft. injection Hleft as ->. eauto.
Qed.

(** The bounds of the run of a value in a multiset. *)
Lemma multi_bounds (s : set) (val : T) (e : It) :
  multi_wf s -> e ∈ nodes s -> std_equal_to (value e) val = true ->
  exists l1 run l2,
    nodes s = l1 ++ run ++ l2 /\
    l1 = filter (fun y => MultiMapTreeFacts.precedes key (comparator s) val y)
                (nodes s) /\
    run = filter (fun y => MultiMapTree.equivalent key (comparator s) val y)
                 (nodes s) /\
    l2 = filter (fun y => MultiMapTreeFacts.follows key (comparator s) val y)
                (nodes s) /\
    run <> [] /\
    TreeSet.multi_lower_bound std_less std_equal_to val s = head run /\
    TreeSet.multi_upper_bound std_less std_equal_to val s = head l2.
Proof.
  intros Hwf He Heq.
  pose proof (mwf_comparator s Hwf) as Hcomp.
  pose proof (agrees_order _ Hcomp) as Horder.
  set (comp := comparator s) in *.
  set (run := filter (fun y => MultiMapTree.equivalent key comp val y)
                     (nodes s)).
  set (l1 := filter (fun y => MultiMapTreeFacts.precedes key comp val y)
                    (nodes s)).
  set (l2 := filter (fun y => MultiMapTreeFacts.follows key comp val y)
                    (nodes s)).
  exists l1, run, l2.
  pose proof (sorted_decompose key comp Horder val (nodes s)
                (mwf_nodes s Hwf)) as Hdec.
  fold run l1 l2 in Hdec.
  assert (Hrun : e ∈ run).
  { apply list_elem_of_filter. split; [| exact He].
    apply Is_true_true. now apply (equal_equivalent comp Hcomp). }
  destruct run as [| x0 run'] eqn:Hr; [now apply elem_of_nil in Hrun |].
  split; [exact Hdec |]. do 3 (split; [reflexivity |]).
  split; [discriminate |].
  assert (Hfind : exists c l r,
             TreeSet.tree_find val (TreeSet.tree_ s) = node c l x0 r).
  { destruct (multi_find_first s val e Hwf He Heq)
      as (x & t & c & l & r & Hx & Hfind).
    change (run = x :: t) in Hx. rewrite Hr in Hx. injection Hx as <- _.
    eauto. }
  destruct Hfind as (c & l & r & Hfind).
  assert (Hall : forall y, y ∈ x0 :: run' ->
                           std_equal_to (value y) val = true).
  { intros y Hy. rewrite <- Hr in Hy. apply list_elem_of_filter in Hy as [Hy _].
    apply Is_true_true in Hy. now apply (equal_equivalent comp Hcomp). }
  split.
  - unfold TreeSet.multi_lower_bound. rewrite Hfind.
    rewrite (Hall x0) by apply list_elem_of_here. reflexivity.
  - unfold TreeSet.multi_upper_bound. rewrite Hfind.
    unfold TreeSet.from. rewrite Hdec.
    change (l1 ++ (x0 :: run') ++ l2) with (l1 ++ x0 :: run' ++ l2).
    rewrite from_uid_middle.
    2:{ change (l1 ++ x0 :: run' ++ l2) with (l1 ++ (x0 :: run') ++ l2).
        rewrite <- Hdec. apply (mwf_store s Hwf). }
    change (x0 :: run' ++ l2) with ((x0 :: run') ++ l2).
    rewrite skip_while_app.
    2:{ apply Forall_forall. intros y Hy. now rewrite (Hall y Hy). }
    apply skip_while_stop. destruct l2 as [| z l2'] eqn:Hl2; [exact I |].
    assert (Hz : z ∈ l2) by (rewrite Hl2; apply list_elem_of_here).
    apply list_elem_of_filter in Hz as [Hz _]. apply Is_true_true in Hz.
    destruct (trichotomy key comp Horder val z)
      as [(H1 & H2 & H3) | [(H1 & H2 & H3) | (H1 & H2 & H3)]]; try congruence.
    apply orb_false_iff. split.
    + destruct (std_equal_to (value z) val) eqn:Hc; [| reflexivity].
      apply (equal_equivalent comp Hcomp) in Hc. congruence.
    + rewrite <- (mwf_less s Hwf). exact H1.
Qed.


Lemma equivalent_trans (comp : T -> T -> bool) (k : T) (x y : It) :
  strict_weak_order comp ->
  MultiMapTree.equivalent key comp k x = true ->
  MultiMapTree.equivalent key comp k y = true ->
  MultiMapTree.equivalent key comp (value x) y = true.
Proof.
  intros order. unfold MultiMapTree.equivalent.
  change (MultiMapTree.first key x) with (value x).
  change (MultiMapTree.first key y) with (value y).
  rewrite !andb_true_iff, !negb_true_iff. intros [H1 H2] [H3 H4].
  destruct (swo_equiv _ order (value x) k (value y) H2 H1 H3 H4). auto.
Qed.

(** *** Insertion into a multiset *)

Section MultiInsert.

Variable s : set.
Variable val : T.
Hypothesis Hwf : multi_wf s.

Abbreviation mcomp := (comparator s).
Abbreviation Hmcomp := (mwf_comparator s Hwf).
Abbreviation Hmorder := (agrees_order mcomp Hmcomp).
Abbreviation mless := (TreeSet.is_less (TreeSet.tree_ s)).
Abbreviation mnew := (mkIterator (Store.sequence (TreeSet.data_ s)) val).
Abbreviation run_of k :=
  (filter (fun y : It => MultiMapTree.equivalent key mcomp k y)).

(** The common end of every case of [insert]: the node is linked at a
    place that keeps the order of the store. *)
Lemma multi_insert_at (L1 L2 : list It) :
  nodes s = L1 ++ L2 ->
  Forall (fun y => mcomp val (value y) = false) L1 ->
  Forall (fun z => mcomp (value z) val = false) L2 ->
  (forall k, head (run_of k (place_in mless mnew (inorder (root s))))
             = head (run_of k (L1 ++ mnew :: L2))) ->
  exists s',
    TreeSet.insert_hint (head L2) val s = (mnew, s') /\
    nodes s' = L1 ++ mnew :: L2 /\ multi_wf s'.
Proof.
  intros Hn H1 H2 Hfirst. unfold TreeSet.insert_hint.
  destruct (insert_before_at (TreeSet.data_ s) L1 L2 val (mwf_store s Hwf) Hn)
    as [-> Hd'].
  eexists. split; [reflexivity |]. cbn. split; [reflexivity |].
  assert (Hin : inorder (XTree.insert mless mnew (root s))
                = place_in mless mnew (inorder (root s))).
  { apply insert_inorder; [apply is_less_order, Hmorder |].
    apply (mwf_tree s Hwf). }
  split; cbn.
  - exact Hd'.
  - exact Hmcomp.
  - apply (mwf_less s Hwf).
  - rewrite Hin, place_in_perm, (mwf_index s Hwf), Hn.
    apply Permutation_middle.
  - rewrite Hin. apply (place_in_sorted mless (is_less_order _ Hmorder)).
    apply (mwf_tree s Hwf).
  - apply (key_sorted_insert mcomp); auto.
    rewrite <- Hn. apply (mwf_nodes s Hwf).
  - intros k. rewrite Hin. apply Hfirst.
Qed.

(** A handle equivalent to the value is before the place of the new
    handle in the tree. *)
Lemma equivalent_before_place (a b : list It) (x : It) :
  MultiMapTreeFacts.key_sorted key mcomp (a ++ b) ->
  match b with [] => True | y :: _ => mless mnew y = true end ->
  x ∈ a ++ b -> MultiMapTree.equivalent key mcomp val x = true -> x ∈ a.
Proof.
  intros Hs Hb Hx Hex. apply elem_of_app in Hx as [Hx | Hx]; [exact Hx |].
  exfalso. destruct b as [| y b]; [now apply elem_of_nil in Hx |].
  unfold TreeSet.is_less in Hb. simpl in Hb.
  destruct (key_sorted_node key mcomp _ _ _ Hs) as (_ & _ & _ & Hafter).
  assert (Hvx : mcomp val (value x) = true).
  { apply elem_of_cons in Hx as [-> | Hx]; [exact Hb |].
    rewrite Forall_forall in Hafter.
    exact (follows_after key mcomp Hmorder val y x Hb (Hafter x Hx)). }
  unfold MultiMapTree.equivalent in Hex.
  change (MultiMapTree.first key x) with (value x) in Hex.
  rewrite Hvx in Hex. discriminate.
Qed.

(** The first handles of the runs after an insertion next to an
    equivalent handle. *)
Lemma first_after_equal (l1 l2 : list It) (x : It) :
  nodes s = l1 ++ x :: l2 ->
  MultiMapTree.equivalent key mcomp val x = true ->
  forall k, head (run_of k (place_in mless mnew (inorder (root s))))
            = head (run_of k ((l1 ++ [x]) ++ mnew :: l2)).
Proof.
  intros Hn Hex k.
  destruct (place_in_split mless mnew (inorder (root s)))
    as (a & b & Hab & -> & Ha & Hb).
  assert (Hxin : x ∈ a).
  { apply (equivalent_before_place a b x); auto.
    - rewrite <- Hab. apply (mwf_tree s Hwf).
    - rewrite <- Hab, (mwf_index s Hwf), Hn.
      apply elem_of_app. right. apply list_elem_of_here. }
  assert (Himp : MultiMapTree.equivalent key mcomp k mnew
                 -> MultiMapTree.equivalent key mcomp k x).
  { assert (Hsame : MultiMapTree.equivalent key mcomp k mnew
                    = MultiMapTree.equivalent key mcomp k x).
    { apply (equivalent_same mcomp Hmorder). exact Hex. }
    now rewrite Hsame. }
  rewrite (head_filter_later _ a b x mnew Hxin Himp).
  rewrite (head_filter_later _ (l1 ++ [x]) l2 x mnew); [| | exact Himp].
  - rewrite <- Hab, (mwf_first s Hwf k), Hn.
    now replace ((l1 ++ [x]) ++ l2) with (l1 ++ x :: l2) by flatten.
  - apply elem_of_app. right. apply list_elem_of_here.
Qed.

(** The first handles of the runs after the insertion of a value without
    equivalent. *)
Lemma first_after_new (L1 L2 : list It) :
  nodes s = L1 ++ L2 ->
  (forall y, y ∈ nodes s -> MultiMapTree.equivalent key mcomp val y = false) ->
  forall k, head (run_of k (place_in mless mnew (inorder (root s))))
            = head (run_of k (L1 ++ mnew :: L2)).
Proof.
  intros Hn Habs k.
  destruct (place_in_split mless mnew (inorder (root s)))
    as (a & b & Hab & -> & Ha & Hb).
  destruct (MultiMapTree.equivalent key mcomp k mnew) eqn:Hk.
  - assert (Hnone : forall l, l ≡ₚ nodes s ->
              Forall (fun y => ~ MultiMapTree.equivalent key mcomp k y) l).
    { intros l Hl. apply Forall_forall. intros y Hy Hc.
      apply Is_true_true in Hc. rewrite Hl in Hy.
      pose proof (equivalent_trans mcomp k mnew y Hmorder Hk Hc) as Hvy.
      simpl in Hvy. rewrite (Habs y Hy) in Hvy. discriminate. }
    rewrite (filter_insert_single _ a b mnew),
            (filter_insert_single _ L1 L2 mnew);
      [reflexivity | | | |]; try (apply Is_true_true; exact Hk).
    + apply Hnone. now rewrite Hn.
    + apply Hnone. rewrite <- Hab. apply (mwf_index s Hwf).
  - assert (Hno : ~ MultiMapTree.equivalent key mcomp k mnew)
      by (rewrite Hk; auto).
    rewrite (filter_insert_drop _ a b mnew Hno),
            (filter_insert_drop _ L1 L2 mnew Hno).
    now rewrite <- Hab, <- Hn, (mwf_first s Hwf k).
Qed.

(** Without equivalents of the value, the store is made of the handles
    before it and the handles after it. *)
Lemma nodes_around :
  (forall y, y ∈ nodes s -> MultiMapTree.equivalent key mcomp val y = false) ->
  nodes s
  = filter (fun y => MultiMapTreeFacts.precedes key mcomp val y) (nodes s)
    ++ filter (fun y => MultiMapTreeFacts.follows key mcomp val y) (nodes s).
Proof.
  intros Habs.
  pose proof (sorted_decompose key mcomp Hmorder val (nodes s)
                (mwf_nodes s Hwf)) as Hdec.
  rewrite (filter_none (fun y => MultiMapTree.equivalent key mcomp val y))
    in Hdec; [exact Hdec |].
  apply Forall_forall. intros y Hy Hc. apply Is_true_true in Hc.
  rewrite (Habs y Hy) in Hc. discriminate.
Qed.

(** The handle that follows the value in the tree is the first of the
    handles that follow it in the store. *)
Lemma successor_first (a0 b0 : list It) (x : It) :
  inorder (root s) = a0 ++ x :: b0 ->
  Forall (fun y => MultiMapTreeFacts.precedes key mcomp val y = true) a0 ->
  MultiMapTreeFacts.follows key mcomp val x = true ->
  (forall y, y ∈ nodes s -> MultiMapTree.equivalent key mcomp val y = false) ->
  head (filter (fun y => MultiMapTreeFacts.follows key mcomp val y) (nodes s))
  = Some x.
Proof.
  intros Hin Ha0 Hx Habs.
  set (Pn := filter (fun y => MultiMapTreeFacts.precedes key mcomp val y)
                    (nodes s)).
  set (Fn := filter (fun y => MultiMapTreeFacts.follows key mcomp val y)
                    (nodes s)).
  pose proof (nodes_around Habs) as Hn. fold Pn Fn in Hn.
  (* handles before the value are not equivalent to [x] *)
  assert (Hnot : forall y,
            MultiMapTreeFacts.precedes key mcomp val y = true ->
            ~ MultiMapTree.equivalent key mcomp (value x) y).
  { intros y Hy Hc. apply Is_true_true in Hc.
    unfold MultiMapTreeFacts.precedes, MultiMapTreeFacts.follows in *.
    unfold MultiMapTree.equivalent in Hc.
    change (MultiMapTree.first key y) with (value y) in *.
    change (MultiMapTree.first key x) with (value x) in *.
    rewrite (swo_trans _ Hmorder _ _ _ Hy Hx) in Hc.
    rewrite andb_false_r in Hc. discriminate. }
  assert (Hrun : head (run_of (value x) (nodes s)) = Some x).
  { rewrite <- (mwf_first s Hwf (value x)), Hin.
    rewrite filter_app, filter_cons.
    rewrite (filter_none _ a0).
    - rewrite decide_True; [reflexivity |].
      apply Is_true_true, (equivalent_refl mcomp Hmorder).
    - eapply Forall_impl; [exact Ha0 |]. exact Hnot. }
  rewrite Hn, filter_app in Hrun.
  rewrite (filter_none _ Pn) in Hrun.
  2:{ apply Forall_forall. intros y Hy.
      apply list_elem_of_filter in Hy as [Hy _]. apply Is_true_true in Hy.
      now apply Hnot. }
  simpl in Hrun.
  destruct Fn as [| z Fn'] eqn:HF; [discriminate |].
  assert (Hxn : x ∈ z :: Fn').
  { rewrite <- HF. apply list_elem_of_filter. split; [now apply Is_true_true |].
    rewrite <- (mwf_index s Hwf), Hin. apply elem_of_app. right.
    apply list_elem_of_here. }
  assert (Hz : z ∈ Fn) by (rewrite HF; apply list_elem_of_here).
  apply list_elem_of_filter in Hz as [Hzf Hz]. apply Is_true_true in Hzf.
  (* [z] is not after [x] in the store, and not before it in the tree *)
  assert (Hxz : mcomp (value x) (value z) = false).
  { apply elem_of_cons in Hxn as [-> | Hxn];
      [apply (swo_irrefl _ Hmorder) |].
    pose proof (mwf_nodes s Hwf) as Hs. rewrite Hn in Hs.
    destruct (key_sorted_node key mcomp _ _ _ Hs) as (_ & _ & _ & Hafter).
    rewrite Forall_forall in Hafter. exact (Hafter x Hxn). }
  assert (Hzx : mcomp (value z) (value x) = false).
  { rewrite <- (mwf_index s Hwf), Hin in Hz.
    apply elem_of_app in Hz as [Hz | Hz].
    - rewrite Forall_forall in Ha0. specialize (Ha0 z Hz).
      destruct (trichotomy key mcomp Hmorder val z)
        as [(? & ? & ?) | [(? & ? & ?) | (? & ? & ?)]]; congruence.
    - apply elem_of_cons in Hz as [-> | Hz];
        [apply (swo_irrefl _ Hmorder) |].
      pose proof (mwf_tree s Hwf) as Hs. rewrite Hin in Hs.
      destruct (key_sorted_node key mcomp _ _ _ Hs) as (_ & _ & _ & Hafter).
      rewrite Forall_forall in Hafter. exact (Hafter z Hz). }
  rewrite filter_cons, decide_True in Hrun.
  - simpl in Hrun. now injection Hrun as ->.
  - apply Is_true_true. unfold MultiMapTree.equivalent.
    change (MultiMapTree.first key z) with (value z).
    now rewrite Hxz, Hzx.
Qed.

(** With an equal element in the multiset, the new node is linked right
    after the first handle of the run of the value. *)
Lemma multi_insert_equal (e : It) :
  e ∈ nodes s -> std_equal_to (value e) val = true ->
  exists l1 x run' l2 s',
    nodes s = l1 ++ x :: run' ++ l2 /\
    run_of val (nodes s) = x :: run' /\
    l1 = filter (fun y => MultiMapTreeFacts.precedes key mcomp val y)
                (nodes s) /\
    l2 = filter (fun y => MultiMapTreeFacts.follows key mcomp val y)
                (nodes s) /\
    TreeSet.multi_insert_by_val std_less std_equal_to val s = (mnew, s') /\
    nodes s' = l1 ++ x :: mnew :: run' ++ l2 /\ multi_wf s'.
Proof.
  intros He Heq.
  destruct (multi_bounds s val e Hwf He Heq)
    as (l1 & run & l2 & Hdec & Hl1 & Hrun & Hl2 & _).
  destruct (multi_find_first s val e Hwf He Heq)
    as (x & run' & c & l & r & Hx & Hfind).
  rewrite <- Hrun in Hx. rewrite Hx in Hdec, Hrun.
  unfold TreeSet.multi_insert_by_val.
  assert (Hex : MultiMapTree.equivalent key mcomp val x = true).
  { assert (Hxin : x ∈ run_of val (nodes s))
      by (rewrite <- Hrun; apply list_elem_of_here).
    apply list_elem_of_filter in Hxin as [Hxin _].
    now apply Is_true_true. }
  assert (Hxeq : std_equal_to (value x) val = true)
    by now apply (equal_equivalent mcomp Hmcomp).
  rewrite Hfind, Hxeq.
  assert (Hn : nodes s = l1 ++ x :: (run' ++ l2)) by exact Hdec.
  assert (Hnext : Store.next (TreeSet.data_ s) x = head (run' ++ l2)).
  { unfold Store.next. rewrite Hn. apply next_in_middle. rewrite <- Hn.
    apply (mwf_store s Hwf). }
  rewrite Hnext.
  pose proof (mwf_nodes s Hwf) as Hs. rewrite Hn in Hs.
  destruct (key_sorted_node key mcomp _ _ _ Hs) as (_ & _ & Hb & Ha).
  unfold MultiMapTree.equivalent in Hex.
  change (MultiMapTree.first key x) with (value x) in *.
  apply andb_true_iff in Hex as [Hex1 Hex2].
  apply negb_true_iff in Hex1, Hex2.
  destruct (multi_insert_at (l1 ++ [x]) (run' ++ l2))
    as (s' & Hres & Hn' & Hwf').
  - rewrite Hn. flatten.
  - apply Forall_app. split; [| constructor; [exact Hex1 | constructor]].
    eapply Forall_impl; [exact Hb |]. simpl. intros y Hy.
    unfold MultiMapTree.first in Hy.
    destruct (mcomp val (value y)) eqn:Hc; [| reflexivity].
    destruct (less_cases mcomp Hmorder _ _ (value x) Hc); congruence.
  - eapply Forall_impl; [exact Ha |]. simpl. intros z Hz.
    unfold MultiMapTree.first in Hz.
    destruct (mcomp (value z) val) eqn:Hc; [| reflexivity].
    destruct (less_cases mcomp Hmorder _ _ (value x) Hc); congruence.
  - apply first_after_equal; [exact Hn |].
    unfold MultiMapTree.equivalent.
    change (MultiMapTree.first key x) with (value x).
    now rewrite Hex1, Hex2.
  - exists l1, x, run', l2, s'. split; [exact Hn |].
    split; [now rewrite <- Hrun |]. split; [exact Hl1 |].
    split; [exact Hl2 |]. split; [exact Hres |].
    split; [rewrite Hn'; flatten | exact Hwf'].
Qed.

(** [insert] on a multiset: the new handle is linked at a place that
    keeps the store in order. *)
Lemma multi_insert_by_val_wf :
  exists s' L1 L2,
    TreeSet.multi_insert_by_val std_less std_equal_to val s = (mnew, s') /\
    nodes s = L1 ++ L2 /\ nodes s' = L1 ++ mnew :: L2 /\ multi_wf s'.
Proof.
  destruct (present_or_absent (nodes s) val) as [(e & He & Heq) | Habs].
  - (* an equal element: the new node goes after the first of the run *)
    destruct (multi_insert_equal e He Heq)
      as (l1 & x & run' & l2 & s' & Hn & _ & _ & _ & Hres & Hn' & Hwf').
    exists s', (l1 ++ [x]), (run' ++ l2). split; [exact Hres |].
    split; [rewrite Hn; flatten |]. split; [rewrite Hn'; flatten | exact Hwf'].
  - (* no equal element *)
    assert (Habs' : forall y, y ∈ nodes s ->
                      MultiMapTree.equivalent key mcomp val y = false).
    { intros y Hy. destruct (MultiMapTree.equivalent key mcomp val y) eqn:Hc;
        [| reflexivity].
      apply (equal_equivalent mcomp Hmcomp) in Hc.
      rewrite (Habs y Hy) in Hc. discriminate. }
    set (Pn := filter (fun y => MultiMapTreeFacts.precedes key mcomp val y)
                      (nodes s)).
    set (Fn := filter (fun y => MultiMapTreeFacts.follows key mcomp val y)
                      (nodes s)).
    pose proof (nodes_around Habs') as Hn. fold Pn Fn in Hn.
    assert (HP : forall y, y ∈ Pn -> mcomp (value y) val = true).
    { intros y Hy. apply list_elem_of_filter in Hy as [Hy _].
      now apply Is_true_true in Hy. }
    assert (HF : forall z, z ∈ Fn -> mcomp val (value z) = true).
    { intros z Hz. apply list_elem_of_filter in Hz as [Hz _].
      now apply Is_true_true in Hz. }
    destruct (multi_insert_at Pn Fn Hn) as (s' & Hres & Hn' & Hwf').
    { apply Forall_forall. intros y Hy.
      apply (comp_asym mcomp Hmorder), (HP y Hy). }
    { apply Forall_forall. intros z Hz.
      apply (comp_asym mcomp Hmorder), (HF z Hz). }
    { now apply first_after_new. }
    exists s', Pn, Fn. split; [| auto].
    rewrite <- Hres. unfold TreeSet.multi_insert_by_val. f_equal.
    unfold TreeSet.tree_find, nearest_by_key, _Nearest_by_key.
    destruct (root s) as [| c0 t0 v0 r0] eqn:Hr.
    { (* the empty multiset *)
      pose proof (mwf_index s Hwf) as Hp. rewrite Hr in Hp. simpl in Hp.
      apply Permutation_nil_l in Hp.
      assert (HFn : Fn = []) by (unfold Fn; now rewrite <- Hp).
      now rewrite HFn. }
    destruct (nearest_loop_adjacent mcomp Hmorder val (node c0 t0 v0 r0))
      as (c & l & x & r & a0 & b0 & -> & Hin & H1 & H2 & Hx);
      [discriminate | | |].
    { rewrite <- Hr. apply (mwf_tree s Hwf). }
    { apply filter_none. apply Forall_forall. intros y Hy Hc.
      apply Is_true_true in Hc.
      rewrite <- Hr, (mwf_index s Hwf) in Hy.
      rewrite (Habs' y Hy) in Hc. discriminate. }
    rewrite <- Hr in Hin.
    assert (Hxn : x ∈ nodes s).
    { rewrite <- (mwf_index s Hwf), Hin. apply elem_of_app. right.
      apply list_elem_of_here. }
    rewrite (Habs x Hxn).
    destruct (std_less (value x) val) eqn:Hlt.
    + (* the nearest handle precedes the value: past the smaller ones *)
      assert (HxP : x ∈ Pn).
      { apply list_elem_of_filter. split; [| exact Hxn].
        apply Is_true_true. unfold MultiMapTreeFacts.precedes.
        change (MultiMapTree.first key x) with (value x).
        now rewrite (mwf_less s Hwf). }
      apply list_elem_of_split in HxP as (p1 & p2 & HPn).
      rewrite (from_next s p1 (p2 ++ Fn) x (mwf_store s Hwf)).
      2:{ rewrite Hn, HPn. flatten. }
      rewrite skip_while_app.
      * apply skip_while_stop. destruct Fn as [| z Fn'] eqn:HFn; [exact I |].
        rewrite <- (mwf_less s Hwf).
        apply (comp_asym mcomp Hmorder), HF, list_elem_of_here.
      * apply Forall_forall. intros y Hy. rewrite <- (mwf_less s Hwf).
        apply HP. rewrite HPn. apply elem_of_app. right.
        now apply list_elem_of_further.
    + (* the nearest handle follows the value: before it *)
      symmetry. apply (successor_first a0 b0 x Hin H1); [| exact Habs'].
      destruct Hx as [Hx | Hx]; [| exact Hx].
      unfold MultiMapTreeFacts.precedes in Hx.
      change (MultiMapTree.first key x) with (value x) in Hx.
      rewrite (mwf_less s Hwf) in Hx. congruence.
Qed.


End MultiInsert.


(** *** Sequences of insertions *)

Lemma insert_by_val_comparator (s : set) (val : T) :
  comparator (snd (TreeSet.insert_by_val std_less std_equal_to val s))
  = comparator s.
Proof.
  unfold TreeSet.insert_by_val, TreeSet.insert_hint.
  destruct (TreeSet.tree_find val (TreeSet.tree_ s)) as [| c l x r].
  - now destruct (Store.insert_before _ val (TreeSet.data_ s)).
  - destruct (std_equal_to (value x) val); [reflexivity |].
    now destruct (Store.insert_before _ val (TreeSet.data_ s)).
Qed.

Lemma multi_insert_by_val_comparator (s : set) (val : T) :
  comparator (snd (TreeSet.multi_insert_by_val std_less std_equal_to val s))
  = comparator s.
Proof.
  unfold TreeSet.multi_insert_by_val, TreeSet.insert_hint.
  now destruct (Store.insert_before _ val (TreeSet.data_ s)).
Qed.

Lemma insert_all_comparator (vals : list T) : forall s : set,
  comparator (insert_all vals s) = comparator s.
Proof.
  induction vals as [| v vals IH]; intros s; [reflexivity |].
  simpl. now rewrite IH, insert_by_val_comparator.
Qed.

Lemma multi_insert_all_comparator (vals : list T) : forall s : set,
  comparator (multi_insert_all vals s) = comparator s.
Proof.
  induction vals as [| v vals IH]; intros s; [reflexivity |].
  simpl. now rewrite IH, multi_insert_by_val_comparator.
Qed.

Lemma insert_by_val_wf (s : set) (val : T) :
  wf s -> wf (snd (TreeSet.insert_by_val std_less std_equal_to val s)).
Proof.
  intros Hwf.
  destruct (present_or_absent (nodes s) val) as [(e & He & Heq) | Habs].
  - now rewrite (tree_insert_by_val_present s val e Hwf He Heq).
  - destruct (tree_insert_by_val_absent s val Hwf Habs) as (s' & -> & _ & _ & H & _).
    exact H.
Qed.

(** The sets by [std.less] keep their store in the order of the tree. *)
Lemma insert_all_ordered (vals : list T) : forall s : set,
  wf s -> ordered s -> (forall x y, comparator s x y = std_less x y) ->
  wf (insert_all vals s) /\ ordered (insert_all vals s).
Proof.
  induction vals as [| v vals IH]; intros s Hwf Hord Hless; [now split |].
  simpl. apply IH.
  - now apply insert_by_val_wf.
  - now apply insert_by_val_ordered.
  - now rewrite insert_by_val_comparator.
Qed.

Lemma multi_insert_all_wf (vals : list T) : forall s : set,
  multi_wf s -> multi_wf (multi_insert_all vals s).
Proof.
  induction vals as [| v vals IH]; intros s Hwf; [exact Hwf |].
  simpl. apply IH.
  destruct (multi_insert_by_val_wf s v Hwf) as (s' & L1 & L2 & -> & _ & _ & H).
  exact H.
Qed.

(** An emptied store with the tree of [new AtomicTree()]. *)
Lemma empty_wf (d : Store.t T) (tr : TreeSet.AtomicTree T) :
  agrees (TreeSet.compare_ tr) -> Store.nodes d = [] -> TreeSet.root_ tr = null ->
  wf (TreeSet.mk d tr) /\ ordered (TreeSet.mk d tr).
Proof.
  intros Hcomp Hd Hr. split; [split |]; unfold ordered; cbn; rewrite ?Hd, ?Hr.
  - split; simpl; rewrite Hd; constructor.
  - exact Hcomp.
  - reflexivity.
  - constructor.
  - reflexivity.
Qed.

Lemma empty_multi_wf (d : Store.t T) (tr : TreeSet.AtomicTree T) :
  agrees (TreeSet.compare_ tr) ->
  (forall x y, TreeSet.compare_ tr x y = std_less x y) ->
  Store.nodes d = [] -> TreeSet.root_ tr = null ->
  multi_wf (TreeSet.mk d tr).
Proof.
  intros Hcomp Hless Hd Hr. split; cbn; rewrite ?Hd, ?Hr; simpl.
  - split; simpl; rewrite Hd; constructor.
  - exact Hcomp.
  - exact Hless.
  - reflexivity.
  - constructor.
  - constructor.
  - reflexivity.
Qed.

Lemma clear_wf (s : set) :
  agrees std_less ->
  wf (TreeSet.clear std_less s) /\ ordered (TreeSet.clear std_less s) /\
  multi_wf (TreeSet.clear std_less s).
Proof.
  intros Hagrees.
  destruct (empty_wf (Store.mk [] (Store.sequence (TreeSet.data_ s)))
              (TreeSet.new_AtomicTree std_less None) Hagrees eq_refl eq_refl).
  split; [assumption |]. split; [assumption |].
  apply empty_multi_wf; [exact Hagrees | reflexivity ..].
Qed.

Lemma tree_constructor_wf :
  agrees std_less ->
  wf (TreeSet.constructor std_less None) /\
  ordered (TreeSet.constructor std_less None) /\
  multi_wf (TreeSet.constructor std_less None).
Proof.
  intros Hagrees.
  destruct (empty_wf Store.empty (TreeSet.new_AtomicTree std_less None)
              Hagrees eq_refl eq_refl).
  split; [assumption |]. split; [assumption |].
  apply (empty_multi_wf Store.empty (TreeSet.new_AtomicTree std_less None));
    [exact Hagrees | reflexivity ..].
Qed.

(** The store of an ordered unique set is strictly increasing. *)
Lemma ordered_strictly (s : set) :
  wf s -> ordered s -> StronglySorted (strictly (comparator s)) (nodes s).
Proof. intros Hwf Hord. rewrite <- Hord. apply (wf_unique s Hwf). Qed.


(** *** The main results on the tree sets *)

(** C10. [clear()] installs the tree of [new AtomicTree()], built without
    a comparator argument. On a [TreeSet] (first part) and on a
    [TreeMultiSet] (second part) constructed with a comparator [compare]
    and filled with any values, the tree compares with [compare] until
    [clear()] and with [std.less] from [clear()] on; whatever [compare]
    was, the elements inserted after [clear()] are linked in the order of
    [std.less], in the store and in the tree. *)
Theorem clear_drops_comparator (compare : T -> T -> bool)
    (before after : list T) :
  agrees std_less ->
  (let s := insert_all before (TreeSet.constructor std_less (Some compare)) in
   comparator s = compare /\
   comparator (TreeSet.clear std_less s) = std_less /\
   let s' := insert_all after (TreeSet.clear std_less s) in
   comparator s' = std_less /\
   inorder (root s') = nodes s' /\
   StronglySorted (strictly std_less) (nodes s')) /\
  (let s :=
     multi_insert_all before (TreeSet.constructor std_less (Some compare)) in
   comparator s = compare /\
   comparator (TreeSet.clear std_less s) = std_less /\
   let s' := multi_insert_all after (TreeSet.clear std_less s) in
   comparator s' = std_less /\
   MultiMapTreeFacts.key_sorted key std_less (nodes s') /\
   MultiMapTreeFacts.key_sorted key std_less (inorder (root s'))).
Proof.
  intros Hagrees. split.
  - intros s. split; [apply insert_all_comparator |].
    split; [reflexivity |]. intros s'.
    destruct (clear_wf s Hagrees) as (Hwf & Hord & _).
    destruct (insert_all_ordered after _ Hwf Hord (fun _ _ => eq_refl))
      as [Hwf' Hord'].
    assert (Hc : comparator s' = std_less) by apply insert_all_comparator.
    split; [exact Hc |]. split; [exact Hord' |].
    rewrite <- Hc. now apply ordered_strictly.
  - intros s. split; [apply multi_insert_all_comparator |].
    split; [reflexivity |]. intros s'.
    destruct (clear_wf s Hagrees) as (_ & _ & Hwf).
    pose proof (multi_insert_all_wf after _ Hwf) as Hwf'.
    assert (Hc : comparator s' = std_less) by apply multi_insert_all_comparator.
    split; [exact Hc |]. rewrite <- Hc.
    split; [apply (mwf_nodes _ Hwf') | apply (mwf_tree _ Hwf')].
Qed.



Lemma Forall_filter_true {A} (f : A -> bool) (l : list A) :
  Forall (fun y => f y = true) (filter (fun y => f y) l).
Proof.
  apply Forall_forall. intros y Hy. apply list_elem_of_filter in Hy as [Hy _].
  now apply Is_true_true.
Qed.

(** C3. On a [TreeMultiSet] that holds elements equal to the inserted
    value, [insert] links the new node right after the first handle of
    the run of equal values (the node that the search of the tree ends
    on), before every other handle [run'] of that run: the new element
    is the second of its run in traversal order, not the last one. *)
Theorem multi_insert_after_first_of_run (s : set) (val : T) (e : It) :
  multi_wf s -> e ∈ nodes s -> std_equal_to (value e) val = true ->
  exists l1 x run' l2 s',
    nodes s = l1 ++ x :: run' ++ l2 /\
    Forall (fun y => std_less (value y) val = true) l1 /\
    Forall (fun y => std_equal_to (value y) val = true) (x :: run') /\
    Forall (fun y => std_less val (value y) = true) l2 /\
    TreeSet.multi_insert_by_val std_less std_equal_to val s
    = (mkIterator (Store.sequence (TreeSet.data_ s)) val, s') /\
    nodes s'
    = l1 ++ x :: mkIterator (Store.sequence (TreeSet.data_ s)) val
         :: run' ++ l2.
Proof.
  intros Hwf He Heq.
  destruct (multi_insert_equal s val Hwf e He Heq)
    as (l1 & x & run' & l2 & s' & Hn & Hrun & Hl1 & Hl2 & Hres & Hn' & _).
  exists l1, x, run', l2, s'. split; [exact Hn |].
  pose proof (mwf_less s Hwf) as Hless.
  split; [| split; [| split; [| split; [exact Hres | exact Hn']]]].
  - rewrite Hl1.
    eapply Forall_impl; [apply Forall_filter_true |]. simpl.
    intros y Hy. unfold MultiMapTreeFacts.precedes in Hy.
    now rewrite <- Hless.
  - rewrite <- Hrun.
    eapply Forall_impl; [apply Forall_filter_true |]. simpl.
    intros y Hy. now apply (equal_equivalent _ (mwf_comparator s Hwf)).
  - rewrite Hl2.
    eapply Forall_impl; [apply Forall_filter_true |]. simpl.
    intros y Hy. unfold MultiMapTreeFacts.follows in Hy.
    now rewrite <- Hless.
Qed.



End Facts.


(** *** Sets of integers *)

Module IntTreeSet.

Definition multiset (vals : list Z) : TreeSet.t Z :=
  multi_insert_all Z.ltb Z.eqb vals (TreeSet.constructor Z.ltb None).

Definition set_of (compare : option (Z -> Z -> bool)) (vals : list Z)
  : TreeSet.t Z :=
  insert_all Z.ltb Z.eqb vals (TreeSet.constructor Z.ltb compare).

(** A store holding [1,2,2,2,3] and the multi-key index of its handles. *)
Definition source : Store.t Z :=
  fold_left (fun d v => snd (Store.push_back v d)) [1; 2; 2; 2; 3] Store.empty.

Definition index : XTreeNode (Iterator Z) :=
  fold_left (fun t it => MultiMapTree.insert (fun v : Z => v) Z.ltb it t)
            (Store.nodes source) null.


Lemma agrees_ltb : agrees Z.eqb Z.ltb.
Proof.
  split; [exact Z_ltb_order |]. intros x y.
  rewrite Z.eqb_eq, !Z.ltb_ge. lia.
Qed.

Lemma multiset_wf (vals : list Z) : multi_wf Z.ltb Z.eqb (multiset vals).
Proof.
  apply multi_insert_all_wf. apply tree_constructor_wf, agrees_ltb.
Qed.

Lemma set_of_wf (vals : list Z) : wf Z.eqb (set_of None vals).
Proof.
  destruct (tree_constructor_wf Z.ltb Z.eqb agrees_ltb) as (Hwf & Hord & _).
  apply (insert_all_ordered Z.ltb Z.eqb vals _ Hwf Hord).
  reflexivity.
Qed.


End IntTreeSet.


Lemma multi_insert_after_first_of_run_witness :
  let s := IntTreeSet.multiset [2; 2] in
  exists s',
    TreeSet.multi_insert_by_val Z.ltb Z.eqb 2 s = (mkIterator 2 2, s') /\
    Store.nodes (TreeSet.data_ s)
    = [mkIterator 0 2; mkIterator 1 2] /\
    Store.nodes (TreeSet.data_ s')
    = [mkIterator 0 2; mkIterator 2 2; mkIterator 1 2] /\
    inorder (TreeSet.root_ (TreeSet.tree_ s'))
    = [mkIterator 0 2; mkIterator 1 2; mkIterator 2 2].
Proof.
  intros s.
  assert (Hin : mkIterator 0 2 ∈ Store.nodes (TreeSet.data_ s))
    by (vm_compute; apply list_elem_of_here).
  destruct (multi_insert_after_first_of_run Z.ltb Z.eqb s 2 (mkIterator 0 2)
              (IntTreeSet.multiset_wf [2; 2]) Hin eq_refl)
    as (l1 & x & run' & l2 & s' & _ & _ & _ & _ & Hres & _).
  exists s'. split; [exact Hres |]. split; [vm_compute; reflexivity |].
  assert (Hs' : s' = snd (TreeSet.multi_insert_by_val Z.ltb Z.eqb 2 s))
    by now rewrite Hres.
  rewrite Hs'. split; vm_compute; reflexivity.
Defined.


Lemma clear_drops_comparator_witness :
  agrees Z.eqb Z.ltb /\
  (let s := IntTreeSet.set_of (Some Z.gtb) [5; 3; 8] in
   TreeSet.compare_ (TreeSet.tree_ s) = Z.gtb /\
   TreeSet.compare_ (TreeSet.tree_ (TreeSet.clear Z.ltb s)) = Z.ltb /\
   let s' := insert_all Z.ltb Z.eqb [5; 3; 8; 1] (TreeSet.clear Z.ltb s) in
   TreeSet.compare_ (TreeSet.tree_ s') = Z.ltb /\
   inorder (TreeSet.root_ (TreeSet.tree_ s')) = Store.nodes (TreeSet.data_ s') /\
   StronglySorted (strictly Z.ltb) (Store.nodes (TreeSet.data_ s')) /\
   value <$> Store.nodes (TreeSet.data_ s') = [1; 3; 5; 8]).
Proof.
  split; [exact IntTreeSet.agrees_ltb |].
  destruct (clear_drops_comparator Z.ltb Z.eqb Z.gtb [5; 3; 8] [5; 3; 8; 1]
              IntTreeSet.agrees_ltb) as [(H1 & H2 & H3 & H4 & H5) _].
  intros s. split; [exact H1 |]. split; [exact H2 |]. intros s'.
  split; [exact H3 |]. split; [exact H4 |]. split; [exact H5 |].
  vm_compute. reflexivity.
Defined.



(** *** Integers ordered by tens *)








End TreeSetFacts.

(** ** Containers as objects: [swap]

    A container object holds two references, to its element store
    ([data_]) and to its index ([tree_] or [hash_buckets_]); the stores and
    the indexes are objects of the heap, reached through these
    references. Handles name nodes of a store object; a handle object
    records in its [source] field the container that created it. *)

Module Objects.

(** References to the objects of the heap. *)
Abbreviation ref := nat.

Section Objects.

Context {T Index : Type}.

Record container : Type := mkContainer {
  data_ : ref;
  index_ : ref
}.

(** [sources] holds the [source] field of every handle object, by the
    creation id of the handle, which stands for the identity of the
    handle object: in a heap where every handle names its container
    ([owned] below), the handles of two containers have distinct ids. *)
Record heap : Type := mkHeap {
  stores : gmap ref (Store.t T);
  indexes : gmap ref Index;
  containers : gmap ref container;
  sources : gmap nat ref
}.

(** [c.data_ = d] and [c.tree_ = i] (or [c.hash_buckets_ = i]). *)
Definition write_data (c d : ref) (h : heap) : heap :=
  mkHeap (stores h) (indexes h)
         (alter (fun o => mkContainer d (index_ o)) c (containers h))
         (sources h).

Definition write_index (c i : ref) (h : heap) : heap :=
  mkHeap (stores h) (indexes h)
         (alter (fun o => mkContainer (data_ o) i) c (containers h))
         (sources h).

(** [swap_tree_set]: two destructuring assignments; each reads the two
    fields, then writes [this]'s field, then [obj]'s. *)
Definition swap_tree_set (this obj : ref) (h : heap) : option heap :=
  x ← data_ <$> containers h !! obj;
  y ← data_ <$> containers h !! this;
  let h1 := write_data obj y (write_data this x h) in
  x' ← index_ <$> containers h1 !! obj;
  y' ← index_ <$> containers h1 !! this;
  Some (write_index obj y' (write_index this x' h1)).

(** [swap(obj)] between two containers of the same class. *)
Definition swap (this obj : ref) (h : heap) : option heap :=
  swap_tree_set this obj h.

(** The store and the index that a container reaches. *)
Definition contents (h : heap) (c : ref) : option (Store.t T * Index) :=
  o ← containers h !! c;
  d ← stores h !! data_ o;
  i ← indexes h !! index_ o;
  Some (d, i).

(** The elements of a container, in traversal order. *)
Definition elements (h : heap) (c : ref) : option (list (Iterator T)) :=
  (fun p => Store.nodes (fst p)) <$> contents h c.

(** The payload that a handle references, seen from a container:
    [None] when the handle names no node of the container's store. *)
Definition deref (h : heap) (c : ref) (it : Iterator T) : option T :=
  p ← contents h c; Store.deref (fst p) it.

(** [it.get_source()]: the container recorded in the handle. *)
Definition get_source (h : heap) (it : Iterator T) : option ref :=
  sources h !! uid it.

(** Every handle of an element of a container names that container. *)
Definition owned (h : heap) : Prop :=
  forall c l it,
    elements h c = Some l -> it ∈ l -> get_source h it = Some c.

End Objects.

Arguments container : clear implicits.
Arguments heap : clear implicits.

End Objects.

(** ** Properties of [swap] *)

Module ObjectsFacts.
Import Objects.

Section Facts.

Context {T Index : Type}.

Abbreviation heap := (Objects.heap T Index).

Lemma contents_ext (h h' : heap) (c c' : ref) :
  stores h' = stores h -> indexes h' = indexes h ->
  containers h' !! c = containers h !! c' ->
  contents h' c = contents h c'.
Proof.
  intros Hs Hi Hc. unfold contents. now rewrite Hs, Hi, Hc.
Qed.

(** The heap after [swap]: the two containers have exchanged their
    references; no store, no index and no handle has changed. *)
Lemma swap_result (h : heap) (a b : ref) (ca cb : container) :
  containers h !! a = Some ca -> containers h !! b = Some cb ->
  exists h',
    swap a b h = Some h' /\
    stores h' = stores h /\ indexes h' = indexes h /\
    sources h' = sources h /\
    containers h' !! a = Some cb /\ containers h' !! b = Some ca /\
    (forall c, c <> a -> c <> b -> containers h' !! c = containers h !! c).
Proof.
  intros Ha Hb.
  set (h' := write_index b (index_ ca)
               (write_index a (index_ cb)
                  (write_data b (data_ ca) (write_data a (data_ cb) h)))).
  exists h'.
  split; [| do 3 (split; [reflexivity |])].
  - unfold swap, swap_tree_set. rewrite Ha, Hb. simpl.
    rewrite !lookup_alter, Ha, Hb.
    destruct (decide (a = b)) as [-> | Hne].
    + rewrite Ha in Hb. injection Hb as <-.
      repeat (case_decide; try congruence); simpl; reflexivity.
    + repeat (case_decide; try congruence); simpl; reflexivity.
  - split; [| split].
    + subst h'. simpl. rewrite !lookup_alter, Ha.
      destruct (decide (a = b)) as [-> | Hne].
      * rewrite Ha in Hb. injection Hb as <-. destruct ca.
        repeat (case_decide; try congruence); simpl; reflexivity.
      * rewrite ?Hb. destruct ca, cb.
        repeat (case_decide; try congruence); simpl; reflexivity.
    + subst h'. simpl. rewrite !lookup_alter, Ha, Hb.
      destruct (decide (a = b)) as [-> | Hne].
      * rewrite Ha in Hb. injection Hb as <-. destruct ca.
        repeat (case_decide; try congruence); simpl; reflexivity.
      * destruct ca, cb.
        repeat (case_decide; try congruence); simpl; reflexivity.
    + intros c Hca' Hcb'. subst h'. simpl.
      now rewrite !lookup_alter_ne by congruence.
Qed.

(** C9 (amended). [a.swap(b)] between two containers of the same class:
    only the references held by the two container objects change. No
    store and no index object is created, copied or modified; [a] holds
    the references that [b] held and [b] those that [a] held, so each
    reaches the store and the index, hence the elements, of the other;
    every handle references through [b] the payload that it referenced
    through [a] before the call (and conversely); the other containers
    are untouched. No handle is touched either: the container that a
    handle records as its owner is the one of before the call, so the
    handle of an element that [a] held, while it is the handle of an
    element of [b] after the call, still names [a]. *)
Theorem swap_exchanges_store_and_index (h : heap) (a b : ref)
    (ca cb : container) :
  containers h !! a = Some ca -> containers h !! b = Some cb ->
  exists h',
    swap a b h = Some h' /\
    stores h' = stores h /\ indexes h' = indexes h /\
    containers h' !! a = Some cb /\ containers h' !! b = Some ca /\
    (forall c, c <> a -> c <> b -> containers h' !! c = containers h !! c) /\
    contents h' a = contents h b /\ contents h' b = contents h a /\
    elements h' a = elements h b /\ elements h' b = elements h a /\
    (forall it, deref h' a it = deref h b it) /\
    (forall it, deref h' b it = deref h a it) /\
    sources h' = sources h /\
    (forall it, get_source h' it = get_source h it) /\
    (owned h ->
     forall l it,
       elements h a = Some l -> it ∈ l ->
       elements h' b = Some l /\ get_source h' it = Some a).
Proof.
  intros Ha Hb.
  destruct (swap_result h a b ca cb Ha Hb)
    as (h' & Hswap & Hs & Hi & Hr & Hla & Hlb & Hother).
  exists h'. split; [exact Hswap |].
  assert (Hab : contents h' a = contents h b)
    by (apply contents_ext; auto; now rewrite Hla, Hb).
  assert (Hba : contents h' b = contents h a)
    by (apply contents_ext; auto; now rewrite Hlb, Ha).
  assert (Hsrc : forall it, get_source h' it = get_source h it)
    by (intros it; unfold get_source; now rewrite Hr).
  split; [exact Hs |]. split; [exact Hi |].
  split; [exact Hla |]. split; [exact Hlb |]. split; [exact Hother |].
  split; [exact Hab |]. split; [exact Hba |].
  unfold elements, deref. rewrite Hab, Hba.
  do 4 (split; [auto |]).
  split; [exact Hr |]. split; [exact Hsrc |].
  intros Hown l it Hl Hin. split; [exact Hl |].
  rewrite Hsrc. exact (Hown a l it Hl Hin).
Qed.

(** C9, as the claim states it: a handle obtained from [a] before the
    call belongs to [b] after it. *)
Definition claimed_owner (h h' : heap) (a b : ref) : Prop :=
  forall l it,
    elements h a = Some l -> it ∈ l -> get_source h' it = Some b.

End Facts.


(** *** Two tree sets of integers *)

Module IntHeap.

Definition a_set : TreeSet.t Z := TreeSetFacts.IntTreeSet.set_of None [1; 2].

Definition b_set : TreeSet.t Z :=
  TreeSetFacts.insert_all Z.ltb Z.eqb [7]
    (TreeSet.clear Z.ltb (TreeSetFacts.IntTreeSet.set_of None [5; 6])).

(** Container [0] holds [1, 2] and container [1] holds [7]; the handles
    of [1] and [2] were created by container [0], the handle of [7] by
    container [1]. *)
Definition two_sets : Objects.heap Z (TreeSet.AtomicTree Z) :=
  mkHeap {[ 10%nat := TreeSet.data_ a_set; 11%nat := TreeSet.data_ b_set ]}
         {[ 20%nat := TreeSet.tree_ a_set; 21%nat := TreeSet.tree_ b_set ]}
         {[ 0%nat := mkContainer 10 20; 1%nat := mkContainer 11 21 ]}
         {[ 0%nat := 0%nat; 1%nat := 0%nat; 2%nat := 1%nat ]}.

Lemma two_sets_owned : owned two_sets.
Proof.
  intros c l it Hl Hin.
  destruct c as [| [| c]].
  - vm_compute in Hl. injection Hl as <-.
    rewrite !elem_of_cons in Hin.
    destruct Hin as [-> | [-> | Hin]]; [reflexivity | reflexivity |].
    now apply elem_of_nil in Hin.
  - vm_compute in Hl. injection Hl as <-.
    rewrite !elem_of_cons in Hin.
    destruct Hin as [-> | Hin]; [reflexivity |].
    now apply elem_of_nil in Hin.
  - unfold elements, contents, two_sets in Hl. simpl in Hl.
    rewrite lookup_insert_ne in Hl by lia.
    rewrite lookup_singleton_ne in Hl by lia.
    discriminate.
Qed.

End IntHeap.

Lemma swap_exchanges_store_and_index_witness :
  exists h',
    swap 0 1 IntHeap.two_sets = Some h' /\
    stores h' = stores IntHeap.two_sets /\
    indexes h' = indexes IntHeap.two_sets /\
    elements IntHeap.two_sets 0 = Some [mkIterator 0 1; mkIterator 1 2] /\
    elements IntHeap.two_sets 1 = Some [mkIterator 2 7] /\
    elements h' 0 = Some [mkIterator 2 7] /\
    elements h' 1 = Some [mkIterator 0 1; mkIterator 1 2] /\
    deref IntHeap.two_sets 0 (mkIterator 1 2) = Some 2 /\
    deref h' 1 (mkIterator 1 2) = Some 2 /\
    deref h' 0 (mkIterator 1 2) = None /\
    get_source IntHeap.two_sets (mkIterator 1 2) = Some 0%nat /\
    get_source h' (mkIterator 1 2) = Some 0%nat.
Proof.
  destruct (swap_exchanges_store_and_index IntHeap.two_sets 0 1
              (mkContainer 10 20) (mkContainer 11 21) eq_refl eq_refl)
    as (h' & Hswap & Hs & Hi & _ & _ & _ & _ & _ & Hab & Hba & Hda & Hdb
        & _ & _ & Hown).
  exists h'. split; [exact Hswap |]. split; [exact Hs |]. split; [exact Hi |].
  assert (Hin : mkIterator 1 2 ∈ [mkIterator 0 1; mkIterator 1 (2 : Z)])
    by (apply list_elem_of_In; simpl; auto).
  pose proof (proj2 (Hown IntHeap.two_sets_owned _ _ eq_refl Hin)) as Hsrc.
  rewrite Hab, Hba, Hda, Hdb, Hsrc.
  repeat split; vm_compute; reflexivity.
Defined.

(** C9 (counterexample). Container [0] holds [1, 2] and creates their
    handles; after [swap] with container [1] the handle of [2] is the
    handle of an element of container [1] and is dereferenced through
    it, and the owner that it records is container [0] as before: the
    handles obtained from container [0] do not name container [1]. *)
Lemma swap_exchanges_store_and_index_counterexample :
  owned IntHeap.two_sets /\
  exists h',
    swap 0 1 IntHeap.two_sets = Some h' /\
    elements IntHeap.two_sets 0 = Some [mkIterator 0 1; mkIterator 1 2] /\
    elements h' 1 = Some [mkIterator 0 1; mkIterator 1 2] /\
    deref h' 1 (mkIterator 1 2) = Some 2 /\
    get_source IntHeap.two_sets (mkIterator 1 2) = Some 0%nat /\
    get_source h' (mkIterator 1 2) = Some 0%nat /\
    ~ claimed_owner IntHeap.two_sets h' 0 1.
Proof.
  split; [exact IntHeap.two_sets_owned |].
  exists (write_index 1 20 (write_index 0 21
            (write_data 1 10 (write_data 0 11 IntHeap.two_sets)))).
  do 6 (split; [vm_compute; reflexivity |]).
  intros Hclaim.
  specialize (Hclaim [mkIterator 0 1; mkIterator 1 2] (mkIterator 1 2)
                eq_refl ltac:(set_solver)).
  vm_compute in Hclaim. discriminate.
Qed.

End ObjectsFacts.

(** ** Laws of the hash buckets *)

Module HashBucketsLaws.
Import HashBuckets HashBucketsFacts.

Section Laws.

Context {Key Elem : Type} `{EqDecision Elem}.
Variable fetcher_ : Elem -> Key.
Variable hasher_ : Key -> Z.
Variable predicator_ : Key -> Key -> bool.

Abbreviation table := (HashBuckets.t Elem).
Abbreviation hash_of e := (hasher_ (fetcher_ e)).

(** The buckets that [index_by_key] addresses exist: the mask keeps the
    index inside the table, also for a negative hash. *)
Lemma bucket_of_key (b : table) (key : Key) :
  bucket_count_ok (row_size b) -> row_size b <= 2 ^ 31 ->
  exists bucket,
    at_ b (index_by_key hasher_ b key) = Some bucket /\
    forall e, e ∈ bucket -> e ∈ elements b.
Proof.
  intros Hcnt Hrows.
  destruct (count_exponent _ Hcnt Hrows) as (k & Hk & Hr).
  destruct (index_by_key_range hasher_ b key k ltac:(lia) Hr) as [_ Hi].
  destruct (at_in_range b _ Hi) as [bucket Hb].
  exists bucket. split; [exact Hb |]. intros e He.
  apply elem_of_elements.
  unfold at_ in Hb. destruct (0 <=? _); [| discriminate]. eauto.
Qed.

(** X1. [find] on a table whose bucket count is a power of two (at most
    2^31) never throws, whatever the sign of the hash, and leaves the
    table as it is. A handle it returns is stored and its key is accepted
    by the predicate; when every stored handle sits in the bucket of its
    key and accepted keys share their hash, it returns [null] exactly
    when no stored handle has an accepted key. *)
Theorem find_hit_or_miss (key : Key) (b : table) :
  bucket_count_ok (row_size b) -> row_size b <= 2 ^ 31 ->
  exists r,
    HashBuckets.find fetcher_ hasher_ predicator_ key b = (Ok r, b) /\
    (forall it, r = Some it ->
       it ∈ elements b /\ predicator_ key (fetcher_ it) = true) /\
    ((forall x y, predicator_ x y = true -> hasher_ x = hasher_ y) ->
     placed fetcher_ hasher_ b ->
     (r = None <->
      forall e, e ∈ elements b -> predicator_ key (fetcher_ e) = false)).
Proof.
  intros Hcnt Hrows.
  destruct (find_total fetcher_ hasher_ predicator_ key b Hcnt Hrows)
    as [r Hf].
  exists r. split; [exact Hf |]. split.
  - intros it ->.
    destruct (find_sound _ _ _ _ _ _ _ Hf) as (_ & Hin & Hp). auto.
  - intros Heq Hpl. split.
    + intros -> e He.
      destruct (predicator_ key (fetcher_ e)) eqn:Hp; [| reflexivity].
      destruct (find_complete fetcher_ hasher_ predicator_ key b e
                  Heq Hcnt Hrows Hpl He Hp) as (it & Hf' & _).
      rewrite Hf in Hf'. discriminate.
    + intros Hnone. destruct r as [it |]; [| reflexivity].
      destruct (find_sound _ _ _ _ _ _ _ Hf) as (_ & Hin & Hp).
      rewrite (Hnone it Hin) in Hp. discriminate.
Qed.

Lemma erase_not_stored (val : Elem) (b : table) :
  bucket_count_ok (row_size b) -> row_size b <= 2 ^ 31 ->
  val ∉ elements b ->
  HashBuckets.erase fetcher_ hasher_ val b = (Ok tt, b).
Proof.
  intros Hcnt Hrows Hval.
  destruct (bucket_of_key b (fetcher_ val) Hcnt Hrows) as (bucket & Hb & Hin).
  apply (erase_absent fetcher_ hasher_ val b bucket Hb).
  intros Hc. apply Hval, Hin, Hc.
Qed.

(** X2. [erase] of a handle that the table does not hold returns
    normally and changes nothing: no bucket is touched and [size] is not
    decremented. *)
Theorem erase_missing_is_noop (val : Elem) (b : table) :
  bucket_count_ok (row_size b) -> row_size b <= 2 ^ 31 ->
  val ∉ elements b ->
  HashBuckets.erase fetcher_ hasher_ val b = (Ok tt, b) /\
  size (snd (HashBuckets.erase fetcher_ hasher_ val b)) = size b.
Proof.
  intros Hcnt Hrows Hval.
  now rewrite (erase_not_stored val b Hcnt Hrows Hval).
Qed.

(** X3. [insert] followed by [erase] of the same handle, on a table
    whose bucket count is a power of two from 8 to 2^30 and whose stored
    handles have non-negative hashes and sit each in the bucket of its
    key: both calls return, [size] is back to its value and the table
    holds the handles it held before, each in the bucket of its key. The
    bucket count is not taken back: it stays the one that [insert]
    left. *)
Theorem insert_then_erase (val : Elem) (b : table) :
  bucket_count_ok (row_size b) -> row_size b <= 2 ^ 30 ->
  nonneg_hashes fetcher_ hasher_ b -> placed fetcher_ hasher_ b ->
  exists b1 b2,
    HashBuckets.insert fetcher_ hasher_ val b = (Ok tt, b1) /\
    HashBuckets.erase fetcher_ hasher_ val b1 = (Ok tt, b2) /\
    size_ b1 = size_ b + 1 /\ size_ b2 = size_ b /\
    max_load_factor_ b2 = max_load_factor_ b /\
    elements b2 ≡ₚ elements b /\
    row_size b2 = row_size b1 /\
    placed fetcher_ hasher_ b2.
Proof.
  intros Hcnt Hrows Hnn Hpl.
  destruct (insert_ok fetcher_ hasher_ val b Hcnt Hrows Hnn Hpl)
    as (b1 & Hi & Hs1 & Hm1 & He1 & Hpl1 & Hcnt1 & Hrows1).
  assert (Hin : val ∈ elements b1)
    by (rewrite He1; apply list_elem_of_here).
  destruct (erase_elements fetcher_ hasher_ val b1 Hcnt1 Hrows1 Hpl1 Hin)
    as (b2 & He & Hs2 & Hr2 & Hm2 & He2 & _ & Hpl2).
  exists b1, b2. split; [exact Hi |]. split; [exact He |].
  split; [exact Hs1 |]. split; [lia |]. split; [congruence |].
  split; [| split; [exact Hr2 | exact Hpl2]].
  rewrite He2 in He1. now apply Permutation_cons_inv in He1.
Qed.

(** X4. [insert] then [find]: the key of the inserted handle is found,
    and every key that was found before the call is still found after
    it, also when the call has rehashed the table. *)
Theorem insert_then_find (val : Elem) (b : table) :
  (forall x y, predicator_ x y = true -> hasher_ x = hasher_ y) ->
  predicator_ (fetcher_ val) (fetcher_ val) = true ->
  bucket_count_ok (row_size b) -> row_size b <= 2 ^ 30 ->
  nonneg_hashes fetcher_ hasher_ b -> placed fetcher_ hasher_ b ->
  exists b',
    HashBuckets.insert fetcher_ hasher_ val b = (Ok tt, b') /\
    size_ b' = size_ b + 1 /\
    elements b' ≡ₚ val :: elements b /\
    (exists it,
       HashBuckets.find fetcher_ hasher_ predicator_ (fetcher_ val) b'
       = (Ok (Some it), b') /\
       it ∈ val :: elements b /\
       predicator_ (fetcher_ val) (fetcher_ it) = true) /\
    (forall key e,
       e ∈ elements b -> predicator_ key (fetcher_ e) = true ->
       exists it,
         HashBuckets.find fetcher_ hasher_ predicator_ key b'
         = (Ok (Some it), b') /\
         predicator_ key (fetcher_ it) = true).
Proof.
  intros Heq Hrefl Hcnt Hrows Hnn Hpl.
  destruct (insert_ok fetcher_ hasher_ val b Hcnt Hrows Hnn Hpl)
    as (b' & Hi & Hs & _ & He & Hpl' & Hcnt' & Hrows').
  exists b'. split; [exact Hi |]. split; [exact Hs |]. split; [exact He |].
  split.
  - destruct (find_complete fetcher_ hasher_ predicator_ (fetcher_ val) b' val
                Heq Hcnt' Hrows' Hpl') as (it & Hf & Hin & Hp).
    + rewrite He. apply list_elem_of_here.
    + exact Hrefl.
    + exists it. rewrite He in Hin. auto.
  - intros key e Hin Hp.
    destruct (find_complete fetcher_ hasher_ predicator_ key b' e
                Heq Hcnt' Hrows' Hpl') as (it & Hf & _ & Hp').
    + rewrite He. now apply list_elem_of_further.
    + exact Hp.
    + eauto.
Qed.

(** The indexes that the migration of [rehash] computes are below the
    new length; they are inside the new table unless they are negative. *)
Lemma rem_below (h len : Z) : 0 < len -> JS.rem h len < len.
Proof.
  intros Hlen. unfold JS.rem.
  pose proof (Z.rem_bound_abs h len ltac:(lia)). lia.
Qed.

Lemma rehash_throws_iff (n : Z) (b : table) :
  fst (HashBuckets.rehash fetcher_ hasher_ n b) = TypeError <->
  Exists (fun e => JS.rem (hash_of e) (rehash_length n) < 0) (elements b).
Proof.
  assert (Hlen : 8 <= rehash_length n).
  { pose proof (rehash_length_ge n). unfold MIN_BUCKET_COUNT in *. lia. }
  split.
  - intros Hthrow.
    destruct (decide (Exists (fun e => JS.rem (hash_of e) (rehash_length n) < 0)
                             (elements b))) as [Hex | Hall]; [exact Hex |].
    apply (not_Exists_Forall _) in Hall.
    exfalso.
    destruct (migrate_ok fetcher_ hasher_ (rehash_length n) (data_ b)
                (replicate (Z.to_nat (rehash_length n)) []))
      as [d' Hd'].
    { eapply Forall_impl; [exact Hall |]. simpl. intros e He.
      rewrite length_replicate, Z2Nat.id by lia.
      unfold compose in He. split; [lia | apply rem_below; lia]. }
    unfold HashBuckets.rehash, bind, get, lift in Hthrow.
    rewrite Hd' in Hthrow. discriminate.
  - intros Hex. unfold HashBuckets.rehash, bind, get, lift.
    now rewrite (migrate_throws fetcher_ hasher_ _ _ _ Hex).
Qed.

(** X5. [rehash] is all or nothing. It throws exactly when the [%] of
    some stored hash by the new bucket count is negative, and then the
    table is untouched; otherwise the table has the new bucket count, the
    same [size] and load factor bound, and the same handles. *)
Theorem rehash_all_or_nothing (n : Z) (b : table) :
  (fst (HashBuckets.rehash fetcher_ hasher_ n b) = TypeError <->
   Exists (fun e => JS.rem (hash_of e) (rehash_length n) < 0) (elements b)) /\
  (fst (HashBuckets.rehash fetcher_ hasher_ n b) = TypeError ->
   snd (HashBuckets.rehash fetcher_ hasher_ n b) = b) /\
  (forall b',
     HashBuckets.rehash fetcher_ hasher_ n b = (Ok tt, b') ->
     row_size b' = rehash_length n /\ size_ b' = size_ b /\
     max_load_factor_ b' = max_load_factor_ b /\
     elements b' ≡ₚ elements b).
Proof.
  split; [apply rehash_throws_iff | split].
  - intros Hthrow.
    destruct (rehash_cases fetcher_ hasher_ n b) as [(Hok & _) | (_ & Hs)];
      [congruence | exact Hs].
  - intros b' Hr.
    destruct (rehash_cases fetcher_ hasher_ n b)
      as [(_ & H1 & H2 & H3) | (Herr & _)].
    + rewrite Hr in *. simpl in *.
      repeat split; auto. now apply (rehash_elements fetcher_ hasher_ n b).
    + rewrite Hr in Herr. discriminate.
Qed.

(** X6. On non-negative hashes [rehash] returns and keeps every handle
    findable: each handle sits in the bucket that [index_by_key]
    addresses, the hash modulo the new bucket count, and every key that
    a stored handle matches is found. *)
Theorem rehash_keeps_findable (n : Z) (b : table) :
  (forall x y, predicator_ x y = true -> hasher_ x = hasher_ y) ->
  nonneg_hashes fetcher_ hasher_ b -> n <= 2 ^ 31 ->
  exists b',
    HashBuckets.rehash fetcher_ hasher_ n b = (Ok tt, b') /\
    (forall (j : nat) bucket e,
       data_ b' !! j = Some bucket -> e ∈ bucket ->
       index_by_value fetcher_ hasher_ b' e = Z.of_nat j /\
       Z.of_nat j = hash_of e mod rehash_length n) /\
    (forall key e,
       e ∈ elements b -> predicator_ key (fetcher_ e) = true ->
       exists it,
         HashBuckets.find fetcher_ hasher_ predicator_ key b'
         = (Ok (Some it), b') /\
         it ∈ elements b /\ predicator_ key (fetcher_ it) = true).
Proof.
  intros Heq Hnn Hn.
  pose proof (rehash_ok fetcher_ hasher_ n b Hnn) as Hok.
  destruct (HashBuckets.rehash fetcher_ hasher_ n b) as [[[] |] b'] eqn:Hr;
    [| discriminate].
  exists b'. split; [reflexivity |].
  pose proof (rehash_placed fetcher_ hasher_ n b b' Hn Hnn Hr) as Hpl.
  destruct (rehash_cases fetcher_ hasher_ n b) as [(_ & Hrows & _) | (He & _)];
    [| rewrite Hr in He; discriminate].
  rewrite Hr in Hrows. simpl in Hrows.
  destruct (rehash_length_exponent n Hn) as (k & Hk & Hlen).
  split.
  - intros j bucket e Hj He.
    pose proof (Hpl j bucket e Hj He) as Hidx. split; [exact Hidx |].
    rewrite <- Hidx. unfold index_by_value.
    destruct (index_by_key_range hasher_ b' (fetcher_ e) k ltac:(lia))
      as [Hm _]; [congruence |].
    rewrite Hm. now rewrite Hlen.
  - intros key e He Hp.
    destruct (find_after_rehash fetcher_ hasher_ predicator_ n b key e
                Heq Hnn Hn He Hp) as (b'' & it & Hr' & Hf & Hin & Hp').
    rewrite Hr in Hr'. injection Hr' as <-. eauto.
Qed.

(** *** The default load factor *)

Lemma capacity_one (b : table) :
  max_load_factor_ b = 1%Q -> capacity b = row_size b.
Proof.
  intros Hm. unfold capacity. rewrite Hm.
  rewrite (Qfloor_comp _ (inject_Z (row_size b))) by ring.
  apply Qfloor_Z.
Qed.

Lemma floor_div_one (n : Z) : Qfloor (inject_Z n / 1) = n.
Proof.
  rewrite (Qfloor_comp _ (inject_Z n)) by field.
  apply Qfloor_Z.
Qed.

(** [place] keeps the bucket count. *)
Lemma place_row_size (val : Elem) (b b' : table) :
  place fetcher_ hasher_ val b = (Ok tt, b') -> row_size b' = row_size b.
Proof.
  unfold place, bind, get. destruct (at_ b _); [| discriminate].
  unfold put. intros [= <-]. unfold row_size. simpl.
  now rewrite length_alter.
Qed.

(** X7. [reserve] never takes buckets away: it does nothing when the
    table already has the capacity asked for, and otherwise it rehashes to
    a bucket count that is not below the current one. With the default
    load factor bound 1, a call that returns leaves a capacity of at
    least the length asked for. *)
Theorem reserve_grows_only (n : Z) (b : table) :
  (0 < max_load_factor_ b)%Q ->
  (n <= capacity b -> HashBuckets.reserve fetcher_ hasher_ n b = (Ok tt, b)) /\
  row_size b <= row_size (snd (HashBuckets.reserve fetcher_ hasher_ n b)) /\
  (max_load_factor_ b = 1%Q ->
   fst (HashBuckets.reserve fetcher_ hasher_ n b) = Ok tt ->
   n <= capacity (snd (HashBuckets.reserve fetcher_ hasher_ n b))).
Proof.
  intros Hm. rewrite reserve_eq.
  destruct (n >? capacity b) eqn:Hn.
  2:{ rewrite Z.gtb_ltb in Hn. apply Z.ltb_ge in Hn.
      repeat split; simpl; auto; lia. }
  apply Z.gtb_lt in Hn.
  set (L := Qfloor (inject_Z n / max_load_factor_ b)).
  assert (HL : row_size b <= L).
  { apply Qfloor_ge. apply Qle_shift_div_l; [exact Hm |].
    apply Qlt_le_weak.
    apply Qlt_le_trans with (inject_Z (capacity b + 1)).
    - unfold capacity. apply Qlt_floor.
    - rewrite <- Zle_Qle. lia. }
  pose proof (rehash_length_ge L) as Hge.
  split; [lia |].
  destruct (rehash_cases fetcher_ hasher_ L b)
    as [(Hok & Hr & _ & Hm') | (Herr & Hs)].
  - split; [rewrite Hr; lia |]. intros H1 _.
    rewrite capacity_one by congruence. rewrite Hr.
    subst L. rewrite H1, floor_div_one in Hge |- *.
    unfold MIN_BUCKET_COUNT in Hge. lia.
  - rewrite Hs. split; [lia |]. intros _ Hc. congruence.
Qed.

(** X8. An [insert] that throws has already counted the handle. On a
    table with a power-of-two bucket count (at most 2^30) and a load
    factor bound of at least 1, [insert] throws only while growing the
    table, when the [%] of a stored hash by the new bucket count is
    negative; the buckets are then untouched, the handle is not stored,
    and [size] is one more than before. *)
Theorem failed_insert_still_counts (val : Elem) (b : table) :
  bucket_count_ok (row_size b) -> row_size b <= 2 ^ 30 ->
  (1 <= max_load_factor_ b)%Q ->
  fst (HashBuckets.insert fetcher_ hasher_ val b) = TypeError ->
  snd (HashBuckets.insert fetcher_ hasher_ val b)
  = set_size b (size_ b + 1) /\
  size_ b + 1 > capacity b /\
  Exists (fun e => JS.rem (hash_of e)
                     (rehash_length
                        (Qfloor (inject_Z (capacity b * 2)
                                 / max_load_factor_ b))) < 0)
         (elements b).
Proof.
  intros Hcnt Hrows Hm Hthrow.
  destruct (count_exponent _ Hcnt ltac:(lia)) as (k & Hk & HR).
  set (b1 := set_size b (size_ b + 1)).
  assert (Hplace1 : fst (place fetcher_ hasher_ val b1) = Ok tt).
  { now rewrite (place_ok fetcher_ hasher_ val b1 k ltac:(lia) HR). }
  rewrite insert_eq in Hthrow |- *. fold b1 in Hthrow |- *.
  unfold bind in Hthrow |- *.
  destruct (size_ b + 1 >? capacity b) eqn:Hgrow.
  2:{ unfold ret in Hthrow. rewrite Hplace1 in Hthrow. discriminate. }
  rewrite reserve_eq in Hthrow |- *.
  change (capacity b1) with (capacity b) in Hthrow |- *.
  change (max_load_factor_ b1) with (max_load_factor_ b) in Hthrow |- *.
  destruct (capacity b * 2 >? capacity b) eqn:Hc.
  2:{ rewrite Hplace1 in Hthrow. discriminate. }
  set (L := Qfloor (inject_Z (capacity b * 2) / max_load_factor_ b))
    in Hthrow |- *.
  destruct (doubled_capacity (row_size b) (capacity b) L L
              (max_load_factor_ b) Hm) as (_ & HL & _);
    [destruct Hcnt as [_ H8]; exact H8 | reflexivity | reflexivity | lia |].
  destruct (rehash_cases fetcher_ hasher_ L b1)
    as [(Hok & Hr & _) | (Herr & Hs)].
  - (* the table was rehashed: the handle finds its bucket *)
    exfalso.
    destruct (rehash fetcher_ hasher_ L b1) as [[[] |] b2] eqn:Hre;
      [| discriminate]. simpl in Hr.
    destruct (rehash_length_exponent L ltac:(lia)) as (k' & Hk' & HL').
    rewrite (place_ok fetcher_ hasher_ val b2 k' ltac:(lia)) in Hthrow
      by congruence.
    discriminate.
  - pose proof (proj1 (rehash_throws_iff L b1) Herr) as Hex.
    destruct (rehash fetcher_ hasher_ L b1) as [[[] |] b2] eqn:Hre;
      [discriminate |].
    simpl in Hs. subst b2. simpl.
    split; [reflexivity |]. split; [apply Z.gtb_lt in Hgrow; lia |].
    exact Hex.
Qed.

(** *** Sequences of calls under the default load factor *)

(** Every call of the sequence returns normally. *)
Fixpoint returns (ops : list (op Elem)) (b : table) : Prop :=
  match ops with
  | [] => True
  | o :: ops' =>
      fst (exec fetcher_ hasher_ o b) = Ok tt /\
      returns ops' (snd (exec fetcher_ hasher_ o b))
  end.

(** The calls considered: handles of non-negative hash, and bucket
    counts up to 2^30. *)
Definition tidy (o : op Elem) : Prop :=
  match o with
  | Insert val => 0 <= hash_of val
  | Rehash n | Reserve n => n <= 2 ^ 30
  | Erase _ | Clear => True
  end.

Definition no_rehash (o : op Elem) : Prop :=
  match o with Rehash _ => False | _ => True end.

(** A table in order, after at most [k] calls. *)
Record sound (k : Z) (b : table) : Prop := {
  sound_count : bucket_count_ok (row_size b);
  sound_rows : row_size b <= 2 ^ 30;
  sound_factor : max_load_factor_ b = 1%Q;
  sound_hashes : nonneg_hashes fetcher_ hasher_ b;
  sound_placed : placed fetcher_ hasher_ b;
  sound_size : size_ b = Z.of_nat (length (elements b));
  sound_calls : size_ b <= k
}.

Lemma sound_rehash (k n : Z) (b : table) :
  sound k b -> n <= 2 ^ 30 ->
  exists b',
    HashBuckets.rehash fetcher_ hasher_ n b = (Ok tt, b') /\
    sound k b' /\ row_size b' = rehash_length n.
Proof.
  intros [Hcnt Hrows Hm Hnn Hpl Hsz Hk] Hn.
  pose proof (rehash_ok fetcher_ hasher_ n b Hnn) as Hok.
  destruct (rehash_cases fetcher_ hasher_ n b)
    as [(_ & Hr & Hs & Hm') | (Herr & _)]; [| congruence].
  destruct (HashBuckets.rehash fetcher_ hasher_ n b) as [[[] |] b'] eqn:Hre;
    [| discriminate]. simpl in *.
  pose proof (rehash_elements fetcher_ hasher_ n b b' Hre) as Hp.
  exists b'. split; [reflexivity |]. split; [| exact Hr].
  split.
  - rewrite Hr. apply rehash_length_ok.
  - rewrite Hr. apply (rehash_length_least n 30); [lia |].
    unfold MIN_BUCKET_COUNT. lia.
  - congruence.
  - unfold nonneg_hashes in *. now rewrite Hp.
  - apply (rehash_placed fetcher_ hasher_ n b b'); auto. lia.
  - rewrite Hs, Hsz. now rewrite Hp.
  - lia.
Qed.

Lemma sound_reserve (k n : Z) (b : table) :
  sound k b -> n <= 2 ^ 30 ->
  exists b',
    HashBuckets.reserve fetcher_ hasher_ n b = (Ok tt, b') /\
    sound k b' /\ row_size b <= row_size b' /\ size_ b' = size_ b.
Proof.
  intros Hs Hn. rewrite reserve_eq.
  destruct (n >? capacity b) eqn:Hc.
  - rewrite (sound_factor k b Hs), floor_div_one.
    destruct (sound_rehash k n b Hs Hn) as (b' & Hr & Hs' & Hrows).
    exists b'. split; [exact Hr |]. split; [exact Hs' |].
    apply Z.gtb_lt in Hc. rewrite (capacity_one b (sound_factor k b Hs)) in Hc.
    pose proof (rehash_length_ge n).
    destruct (rehash_cases fetcher_ hasher_ n b) as [(_ & _ & Hsz & _) | (He & _)];
      rewrite Hr in *; simpl in *; [| discriminate].
    split; [lia | exact Hsz].
  - exists b. repeat split; try apply Hs; lia.
Qed.

Lemma sound_insert (k : Z) (val : Elem) (b : table) :
  sound k b -> k <= 2 ^ 29 -> 0 <= hash_of val ->
  exists b',
    HashBuckets.insert fetcher_ hasher_ val b = (Ok tt, b') /\
    sound (k + 1) b' /\
    (size_ b <= row_size b -> size_ b' <= row_size b').
Proof.
  intros Hs Hk Hval.
  destruct Hs as [Hcnt Hrows Hm Hnn Hpl Hsz Hcalls].
  destruct (insert_ok fetcher_ hasher_ val b Hcnt Hrows Hnn Hpl)
    as (b' & Hi & Hs' & Hm' & He & Hpl' & Hcnt' & _).
  (* the bucket count after the call *)
  assert (Hrows' : row_size b'
                   = if size_ b + 1 >? row_size b then 2 * row_size b
                     else row_size b).
  { pose proof Hi as Hi'. rewrite insert_eq in Hi'. unfold bind in Hi'.
    rewrite (capacity_one b Hm) in Hi'.
    destruct (size_ b + 1 >? row_size b) eqn:Hgrow.
    - rewrite reserve_eq in Hi'.
      change (capacity (set_size b (size_ b + 1))) with (capacity b) in Hi'.
      change (max_load_factor_ (set_size b (size_ b + 1)))
        with (max_load_factor_ b) in Hi'.
      rewrite (capacity_one b Hm), Hm, floor_div_one in Hi'.
      assert (Hgt : (row_size b * 2 >? row_size b) = true).
      { apply Z.gtb_lt. destruct Hcnt as [_ H8].
        unfold MIN_BUCKET_COUNT in H8. lia. }
      rewrite Hgt in Hi'.
      destruct (rehash_cases fetcher_ hasher_ (row_size b * 2)
                  (set_size b (size_ b + 1)))
        as [(_ & Hr & _) | (Herr & _)].
      + destruct (rehash _ _ _ _) as [[[] |] b2]; [| discriminate].
        simpl in Hr. rewrite (place_row_size val b2 b' Hi'), Hr.
        rewrite rehash_length_fixed; [lia |].
        destruct Hcnt as [(j & Hj & HR) H8]. split; [| lia].
        exists (j + 1). split; [lia |].
        rewrite Z.pow_add_r by lia. change (row_size (set_size b _))
          with (row_size b). lia.
      + destruct (rehash _ _ _ _) as [[[] |] b2]; discriminate.
    - unfold ret in Hi'. now rewrite (place_row_size val _ b' Hi'). }
  exists b'. split; [exact Hi |]. split; [split |].
  - exact Hcnt'.
  - rewrite Hrows'. destruct (size_ b + 1 >? row_size b) eqn:Hgrow; [| exact Hrows].
    apply Z.gtb_lt in Hgrow. lia.
  - congruence.
  - unfold nonneg_hashes in *. rewrite He. constructor; assumption.
  - exact Hpl'.
  - rewrite Hs', Hsz, He. simpl. lia.
  - lia.
  - intros Hload. rewrite Hrows', Hs'.
    pose proof (proj2 Hcnt) as H8. unfold MIN_BUCKET_COUNT in H8.
    destruct (size_ b + 1 >? row_size b) eqn:Hgrow.
    + lia.
    + rewrite Z.gtb_ltb in Hgrow. apply Z.ltb_ge in Hgrow. lia.
Qed.

Lemma sound_erase (k : Z) (val : Elem) (b : table) :
  sound k b ->
  exists b',
    HashBuckets.erase fetcher_ hasher_ val b = (Ok tt, b') /\
    sound k b' /\ row_size b' = row_size b /\ size_ b' <= size_ b.
Proof.
  intros Hs. pose proof Hs as [Hcnt Hrows Hm Hnn Hpl Hsz Hcalls].
  destruct (decide (val ∈ elements b)) as [Hin | Hout].
  - destruct (erase_elements fetcher_ hasher_ val b Hcnt ltac:(lia) Hpl Hin)
      as (b' & He & Hs' & Hr & Hm' & Hp & _ & Hpl').
    exists b'. split; [exact He |]. split; [| split; [exact Hr | lia]].
    split.
    + now rewrite Hr.
    + now rewrite Hr.
    + congruence.
    + unfold nonneg_hashes in *. rewrite Hp in Hnn.
      now apply Forall_cons in Hnn as [_ Hnn].
    + exact Hpl'.
    + rewrite Hs', Hsz, Hp. simpl. lia.
    + lia.
  - exists b. split; [apply erase_not_stored; auto; lia |].
    split; [exact Hs | split; [reflexivity | lia]].
Qed.

Lemma sound_clear (k : Z) (b : table) :
  sound k b -> 0 <= k ->
  exists b',
    HashBuckets.clear b = (Ok tt, b') /\ sound k b' /\
    size_ b' <= row_size b'.
Proof.
  intros Hs Hk. eexists. split; [reflexivity |]. split; [split |]; simpl.
  - apply (@constructor_row_size_ok Elem).
  - vm_compute. discriminate.
  - apply Hs.
  - constructor.
  - intros j bucket e Hj He. exfalso.
    change (replicate 8 (@nil Elem) !! j = Some bucket) in Hj.
    apply lookup_replicate in Hj as [-> _]. now apply elem_of_nil in He.
  - reflexivity.
  - exact Hk.
  - vm_compute. discriminate.
Qed.

Lemma sound_exec (k : Z) (o : op Elem) (b : table) :
  sound k b -> 0 <= k <= 2 ^ 29 -> tidy o ->
  fst (exec fetcher_ hasher_ o b) = Ok tt /\
  sound (k + 1) (snd (exec fetcher_ hasher_ o b)) /\
  (no_rehash o -> size_ b <= row_size b ->
   size_ (snd (exec fetcher_ hasher_ o b))
   <= row_size (snd (exec fetcher_ hasher_ o b))).
Proof.
  intros Hs Hk Ho.
  assert (Hstep : forall b', sound k b' -> sound (k + 1) b').
  { intros b' [? ? ? ? ? ? ?]. split; auto. lia. }
  destruct o as [| n | n | val | val]; cbn [exec tidy no_rehash] in *.
  - destruct (sound_clear k b Hs ltac:(lia)) as (b' & -> & Hs' & Hl). auto.
  - destruct (sound_rehash k n b Hs Ho) as (b' & -> & Hs' & _).
    simpl. split; [reflexivity |]. split; [auto | tauto].
  - destruct (sound_reserve k n b Hs Ho) as (b' & -> & Hs' & Hr & Hsz).
    simpl. split; [reflexivity |]. split; [auto |]. intros _ Hl. lia.
  - destruct (sound_insert k val b Hs ltac:(lia) Ho) as (b' & -> & Hs' & Hl).
    simpl. auto.
  - destruct (sound_erase k val b Hs) as (b' & -> & Hs' & Hr & Hsz).
    simpl. split; [reflexivity |]. split; [auto |]. intros _ Hl. lia.
Qed.

Lemma sound_run (ops : list (op Elem)) : forall (k : Z) (b : table),
  sound k b -> 0 <= k -> k + Z.of_nat (length ops) <= 2 ^ 29 ->
  Forall tidy ops ->
  returns ops b /\
  sound (k + Z.of_nat (length ops)) (run fetcher_ hasher_ ops b) /\
  (Forall no_rehash ops -> size_ b <= row_size b ->
   size_ (run fetcher_ hasher_ ops b)
   <= row_size (run fetcher_ hasher_ ops b)).
Proof.
  induction ops as [| o ops IH]; intros k b Hs Hk Hlen Hops.
  - simpl. rewrite Z.add_0_r. auto.
  - apply Forall_cons in Hops as [Ho Hops].
    rewrite length_cons, Nat2Z.inj_succ in Hlen |- *.
    destruct (sound_exec k o b Hs ltac:(lia) Ho) as (Hok & Hs' & Hl).
    destruct (IH (k + 1) _ Hs' ltac:(lia) ltac:(lia) Hops)
      as (Hret & Hs'' & Hl').
    simpl. split; [auto |]. split.
    + replace (k + Z.succ (Z.of_nat (length ops)))
        with (k + 1 + Z.of_nat (length ops)) by lia. exact Hs''.
    + intros Hnr Hload. apply Forall_cons in Hnr as [Hno Hnr]. auto.
Qed.

Lemma sound_constructor : sound 0 (constructor (Elem := Elem)).
Proof.
  split.
  - apply (@constructor_row_size_ok Elem).
  - vm_compute. discriminate.
  - reflexivity.
  - constructor.
  - intros j bucket e Hj He. exfalso.
    change (replicate 8 (@nil Elem) !! j = Some bucket) in Hj.
    apply lookup_replicate in Hj as [-> _]. now apply elem_of_nil in He.
  - reflexivity.
  - simpl. lia.
Qed.

(** X9. Along every sequence of at most 2^29 calls of [clear], [rehash],
    [reserve] (lengths up to 2^30), [insert] (handles of non-negative
    hash) and [erase] on a new table, every call returns normally, [size]
    is the number of stored handles, every handle sits in the bucket of
    its key, and the load factor bound stays the default one. *)
Theorem size_counts_stored_handles (ops : list (op Elem)) :
  Forall tidy ops -> Z.of_nat (length ops) <= 2 ^ 29 ->
  returns ops constructor /\
  size (run fetcher_ hasher_ ops constructor)
  = Z.of_nat (length (elements (run fetcher_ hasher_ ops constructor))) /\
  placed fetcher_ hasher_ (run fetcher_ hasher_ ops constructor) /\
  bucket_count_ok (row_size (run fetcher_ hasher_ ops constructor)) /\
  max_load_factor_ (run fetcher_ hasher_ ops constructor)
  = DEFAULT_MAX_FACTOR.
Proof.
  intros Hops Hlen.
  destruct (sound_run ops 0 constructor sound_constructor ltac:(lia)
              ltac:(lia) Hops) as (Hret & [Hc _ Hm _ Hpl Hsz _] & _).
  auto.
Qed.

(** [load_factor]: [size_ / row_size()], as an exact fraction. *)
Definition load_factor (b : table) : Q :=
  inject_Z (size_ b) / inject_Z (row_size b).

(** X10. Without calls of [rehash], the load factor of such a sequence
    never exceeds 1: after every sequence of [clear], [reserve], [insert]
    and [erase] on a new table, [size] is at most the bucket count, which
    is the capacity, and [load_factor] is at most 1. *)
Theorem load_factor_at_most_one (ops : list (op Elem)) :
  Forall tidy ops -> Forall no_rehash ops ->
  Z.of_nat (length ops) <= 2 ^ 29 ->
  size (run fetcher_ hasher_ ops constructor)
  <= row_size (run fetcher_ hasher_ ops constructor) /\
  size (run fetcher_ hasher_ ops constructor)
  <= capacity (run fetcher_ hasher_ ops constructor) /\
  (load_factor (run fetcher_ hasher_ ops constructor) <= 1)%Q.
Proof.
  intros Hops Hnr Hlen.
  destruct (sound_run ops 0 constructor sound_constructor ltac:(lia)
              ltac:(lia) Hops) as (_ & Hs & Hl).
  assert (Hload : size_ (run fetcher_ hasher_ ops constructor)
                  <= row_size (run fetcher_ hasher_ ops constructor)).
  { apply Hl; [exact Hnr | vm_compute; discriminate]. }
  split; [exact Hload |]. split.
  - rewrite (capacity_one _ (sound_factor _ _ Hs)). exact Hload.
  - pose proof (proj2 (sound_count _ _ Hs)) as H8.
    unfold MIN_BUCKET_COUNT in H8. unfold load_factor.
    apply Qle_shift_div_r.
    + change 0%Q with (inject_Z 0). rewrite <- Zlt_Qlt. lia.
    + rewrite Qmult_1_l, <- Zle_Qle. exact Hload.
Qed.

End Laws.

(** *** A table of integers *)

Lemma int_table_sound (ops : list (op Z)) :
  Forall (tidy IntTable.fetcher IntTable.hasher) ops ->
  Z.of_nat (length ops) <= 2 ^ 29 ->
  sound IntTable.fetcher IntTable.hasher (Z.of_nat (length ops))
        (IntTable.after ops).
Proof.
  intros Hops Hlen.
  destruct (sound_run IntTable.fetcher IntTable.hasher ops 0 constructor
              (sound_constructor _ _) ltac:(lia) ltac:(lia) Hops)
    as (_ & Hs & _).
  exact Hs.
Qed.

Lemma int_inserts_tidy (vals : list Z) :
  Forall (fun v => 0 <= v) vals ->
  Forall (tidy IntTable.fetcher IntTable.hasher) (IntTable.inserts vals).
Proof.
  intros H. unfold IntTable.inserts. apply Forall_forall. intros o Ho.
  apply list_elem_of_In, in_map_iff in Ho as (v & <- & Hv).
  rewrite Forall_forall in H. apply H. now apply list_elem_of_In.
Qed.

Lemma int_predicator_hash (x y : Z) :
  IntTable.predicator x y = true -> IntTable.hasher x = IntTable.hasher y.
Proof. unfold IntTable.predicator, IntTable.hasher. now intros ->%Z.eqb_eq. Qed.

(** The table holding [1, 2, 3]. *)
Definition one_two_three : HashBuckets.t Z :=
  IntTable.after (IntTable.inserts [1; 2; 3]).

Lemma one_two_three_sound :
  sound IntTable.fetcher IntTable.hasher 3 one_two_three.
Proof.
  apply (int_table_sound (IntTable.inserts [1; 2; 3]));
    [apply int_inserts_tidy; repeat constructor; lia | vm_compute; discriminate].
Qed.

Lemma find_hit_or_miss_witness :
  IntTable.find 2 one_two_three = (Ok (Some 2), one_two_three) /\
  IntTable.find 5 one_two_three = (Ok None, one_two_three) /\
  IntTable.find (-6) one_two_three = (Ok None, one_two_three).
Proof.
  pose proof one_two_three_sound as Hs.
  assert (Hrows : row_size one_two_three <= 2 ^ 31)
    by (vm_compute; discriminate).
  assert (Hfind : forall key r,
            fst (IntTable.find key one_two_three) = Ok r ->
            IntTable.find key one_two_three = (Ok r, one_two_three)).
  { intros key r Hr.
    destruct (find_hit_or_miss IntTable.fetcher IntTable.hasher
                IntTable.predicator key one_two_three
                (sound_count _ _ _ _ Hs) Hrows) as (r' & Hf & _).
    unfold IntTable.find in *. rewrite Hf in Hr |- *. simpl in Hr.
    now injection Hr as ->. }
  repeat split; apply Hfind; vm_compute; reflexivity.
Defined.

Lemma erase_missing_is_noop_witness :
  HashBuckets.erase IntTable.fetcher IntTable.hasher 9 one_two_three
  = (Ok tt, one_two_three) /\
  size (snd (HashBuckets.erase IntTable.fetcher IntTable.hasher 9
               one_two_three)) = 3.
Proof.
  pose proof one_two_three_sound as Hs.
  destruct (erase_missing_is_noop IntTable.fetcher IntTable.hasher 9
              one_two_three (sound_count _ _ _ _ Hs)) as [He Hsz].
  - vm_compute. discriminate.
  - rewrite list_elem_of_In. vm_compute. intuition discriminate.
  - split; [exact He |]. rewrite Hsz. reflexivity.
Defined.

Lemma insert_then_erase_witness :
  exists b1 b2,
    IntTable.insert 11 one_two_three = (Ok tt, b1) /\
    HashBuckets.erase IntTable.fetcher IntTable.hasher 11 b1 = (Ok tt, b2) /\
    size_ b1 = 4 /\ size_ b2 = 3 /\
    elements b2 ≡ₚ elements one_two_three.
Proof.
  pose proof one_two_three_sound as Hs.
  destruct (insert_then_erase IntTable.fetcher IntTable.hasher 11
              one_two_three (sound_count _ _ _ _ Hs) (sound_rows _ _ _ _ Hs)
              (sound_hashes _ _ _ _ Hs) (sound_placed _ _ _ _ Hs))
    as (b1 & b2 & Hi & He & Hs1 & Hs2 & _ & Hp & _).
  exists b1, b2. repeat split; assumption.
Defined.

Lemma insert_then_find_witness :
  exists b',
    IntTable.insert 11 one_two_three = (Ok tt, b') /\
    IntTable.find 11 b' = (Ok (Some 11), b') /\
    IntTable.find 2 b' = (Ok (Some 2), b').
Proof.
  pose proof one_two_three_sound as Hs.
  destruct (insert_then_find IntTable.fetcher IntTable.hasher
              IntTable.predicator 11 one_two_three int_predicator_hash
              (Z.eqb_refl 11)
              (sound_count _ _ _ _ Hs) (sound_rows _ _ _ _ Hs)
              (sound_hashes _ _ _ _ Hs) (sound_placed _ _ _ _ Hs))
    as (b' & Hi & _ & _ & (it & Hf & _ & Hp) & Hold).
  exists b'. split; [exact Hi |]. split.
  - apply Z.eqb_eq in Hp. unfold IntTable.fetcher in Hp. subst it. exact Hf.
  - destruct (Hold 2 2) as (it2 & Hf2 & Hp2).
    + rewrite list_elem_of_In. vm_compute. auto.
    + reflexivity.
    + apply Z.eqb_eq in Hp2. unfold IntTable.fetcher in Hp2. subst it2.
      exact Hf2.
Defined.

Lemma rehash_keeps_findable_witness :
  exists b',
    IntTable.rehash 32 one_two_three = (Ok tt, b') /\
    row_size b' = 32 /\
    IntTable.find 3 b' = (Ok (Some 3), b').
Proof.
  pose proof one_two_three_sound as Hs.
  destruct (rehash_keeps_findable IntTable.fetcher IntTable.hasher
              IntTable.predicator 32 one_two_three int_predicator_hash
              (sound_hashes _ _ _ _ Hs)) as (b' & Hr & _ & Hfind).
  - vm_compute. discriminate.
  - exists b'. split; [exact Hr |]. split.
    + assert (Hb : b' = snd (IntTable.rehash 32 one_two_three))
        by (unfold IntTable.rehash; now rewrite Hr).
      rewrite Hb. vm_compute. reflexivity.
    + destruct (Hfind 3 3) as (it & Hf & _ & Hp).
      * rewrite list_elem_of_In. vm_compute. auto.
      * reflexivity.
      * apply Z.eqb_eq in Hp. unfold IntTable.fetcher in Hp. subst it.
        exact Hf.
Defined.

Lemma reserve_grows_only_witness :
  HashBuckets.reserve IntTable.fetcher IntTable.hasher 5 one_two_three
  = (Ok tt, one_two_three) /\
  row_size (snd (HashBuckets.reserve IntTable.fetcher IntTable.hasher 20
                   one_two_three)) = 32 /\
  20 <= capacity (snd (HashBuckets.reserve IntTable.fetcher IntTable.hasher
                         20 one_two_three)).
Proof.
  assert (Hm : (0 < max_load_factor_ one_two_three)%Q) by reflexivity.
  destruct (reserve_grows_only IntTable.fetcher IntTable.hasher 5
              one_two_three Hm) as (Hnoop & _ & _).
  destruct (reserve_grows_only IntTable.fetcher IntTable.hasher 20
              one_two_three Hm) as (_ & _ & Hcap).
  split; [apply Hnoop; vm_compute; discriminate |].
  split; [vm_compute; reflexivity |].
  apply Hcap; vm_compute; reflexivity.
Defined.

(** The table holding [-1, 1, 2, 3, 4, 5, 6, 7]: full, with a negative
    hash. *)
Definition with_negative : HashBuckets.t Z :=
  IntTable.after (IntTable.inserts [-1; 1; 2; 3; 4; 5; 6; 7]).

Lemma failed_insert_still_counts_witness :
  fst (IntTable.insert 8 with_negative) = TypeError /\
  size with_negative = 8 /\
  size (snd (IntTable.insert 8 with_negative)) = 9 /\
  elements (snd (IntTable.insert 8 with_negative)) = elements with_negative.
Proof.
  assert (Hthrow : fst (IntTable.insert 8 with_negative) = TypeError)
    by (vm_compute; reflexivity).
  destruct (failed_insert_still_counts IntTable.fetcher IntTable.hasher 8
              with_negative) as (Hs & _ & _).
  - split; [exists 3; split; [lia | reflexivity] | vm_compute; discriminate].
  - vm_compute. discriminate.
  - vm_compute. discriminate.
  - exact Hthrow.
  - split; [exact Hthrow |]. split; [reflexivity |].
    unfold IntTable.insert. rewrite Hs. split; reflexivity.
Defined.

(** Calls on a new table. *)
Definition session : list (op Z) :=
  IntTable.inserts [0; 1; 2; 3; 4; 5; 6; 7; 8; 9]
  ++ [Erase 4; Erase 40; Reserve 40; Insert 4; Clear; Insert 1].

Definition rehashing_session : list (op Z) :=
  IntTable.inserts [0; 1; 2; 3; 4; 5; 6; 7; 8; 9] ++ [Rehash 8; Erase 4].

Lemma session_tidy :
  Forall (tidy IntTable.fetcher IntTable.hasher) session /\
  Forall (tidy IntTable.fetcher IntTable.hasher) rehashing_session.
Proof.
  split; unfold session, rehashing_session, IntTable.inserts; simpl;
    repeat (apply Forall_cons; split;
            [cbv [tidy IntTable.hasher IntTable.fetcher];
             first [exact I | lia] |]);
    constructor.
Qed.

Lemma size_counts_stored_handles_witness :
  returns IntTable.fetcher IntTable.hasher rehashing_session constructor /\
  size (IntTable.after rehashing_session) = 9 /\
  elements (IntTable.after rehashing_session) = [0; 8; 1; 9; 2; 3; 5; 6; 7] /\
  row_size (IntTable.after rehashing_session) = 8.
Proof.
  destruct (size_counts_stored_handles IntTable.fetcher IntTable.hasher
              rehashing_session (proj2 session_tidy))
    as (Hret & Hsz & _).
  - vm_compute. discriminate.
  - split; [exact Hret |]. split; [| split; vm_compute; reflexivity].
    unfold IntTable.after. rewrite Hsz. vm_compute. reflexivity.
Defined.

Lemma load_factor_at_most_one_witness :
  size (IntTable.after session) <= row_size (IntTable.after session) /\
  (load_factor (IntTable.after session) <= 1)%Q /\
  size (IntTable.after session) = 1 /\
  row_size (IntTable.after session) = 8.
Proof.
  destruct (load_factor_at_most_one IntTable.fetcher IntTable.hasher
              session (proj1 session_tidy)) as (Hl & _ & Hf).
  - unfold session, IntTable.inserts; simpl.
    repeat (apply Forall_cons; split; [exact I |]). constructor.
  - vm_compute. discriminate.
  - split; [exact Hl |]. split; [exact Hf |]. split; vm_compute; reflexivity.
Defined.

End HashBucketsLaws.

(** ** Laws of the multi-key tree index *)

Module MultiMapTreeLaws.
Import XTree XTreeFacts MultiMapTree MultiMapTreeFacts.

Section Laws.

Context {Key E : Type}.
Variable key_of : E -> Key.
Variable comp : Key -> Key -> bool.
Hypothesis order : strict_weak_order comp.

Abbreviation It := (Iterator E).
Abbreviation tree := (XTreeNode (Iterator E)).
Abbreviation key it := (MultiMapTree.first key_of it).
Abbreviation hcomp := (MultiMapTree.handle_comp key_of comp).
Abbreviation equiv k y := (MultiMapTree.equivalent key_of comp k y).
Abbreviation before k y := (MultiMapTreeFacts.precedes key_of comp k y).
Abbreviation after k y := (MultiMapTreeFacts.follows key_of comp k y).

(** *** The ordering of handles *)

Lemma equiv_trans_keys (a b c : Key) :
  comp a b = false -> comp b a = false ->
  comp b c = false -> comp c b = false ->
  comp a c = false /\ comp c a = false.
Proof. apply (swo_equiv comp order). Qed.

(** Two handles that the ordering does not separate have equivalent keys
    and the same creation id. *)
Lemma hcomp_incomparable (x y : It) :
  hcomp x y = false -> hcomp y x = false ->
  comp (key x) (key y) = false /\ comp (key y) (key x) = false /\
  uid x = uid y.
Proof.
  unfold MultiMapTree.handle_comp, MultiMapTree.get_uid.
  destruct (comp (key x) (key y)) eqn:Hxy, (comp (key y) (key x)) eqn:Hyx;
    simpl; try discriminate.
  intros H1 H2. apply Nat.ltb_ge in H1, H2. repeat split; auto. lia.
Qed.

Lemma hcomp_true (x y : It) :
  hcomp x y = true <->
  comp (key x) (key y) = true \/
  (comp (key x) (key y) = false /\ comp (key y) (key x) = false /\
   (uid x < uid y)%nat).
Proof.
  unfold MultiMapTree.handle_comp, MultiMapTree.get_uid.
  destruct (comp (key x) (key y)) eqn:Hxy, (comp (key y) (key x)) eqn:Hyx;
    simpl; rewrite ?Nat.ltb_lt; intuition congruence.
Qed.

(** The ordering of handles is a strict weak ordering. *)
Lemma hcomp_order : strict_weak_order hcomp.
Proof.
  assert (Hasym : forall a b, comp a b = true -> comp b a = false)
    by apply (comp_asym comp order).
  split.
  - intros x. unfold MultiMapTree.handle_comp, MultiMapTree.get_uid.
    rewrite (swo_irrefl comp order). simpl. apply Nat.ltb_irrefl.
  - intros x y z Hxy Hyz. apply hcomp_true in Hxy, Hyz. apply hcomp_true.
    destruct Hxy as [Hxy | (Hxy & Hyx & Hu)],
             Hyz as [Hyz | (Hyz & Hzy & Hu')].
    + left. exact (swo_trans comp order _ _ _ Hxy Hyz).
    + left. destruct (less_cases comp order _ _ (key z) Hxy) as [H | H];
        [exact H | congruence].
    + left. destruct (less_cases comp order _ _ (key x) Hyz) as [H | H];
        [congruence | exact H].
    + right. destruct (equiv_trans_keys _ _ _ Hxy Hyx Hyz Hzy).
      repeat split; auto. lia.
  - intros x y z Hxy Hyx Hyz Hzy.
    destruct (hcomp_incomparable x y Hxy Hyx) as (H1 & H2 & Hu).
    destruct (hcomp_incomparable y z Hyz Hzy) as (H3 & H4 & Hu').
    destruct (equiv_trans_keys _ _ _ H1 H2 H3 H4) as [H5 H6].
    unfold MultiMapTree.handle_comp, MultiMapTree.get_uid.
    rewrite H5, H6. simpl. split; apply Nat.ltb_ge; lia.
Qed.

(** X11. The ordering that the constructor hands to the base tree is a
    strict total order on handles of distinct creation ids, whenever the
    key comparator is a strict weak ordering: it is irreflexive and
    transitive, it follows the key comparator between keys that the
    comparator separates, and between handles of equivalent keys the one
    created first comes first; only a handle and itself (same creation
    id, equivalent keys) are left unordered. *)
Theorem handle_order_is_total :
  strict_weak_order hcomp /\
  (forall x y, comp (key x) (key y) = true -> hcomp x y = true) /\
  (forall x y, equiv (key x) y = true ->
               hcomp x y = (uid x <? uid y)%nat) /\
  (forall x y, uid x <> uid y -> hcomp x y = true \/ hcomp y x = true) /\
  (forall x y, hcomp x y = false -> hcomp y x = false ->
               uid x = uid y /\ equiv (key x) y = true).
Proof.
  split; [exact hcomp_order |].
  split; [| split; [| split]].
  - intros x y Hxy. apply hcomp_true. now left.
  - intros x y He. rewrite handle_comp_spec. now rewrite He.
  - intros x y Hu.
    destruct (hcomp x y) eqn:H1; [now left |].
    destruct (hcomp y x) eqn:H2; [now right |].
    destruct (hcomp_incomparable x y H1 H2) as (_ & _ & Hc). contradiction.
  - intros x y H1 H2.
    destruct (hcomp_incomparable x y H1 H2) as (Hxy & Hyx & Hu).
    split; [exact Hu |]. unfold MultiMapTree.equivalent.
    now rewrite Hxy, Hyx.
Qed.

(** *** Searches *)

(** Without a handle of equivalent key, the descent ends on a handle next
    to the place of the key, whatever the side it would move to on a
    match. *)
Lemma nearest_loop_neighbour (k : Key) (s : side) (n : tree) :
  n <> null -> key_sorted key_of comp (inorder n) ->
  filter (fun y => equiv k y) (inorder n) = [] ->
  exists c l x r l1 l2,
    nearest_loop key_of comp k s n null = node c l x r /\
    inorder n = l1 ++ x :: l2 /\
    Forall (fun y => before k y = true) l1 /\
    Forall (fun y => after k y = true) l2 /\
    (before k x = true \/ after k x = true).
Proof.
  induction n as [| c l IHl it r IHr]; intros Hne Hs Hnone; [contradiction |].
  cbn [inorder] in *.
  destruct (key_sorted_node key_of comp _ _ _ Hs) as (Hsl & Hsr & Hl & Hr).
  cbn [nearest_loop].
  rewrite filter_app, filter_cons in Hnone.
  apply app_eq_nil in Hnone as [Hnl Hnr].
  destruct (comp k (key it)) eqn:Hlt.
  { assert (Hfr : Forall (fun y => after k y = true) (inorder r)).
    { eapply Forall_impl; [exact Hr |]. simpl. intros y Hy.
      eapply (follows_after key_of comp order); eauto. }
    destruct l as [| lc ll lv lr].
    - exists c, null, it, r, [], (inorder r). repeat split; auto.
    - destruct (IHl ltac:(discriminate) Hsl Hnl)
        as (c' & l' & x & r' & l1 & l2 & Hres & Hin & H1 & H2 & Hx).
      exists c', l', x, r', l1, (l2 ++ it :: inorder r).
      split; [exact Hres |]. split; [rewrite Hin; flatten |].
      split; [exact H1 |]. split; [| exact Hx].
      apply Forall_app. split; [exact H2 |].
      constructor; [exact Hlt | exact Hfr]. }
  destruct (comp (key it) k) eqn:Hgt.
  { assert (Hfl : Forall (fun y => before k y = true) (inorder l)).
    { eapply Forall_impl; [exact Hl |]. simpl. intros y Hy.
      eapply (precedes_before key_of comp order); eauto. }
    destruct r as [| rc rl rv rr].
    - exists c, l, it, null, (inorder l), []. repeat split; auto.
    - destruct (IHr ltac:(discriminate) Hsr)
        as (c' & l' & x & r' & l1 & l2 & Hres & Hin & H1 & H2 & Hx).
      { destruct (decide (equiv k it)); [discriminate | exact Hnr]. }
      exists c', l', x, r', (inorder l ++ it :: l1), l2.
      split; [exact Hres |]. split; [rewrite Hin; flatten |].
      split; [| split; [exact H2 | exact Hx]].
      apply Forall_app. split; [exact Hfl |].
      constructor; [exact Hgt | exact H1]. }
  exfalso. rewrite decide_True in Hnr; [discriminate |].
  unfold MultiMapTree.equivalent. now rewrite Hlt, Hgt.
Qed.

Lemma filter_all {A} (P : A -> Prop) `{forall x, Decision (P x)}
    (l : list A) :
  Forall P l -> filter P l = l.
Proof.
  induction 1 as [| x l Hx _ IH]; [reflexivity |].
  now rewrite filter_cons, decide_True, IH.
Qed.

(** The handles after the key, in a sequence split around a handle. *)
Lemma followers_split (k : Key) (l1 l2 : list It) (x : It) :
  Forall (fun y => before k y = true) l1 ->
  Forall (fun y => after k y = true) l2 ->
  filter (fun y => after k y) (l1 ++ x :: l2)
  = if after k x then x :: l2 else l2.
Proof.
  intros H1 H2. rewrite filter_app, filter_cons.
  rewrite (filter_none (fun y => after k y) l1).
  - rewrite (filter_all (fun y => after k y) l2).
    + simpl. destruct (after k x) eqn:Hx.
      * now rewrite decide_True by exact I.
      * now rewrite decide_False by (intros []).
    + eapply Forall_impl; [exact H2 |]. simpl. intros y ->. exact I.
  - eapply Forall_impl; [exact H1 |]. simpl. intros y Hy Hc.
    apply Is_true_true in Hc.
    destruct (trichotomy key_of comp order k y)
      as [(? & ? & ?) | [(? & ? & ?) | (? & ? & ?)]]; congruence.
Qed.

(** The handles that are not before the key are the ones of equivalent
    key and the ones after it. *)
Lemma not_before_split (k : Key) (l : list It) :
  key_sorted key_of comp l ->
  filter (fun y => negb (before k y)) l
  = filter (fun y => equiv k y) l ++ filter (fun y => after k y) l.
Proof.
  induction 1 as [| x l Hs IH Hx]; [reflexivity |].
  rewrite !filter_cons.
  destruct (trichotomy key_of comp order k x)
    as [(H1 & H2 & H3) | [(H1 & H2 & H3) | (H1 & H2 & H3)]];
    rewrite H1, H2, H3; simpl.
  - exact IH.
  - now rewrite IH.
  - rewrite IH.
    (* nothing after [x] is equivalent to the key *)
    rewrite (filter_none (fun y => equiv k y) l); [reflexivity |].
    eapply Forall_impl; [exact Hx |]. simpl. intros y Hy Hc.
    apply Is_true_true in Hc.
    pose proof (follows_after key_of comp order k x y H3 Hy) as Hf.
    destruct (trichotomy key_of comp order k y)
      as [(? & ? & ?) | [(? & ? & ?) | (? & ? & ?)]];
      unfold MultiMapTreeFacts.follows in *; congruence.
Qed.

(** X12. [upper_bound(key)] on a container whose store is the in-order
    sequence of the tree, sorted by key: whether or not a handle of
    equivalent key is stored, the result is the first handle whose key is
    after [key], and [end()] when there is none, in particular on the
    empty container. *)
Theorem upper_bound_first_after (k : Key) (root : tree) (source : Store.t E) :
  Store.wf source -> inorder root = Store.nodes source ->
  key_sorted key_of comp (Store.nodes source) ->
  MultiMapTree.upper_bound key_of comp k root source
  = head (filter (fun y => after k y) (Store.nodes source)) /\
  (Store.nodes source = [] ->
   MultiMapTree.upper_bound key_of comp k root source = Store.end_).
Proof.
  intros Hwf Hin Hs.
  assert (Hmain : MultiMapTree.upper_bound key_of comp k root source
                  = head (filter (fun y => after k y) (Store.nodes source))).
  { destruct (filter (fun y => equiv k y) (Store.nodes source))
      as [| e run] eqn:Hrun.
    - (* no handle of equivalent key *)
      destruct root as [| c0 l0 v0 r0].
      { simpl in Hin. now rewrite <- Hin. }
      destruct (nearest_loop_neighbour k Right (node c0 l0 v0 r0))
        as (c & l & x & r & l1 & l2 & Hres & Hn & H1 & H2 & Hx);
        [discriminate | now rewrite Hin | now rewrite Hin |].
      unfold MultiMapTree.upper_bound, _Nearest_by_key. rewrite Hres.
      rewrite Hin in Hn. rewrite Hn, (followers_split k l1 l2 x H1 H2).
      unfold MultiMapTreeFacts.follows.
      destruct (comp k (key x)) eqn:Hkx; [reflexivity |].
      unfold Store.next. rewrite Hn. apply next_in_middle.
      rewrite <- Hn. apply Hwf.
    - assert (He : e ∈ filter (fun y => equiv k y) (Store.nodes source))
        by (rewrite Hrun; apply list_elem_of_here).
      apply list_elem_of_filter in He as [Heq He].
      apply Is_true_true in Heq.
      destruct (bounds_of_run key_of comp order k root source e
                  Hwf Hin Hs He Heq)
        as (l1 & run' & l2 & _ & _ & _ & Hl2 & _ & _ & _ & _ & Hup).
      now rewrite Hup, Hl2. }
  split; [exact Hmain |]. intros Hnil. now rewrite Hmain, Hnil.
Qed.

(** X13. [nearest_by_key(key)] returns [null] only on the empty tree. On
    a tree sorted by key it returns a node of the tree: the first handle
    of the run of equivalent keys when there is one, and otherwise a
    handle next to the place of the key, with every handle before it of
    smaller key and every handle after it of larger key. *)
Theorem nearest_by_key_result (k : Key) (root : tree) :
  key_sorted key_of comp (inorder root) ->
  (MultiMapTree.nearest_by_key key_of comp k root = null <-> root = null) /\
  (root <> null ->
   exists c l x r l1 l2,
     MultiMapTree.nearest_by_key key_of comp k root = node c l x r /\
     inorder root = l1 ++ x :: l2 /\
     Forall (fun y => before k y = true) l1 /\
     (equiv k x = true \/
      (filter (fun y => equiv k y) (inorder root) = [] /\
       Forall (fun y => after k y = true) l2))).
Proof.
  intros Hs.
  assert (Hnode : root <> null ->
    exists c l x r l1 l2,
      MultiMapTree.nearest_by_key key_of comp k root = node c l x r /\
      inorder root = l1 ++ x :: l2 /\
      Forall (fun y => before k y = true) l1 /\
      (equiv k x = true \/
       (filter (fun y => equiv k y) (inorder root) = [] /\
        Forall (fun y => after k y = true) l2))).
  { intros Hne.
    destruct (filter (fun y => equiv k y) (inorder root))
      as [| e run] eqn:Hrun.
    - destruct (nearest_loop_neighbour k Left root Hne Hs Hrun)
        as (c & l & x & r & l1 & l2 & Hres & Hn & H1 & H2 & Hx).
      exists c, l, x, r, l1, l2.
      unfold nearest_by_key, _Nearest_by_key.
      destruct root; [contradiction |]. auto 10.
    - pose proof (nearest_loop_left key_of comp order k root null Hne Hs)
        as Hleft.
      rewrite Hrun in Hleft. simpl in Hleft.
      pose proof (sorted_decompose key_of comp order k (inorder root) Hs)
        as Hdec.
      rewrite Hrun in Hdec.
      unfold nearest_by_key, _Nearest_by_key.
      destruct root as [| c0 l0 v0 r0]; [contradiction |].
      destruct (nearest_loop key_of comp k Left (node c0 l0 v0 r0) null)
        as [| c l x r]; [discriminate |].
      simpl in Hleft. injection Hleft as ->.
      exists c, l, e, r,
        (filter (fun y => before k y) (inorder (node c0 l0 v0 r0))),
        (run ++ filter (fun y => after k y) (inorder (node c0 l0 v0 r0))).
      split; [reflexivity |]. split; [exact Hdec |].
      split; [apply Forall_forall; intros y Hy;
              apply list_elem_of_filter in Hy as [Hy _];
              now apply Is_true_true in Hy |].
      left.
      assert (He : e ∈ filter (fun y => equiv k y)
                         (inorder (node c0 l0 v0 r0)))
        by (rewrite Hrun; apply list_elem_of_here).
      apply list_elem_of_filter in He as [He _]. now apply Is_true_true. }
  split; [| exact Hnode]. split.
  - intros Hnull. destruct root as [| c0 l0 v0 r0]; [reflexivity |].
    destruct (Hnode ltac:(discriminate)) as (c & l & x & r & _ & _ & Hres & _).
    congruence.
  - now intros ->.
Qed.

End Laws.

(** *** A store of integers with a run of equal keys *)

Lemma int_source_wf : Store.wf TreeSetFacts.IntTreeSet.source.
Proof.
  split; vm_compute.
  - repeat (apply NoDup_cons; split;
            [rewrite ?elem_of_cons, elem_of_nil; lia |]).
    apply NoDup_nil_2.
  - repeat constructor.
Qed.

Lemma int_source_sorted :
  key_sorted (fun v : Z => v) Z.ltb
             (Store.nodes TreeSetFacts.IntTreeSet.source).
Proof. vm_compute. repeat constructor. Qed.

Lemma handle_order_is_total_witness :
  strict_weak_order Z.ltb /\
  strict_weak_order (MultiMapTree.handle_comp (fun v : Z => v) Z.ltb) /\
  MultiMapTree.handle_comp (fun v : Z => v) Z.ltb
    (mkIterator 0 2) (mkIterator 1 2) = true /\
  MultiMapTree.handle_comp (fun v : Z => v) Z.ltb
    (mkIterator 1 2) (mkIterator 0 2) = false /\
  MultiMapTree.handle_comp (fun v : Z => v) Z.ltb
    (mkIterator 5 1) (mkIterator 0 2) = true.
Proof.
  split; [exact Z_ltb_order |].
  destruct (handle_order_is_total (fun v : Z => v) Z.ltb Z_ltb_order)
    as (H1 & H2 & H3 & _).
  split; [exact H1 |]. split; [| split].
  - now rewrite (H3 (mkIterator 0 2) (mkIterator 1 2)).
  - now rewrite (H3 (mkIterator 1 2) (mkIterator 0 2)).
  - now apply (H2 (mkIterator 5 1) (mkIterator 0 2)).
Defined.

Lemma upper_bound_first_after_witness :
  value <$> Store.nodes TreeSetFacts.IntTreeSet.source = [1; 2; 2; 2; 3] /\
  MultiMapTree.upper_bound (fun v : Z => v) Z.ltb 2
    TreeSetFacts.IntTreeSet.index TreeSetFacts.IntTreeSet.source
  = Some (mkIterator 4 3) /\
  MultiMapTree.upper_bound (fun v : Z => v) Z.ltb 0
    TreeSetFacts.IntTreeSet.index TreeSetFacts.IntTreeSet.source
  = Some (mkIterator 0 1) /\
  MultiMapTree.upper_bound (fun v : Z => v) Z.ltb 3
    TreeSetFacts.IntTreeSet.index TreeSetFacts.IntTreeSet.source
  = Store.end_.
Proof.
  split; [vm_compute; reflexivity |].
  assert (H : forall k,
    MultiMapTree.upper_bound (fun v : Z => v) Z.ltb k
      TreeSetFacts.IntTreeSet.index TreeSetFacts.IntTreeSet.source
    = head (filter (fun y => MultiMapTreeFacts.follows (fun v : Z => v)
                               Z.ltb k y)
                   (Store.nodes TreeSetFacts.IntTreeSet.source))).
  { intros k.
    apply (upper_bound_first_after (fun v : Z => v) Z.ltb Z_ltb_order k
             TreeSetFacts.IntTreeSet.index TreeSetFacts.IntTreeSet.source
             int_source_wf eq_refl int_source_sorted). }
  rewrite !H. repeat split; vm_compute; reflexivity.
Defined.

Lemma nearest_by_key_result_witness :
  key_sorted (fun v : Z => v) Z.ltb (inorder TreeSetFacts.IntTreeSet.index) /\
  MultiMapTree.nearest_by_key (fun v : Z => v) Z.ltb 2
    TreeSetFacts.IntTreeSet.index <> null /\
  exists c l x r l1 l2,
    MultiMapTree.nearest_by_key (fun v : Z => v) Z.ltb 2
      TreeSetFacts.IntTreeSet.index = node c l x r /\
    inorder TreeSetFacts.IntTreeSet.index = l1 ++ x :: l2 /\
    Forall (fun y => MultiMapTreeFacts.precedes (fun v : Z => v) Z.ltb 2 y
                     = true) l1.
Proof.
  assert (Hs : key_sorted (fun v : Z => v) Z.ltb
                 (inorder TreeSetFacts.IntTreeSet.index))
    by (vm_compute; repeat constructor).
  split; [exact Hs |].
  destruct (nearest_by_key_result (fun v : Z => v) Z.ltb Z_ltb_order 2
              TreeSetFacts.IntTreeSet.index Hs) as [Hnull Hnode].
  split.
  - intros Hn. apply Hnull in Hn. vm_compute in Hn. discriminate.
  - destruct Hnode as (c & l & x & r & l1 & l2 & H1 & H2 & H3 & _).
    + vm_compute. discriminate.
    + exists c, l, x, r, l1, l2. auto.
Defined.

End MultiMapTreeLaws.

(** ** Laws of the tree sets *)

Module TreeSetLaws.
Import XTree XTreeFacts MultiMapTree MultiMapTreeFacts TreeSetFacts.

Section Laws.

Context {T : Type}.
Variable std_less : T -> T -> bool.
Variable std_equal_to : T -> T -> bool.

Abbreviation It := (Iterator T).
Abbreviation set := (TreeSet.t T).
Abbreviation nodes s := (Store.nodes (TreeSet.data_ s)).
Abbreviation root s := (TreeSet.root_ (TreeSet.tree_ s)).
Abbreviation comparator s := (TreeSet.compare_ (TreeSet.tree_ s)).
Abbreviation key := (fun v : T => v).
Abbreviation wf := (TreeSetFacts.wf std_equal_to).
Abbreviation multi_wf := (TreeSetFacts.multi_wf std_less std_equal_to).

(** [equal_range]: the pair of the two bounds. *)
Definition equal_range (val : T) (s : set)
  : Store.position (T := T) * Store.position (T := T) :=
  (TreeSet.lower_bound std_less val s,
   TreeSet.upper_bound std_less std_equal_to val s).

(** The handles that are not before a value, and those after it. *)
Definition not_less (val : T) (l : list It) : list It :=
  filter (fun y => negb (std_less (value y) val)) l.

Definition greater (val : T) (l : list It) : list It :=
  filter (fun y => std_less val (value y)) l.

(** *** Search in a unique set *)

Lemma tree_find_in (s : set) (val : T) c l x r :
  TreeSet.tree_find val (TreeSet.tree_ s) = node c l x r ->
  x ∈ inorder (root s).
Proof.
  unfold TreeSet.tree_find, nearest_by_key, _Nearest_by_key.
  destruct (root s) as [| c0 l0 v0 r0] eqn:Hr; [discriminate |].
  intros Hres.
  destruct (nearest_loop_in _ _ _ _ _ _ _ _ _ Hres) as [Hin | Hm];
    [exact Hin | discriminate].
Qed.

(** X14. [TreeSet.find] on a set whose tree holds the handles of the
    store in strictly increasing order: the handle of the element equal
    to the value when the set holds one, [end()] otherwise; a handle it
    returns is a handle of the set whose element is equal to the value. *)
Theorem find_equal_or_end (s : set) (val : T) :
  wf s ->
  (forall e, e ∈ nodes s -> std_equal_to (value e) val = true ->
             TreeSet.find std_equal_to val s = Some e) /\
  ((forall e, e ∈ nodes s -> std_equal_to (value e) val = false) ->
   TreeSet.find std_equal_to val s = TreeSet.end_) /\
  (forall it, TreeSet.find std_equal_to val s = Some it ->
              it ∈ nodes s /\ std_equal_to (value it) val = true).
Proof.
  intros Hwf. split; [| split].
  - intros e He Heq.
    destruct (find_present std_equal_to std_equal_to s val Hwf e He Heq)
      as (c & l & r & Hf).
    unfold TreeSet.find. now rewrite Hf, Heq.
  - intros Habs.
    pose proof (find_absent std_equal_to std_equal_to s val Hwf Habs) as Hf.
    unfold TreeSet.find.
    destruct (TreeSet.tree_find val (TreeSet.tree_ s)); [reflexivity |].
    destruct Hf as [_ ->]. reflexivity.
  - intros it. unfold TreeSet.find.
    destruct (TreeSet.tree_find val (TreeSet.tree_ s)) as [| c l x r] eqn:Hf;
      [discriminate |].
    destruct (std_equal_to (value x) val) eqn:Heq; [| discriminate].
    intros [= <-]. split; [| exact Heq].
    rewrite <- (wf_index _ s Hwf). eapply tree_find_in; eauto.
Qed.

(** *** Bounds in a unique set *)

Section Bounds.

Variable s : set.
Variable val : T.
Hypothesis Hwf : wf s.
Hypothesis Hord : ordered s.
Hypothesis Hless : forall x y, comparator s x y = std_less x y.

Abbreviation comp := (comparator s).
Abbreviation Hcomp := (wf_comparator _ s Hwf).
Abbreviation Horder := (agrees_order _ comp Hcomp).
Abbreviation before y := (MultiMapTreeFacts.precedes key comp val y).
Abbreviation equiv y := (MultiMapTree.equivalent key comp val y).
Abbreviation after y := (MultiMapTreeFacts.follows key comp val y).

Lemma nodes_sorted : key_sorted key comp (nodes s).
Proof. rewrite <- Hord. apply (tree_key_sorted _ s Hwf). Qed.

Lemma nodes_strict : StronglySorted (strictly comp) (nodes s).
Proof. rewrite <- Hord. apply (wf_unique _ s Hwf). Qed.

Lemma greater_is_after (l : list It) :
  greater val l = filter (fun y => after y) l.
Proof.
  unfold greater. apply StoreFacts.filter_ext_elem. intros y _.
  unfold MultiMapTreeFacts.follows.
  change (MultiMapTree.first key y) with (value y).
  now rewrite Hless.
Qed.

Lemma not_less_is_not_before (l : list It) :
  not_less val l = filter (fun y => negb (before y)) l.
Proof.
  unfold not_less. apply StoreFacts.filter_ext_elem. intros y _.
  unfold MultiMapTreeFacts.precedes.
  change (MultiMapTree.first key y) with (value y).
  now rewrite Hless.
Qed.

(** A unique set holds at most one handle equivalent to the value. *)
Lemma run_at_most_one (x : It) (run : list It) :
  filter (fun y => equiv y) (nodes s) = x :: run -> run = [].
Proof.
  intros Hrun. destruct run as [| y run]; [reflexivity |]. exfalso.
  pose proof (sorted_decompose key comp Horder val (nodes s) nodes_sorted)
    as Hdec.
  rewrite Hrun in Hdec.
  assert (Hx : x ∈ filter (fun y => equiv y) (nodes s))
    by (rewrite Hrun; apply list_elem_of_here).
  assert (Hy : y ∈ filter (fun y => equiv y) (nodes s))
    by (rewrite Hrun; apply list_elem_of_further, list_elem_of_here).
  apply list_elem_of_filter in Hx as [Hxe Hx], Hy as [Hye Hy].
  apply Is_true_true in Hxe, Hye.
  pose proof (strictly_unique std_equal_to comp Hcomp (nodes s) val x y
                nodes_strict Hx Hy Hxe Hye) as Hxy.
  subst y.
  destruct (wf_store _ s Hwf) as [Hnd _].
  rewrite Hdec in Hnd. rewrite !fmap_app, !fmap_cons in Hnd.
  apply NoDup_app in Hnd as (_ & _ & Hnd).
  apply NoDup_cons in Hnd as [Hni _]. apply Hni. simpl.
  apply list_elem_of_here.
Qed.

(** X15. [lower_bound] and [upper_bound] of a [TreeSet] ordered by
    [std.less], whose store is the in-order sequence of its tree:
    [lower_bound(val)] is the first handle whose element is not less than
    [val], [upper_bound(val)] is the first handle whose element is
    greater than [val], and each is [end()] when there is no such
    handle. The two differ only when the set holds an element equal to
    [val], which [lower_bound] returns. *)
Theorem unique_bounds :
  TreeSet.lower_bound std_less val s = head (not_less val (nodes s)) /\
  TreeSet.upper_bound std_less std_equal_to val s
  = head (greater val (nodes s)) /\
  ((forall e, e ∈ nodes s -> std_equal_to (value e) val = false) ->
   fst (equal_range val s) = snd (equal_range val s)) /\
  (forall e, e ∈ nodes s -> std_equal_to (value e) val = true ->
             fst (equal_range val s) = Some e).
Proof.
  pose proof (sorted_decompose key comp Horder val (nodes s) nodes_sorted)
    as Hdec.
  rewrite not_less_is_not_before, greater_is_after.
  rewrite (MultiMapTreeLaws.not_before_split key comp Horder val (nodes s)
             nodes_sorted).
  set (F := filter (fun y => after y) (nodes s)) in *.
  set (P := filter (fun y => before y) (nodes s)) in *.
  destruct (wf_store _ s Hwf) as [Hnd _].
  assert (Hmain :
    TreeSet.lower_bound std_less val s
    = head (filter (fun y => equiv y) (nodes s) ++ F) /\
    TreeSet.upper_bound std_less std_equal_to val s = head F).
  { destruct (filter (fun y => equiv y) (nodes s)) as [| x run] eqn:Hrun.
    - (* no equal element: a neighbour of the place of the value *)
      simpl in *.
      unfold TreeSet.lower_bound, TreeSet.upper_bound, TreeSet.tree_find,
        nearest_by_key, _Nearest_by_key.
      destruct (root s) as [| c0 l0 v0 r0] eqn:Hr.
      { unfold ordered in Hord. rewrite Hr in Hord. simpl in Hord.
        unfold F. rewrite <- Hord. auto. }
      destruct (MultiMapTreeLaws.nearest_loop_neighbour key comp Horder val
                  Left (node c0 l0 v0 r0))
        as (c & l & x & r & l1 & l2 & -> & Hn & H1 & H2 & Hx);
        [discriminate | | |].
      { rewrite <- Hr. apply (tree_key_sorted _ s Hwf). }
      { rewrite <- Hr, Hord. exact Hrun. }
      rewrite <- Hr, Hord in Hn.
      assert (HF : F = if after x then x :: l2 else l2).
      { unfold F. rewrite Hn.
        apply (MultiMapTreeLaws.followers_split key comp Horder); auto. }
      assert (Hnext : Store.next (TreeSet.data_ s) x = head l2).
      { unfold Store.next. rewrite Hn. apply next_in_middle.
        now rewrite <- Hn. }
      assert (Hxe : std_equal_to (value x) val = false).
      { destruct (std_equal_to (value x) val) eqn:Hc; [| reflexivity].
        apply (equal_equivalent std_less std_equal_to comp Hcomp) in Hc.
        assert (Hin : x ∈ filter (fun y => equiv y) (nodes s)).
        { apply list_elem_of_filter. split; [now apply Is_true_true |].
          rewrite Hn. apply elem_of_app. right. apply list_elem_of_here. }
        rewrite Hrun in Hin. now apply elem_of_nil in Hin. }
      rewrite Hxe, HF, Hnext. simpl.
      destruct Hx as [Hx | Hx].
      + (* the neighbour is before the value *)
        pose proof Hx as Hx'. unfold MultiMapTreeFacts.precedes in Hx'.
        change (MultiMapTree.first key x) with (value x) in Hx'.
        rewrite Hless in Hx'. rewrite Hx'.
        destruct (trichotomy key comp Horder val x)
          as [(? & ? & Hf) | [(? & ? & Hf) | (? & ? & Hf)]];
          try congruence.
        now rewrite Hf.
      + pose proof Hx as Hx'.
        destruct (trichotomy key comp Horder val x)
          as [(Hp & ? & Hf) | [(Hp & ? & Hf) | (Hp & ? & Hf)]];
          try congruence.
        unfold MultiMapTreeFacts.precedes in Hp.
        change (MultiMapTree.first key x) with (value x) in Hp.
        rewrite Hless in Hp. rewrite Hp, Hx. auto.
    - (* the equal element *)
      pose proof (run_at_most_one x run Hrun) as ->.
      assert (Hx : x ∈ filter (fun y => equiv y) (nodes s))
        by (rewrite Hrun; apply list_elem_of_here).
      apply list_elem_of_filter in Hx as [Hxe Hx]. apply Is_true_true in Hxe.
      assert (Heq : std_equal_to (value x) val = true)
        by now apply (equal_equivalent std_less std_equal_to comp Hcomp).
      destruct (find_present std_less std_equal_to s val Hwf x Hx Heq)
        as (c & l & r & Hf).
      unfold TreeSet.lower_bound, TreeSet.upper_bound. rewrite Hf, Heq.
      assert (Hnl : std_less (value x) val = false).
      { rewrite <- Hless. unfold MultiMapTree.equivalent in Hxe.
        change (MultiMapTree.first key x) with (value x) in Hxe.
        apply andb_true_iff in Hxe as [_ Hxe]. now apply negb_true_iff in Hxe. }
      rewrite Hnl. simpl. split; [reflexivity |].
      unfold Store.next. rewrite Hdec. simpl. apply next_in_middle.
      simpl in Hdec. now rewrite <- Hdec. }
  destruct Hmain as [Hlow Hup].
  split; [exact Hlow |]. split; [exact Hup |]. split.
  - intros Habs. unfold equal_range. simpl. rewrite Hlow, Hup.
    rewrite (filter_none (fun y => equiv y) (nodes s)); [reflexivity |].
    apply Forall_forall. intros y Hy Hc. apply Is_true_true in Hc.
    apply (equal_equivalent std_less std_equal_to comp Hcomp) in Hc.
    rewrite (Habs y Hy) in Hc. discriminate.
  - intros e He Heq. unfold equal_range. simpl.
    destruct (find_present std_less std_equal_to s val Hwf e He Heq)
      as (c & l & r & Hf).
    unfold TreeSet.lower_bound. rewrite Hf.
    assert (Hnl : std_less (value e) val = false).
    { apply (equal_equivalent std_less std_equal_to comp Hcomp) in Heq.
      rewrite <- Hless. unfold MultiMapTree.equivalent in Heq.
      change (MultiMapTree.first key e) with (value e) in Heq.
      apply andb_true_iff in Heq as [_ Heq]. now apply negb_true_iff in Heq. }
    now rewrite Hnl.
Qed.

End Bounds.


(** *** Search and bounds in a multiset *)

(** The handles whose element is equal to a value. *)
Definition equal_to (val : T) (l : list It) : list It :=
  filter (fun y => std_equal_to (value y) val) l.

Lemma equal_to_is_equivalent (comp : T -> T -> bool) (val : T) (l : list It) :
  agrees std_equal_to comp ->
  equal_to val l = filter (fun y => MultiMapTree.equivalent key comp val y) l.
Proof.
  intros Hcomp. unfold equal_to. apply StoreFacts.filter_ext_elem.
  intros y _.
  destruct (std_equal_to (value y) val) eqn:He.
  - apply (equal_equivalent std_less std_equal_to comp Hcomp) in He.
    now rewrite He.
  - destruct (MultiMapTree.equivalent key comp val y) eqn:Hc; [| reflexivity].
    apply (equal_equivalent std_less std_equal_to comp Hcomp) in Hc.
    congruence.
Qed.

Lemma equal_to_sym (comp : T -> T -> bool) (x y : T) :
  agrees std_equal_to comp -> std_equal_to x y = std_equal_to y x.
Proof.
  intros Hcomp.
  destruct (std_equal_to x y) eqn:Hxy, (std_equal_to y x) eqn:Hyx; auto.
  - apply (agrees_equal _ _ Hcomp) in Hxy. 
    assert (H : std_equal_to y x = true)
      by (apply (agrees_equal _ _ Hcomp); tauto).
    congruence.
  - apply (agrees_equal _ _ Hcomp) in Hyx.
    assert (H : std_equal_to x y = true)
      by (apply (agrees_equal _ _ Hcomp); tauto).
    congruence.
Qed.

(** X16. [find], [lower_bound] and [upper_bound], whatever the value,
    on a [TreeMultiSet] whose comparator is [std.less], with
    [std.equal_to] as its equivalence, and whose store and tree are
    sorted and begin every run of equal elements with the same handle,
    as after insertions alone on a new or cleared multiset (not after an
    [erase], not under a comparator of a caller): [find(val)] is the
    first handle of the store whose element is equal to [val],
    [lower_bound(val)] the first whose element is not less than [val],
    [upper_bound(val)] the first whose element is greater than [val];
    each is [end()] when the store has no such handle. *)
Theorem multi_search_first (s : set) (val : T) :
  multi_wf s ->
  TreeSet.multi_find std_equal_to val s = head (equal_to val (nodes s)) /\
  TreeSet.multi_lower_bound std_less std_equal_to val s
  = head (not_less val (nodes s)) /\
  TreeSet.multi_upper_bound std_less std_equal_to val s
  = head (greater val (nodes s)).
Proof.
  intros Hwf.
  pose proof (mwf_comparator _ _ s Hwf) as Hcomp.
  pose proof (agrees_order _ _ Hcomp) as Horder.
  pose proof (mwf_less _ _ s Hwf) as Hless.
  rewrite (equal_to_is_equivalent (comparator s) val (nodes s) Hcomp).
  rewrite (not_less_is_not_before s val Hless).
  rewrite (greater_is_after s val Hless).
  rewrite (MultiMapTreeLaws.not_before_split key (comparator s) Horder val
             (nodes s) (mwf_nodes _ _ s Hwf)).
  set (comp := comparator s) in *.
  destruct (present_or_absent std_equal_to (nodes s) val)
    as [(e & He & Heq) | Habs].
  - (* the run of the value *)
    destruct (multi_bounds std_less std_equal_to s val e Hwf He Heq)
      as (l1 & run & l2 & _ & _ & Hrun & Hl2 & Hne & Hlow & Hup).
    destruct (multi_find_first std_less std_equal_to s val e Hwf He Heq)
      as (x & run' & c & l & r & Hx & Hfind).
    fold comp in Hrun, Hl2, Hx. rewrite <- Hrun, <- Hl2.
    split; [| split; [| exact Hup]].
    + unfold TreeSet.multi_find. rewrite Hfind.
      assert (Hxe : MultiMapTree.equivalent key comp val x = true).
      { assert (Hin : x ∈ run)
          by (rewrite Hrun, Hx; apply list_elem_of_here).
        rewrite Hrun in Hin. apply list_elem_of_filter in Hin as [Hin _].
        now apply Is_true_true. }
      apply (equal_equivalent std_less std_equal_to comp Hcomp) in Hxe.
      rewrite (equal_to_sym comp val (value x) Hcomp), Hxe.
      now rewrite Hrun, Hx.
    + rewrite Hlow. destruct run; [contradiction | reflexivity].
  - (* no equal element *)
    assert (Habs' : forall y, y ∈ nodes s ->
                      MultiMapTree.equivalent key comp val y = false).
    { intros y Hy. destruct (MultiMapTree.equivalent key comp val y) eqn:Hc;
        [| reflexivity].
      apply (equal_equivalent std_less std_equal_to comp Hcomp) in Hc.
      rewrite (Habs y Hy) in Hc. discriminate. }
    rewrite (filter_none (fun y => MultiMapTree.equivalent key comp val y)).
    2:{ apply Forall_forall. intros y Hy Hc. apply Is_true_true in Hc.
        rewrite (Habs' y Hy) in Hc. discriminate. }
    simpl.
    set (Pn := filter (fun y => MultiMapTreeFacts.precedes key comp val y)
                      (nodes s)).
    set (Fn := filter (fun y => MultiMapTreeFacts.follows key comp val y)
                      (nodes s)).
    pose proof (nodes_around std_less std_equal_to s val Hwf Habs') as Hn.
    fold comp Pn Fn in Hn.
    assert (HP : forall y, y ∈ Pn -> std_less (value y) val = true).
    { intros y Hy. apply list_elem_of_filter in Hy as [Hy _].
      apply Is_true_true in Hy. rewrite <- Hless. exact Hy. }
    assert (HF : forall z, z ∈ Fn -> std_less val (value z) = true).
    { intros z Hz. apply list_elem_of_filter in Hz as [Hz _].
      apply Is_true_true in Hz. rewrite <- Hless. exact Hz. }
    unfold TreeSet.multi_find, TreeSet.multi_lower_bound,
      TreeSet.multi_upper_bound, TreeSet.tree_find, nearest_by_key,
      _Nearest_by_key.
    destruct (root s) as [| c0 t0 v0 r0] eqn:Hr.
    { pose proof (mwf_index _ _ s Hwf) as Hp. rewrite Hr in Hp. simpl in Hp.
      apply Permutation_nil_l in Hp.
      assert (HFn : Fn = []) by (unfold Fn; now rewrite <- Hp).
      now rewrite HFn. }
    destruct (nearest_loop_adjacent comp Horder val (node c0 t0 v0 r0))
      as (c & l & x & r & a0 & b0 & Hres & Hin & H1 & H2 & Hx);
      [discriminate | | |].
    { rewrite <- Hr. apply (mwf_tree _ _ s Hwf). }
    { apply filter_none. apply Forall_forall. intros y Hy Hc.
      apply Is_true_true in Hc.
      rewrite <- Hr, (mwf_index _ _ s Hwf) in Hy.
      rewrite (Habs' y Hy) in Hc. discriminate. }
    fold comp. rewrite Hres. rewrite <- Hr in Hin.
    assert (Hxn : x ∈ nodes s).
    { rewrite <- (mwf_index _ _ s Hwf), Hin. apply elem_of_app. right.
      apply list_elem_of_here. }
    rewrite (equal_to_sym comp val (value x) Hcomp), (Habs x Hxn).
    split; [reflexivity |].
    destruct (mwf_store _ _ s Hwf) as [Hnd _].
    destruct (std_less (value x) val) eqn:Hlt.
    + (* the nearest handle is before the value: past the smaller ones *)
      assert (HxP : x ∈ Pn).
      { apply list_elem_of_filter. split; [| exact Hxn].
        apply Is_true_true. unfold MultiMapTreeFacts.precedes.
        change (MultiMapTree.first key x) with (value x).
        fold comp. now rewrite Hless. }
      apply list_elem_of_split in HxP as (p1 & p2 & HPn).
      assert (Hfrom : TreeSet.from s (Some x) = (x :: p2) ++ Fn).
      { unfold TreeSet.from. rewrite Hn, HPn.
        replace ((p1 ++ x :: p2) ++ Fn) with (p1 ++ x :: p2 ++ Fn) by flatten.
        rewrite from_uid_middle; [reflexivity |].
        replace (p1 ++ x :: p2 ++ Fn) with ((p1 ++ x :: p2) ++ Fn) by flatten.
        rewrite <- HPn, <- Hn. exact Hnd. }
      rewrite Hfrom.
      assert (Hstop : match Fn with
                      | [] => True
                      | z :: _ => std_equal_to (value z) val = false /\
                                  std_less (value z) val = false
                      end).
      { destruct Fn as [| z Fn'] eqn:HFn; [exact I |]. split.
        - apply Habs. rewrite Hn. apply elem_of_app. right.
          apply list_elem_of_here.
        - rewrite <- Hless. apply (comp_asym comp Horder). rewrite Hless.
          apply HF, list_elem_of_here. }
      split.
      * rewrite skip_while_app.
        -- apply skip_while_stop. destruct Fn; [exact I | apply Hstop].
        -- apply Forall_forall. intros y Hy. apply HP. rewrite HPn.
           apply elem_of_app. now right.
      * rewrite skip_while_app.
        -- apply skip_while_stop. destruct Fn; [exact I |].
           destruct Hstop as [-> ->]. reflexivity.
        -- apply Forall_forall. intros y Hy. rewrite (HP y).
           ++ apply orb_true_r.
           ++ rewrite HPn. apply elem_of_app. now right.
    + (* the nearest handle is after the value *)
      assert (HFx : head Fn = Some x).
      { apply (successor_first std_less std_equal_to s val Hwf a0 b0 x Hin H1);
          [| exact Habs'].
        destruct Hx as [Hx | Hx]; [| exact Hx].
        unfold MultiMapTreeFacts.precedes in Hx.
        change (MultiMapTree.first key x) with (value x) in Hx.
        fold comp in Hx. rewrite Hless in Hx. congruence. }
      apply list_elem_of_split in Hxn as (n1 & n2 & Hnx).
      assert (Hfrom : TreeSet.from s (Some x) = x :: n2).
      { unfold TreeSet.from. rewrite Hnx. apply from_uid_middle.
        rewrite <- Hnx. exact Hnd. }
      rewrite Hfrom, HFx. simpl. rewrite Hlt.
      rewrite (Habs x) by (rewrite Hnx; apply elem_of_app; right;
                           apply list_elem_of_here).
      split; reflexivity.
Qed.


(** *** Sequences of insertions *)

Lemma equal_to_refl (comp : T -> T -> bool) (x : T) :
  agrees std_equal_to comp -> std_equal_to x x = true.
Proof.
  intros Hcomp. apply (agrees_equal _ _ Hcomp).
  split; apply (swo_irrefl _ (agrees_order _ _ Hcomp)).
Qed.

Lemma ssorted_fmap {A B} (f : A -> B) (R : B -> B -> Prop) (l : list A) :
  StronglySorted (fun a b => R (f a) (f b)) l -> StronglySorted R (f <$> l).
Proof.
  induction 1 as [| a l Hs IH Ha]; simpl; constructor; [exact IH |].
  apply Forall_fmap. exact Ha.
Qed.

(** One [insert] in a unique set: the handles stay, a new handle holds
    the value, and the set holds an element equal to the value. *)
Lemma insert_by_val_nodes (s : set) (val : T) :
  wf s ->
  let s1 := snd (TreeSet.insert_by_val std_less std_equal_to val s) in
  (forall it, it ∈ nodes s -> it ∈ nodes s1) /\
  (forall it, it ∈ nodes s1 -> it ∈ nodes s \/ value it = val) /\
  (exists e, e ∈ nodes s1 /\ std_equal_to (value e) val = true).
Proof.
  intros Hwf s1. subst s1.
  destruct (present_or_absent std_equal_to (nodes s) val)
    as [(e & He & Heq) | Habs].
  - rewrite (tree_insert_by_val_present std_less std_equal_to s val e
               Hwf He Heq). simpl.
    split; [auto |]. split; [auto |]. exists e. auto.
  - destruct (tree_insert_by_val_absent std_less std_equal_to s val Hwf Habs)
      as (s' & -> & Hp & _ & Hwf' & _). simpl.
    split; [| split].
    + intros it Hit. rewrite Hp. now apply list_elem_of_further.
    + intros it Hit. rewrite Hp in Hit.
      apply elem_of_cons in Hit as [-> | Hit]; auto.
    + eexists. split; [rewrite Hp; apply list_elem_of_here |].
      simpl. apply (equal_to_refl (comparator s)), (wf_comparator _ s Hwf).
Qed.

(** X17. A sequence of [insert] calls on a [TreeSet] ordered by
    [std.less] (a new one, for instance): the elements are traversed in
    strictly increasing order, so no two of them are equal; the handles
    that the set held stay, and every other handle holds one of the
    inserted values; [find] returns a handle of an equal element for
    every inserted value. *)
Theorem insert_all_is_sorted_set (vals : list T) : forall s : set,
  wf s -> ordered s -> (forall x y, comparator s x y = std_less x y) ->
  let s' := insert_all std_less std_equal_to vals s in
  StronglySorted (fun a b => std_less a b = true) (value <$> nodes s') /\
  (forall it, it ∈ nodes s -> it ∈ nodes s') /\
  (forall it, it ∈ nodes s' -> it ∈ nodes s \/ value it ∈ vals) /\
  (forall v, v ∈ vals ->
     exists it, TreeSet.find std_equal_to v s' = Some it /\
                it ∈ nodes s' /\ std_equal_to (value it) v = true).
Proof.
  induction vals as [| v vals IH]; intros s Hwf Hord Hless s'; subst s'.
  - simpl. split; [| split; [| split]]; auto.
    + apply ssorted_fmap.
      pose proof (ordered_strictly std_equal_to s Hwf Hord) as Hs.
      eapply ssorted_impl; [| exact Hs].
      intros a b Hab. unfold strictly in Hab. now rewrite <- Hless.
    + intros w Hw. now apply elem_of_nil in Hw.
  - simpl.
    set (s1 := snd (TreeSet.insert_by_val std_less std_equal_to v s)).
    destruct (insert_by_val_nodes s v Hwf) as (Hkeep & Hnew & e & He & Heq).
    fold s1 in Hkeep, Hnew, He.
    assert (Hwf1 : wf s1) by now apply insert_by_val_wf.
    assert (Hord1 : ordered s1) by now apply insert_by_val_ordered.
    assert (Hless1 : forall x y, comparator s1 x y = std_less x y).
    { intros x y. unfold s1. now rewrite insert_by_val_comparator. }
    destruct (IH s1 Hwf1 Hord1 Hless1) as (Hs & Hk & Hn & Hf).
    split; [exact Hs |]. split; [auto |]. split.
    + intros it Hit. destruct (Hn it Hit) as [H | H].
      * destruct (Hnew it H) as [H' | ->]; [now left |].
        right. apply list_elem_of_here.
      * right. now apply list_elem_of_further.
    + intros w Hw. apply elem_of_cons in Hw as [-> | Hw]; [| now apply Hf].
      destruct (insert_all_ordered std_less std_equal_to vals s1
                  Hwf1 Hord1 Hless1) as [Hwf' _].
      destruct (find_present std_less std_equal_to _ v Hwf' e (Hk e He) Heq)
        as (c & l & r & Hfind).
      exists e. unfold TreeSet.find. rewrite Hfind, Heq. auto.
Qed.

(** One [insert] in a multiset adds one handle, which holds the value. *)
Lemma multi_insert_by_val_values (s : set) (val : T) :
  multi_wf s ->
  value <$> nodes (snd (TreeSet.multi_insert_by_val std_less std_equal_to
                          val s))
  ≡ₚ val :: (value <$> nodes s).
Proof.
  intros Hwf.
  destruct (multi_insert_by_val_wf std_less std_equal_to s val Hwf)
    as (s' & L1 & L2 & -> & Hn & Hn' & _).
  simpl. rewrite Hn, Hn', !fmap_app, fmap_cons. simpl.
  symmetry. apply Permutation_middle.
Qed.

(** X18. A sequence of [insert] calls sorts the values, on a
    [TreeMultiSet] whose comparator is [std.less], with [std.equal_to]
    as its equivalence, and whose store and tree are sorted and begin
    every run of equal elements with the same handle, as a new or
    cleared multiset without a comparator of a caller and every one
    reached from it by insertions alone: the multiset holds the elements
    it held and every inserted value, as many times as it was inserted,
    and the traversal never meets an element less than an earlier
    one. *)
Theorem multi_insert_all_sorts (vals : list T) : forall s : set,
  multi_wf s ->
  let s' := multi_insert_all std_less std_equal_to vals s in
  value <$> nodes s' ≡ₚ (value <$> nodes s) ++ vals /\
  StronglySorted (fun a b => std_less b a = false) (value <$> nodes s').
Proof.
  induction vals as [| v vals IH]; intros s Hwf s'; subst s'.
  - simpl. rewrite app_nil_r. split; [reflexivity |].
    apply ssorted_fmap.
    pose proof (mwf_nodes _ _ s Hwf) as Hs.
    eapply ssorted_impl; [| exact Hs].
    intros a b Hab. simpl in Hab.
    change (MultiMapTree.first key b) with (value b) in Hab.
    change (MultiMapTree.first key a) with (value a) in Hab.
    now rewrite <- (mwf_less _ _ s Hwf).
  - simpl.
    set (s1 := snd (TreeSet.multi_insert_by_val std_less std_equal_to v s)).
    assert (Hwf1 : multi_wf s1).
    { destruct (multi_insert_by_val_wf std_less std_equal_to s v Hwf)
        as (s2 & L1 & L2 & Hres & _ & _ & H).
      unfold s1. now rewrite Hres. }
    destruct (IH s1 Hwf1) as [Hp Hs]. split; [| exact Hs].
    rewrite Hp. unfold s1. rewrite (multi_insert_by_val_values s v Hwf).
    simpl. rewrite Permutation_middle. reflexivity.
Qed.

End Laws.


(** *** Sets of integers *)

Lemma int_set_ordered (vals : list Z) :
  TreeSetFacts.wf Z.eqb (IntTreeSet.set_of None vals) /\
  ordered (IntTreeSet.set_of None vals) /\
  (forall x y,
     TreeSet.compare_ (TreeSet.tree_ (IntTreeSet.set_of None vals)) x y
     = Z.ltb x y).
Proof.
  destruct (tree_constructor_wf Z.ltb Z.eqb IntTreeSet.agrees_ltb)
    as (Hwf & Hord & _).
  destruct (insert_all_ordered Z.ltb Z.eqb vals _ Hwf Hord) as [H1 H2];
    [reflexivity |].
  split; [exact H1 |]. split; [exact H2 |].
  intros x y. unfold IntTreeSet.set_of.
  now rewrite insert_all_comparator.
Qed.

Lemma find_equal_or_end_witness :
  let s := IntTreeSet.set_of None [1; 2; 3] in
  TreeSetFacts.wf Z.eqb s /\
  TreeSet.find Z.eqb 2 s = Some (mkIterator 1 2) /\
  TreeSet.find Z.eqb 5 s = TreeSet.end_.
Proof.
  intros s. split; [apply IntTreeSet.set_of_wf |].
  destruct (find_equal_or_end Z.eqb s 2 (IntTreeSet.set_of_wf _))
    as (Hhit & _ & _).
  destruct (find_equal_or_end Z.eqb s 5 (IntTreeSet.set_of_wf _))
    as (_ & Hmiss & _).
  split.
  - apply Hhit; [| reflexivity]. apply list_elem_of_In. vm_compute. auto 10.
  - apply Hmiss. intros e He. apply list_elem_of_In in He. vm_compute in He.
    destruct He as [<- | [<- | [<- | []]]]; reflexivity.
Defined.

Lemma unique_bounds_witness :
  let s := IntTreeSet.set_of None [5; 1; 3] in
  value <$> Store.nodes (TreeSet.data_ s) = [1; 3; 5] /\
  TreeSet.lower_bound Z.ltb 3 s = Some (mkIterator 2 3) /\
  TreeSet.upper_bound Z.ltb Z.eqb 3 s = Some (mkIterator 0 5) /\
  TreeSet.lower_bound Z.ltb 4 s = Some (mkIterator 0 5) /\
  TreeSet.upper_bound Z.ltb Z.eqb 4 s = Some (mkIterator 0 5) /\
  TreeSet.lower_bound Z.ltb 6 s = TreeSet.end_.
Proof.
  intros s. split; [vm_compute; reflexivity |].
  destruct (int_set_ordered [5; 1; 3]) as (Hwf & Hord & Hless).
  destruct (unique_bounds Z.ltb Z.eqb s 3 Hwf Hord Hless)
    as (Hl3 & Hu3 & _).
  destruct (unique_bounds Z.ltb Z.eqb s 4 Hwf Hord Hless)
    as (Hl4 & Hu4 & _).
  destruct (unique_bounds Z.ltb Z.eqb s 6 Hwf Hord Hless)
    as (Hl6 & _).
  rewrite Hl3, Hu3, Hl4, Hu4, Hl6.
  repeat split; vm_compute; reflexivity.
Defined.

Lemma multi_search_first_witness :
  let s := IntTreeSet.multiset [3; 2; 1; 2; 5; 2] in
  value <$> Store.nodes (TreeSet.data_ s) = [1; 2; 2; 2; 3; 5] /\
  TreeSet.multi_find Z.eqb 2 s = Some (mkIterator 1 2) /\
  TreeSet.multi_lower_bound Z.ltb Z.eqb 2 s = Some (mkIterator 1 2) /\
  TreeSet.multi_upper_bound Z.ltb Z.eqb 2 s = Some (mkIterator 0 3) /\
  TreeSet.multi_find Z.eqb 4 s = TreeSet.end_ /\
  TreeSet.multi_lower_bound Z.ltb Z.eqb 4 s = Some (mkIterator 4 5) /\
  TreeSet.multi_upper_bound Z.ltb Z.eqb 4 s = Some (mkIterator 4 5).
Proof.
  intros s. split; [vm_compute; reflexivity |].
  destruct (multi_search_first Z.ltb Z.eqb s 2 (IntTreeSet.multiset_wf _))
    as (Hf2 & Hl2 & Hu2).
  destruct (multi_search_first Z.ltb Z.eqb s 4 (IntTreeSet.multiset_wf _))
    as (Hf4 & Hl4 & Hu4).
  rewrite Hf2, Hl2, Hu2, Hf4, Hl4, Hu4.
  repeat split; vm_compute; reflexivity.
Defined.

Lemma insert_all_is_sorted_set_witness :
  let s := TreeSet.constructor Z.ltb None in
  let s' := insert_all Z.ltb Z.eqb [3; 1; 3; 2] s in
  TreeSetFacts.wf Z.eqb s /\
  StronglySorted (fun a b => Z.ltb a b = true)
                 (value <$> Store.nodes (TreeSet.data_ s')) /\
  value <$> Store.nodes (TreeSet.data_ s') = [1; 2; 3] /\
  exists it, TreeSet.find Z.eqb 3 s' = Some it /\ Z.eqb (value it) 3 = true.
Proof.
  intros s s'.
  destruct (tree_constructor_wf Z.ltb Z.eqb IntTreeSet.agrees_ltb)
    as (Hwf & Hord & _).
  split; [exact Hwf |].
  destruct (insert_all_is_sorted_set Z.ltb Z.eqb [3; 1; 3; 2] s Hwf Hord)
    as (Hs & _ & _ & Hf); [reflexivity |].
  split; [exact Hs |]. split; [vm_compute; reflexivity |].
  destruct (Hf 3) as (it & H1 & _ & H2); [apply list_elem_of_here |].
  exists it. auto.
Defined.

Lemma multi_insert_all_sorts_witness :
  let s := TreeSet.constructor Z.ltb None in
  let s' := multi_insert_all Z.ltb Z.eqb [3; 1; 2; 1] s in
  multi_wf Z.ltb Z.eqb s /\
  value <$> Store.nodes (TreeSet.data_ s') ≡ₚ [3; 1; 2; 1] /\
  StronglySorted (fun a b => Z.ltb b a = false)
                 (value <$> Store.nodes (TreeSet.data_ s')) /\
  value <$> Store.nodes (TreeSet.data_ s') = [1; 1; 2; 3].
Proof.
  intros s s'.
  destruct (tree_constructor_wf Z.ltb Z.eqb IntTreeSet.agrees_ltb)
    as (_ & _ & Hwf).
  split; [exact Hwf |].
  destruct (multi_insert_all_sorts Z.ltb Z.eqb [3; 1; 2; 1] s Hwf)
    as (Hp & Hs).
  split; [exact Hp |]. split; [exact Hs |]. vm_compute. reflexivity.
Defined.

End TreeSetLaws.

(** ** Laws of the hash sets *)

Module HashSetLaws.
Import HashBucketsFacts.

Section Laws.

Context {T : Type}.
Variable hash : T -> Z.
Variable equal_to : T -> T -> bool.

Hypothesis hash_nonneg : forall x, 0 <= hash x.
Hypothesis equal_hash : forall x y, equal_to x y = true -> hash x = hash y.

Abbreviation set := (HashSet.t T).
Abbreviation nodes s := (Store.nodes (HashSet.data_ s)).
Abbreviation buckets s := (HashSet.hash_buckets_ s).

(** [for (const v of vals) s.insert(v)], on a [HashSet] and on a
    [HashMultiSet]. *)
Fixpoint hash_insert_all (vals : list T) (s : set) : outcome unit * set :=
  match vals with
  | [] => (Ok tt, s)
  | v :: vals' =>
      match HashSet.insert_by_val hash equal_to v s with
      | (Ok _, s') => hash_insert_all vals' s'
      | (TypeError, s') => (TypeError, s')
      end
  end.

Fixpoint hash_multi_insert_all (vals : list T) (s : set) : outcome unit * set :=
  match vals with
  | [] => (Ok tt, s)
  | v :: vals' =>
      match HashSet.multi_insert_by_val hash v s with
      | (Ok _, s') => hash_multi_insert_all vals' s'
      | (TypeError, s') => (TypeError, s')
      end
  end.

(** The values of a sequence that are equal to no value met before. *)
Fixpoint first_occurrences (seen vals : list T) : list T :=
  match vals with
  | [] => []
  | v :: vals' =>
      if existsb (fun e => equal_to v e) seen
      then first_occurrences seen vals'
      else v :: first_occurrences (seen ++ [v]) vals'
  end.

(** A set in order, with at most [k] elements. *)
Definition inv (k : Z) (s : set) : Prop :=
  HashSet.wf hash s /\
  HashBucketsLaws.sound HashSet.fetcher hash k (buckets s).

Lemma inv_constructor : inv 0 HashSet.constructor.
Proof.
  split; [apply HashSetFacts.constructor_wf |].
  apply HashBucketsLaws.sound_constructor.
Qed.

Lemma multi_insert_step (k : Z) (s : set) (val : T) :
  inv k s -> k <= 2 ^ 29 ->
  exists it s',
    HashSet.multi_insert_by_val hash val s = (Ok it, s') /\
    value it = val /\ nodes s' = nodes s ++ [it] /\ inv (k + 1) s'.
Proof.
  intros [Hwf Hs] Hk.
  destruct (HashSetFacts.multi_insert_by_val_ok hash hash_nonneg s val Hwf)
    as (it & s' & Hres & Hit & Hn & Hwf').
  exists it, s'. split; [exact Hres |]. split; [now rewrite Hit |].
  split; [exact Hn |].
  assert (Hb : HashBucketsLaws.sound HashSet.fetcher hash (k + 1)
                 (buckets s')).
  { unfold HashSet.multi_insert_by_val in Hres.
    destruct (Store.insert_before Store.end_ val (HashSet.data_ s))
      as [it0 d].
    destruct (HashBucketsLaws.sound_insert HashSet.fetcher hash k it0
                (buckets s) Hs Hk (hash_nonneg _)) as (b' & Hi & Hs' & _).
    unfold HashSet.handle_insert in Hres.
    cbn [HashSet.data_ HashSet.hash_buckets_] in Hres.
    rewrite Hi in Hres. cbn [fst snd] in Hres.
    injection Hres as <- <-. exact Hs'. }
  split; [| exact Hb]. apply Hwf'. apply (HashBucketsLaws.sound_rows _ _ _ _ Hb).
Qed.

Lemma sound_more (k k' : Z) (b : HashBuckets.t (Iterator T)) :
  HashBucketsLaws.sound HashSet.fetcher hash k b -> k <= k' ->
  HashBucketsLaws.sound HashSet.fetcher hash k' b.
Proof. intros [] Hk. constructor; auto. lia. Qed.

Lemma insert_step (k : Z) (s : set) (val : T) :
  inv k s -> k <= 2 ^ 29 ->
  exists it fresh s',
    HashSet.insert_by_val hash equal_to val s = (Ok (it, fresh), s') /\
    fresh = negb (existsb (fun e => equal_to val e) (value <$> nodes s)) /\
    nodes s' = (if fresh then nodes s ++ [it] else nodes s) /\
    (if fresh then value it = val else it ∈ nodes s) /\
    inv (k + 1) s'.
Proof.
  intros [Hwf Hs] Hk.
  destruct (existsb (fun e => equal_to val e) (value <$> nodes s)) eqn:Hex.
  - (* an equal element *)
    apply existsb_exists in Hex as (v & Hv & Heq).
    apply list_elem_of_In, list_elem_of_fmap in Hv as (e & -> & He).
    destruct (HashSetFacts.insert_by_val_present hash equal_to equal_hash
                s val e Hwf He Heq) as (it & Hres & Hin & Hit).
    exists it, false, s. split; [exact Hres |]. split; [reflexivity |].
    split; [reflexivity |]. split; [exact Hin |].
    split; [exact Hwf |]. apply (sound_more k); [exact Hs | lia].
  - (* no equal element *)
    assert (Habs : forall e, e ∈ nodes s -> equal_to val (value e) = false).
    { intros e He. destruct (equal_to val (value e)) eqn:Hc; [| reflexivity].
      assert (Hx : existsb (fun e => equal_to val e) (value <$> nodes s)
                   = true).
      { apply existsb_exists. exists (value e). split; [| exact Hc].
        apply list_elem_of_In, list_elem_of_fmap. eauto. }
      congruence. }
    destruct (HashSetFacts.insert_by_val_absent hash equal_to hash_nonneg
                s val Hwf Habs)
      as (it & s' & Hres & Hit & Hn & Hfresh & Hidx & Hwd & Hpl & Hcnt).
    exists it, true, s'. split; [exact Hres |]. split; [reflexivity |].
    split; [exact Hn |]. split; [now rewrite Hit |].
    assert (Hb : HashBucketsLaws.sound HashSet.fetcher hash (k + 1)
                   (buckets s')).
    { unfold HashSet.insert_by_val in Hres.
      destruct (HashSet.find hash equal_to val s) as [[it1 |] |];
        [discriminate | | discriminate].
      destruct (Store.push_back val (HashSet.data_ s)) as [it0 d].
      destruct (HashBucketsLaws.sound_insert HashSet.fetcher hash k it0
                  (buckets s) Hs Hk (hash_nonneg _)) as (b' & Hi & Hs' & _).
      unfold HashSet.handle_insert in Hres.
      cbn [HashSet.data_ HashSet.hash_buckets_] in Hres.
      rewrite Hi in Hres. cbn [fst snd] in Hres.
      injection Hres as _ <-. exact Hs'. }
    split; [| exact Hb]. constructor; auto.
    apply (HashBucketsLaws.sound_rows _ _ _ _ Hb).
Qed.

(** X19. A sequence of at most 2^29 [insert] calls on a new [HashSet],
    with a non-negative hash that agrees on equal values: no call throws,
    and the set holds, in insertion order, the values of the sequence
    that are equal to no earlier value of it; a value equal to an
    earlier one is not stored again. *)
Theorem hash_set_keeps_first_occurrences (vals : list T) :
  Z.of_nat (length vals) <= 2 ^ 29 ->
  exists s',
    hash_insert_all vals HashSet.constructor = (Ok tt, s') /\
    value <$> nodes s' = first_occurrences [] vals /\
    HashSet.wf hash s'.
Proof.
  intros Hlen.
  assert (Hgen : forall vals k s,
    inv k s -> k + Z.of_nat (length vals) <= 2 ^ 29 ->
    exists s',
      hash_insert_all vals s = (Ok tt, s') /\
      value <$> nodes s'
      = (value <$> nodes s) ++ first_occurrences (value <$> nodes s) vals /\
      HashSet.wf hash s').
  { clear vals Hlen. induction vals as [| v vals IH]; intros k s Hinv Hk.
    - exists s. simpl. rewrite app_nil_r. split; [reflexivity |].
      split; [reflexivity | apply Hinv].
    - simpl length in Hk. simpl.
      destruct (insert_step k s v Hinv ltac:(lia))
        as (it & fresh & s1 & Hres & Hf & Hn & Hit & Hinv1).
      rewrite Hres.
      destruct (IH (k + 1) s1 Hinv1 ltac:(lia)) as (s' & Hall & Hvals & Hwf').
      exists s'. split; [exact Hall |]. split; [| exact Hwf'].
      rewrite Hvals, Hn.
      destruct (existsb (fun e => equal_to v e) (value <$> nodes s));
        simpl in Hf; subst fresh.
      + reflexivity.
      + rewrite fmap_app. simpl. rewrite Hit. now rewrite <- app_assoc. }
  destruct (Hgen vals 0 HashSet.constructor inv_constructor ltac:(lia))
    as (s' & Hall & Hvals & Hwf').
  exists s'. auto.
Qed.

(** X20. A sequence of at most 2^29 [insert] calls on a new
    [HashMultiSet], with a non-negative hash: no call throws, and the
    multiset holds every value of the sequence, duplicates included, in
    insertion order. *)
Theorem hash_multiset_keeps_insertion_order (vals : list T) :
  Z.of_nat (length vals) <= 2 ^ 29 ->
  exists s',
    hash_multi_insert_all vals HashSet.constructor = (Ok tt, s') /\
    value <$> nodes s' = vals /\
    HashSet.wf hash s'.
Proof.
  intros Hlen.
  assert (Hgen : forall vals k s,
    inv k s -> k + Z.of_nat (length vals) <= 2 ^ 29 ->
    exists s',
      hash_multi_insert_all vals s = (Ok tt, s') /\
      value <$> nodes s' = (value <$> nodes s) ++ vals /\
      HashSet.wf hash s').
  { clear vals Hlen. induction vals as [| v vals IH]; intros k s Hinv Hk.
    - exists s. simpl. rewrite app_nil_r. split; [reflexivity |].
      split; [reflexivity | apply Hinv].
    - simpl length in Hk. simpl.
      destruct (multi_insert_step k s v Hinv ltac:(lia))
        as (it & s1 & Hres & Hit & Hn & Hinv1).
      rewrite Hres.
      destruct (IH (k + 1) s1 Hinv1 ltac:(lia)) as (s' & Hall & Hvals & Hwf').
      exists s'. split; [exact Hall |]. split; [| exact Hwf'].
      rewrite Hvals, Hn, fmap_app. simpl. rewrite Hit.
      now rewrite <- app_assoc. }
  destruct (Hgen vals 0 HashSet.constructor inv_constructor ltac:(lia))
    as (s' & Hall & Hvals & Hwf').
  exists s'. auto.
Qed.

End Laws.

(** *** Hash sets of integers, hashed by absolute value *)

Lemma int_equal_hash (x y : Z) : Z.eqb x y = true -> Z.abs x = Z.abs y.
Proof. intros Hxy. apply Z.eqb_eq in Hxy. now subst. Qed.

Lemma hash_set_keeps_first_occurrences_witness :
  Z.of_nat (length [3; 1; 3; 2; 1]) <= 2 ^ 29 /\
  exists s',
    hash_insert_all Z.abs Z.eqb [3; 1; 3; 2; 1] HashSet.constructor
    = (Ok tt, s') /\
    value <$> Store.nodes (HashSet.data_ s') = [3; 1; 2].
Proof.
  assert (Hlen : Z.of_nat (length [3; 1; 3; 2; 1]) <= 2 ^ 29)
    by (vm_compute; discriminate).
  split; [exact Hlen |].
  destruct (hash_set_keeps_first_occurrences Z.abs Z.eqb Z.abs_nonneg
              int_equal_hash [3; 1; 3; 2; 1] Hlen) as (s' & H1 & H2 & _).
  exists s'. split; [exact H1 |]. rewrite H2. vm_compute. reflexivity.
Defined.

Lemma hash_multiset_keeps_insertion_order_witness :
  Z.of_nat (length [3; 1; 3; 2; 1]) <= 2 ^ 29 /\
  exists s',
    hash_multi_insert_all Z.abs [3; 1; 3; 2; 1] HashSet.constructor
    = (Ok tt, s') /\
    value <$> Store.nodes (HashSet.data_ s') = [3; 1; 3; 2; 1].
Proof.
  assert (Hlen : Z.of_nat (length [3; 1; 3; 2; 1]) <= 2 ^ 29)
    by (vm_compute; discriminate).
  split; [exact Hlen |].
  destruct (hash_multiset_keeps_insertion_order Z.abs Z.abs_nonneg
              [3; 1; 3; 2; 1] Hlen) as (s' & H1 & H2 & _).
  exists s'. split; [exact H1 | exact H2].
Defined.

End HashSetLaws.

(** ** Laws of [swap] *)

Module ObjectsLaws.
Import Objects.

Section Laws.

Context {T Index : Type}.

Abbreviation heap := (Objects.heap T Index).

(** Two heaps with the same objects are the same heap. *)
Lemma heap_eq (h h' : heap) :
  stores h = stores h' -> indexes h = indexes h' ->
  sources h = sources h' ->
  (forall c, containers h !! c = containers h' !! c) -> h = h'.
Proof.
  destruct h as [s i c o], h' as [s' i' c' o']. simpl.
  intros -> -> -> Hc. f_equal. now apply map_eq.
Qed.

(** X21. [swap] is symmetric and undoes itself: [a.swap(b)] and
    [b.swap(a)] leave the same heap, a second [a.swap(b)] restores the
    heap of before the first one, and [a.swap(a)] changes nothing. *)
Theorem swap_twice_restores (h : heap) (a b : ref) (ca cb : container) :
  containers h !! a = Some ca -> containers h !! b = Some cb ->
  exists h1,
    swap a b h = Some h1 /\ swap b a h = Some h1 /\
    swap a b h1 = Some h /\ (a = b -> h1 = h).
Proof.
  intros Ha Hb.
  destruct (ObjectsFacts.swap_result h a b ca cb Ha Hb)
    as (h1 & Hab & Hs1 & Hi1 & Hr1 & Ha1 & Hb1 & Ho1).
  destruct (ObjectsFacts.swap_result h b a cb ca Hb Ha)
    as (h2 & Hba & Hs2 & Hi2 & Hr2 & Hb2 & Ha2 & Ho2).
  destruct (ObjectsFacts.swap_result h1 a b cb ca Ha1 Hb1)
    as (h3 & Hab' & Hs3 & Hi3 & Hr3 & Ha3 & Hb3 & Ho3).
  exists h1. split; [exact Hab |]. split; [| split].
  - rewrite Hba. f_equal. apply heap_eq; [congruence | congruence | congruence |].
    intros c. destruct (decide (c = a)) as [-> | Hca]; [congruence |].
    destruct (decide (c = b)) as [-> | Hcb]; [congruence |].
    rewrite Ho1, Ho2; auto.
  - rewrite Hab'. f_equal. apply heap_eq; [congruence | congruence | congruence |].
    intros c. destruct (decide (c = a)) as [-> | Hca]; [congruence |].
    destruct (decide (c = b)) as [-> | Hcb]; [congruence |].
    rewrite Ho3, Ho1; auto.
  - intros ->. apply heap_eq; [congruence | congruence | congruence |].
    intros c. destruct (decide (c = b)) as [-> | Hcb]; [congruence |].
    rewrite Ho1; auto.
Qed.

End Laws.

Lemma swap_twice_restores_witness :
  exists h1,
    swap 0 1 ObjectsFacts.IntHeap.two_sets = Some h1 /\
    swap 1 0 ObjectsFacts.IntHeap.two_sets = Some h1 /\
    swap 0 1 h1 = Some ObjectsFacts.IntHeap.two_sets /\
    (0%nat = 1%nat -> h1 = ObjectsFacts.IntHeap.two_sets).
Proof.
  apply (swap_twice_restores ObjectsFacts.IntHeap.two_sets 0 1
           (mkContainer 10 20) (mkContainer 11 21)); reflexivity.
Defined.

End ObjectsLaws.

(** ** Erasure through a handle *)

Module HandleErase.
Import XTree XTreeFacts MultiMapTree MultiMapTreeFacts TreeSetFacts.

(** *** Erasure of a payload that the tree holds *)

Section Tree.

Context {A : Type}.
Variable is_less : A -> A -> bool.
Hypothesis order : strict_weak_order is_less.

Abbreviation sorted := (StronglySorted (not_after is_less)).
Abbreviation same v x := (is_less v x = false /\ is_less x v = false).

Lemma fetch_minimum_node c (l : XTreeNode A) v r :
  exists m, fetch_minimum (node c l v r) = Some m.
Proof.
  revert c v r. induction l as [| lc ll IHl lv lr _]; intros c v r.
  - now exists v.
  - destruct (IHl lc lv lr) as [m Hm]. exists m. exact Hm.
Qed.

(** The descent of [erase] reaches an entry equivalent to the payload
    whenever the tree holds one. *)
Lemma erase_from_present (val : A) (n : XTreeNode A) : forall p,
  sorted (inorder n) ->
  (exists x, x ∈ inorder n /\ same val x) ->
  exists t, erase_from is_less val n p = Some t.
Proof.
  induction n as [| c l IHl v r IHr]; intros p Hs (x & Hx & Hvx & Hxv).
  - now apply elem_of_nil in Hx.
  - cbn [inorder] in Hs, Hx. cbn [erase_from].
    apply sorted_app in Hs as (Hsl & Hsr & Hlr).
    apply StronglySorted_inv in Hsr as [Hsr Hvr].
    rewrite Forall_forall in Hlr, Hvr.
    destruct (is_less val v) eqn:Hlt.
    + (* the payload is before [v]: its entry is on the left *)
      apply IHl; [exact Hsl |]. exists x. split; [| now split].
      apply elem_of_app in Hx as [Hx | Hx]; [exact Hx | exfalso].
      apply elem_of_cons in Hx as [-> | Hx]; [congruence |].
      specialize (Hvr x Hx). unfold not_after in Hvr.
      destruct (less_cases is_less order val v x Hlt); congruence.
    + destruct (is_less v val) eqn:Hgt.
      * apply IHr; [exact Hsr |]. exists x. split; [| now split].
        apply elem_of_app in Hx as [Hx | Hx].
        -- exfalso. specialize (Hlr x Hx).
           apply Forall_cons in Hlr as [Hlr _]. unfold not_after in Hlr.
           destruct (less_cases is_less order v val x Hgt); congruence.
        -- apply elem_of_cons in Hx as [-> | Hx]; [congruence | exact Hx].
      * destruct l as [| lc ll lv lr]; [eauto |].
        destruct r as [| rc rl rv rr]; [eauto |].
        destruct (fetch_minimum_node rc rl rv rr) as [m ->]. eauto.
Qed.

Lemma erase_present (val : A) (root : XTreeNode A) :
  sorted (inorder root) ->
  (exists x, x ∈ inorder root /\ same val x) ->
  exists l1 x l2,
    inorder root = l1 ++ x :: l2 /\ same val x /\
    inorder (erase is_less val root) = l1 ++ l2.
Proof.
  intros Hs Hx. unfold erase.
  destruct (erase_from_present val root [] Hs Hx) as [t Ht]. rewrite Ht.
  destruct (erase_from_inorder is_less val root [] t Ht)
    as (l1 & x & l2 & Hin & Hx1 & Hx2 & Hi).
  exists l1, x, l2. simpl in Hi. rewrite app_nil_r in Hi. auto.
Qed.

End Tree.

(** *** Sequences *)

Lemma ssorted_remove {A} (R : A -> A -> Prop) (l1 l2 : list A) (x : A) :
  StronglySorted R (l1 ++ x :: l2) -> StronglySorted R (l1 ++ l2).
Proof.
  rewrite !ssorted_app. intros (H1 & H2 & H3).
  apply StronglySorted_inv in H2 as [H2 _].
  repeat split; auto.
  eapply Forall_impl; [exact H3 |]. simpl. intros a Ha.
  now apply Forall_cons in Ha as [_ Ha].
Qed.

Lemma ssorted_insert {A} (R : A -> A -> Prop) (l1 l2 : list A) (x : A) :
  StronglySorted R (l1 ++ l2) ->
  Forall (fun a => R a x) l1 -> Forall (R x) l2 ->
  StronglySorted R (l1 ++ x :: l2).
Proof.
  rewrite !ssorted_app. intros (H1 & H2 & H3) Hl1 Hl2.
  split; [exact H1 |]. split; [now constructor |].
  rewrite Forall_forall in *. intros a Ha.
  constructor; [now apply Hl1 | now apply H3].
Qed.

Lemma filter_out_middle {A} `{EqDecision A} (l1 l2 : list A) (x : A) :
  NoDup (l1 ++ x :: l2) ->
  filter (fun h => h <> x) (l1 ++ x :: l2) = l1 ++ l2.
Proof.
  intros Hnd. apply NoDup_app in Hnd as (_ & Hd & Hnd).
  apply NoDup_cons in Hnd as [Hx2 _].
  assert (Hx1 : x ∉ l1).
  { intros Hin. apply (Hd x Hin), list_elem_of_here. }
  rewrite filter_app, filter_cons, decide_False by tauto.
  f_equal; apply MultiMapTreeLaws.filter_all, Forall_forall;
    intros y Hy ->; contradiction.
Qed.

(** *** The tree sets *)

Section Sets.

Context {T : Type} `{EqDecision T}.
Variable std_less : T -> T -> bool.
Variable std_equal_to : T -> T -> bool.

Abbreviation It := (Iterator T).
Abbreviation set := (TreeSet.t T).
Abbreviation nodes s := (Store.nodes (TreeSet.data_ s)).
Abbreviation root s := (TreeSet.root_ (TreeSet.tree_ s)).
Abbreviation comparator s := (TreeSet.compare_ (TreeSet.tree_ s)).
Abbreviation key := (fun v : T => v).
Abbreviation hless s := (TreeSet.handle_less (TreeSet.tree_ s)).
Abbreviation before s a b := (hless s a b = true).

(** A tree set in order, whatever its comparator and its history: the
    tree holds the handles of the store, in the order of the comparator
    and, between equivalent values, of the creation ids. *)
Record indexed (s : set) : Prop := {
  idx_store : Store.wf (TreeSet.data_ s);
  idx_order : strict_weak_order (comparator s);
  idx_same : inorder (root s) ≡ₚ nodes s;
  idx_sorted : StronglySorted (fun a b => before s a b) (inorder (root s))
}.

(** The calls that change a tree set; [EraseAt n] is [erase(it)] with
    the handle [it = begin().advance(n)] of the set itself, and does
    nothing when the set has no such element. *)
Inductive op : Type :=
| Insert (val : T)
| InsertMulti (val : T)
| EraseAt (n : nat)
| Clear.

Definition exec (o : op) (s : set) : set :=
  match o with
  | Insert val => snd (TreeSet.insert_by_val std_less std_equal_to val s)
  | InsertMulti val =>
      snd (TreeSet.multi_insert_by_val std_less std_equal_to val s)
  | EraseAt n =>
      match nodes s !! n with
      | Some it => TreeSet.erase it s
      | None => s
      end
  | Clear => TreeSet.clear std_less s
  end.

Definition run (ops : list op) (s : set) : set :=
  fold_left (fun s o => exec o s) ops s.

Lemma hless_order (s : set) :
  strict_weak_order (comparator s) -> strict_weak_order (hless s).
Proof. intros Ho. apply (MultiMapTreeLaws.hcomp_order key _ Ho). Qed.

Lemma before_not_after (s : set) (a b : It) :
  strict_weak_order (comparator s) -> before s a b ->
  not_after (hless s) a b /\ not_after (TreeSet.is_less (TreeSet.tree_ s)) a b.
Proof.
  intros Ho Hab. unfold not_after. split.
  - apply (comp_asym _ (hless_order s Ho)). exact Hab.
  - unfold TreeSet.is_less.
    apply (MultiMapTreeLaws.hcomp_true key) in Hab
      as [Hlt | (_ & Hba & _)]; [| exact Hba].
    apply (comp_asym _ Ho). exact Hlt.
Qed.

Lemma indexed_nodup (s : set) : indexed s -> NoDup (uid <$> inorder (root s)).
Proof.
  intros Hi. rewrite (idx_same s Hi). apply (idx_store s Hi).
Qed.

(** The tree after [handle_erase]: the entry of that handle is gone, the
    others are where they were. *)
Lemma handle_erase_inorder (s : set) (it : It) :
  indexed s -> it ∈ nodes s ->
  inorder (root (TreeSet.handle_erase it s))
  = filter (fun h => h <> it) (inorder (root s)).
Proof.
  intros Hi Hit.
  pose proof (idx_order s Hi) as Ho.
  pose proof (hless_order s Ho) as Hho.
  pose proof (indexed_nodup s Hi) as Hnd.
  assert (Hin : it ∈ inorder (root s)) by now rewrite (idx_same s Hi).
  destruct (erase_present (hless s) Hho it (root s))
    as (l1 & x & l2 & Hl & [Hx1 Hx2] & He).
  { eapply ssorted_impl; [| exact (idx_sorted s Hi)].
    intros a b Hab. now apply before_not_after. }
  { exists it. split; [exact Hin |].
    split; apply (swo_irrefl _ Hho). }
  destruct (MultiMapTreeLaws.hcomp_incomparable key _ it x Hx1 Hx2)
    as (_ & _ & Hu).
  assert (Hx : x = it).
  { apply (StoreFacts.uid_inj_in (inorder (root s))); auto.
    rewrite Hl. apply elem_of_app. right. apply list_elem_of_here. }
  subst x. cbn [TreeSet.handle_erase TreeSet.tree_ TreeSet.tree_erase
                TreeSet.root_].
  rewrite He, Hl. symmetry. apply filter_out_middle.
  rewrite <- Hl. eapply NoDup_fmap_1. exact Hnd.
Qed.

(** *** The invariant along every history *)

Lemma constructor_indexed (compare : option (T -> T -> bool)) :
  strict_weak_order (default std_less compare) ->
  indexed (TreeSet.constructor std_less compare).
Proof.
  intros Ho. split; cbn.
  - split; simpl; constructor.
  - exact Ho.
  - reflexivity.
  - constructor.
Qed.

Lemma clear_indexed (s : set) :
  strict_weak_order std_less -> indexed (TreeSet.clear std_less s).
Proof.
  intros Ho. split; cbn.
  - split; simpl; constructor.
  - exact Ho.
  - reflexivity.
  - constructor.
Qed.

Lemma insert_hint_indexed (s : set) (hint : Store.position) (val : T) :
  indexed s -> indexed (snd (TreeSet.insert_hint hint val s)).
Proof.
  intros Hi.
  pose proof (idx_order s Hi) as Ho.
  destruct (idx_store s Hi) as [_ Hlt].
  destruct (insert_before_perm (TreeSet.data_ s) hint val (idx_store s Hi))
    as (d' & Hd & Hp & Hfresh & Hwf').
  set (new := mkIterator (Store.sequence (TreeSet.data_ s)) val) in *.
  assert (Hs' : snd (TreeSet.insert_hint hint val s)
                = TreeSet.mk d'
                    (TreeSet.mkAtomicTree (comparator s)
                       (XTree.insert (TreeSet.is_less (TreeSet.tree_ s))
                          new (root s)))).
  { unfold TreeSet.insert_hint. rewrite Hd. reflexivity. }
  rewrite Hs'. clear Hs'.
  assert (Hin : inorder (XTree.insert (TreeSet.is_less (TreeSet.tree_ s))
                           new (root s))
                = place_in (TreeSet.is_less (TreeSet.tree_ s)) new
                           (inorder (root s))).
  { apply insert_inorder; [apply is_less_order, Ho |].
    eapply ssorted_impl; [| exact (idx_sorted s Hi)].
    intros a b Hab. now apply before_not_after. }
  destruct (place_in_split (TreeSet.is_less (TreeSet.tree_ s)) new
              (inorder (root s))) as (l1 & l2 & Hl & Hpl & Hl1 & Hl2).
  pose proof (idx_sorted s Hi) as Hs. rewrite Hl in Hs.
  unfold TreeSet.handle_less in *.
  split; cbn [TreeSet.data_ TreeSet.tree_ TreeSet.root_ TreeSet.compare_].
  - exact Hwf'.
  - exact Ho.
  - rewrite Hin, Hpl, Hp, <- (idx_same s Hi), Hl.
    symmetry. apply Permutation_middle.
  - unfold TreeSet.handle_less.
    cbn [TreeSet.data_ TreeSet.tree_ TreeSet.root_ TreeSet.compare_].
    rewrite Hin, Hpl.
    apply ssorted_insert; [exact Hs | |].
    + (* the handles before the place: not after the value, and older *)
      apply Forall_forall. intros y Hy.
      rewrite Forall_forall in Hl1, Hlt.
      specialize (Hl1 y Hy). unfold TreeSet.is_less in Hl1.
      assert (Hyn : y ∈ nodes s).
      { rewrite <- (idx_same s Hi), Hl. apply elem_of_app. now left. }
      specialize (Hlt y Hyn).
      apply (MultiMapTreeLaws.hcomp_true key).
      destruct (comparator s (value y) (value new)) eqn:Hc; [now left |].
      right. split; [exact Hc |]. split; [exact Hl1 |]. simpl. lia.
    + (* the handles after the place: after the value *)
      destruct l2 as [| z l2]; [constructor |].
      unfold TreeSet.is_less in Hl2.
      apply ssorted_app in Hs as (_ & Hs2 & _).
      apply StronglySorted_inv in Hs2 as [_ Hz].
      constructor.
      * apply (MultiMapTreeLaws.hcomp_true key). now left.
      * eapply Forall_impl; [exact Hz |]. simpl. intros w Hw.
        apply (MultiMapTreeLaws.hcomp_true key). left.
        destruct (before_not_after s z w Ho Hw) as [_ Hwz].
        unfold not_after, TreeSet.is_less in Hwz.
        destruct (less_cases _ Ho _ _ (value w) Hl2) as [H1 | H1];
          [exact H1 | congruence].
Qed.

Lemma insert_by_val_indexed (s : set) (val : T) :
  indexed s ->
  indexed (snd (TreeSet.insert_by_val std_less std_equal_to val s)).
Proof.
  intros Hi. unfold TreeSet.insert_by_val.
  destruct (TreeSet.tree_find val (TreeSet.tree_ s)) as [| c l x r].
  - pose proof (insert_hint_indexed s TreeSet.end_ val Hi) as H'.
    now destruct (TreeSet.insert_hint TreeSet.end_ val s).
  - destruct (std_equal_to (value x) val); [exact Hi |].
    match goal with
    | |- context [TreeSet.insert_hint ?h val s] =>
        pose proof (insert_hint_indexed s h val Hi) as H';
        now destruct (TreeSet.insert_hint h val s)
    end.
Qed.

Lemma multi_insert_by_val_indexed (s : set) (val : T) :
  indexed s ->
  indexed (snd (TreeSet.multi_insert_by_val std_less std_equal_to val s)).
Proof. intros Hi. unfold TreeSet.multi_insert_by_val. now apply insert_hint_indexed. Qed.

(** [erase] of a handle of the set: store and tree lose that handle and
    nothing else. *)
Lemma erase_nodes (s : set) (it : It) :
  indexed s -> it ∈ nodes s ->
  nodes (TreeSet.erase it s) = filter (fun h => h <> it) (nodes s) /\
  inorder (root (TreeSet.erase it s))
  = filter (fun h => h <> it) (inorder (root s)) /\
  indexed (TreeSet.erase it s).
Proof.
  intros Hi Hit.
  pose proof (idx_order s Hi) as Ho.
  destruct (idx_store s Hi) as [Hnd Hlt].
  pose proof (handle_erase_inorder s it Hi Hit) as Htree.
  pose proof (StoreFacts.unlink_nodes (TreeSet.data_ s) it Hnd Hit) as Hun.
  assert (Hn : nodes (TreeSet.erase it s)
               = filter (fun h => h <> it) (nodes s)) by exact Hun.
  assert (Ht : inorder (root (TreeSet.erase it s))
               = filter (fun h => h <> it) (inorder (root s)))
    by exact Htree.
  split; [exact Hn |]. split; [exact Ht |].
  split.
  - apply (StoreFacts.unlink_wf (TreeSet.data_ s) it). now split.
  - exact Ho.
  - rewrite Hn, Ht. now rewrite (idx_same s Hi).
  - rewrite Ht.
    assert (Hin : it ∈ inorder (root s)) by now rewrite (idx_same s Hi).
    apply list_elem_of_split in Hin as (l1 & l2 & Hl).
    pose proof (idx_sorted s Hi) as Hs. rewrite Hl in Hs |- *.
    rewrite filter_out_middle.
    + exact (ssorted_remove _ l1 l2 it Hs).
    + rewrite <- Hl. eapply NoDup_fmap_1. exact (indexed_nodup s Hi).
Qed.

Lemma exec_indexed (o : op) (s : set) :
  strict_weak_order std_less -> indexed s -> indexed (exec o s).
Proof.
  intros Hless Hi. destruct o as [val | val | n |]; simpl.
  - now apply insert_by_val_indexed.
  - now apply multi_insert_by_val_indexed.
  - destruct (nodes s !! n) as [it |] eqn:Hn; [| exact Hi].
    apply erase_nodes; [exact Hi |]. eapply list_elem_of_lookup_2. exact Hn.
  - now apply clear_indexed.
Qed.

(** Every tree set is in order: after every sequence of calls on a new
    [TreeSet] or [TreeMultiSet], built with any comparator that is a
    strict weak ordering. *)
Lemma run_indexed (compare : option (T -> T -> bool)) (ops : list op) :
  strict_weak_order std_less ->
  strict_weak_order (default std_less compare) ->
  indexed (run ops (TreeSet.constructor std_less compare)).
Proof.
  intros Hless Hc. unfold run.
  assert (Hgen : forall s, indexed s ->
            indexed (fold_left (fun s o => exec o s) ops s)).
  { induction ops as [| o ops IH]; intros s Hs; [exact Hs |].
    simpl. apply IH. now apply exec_indexed. }
  apply Hgen, constructor_indexed, Hc.
Qed.

(** A unique set is in order. *)
Lemma wf_indexed (s : set) : wf std_equal_to s -> indexed s.
Proof.
  intros [Hst Hc Hi Hu]. split.
  - exact Hst.
  - exact (agrees_order _ _ Hc).
  - exact Hi.
  - eapply ssorted_impl; [| exact Hu].
    intros a b Hab. unfold strictly in Hab.
    apply (MultiMapTreeLaws.hcomp_true key). now left.
Qed.

(** The unique sets stay unique sets under [erase]. *)
Lemma erase_wf (s : set) (it : It) :
  wf std_equal_to s -> it ∈ nodes s -> wf std_equal_to (TreeSet.erase it s).
Proof.
  intros Hwf Hit.
  pose proof (wf_indexed s Hwf) as Hi.
  destruct (erase_nodes s it Hi Hit) as (Hn & Ht & Hi').
  split.
  - exact (idx_store _ Hi').
  - exact (wf_comparator _ _ Hwf).
  - exact (idx_same _ Hi').
  - rewrite Ht.
    assert (Hin : it ∈ inorder (root s)) by now rewrite (idx_same s Hi).
    apply list_elem_of_split in Hin as (l1 & l2 & Hl).
    pose proof (wf_unique _ _ Hwf) as Hs.
    change (comparator (TreeSet.erase it s)) with (comparator s).
    rewrite Hl in Hs |- *.
    rewrite filter_out_middle.
    + exact (ssorted_remove _ l1 l2 it Hs).
    + rewrite <- Hl. eapply NoDup_fmap_1. exact (indexed_nodup s Hi).
Qed.

(** The calls of a [TreeSet]. *)
Definition unique_op (o : op) : Prop :=
  match o with InsertMulti _ => False | _ => True end.

(** Every [TreeSet] whose comparator has [std.equal_to] as its
    equivalence is a unique set, after every sequence of [insert],
    [erase] and [clear] calls on a new one; [clear] installs [std.less]
    again. *)
Lemma run_wf (compare : option (T -> T -> bool)) (ops : list op) :
  agrees std_equal_to std_less ->
  agrees std_equal_to (default std_less compare) ->
  Forall unique_op ops ->
  wf std_equal_to (run ops (TreeSet.constructor std_less compare)).
Proof.
  intros Hless Hc Hops. unfold run.
  assert (Hgen : forall s, wf std_equal_to s ->
            wf std_equal_to (fold_left (fun s o => exec o s) ops s)).
  { induction Hops as [| o ops Ho Hops IH]; intros s Hs; [exact Hs |].
    simpl. apply IH. destruct o as [val | val | n |]; simpl.
    - now apply insert_by_val_wf.
    - destruct Ho.
    - destruct (nodes s !! n) as [it |] eqn:Hn; [| exact Hs].
      apply erase_wf; [exact Hs |]. eapply list_elem_of_lookup_2. exact Hn.
    - now apply clear_wf. }
  apply Hgen.
  apply (empty_wf std_equal_to Store.empty
           (TreeSet.new_AtomicTree std_less compare)); [| reflexivity ..].
  exact Hc.
Qed.

(** C6. [erase(handle)] removes exactly the element the handle refers
    to, selected by handle identity, in the hash containers and in the
    tree containers. In a [HashSet] or [HashMultiSet], [handle_erase]
    splices that very handle out of its bucket and leaves every other
    handle in its bucket, at its relative position, even one whose
    payload equals the erased one. In a [TreeSet] or [TreeMultiSet],
    [handle_erase] removes the tree entry of that very handle and leaves
    the other entries in their order. [erase] then unlinks that node
    only. Every other handle of the container stays linked, stays
    indexed and dereferences to the payload it had; the erased handle no
    longer dereferences; the container stays in order. *)
Theorem erase_by_handle_identity (hash : T -> Z)
    (h : HashSet.t T) (hit : It) (s : set) (it : It) :
  HashSet.wf hash h -> hit ∈ Store.nodes (HashSet.data_ h) ->
  indexed s -> it ∈ nodes s ->
  (exists h',
     HashSet.erase hash hit h = (Ok tt, h') /\
     fst (HashSet.handle_erase hash hit h) = Ok tt /\
     HashSet.hash_buckets_ h'
     = HashSet.hash_buckets_ (snd (HashSet.handle_erase hash hit h)) /\
     Store.nodes (HashSet.data_ h')
     = filter (fun x => x <> hit) (Store.nodes (HashSet.data_ h)) /\
     HashBuckets.elements (HashSet.hash_buckets_ h')
     ≡ₚ filter (fun x => x <> hit)
          (HashBuckets.elements (HashSet.hash_buckets_ h)) /\
     (forall j : nat,
        filter (fun x => x <> hit)
          <$> HashBuckets.data_ (HashSet.hash_buckets_ h') !! j
        = filter (fun x => x <> hit)
            <$> HashBuckets.data_ (HashSet.hash_buckets_ h) !! j) /\
     HashBuckets.size_ (HashSet.hash_buckets_ h')
     = HashBuckets.size_ (HashSet.hash_buckets_ h) - 1 /\
     (hit ∉ Store.nodes (HashSet.data_ h')) /\
     (hit ∉ HashBuckets.elements (HashSet.hash_buckets_ h')) /\
     Store.deref (HashSet.data_ h') hit = None /\
     (forall x, x ∈ Store.nodes (HashSet.data_ h) -> x <> hit ->
        x ∈ Store.nodes (HashSet.data_ h') /\
        x ∈ HashBuckets.elements (HashSet.hash_buckets_ h') /\
        Store.deref (HashSet.data_ h') x = Some (value x) /\
        Store.deref (HashSet.data_ h) x = Some (value x)) /\
     HashSet.wf hash h') /\
  (TreeSet.tree_ (TreeSet.erase it s)
   = TreeSet.tree_ (TreeSet.handle_erase it s) /\
   nodes (TreeSet.erase it s) = filter (fun x => x <> it) (nodes s) /\
   inorder (root (TreeSet.erase it s))
   = filter (fun x => x <> it) (inorder (root s)) /\
   (it ∉ nodes (TreeSet.erase it s)) /\
   (it ∉ inorder (root (TreeSet.erase it s))) /\
   Store.deref (TreeSet.data_ (TreeSet.erase it s)) it = None /\
   (forall x, x ∈ nodes s -> x <> it ->
      x ∈ nodes (TreeSet.erase it s) /\
      x ∈ inorder (root (TreeSet.erase it s)) /\
      Store.deref (TreeSet.data_ (TreeSet.erase it s)) x = Some (value x) /\
      Store.deref (TreeSet.data_ s) x = Some (value x)) /\
   indexed (TreeSet.erase it s)).
Proof.
  intros Hwf Hhit Hi Hit.
  split; [exact (HashSetFacts.hash_erase_by_handle hash h hit Hwf Hhit) |].
  destruct (erase_nodes s it Hi Hit) as (Hn & Ht & Hi').
  destruct (idx_store s Hi) as [Hnd _].
  destruct (idx_store _ Hi') as [Hnd' _].
  split; [reflexivity |]. split; [exact Hn |]. split; [exact Ht |].
  split; [rewrite Hn; intros Hc; apply list_elem_of_filter in Hc; tauto |].
  split; [rewrite Ht; intros Hc; apply list_elem_of_filter in Hc; tauto |].
  split; [apply StoreFacts.deref_unlinked |].
  split; [| exact Hi'].
  intros x Hx Hne.
  assert (Hx' : x ∈ nodes (TreeSet.erase it s)).
  { rewrite Hn. apply list_elem_of_filter. now split. }
  split; [exact Hx' |]. split.
  { rewrite Ht. apply list_elem_of_filter. split; [exact Hne |].
    now rewrite (idx_same s Hi). }
  split; now apply StoreFacts.deref_linked.
Qed.

End Sets.

(** *** Two equal payloads under distinct handles *)

Lemma int_multiset_indexed (vals : list Z) :
  indexed (TreeSetFacts.IntTreeSet.multiset vals).
Proof.
  unfold TreeSetFacts.IntTreeSet.multiset, TreeSetFacts.multi_insert_all.
  assert (Hgen : forall s : TreeSet.t Z, indexed s ->
            indexed (fold_left
                       (fun s v => snd (TreeSet.multi_insert_by_val
                                          Z.ltb Z.eqb v s)) vals s)).
  { induction vals as [| v vals IH]; intros s Hs; [exact Hs |].
    simpl. apply IH. now apply multi_insert_by_val_indexed. }
  apply Hgen, constructor_indexed. exact Z_ltb_order.
Qed.

Lemma erase_by_handle_identity_witness :
  (exists h',
     HashSet.erase HashSetFacts.IntMultiSet.hash
       HashSetFacts.IntMultiSet.second_five
       HashSetFacts.IntMultiSet.two_fives = (Ok tt, h') /\
     Store.nodes (HashSet.data_ h')
     = [HashSetFacts.IntMultiSet.first_five; mkIterator 2 7] /\
     Store.deref (HashSet.data_ h') HashSetFacts.IntMultiSet.first_five
     = Some 5 /\
     Store.deref (HashSet.data_ h') HashSetFacts.IntMultiSet.second_five
     = None) /\
  (let s := TreeSetFacts.IntTreeSet.multiset [5; 5; 7] in
   let s' := TreeSet.erase (mkIterator 1 5) s in
   Store.nodes (TreeSet.data_ s)
   = [mkIterator 0 5; mkIterator 1 5; mkIterator 2 7] /\
   Store.nodes (TreeSet.data_ s') = [mkIterator 0 5; mkIterator 2 7] /\
   inorder (TreeSet.root_ (TreeSet.tree_ s'))
   = [mkIterator 0 5; mkIterator 2 7] /\
   Store.deref (TreeSet.data_ s') (mkIterator 0 5) = Some 5 /\
   Store.deref (TreeSet.data_ s') (mkIterator 1 5) = None).
Proof.
  assert (Hh : HashSetFacts.IntMultiSet.second_five
               ∈ Store.nodes (HashSet.data_
                                HashSetFacts.IntMultiSet.two_fives)).
  { apply list_elem_of_In. vm_compute. auto. }
  assert (Ht : mkIterator 1 5
               ∈ Store.nodes (TreeSet.data_
                                (TreeSetFacts.IntTreeSet.multiset [5; 5; 7]))).
  { apply list_elem_of_In. vm_compute. auto. }
  destruct (erase_by_handle_identity HashSetFacts.IntMultiSet.hash
              HashSetFacts.IntMultiSet.two_fives
              HashSetFacts.IntMultiSet.second_five
              (TreeSetFacts.IntTreeSet.multiset [5; 5; 7]) (mkIterator 1 5)
              HashSetFacts.IntMultiSet.two_fives_wf Hh
              (int_multiset_indexed _) Ht)
    as [(h' & He & _ & _ & Hn & _ & _ & _ & _ & _ & Hd & Hother & _)
        (_ & Hn' & Ht' & _ & _ & Hd' & Hother' & _)].
  split.
  - exists h'. split; [exact He |]. split; [rewrite Hn; reflexivity |].
    split; [| exact Hd].
    apply (Hother HashSetFacts.IntMultiSet.first_five); [| discriminate].
    apply list_elem_of_In. vm_compute. auto.
  - intros s s'. split; [vm_compute; reflexivity |].
    split; [unfold s', s; rewrite Hn'; vm_compute; reflexivity |].
    split; [unfold s', s; rewrite Ht'; vm_compute; reflexivity |].
    split; [| exact Hd'].
    apply (Hother' (mkIterator 0 5)); [| discriminate].
    apply list_elem_of_In. vm_compute. auto.
Defined.

End HandleErase.
